(** * Lilac Mesh: loader/validator and rasterizer

    A shallow embedding of [lilac_mesh.c] (mesh loader, usage bitmaps,
    stack interpreter), of the vertex conversion, the interpolation and
    the rendering of [lilacme2png.c] and of the JSON conversion of
    [lilacme2json.c], followed by the properties proved about them.

    Conventions of the embedding.
    - C integers are [Z].  Unsigned 32-bit words of the bitmaps are [Z]
      values in [0, 2^32) and every operation that could leave that range
      is reduced with [u32].
    - C arrays are lists; [load] and [store] return [None] for an access
      outside the array (undefined behaviour in C).
    - [abort()] (and [exit(1)] through [raiseErr]) is the [None] of the
      option monad, written with the [x <- e ;; k] notation.
    - The [status] flag idiom of the source ([int status = 1; ... if
      (status) { ... }]) is kept as it is written: every block is a
      transformer of the local variables guarded by the flag. *)

From Stdlib Require Import ZArith List Bool Ascii String Lia QArith.
From Stdlib Require Import Reals Lra.
Import ListNotations.

Module LilacMesh.

Local Open Scope Z_scope.

(** ** Abort monad *)

Definition bind {A B : Type} (m : option A) (k : A -> option B) : option B :=
  match m with
  | Some a => k a
  | None => None
  end.

Notation "x <- m ;; k" := (bind m (fun x => k))
  (at level 61, m at next level, right associativity).
Notation "' p <- m ;; k" := (bind m (fun x => let p := x in k))
  (at level 61, p pattern, m at next level, right associativity).

(** ** Arrays *)

Definition load {A : Type} (a : list A) (i : Z) : option A :=
  if i <? 0 then None else nth_error a (Z.to_nat i).

Fixpoint upd {A : Type} (a : list A) (n : nat) (v : A) : list A :=
  match a, n with
  | [], _ => []
  | _ :: t, O => v :: t
  | h :: t, S k => h :: upd t k v
  end.

Definition store {A : Type} (a : list A) (i : Z) (v : A) : option (list A) :=
  if (0 <=? i) && (i <? Z.of_nat (List.length a))
  then Some (upd a (Z.to_nat i) v)
  else None.

Definition len {A : Type} (a : list A) : Z := Z.of_nat (List.length a).

(** ** Constants of lilac_mesh.h *)

Definition LILAC_MESH_ERR_OK     : Z := 0.
Definition LILAC_MESH_ERR_REM    : Z := 1.
Definition LILAC_MESH_ERR_PUNDEF : Z := 2.
Definition LILAC_MESH_ERR_TUNDEF : Z := 3.
Definition LILAC_MESH_ERR_ORPHAN : Z := 4.
Definition LILAC_MESH_ERR_ETYPE  : Z := 5.
Definition LILAC_MESH_ERR_NUMBER : Z := 6.
Definition LILAC_MESH_ERR_OVERFL : Z := 7.
Definition LILAC_MESH_ERR_BADOP  : Z := 8.
Definition LILAC_MESH_ERR_UNDERF : Z := 9.
Definition LILAC_MESH_ERR_NOSIG  : Z := 10.
Definition LILAC_MESH_ERR_SIGVER : Z := 11.
Definition LILAC_MESH_ERR_NODIM  : Z := 12.
Definition LILAC_MESH_ERR_BADDIM : Z := 13.
Definition LILAC_MESH_ERR_DIMVAL : Z := 14.
Definition LILAC_MESH_ERR_PCOUNT : Z := 15.
Definition LILAC_MESH_ERR_TCOUNT : Z := 16.
Definition LILAC_MESH_ERR_NORMDA : Z := 17.
Definition LILAC_MESH_ERR_NORM2P : Z := 18.
Definition LILAC_MESH_ERR_PTOVER : Z := 19.
Definition LILAC_MESH_ERR_PTREF  : Z := 20.
Definition LILAC_MESH_ERR_VXDUP  : Z := 21.
Definition LILAC_MESH_ERR_VXORD  : Z := 22.
Definition LILAC_MESH_ERR_ORIENT : Z := 23.
Definition LILAC_MESH_ERR_TRSORT : Z := 24.
Definition LILAC_MESH_ERR_DUPEDG : Z := 25.
Definition LILAC_MESH_ERR_TROVER : Z := 26.

Definition LILAC_MESH_MAX_C      : Z := 16384.
Definition LILAC_MESH_MAX_POINTS : Z := 1024.
Definition LILAC_MESH_MAX_TRIS   : Z := 1024.

(** The maximum height of the Shastina interpreter stack. *)
Definition MAX_SN_STACK : Z := 16.

(** [LONG_MAX] of <limits.h>, on an LP64 platform. *)
Definition LONG_MAX : Z := 9223372036854775807.

(** ** Machine words *)

Definition u32 (z : Z) : Z := z mod 2 ^ 32.

(** [~w] on a [uint32_t]. *)
Definition u32_not (w : Z) : Z := u32 (Z.lnot w).

(** [(uint16_t) i]. *)
Definition uint16 (i : Z) : Z := i mod 2 ^ 16.

(** ** Usage map *)

(** A call of one of the two marking functions, with the point count the
    map had at the time of the call.  This is a history variable of the
    model: it has no counterpart in the C structure and no function reads
    it. *)
Inductive um_call : Type :=
| CallPoint (n i : Z)
| CallEdge (n i1 i2 : Z).

Record USAGE_MAP : Type := mkUM {
  pPointUse : list Z;
  pEdgeUse : list Z;
  um_point_count : Z;
  um_calls : list um_call
}.

(** [usage_map_init]: null pointers and a point count of zero. *)
Definition usage_map_init : USAGE_MAP :=
  {| pPointUse := []; pEdgeUse := []; um_point_count := 0; um_calls := [] |}.

Definition usage_map_reset (pM : USAGE_MAP) : USAGE_MAP :=
  {| pPointUse := []; pEdgeUse := []; um_point_count := 0;
     um_calls := um_calls pM |}.

(** Number of 32-bit blocks holding [bits] bits. *)
Definition block_count (bits : Z) : Z :=
  let count := bits / 32 in
  if negb (bits mod 32 =? 0) then count + 1 else count.

(** [calloc(count, sizeof(uint32_t))]. *)
Definition calloc_u32 (count : Z) : list Z := repeat 0 (Z.to_nat count).

Definition usage_map_dim (pM : USAGE_MAP) (point_count : Z) : option USAGE_MAP :=
  if (point_count <? 0) || (point_count >? LILAC_MESH_MAX_POINTS) then None
  else
    let pM := usage_map_reset pM in
    if point_count >? 0 then
      let count := block_count point_count in
      let points := calloc_u32 count in
      let mcount := point_count * point_count in
      let count := block_count mcount in
      let edges := calloc_u32 count in
      Some {| pPointUse := points; pEdgeUse := edges;
              um_point_count := point_count; um_calls := um_calls pM |}
    else Some pM.

Definition usage_map_point (pM : USAGE_MAP) (i : Z) : option USAGE_MAP :=
  if (i <? 0) || (i >=? um_point_count pM) then None
  else
    let offs := i / 32 in
    let shift := 31 - (i mod 32) in
    let mask := u32 (Z.shiftl 1 shift) in
    w <- load (pPointUse pM) offs ;;
    points <- store (pPointUse pM) offs (Z.lor w mask) ;;
    Some {| pPointUse := points; pEdgeUse := pEdgeUse pM;
            um_point_count := um_point_count pM;
            um_calls := CallPoint (um_point_count pM) i :: um_calls pM |}.

(** Returns the [int] status together with the updated map. *)
Definition usage_map_edge (pM : USAGE_MAP) (i1 i2 : Z) : option (Z * USAGE_MAP) :=
  if (i1 <? 0) || (i1 >=? um_point_count pM) ||
     (i2 <? 0) || (i2 >=? um_point_count pM) then None
  else
    let ix := (i1 * um_point_count pM) + i2 in
    let offs := ix / 32 in
    let shift := 31 - (ix mod 32) in
    let mask := u32 (Z.shiftl 1 shift) in
    let calls := CallEdge (um_point_count pM) i1 i2 :: um_calls pM in
    w <- load (pEdgeUse pM) offs ;;
    if negb (Z.land w mask =? 0) then
      Some (0, {| pPointUse := pPointUse pM; pEdgeUse := pEdgeUse pM;
                  um_point_count := um_point_count pM; um_calls := calls |})
    else
      edges <- store (pEdgeUse pM) offs (Z.lor w mask) ;;
      Some (1, {| pPointUse := pPointUse pM; pEdgeUse := edges;
                  um_point_count := um_point_count pM; um_calls := calls |}).

(** The loop over the fully used blocks, [i] running up to [full_count];
    [fuel] is the number of iterations left.  Returns [result]. *)
Fixpoint orphan_full_blocks (points : list Z) (i : Z) (fuel : nat) : option Z :=
  match fuel with
  | O => Some 0
  | S fuel' =>
      w <- load points i ;;
      if negb (u32_not w =? 0) then Some 1
      else orphan_full_blocks points (i + 1) fuel'
  end.

Definition usage_map_orphan (pM : USAGE_MAP) : option Z :=
  if um_point_count pM >? 0 then
    let full_count := um_point_count pM / 32 in
    let extra_bits := um_point_count pM mod 32 in
    let mask :=
      if extra_bits >? 0 then u32 (Z.shiftl 1 (32 - extra_bits) - 1) else 0 in
    result <- orphan_full_blocks (pPointUse pM) 0 (Z.to_nat full_count) ;;
    if (result =? 0) && (extra_bits >? 0) then
      w <- load (pPointUse pM) full_count ;;
      if negb (u32_not (Z.lor w mask) =? 0) then Some 1 else Some result
    else Some result
  else Some 0.

(** ** parseNumber *)

(** The integer value of a [char] read into an [int]. *)
Definition char_code (c : ascii) : Z := Z.of_N (N_of_ascii c).

(** The [for( ; *pstr != 0; pstr++)] loop.  The Rocq string is the memory
    from [pstr] on; the end of the Rocq string stands for the terminating
    nul as well, so the loop ends at the first nul character or at the end
    of the string, whichever comes first.  A [char] above 127 is rejected
    by the digit test whether [char] is signed or not. *)
Fixpoint parseNumber_loop (pstr : string) (result : Z) : Z :=
  match pstr with
  | EmptyString => result
  | String ch rest =>
      let c := char_code ch in
      if c =? 0 then result
      else if (c <? char_code "0") || (c >? char_code "9") then -1
      else
        let c := c - char_code "0" in
        let result := (result * 10) + c in
        if result >? LILAC_MESH_MAX_C then -1
        else parseNumber_loop rest result
  end.

Definition parseNumber (pstr : string) : Z :=
  let result := 0 in
  let result :=
    match pstr with
    | EmptyString => -1
    | String ch _ => if char_code ch =? 0 then -1 else result
    end in
  if result >=? 0 then parseNumber_loop pstr result else result.

(** ** The mesh *)

Record LILAC_MESH_POINT : Type := mkPoint {
  normd : Z;
  norma : Z;
  x : Z;
  y : Z
}.

(** [pTris] is the flat triangle list of the source: three [uint16_t]
    elements for each triangle. *)
Record LILAC_MESH : Type := mkMesh {
  pPoints : list LILAC_MESH_POINT;
  pTris : list Z;
  point_count : Z;
  tri_count : Z
}.

Definition set_pPoints (pM : LILAC_MESH) (points : list LILAC_MESH_POINT) :=
  {| pPoints := points; pTris := pTris pM;
     point_count := point_count pM; tri_count := tri_count pM |}.

Definition set_pTris (pM : LILAC_MESH) (tris : list Z) :=
  {| pPoints := pPoints pM; pTris := tris;
     point_count := point_count pM; tri_count := tri_count pM |}.

(** ** op_p

    The result is [(status, *pM, *pPtsWritten, *pErrCode)] as the function
    leaves them. *)
Definition op_p (normd norma x y : Z) (pM : LILAC_MESH)
    (ptsWritten : Z) (errCode : Z) : option (bool * LILAC_MESH * Z * Z) :=
  if (normd >? LILAC_MESH_MAX_C) || (norma >? LILAC_MESH_MAX_C) ||
     (x >? LILAC_MESH_MAX_C) || (y >? LILAC_MESH_MAX_C) then None
  else
    let status := true in
    (* If normd is zero, norma must also be zero *)
    let '(status, errCode) :=
      if normd =? 0 then
        if negb (norma =? 0) then (false, LILAC_MESH_ERR_NORMDA)
        else (status, errCode)
      else (status, errCode) in
    (* norma may not be equivalent to 2*PI radians *)
    let '(status, errCode) :=
      if status && (norma >=? LILAC_MESH_MAX_C)
      then (false, LILAC_MESH_ERR_NORM2P) else (status, errCode) in
    (* Make sure we have room to write another point *)
    let '(status, errCode) :=
      if status && (ptsWritten >=? point_count pM)
      then (false, LILAC_MESH_ERR_PTOVER) else (status, errCode) in
    (* Copy in the values and increment the written point count *)
    '(pM, ptsWritten) <-
      (if status then
         points <- store (pPoints pM) ptsWritten
                     {| normd := normd; norma := norma; x := x; y := y |} ;;
         Some (set_pPoints pM points, ptsWritten + 1)
       else Some (pM, ptsWritten)) ;;
    Some (status, pM, ptsWritten, errCode).

(** ** op_t *)

(** [((double) c) / ((double) LILAC_MESH_MAX_C)].  The divisor is a power
    of two and [c] is a 16-bit integer, so the quotient, the differences
    of two quotients, their products (multiples of 2^-28 of magnitude at
    most 16) and the difference of the products are all represented
    exactly by a double: the rational computation below is the value the
    doubles hold. *)
Definition normalized (c : Z) : Q :=
  (inject_Z c / inject_Z LILAC_MESH_MAX_C)%Q.

(** [a > b] on these values. *)
Definition Qgtb (a b : Q) : bool :=
  (Qnum b * QDen a <? Qnum a * QDen b)%Z.

(** The Z-axis component of the cross product (V2-V1)x(V3-V1). *)
Definition cross_k (pA pB pC : LILAC_MESH_POINT) : Q :=
  let v1x := normalized (x pA) in
  let v1y := normalized (y pA) in
  let v2x := normalized (x pB) in
  let v2y := normalized (y pB) in
  let v3x := normalized (x pC) in
  let v3y := normalized (y pC) in
  (((v2x - v1x) * (v3y - v1y)) - ((v2y - v1y) * (v3x - v1x)))%Q.

(** One of the three [if (status) { if (!usage_map_edge(...)) ... }]
    blocks. *)
Definition op_t_edge (i1 i2 : Z) (st : bool * Z * USAGE_MAP)
    : option (bool * Z * USAGE_MAP) :=
  let '(status, errCode, pUm) := st in
  if status then
    '(r, pUm) <- usage_map_edge pUm i1 i2 ;;
    if r =? 0 then Some (false, LILAC_MESH_ERR_DUPEDG, pUm)
    else Some (status, errCode, pUm)
  else Some (status, errCode, pUm).

(** The result is [(status, *pM, *pTriWritten, *pUm, *pErrCode)] as the
    function leaves them. *)
Definition op_t (v1 v2 v3 : Z) (pM : LILAC_MESH) (ptsWritten : Z)
    (triWritten : Z) (pUm : USAGE_MAP) (errCode : Z)
    : option (bool * LILAC_MESH * Z * USAGE_MAP * Z) :=
  if (v1 >? LILAC_MESH_MAX_C) || (v2 >? LILAC_MESH_MAX_C) ||
     (v3 >? LILAC_MESH_MAX_C) ||
     (ptsWritten <? 0) || (ptsWritten >? LILAC_MESH_MAX_POINTS) then None
  else
    let status := true in
    (* Verify that all vertex points have been defined already *)
    let '(status, errCode) :=
      if (v1 >=? ptsWritten) || (v2 >=? ptsWritten) || (v3 >=? ptsWritten)
      then (false, LILAC_MESH_ERR_PTREF) else (status, errCode) in
    (* Verify that no two points are the same *)
    let '(status, errCode) :=
      if status then
        if (v1 =? v2) || (v2 =? v3) || (v1 =? v3)
        then (false, LILAC_MESH_ERR_VXDUP) else (status, errCode)
      else (status, errCode) in
    (* Verify that the first vertex has the lowest numeric value *)
    let '(status, errCode) :=
      if status then
        if (v2 <? v1) || (v3 <? v1)
        then (false, LILAC_MESH_ERR_VXORD) else (status, errCode)
      else (status, errCode) in
    (* Verify that vertices are in counter-clockwise order *)
    '(status, errCode) <-
      (if status then
         pA <- load (pPoints pM) v1 ;;
         pB <- load (pPoints pM) v2 ;;
         pC <- load (pPoints pM) v3 ;;
         let k := cross_k pA pB pC in
         if negb (Qgtb k 0) then Some (false, LILAC_MESH_ERR_ORIENT)
         else Some (status, errCode)
       else Some (status, errCode)) ;;
    (* Check sorting relative to the previous triangle *)
    '(status, errCode) <-
      (if status && (triWritten >? 0) then
         let pt := (triWritten - 1) * 3 in
         pt0 <- load (pTris pM) pt ;;
         if pt0 >? v1 then Some (false, LILAC_MESH_ERR_TRSORT)
         else if pt0 =? v1 then
           pt1 <- load (pTris pM) (pt + 1) ;;
           if pt1 >=? v2 then Some (false, LILAC_MESH_ERR_TRSORT)
           else Some (status, errCode)
         else Some (status, errCode)
       else Some (status, errCode)) ;;
    (* Make sure we have room for another triangle *)
    let '(status, errCode) :=
      if status && (triWritten >=? tri_count pM)
      then (false, LILAC_MESH_ERR_TROVER) else (status, errCode) in
    (* Mark the directed edges *)
    st <- op_t_edge v1 v2 (status, errCode, pUm) ;;
    st <- op_t_edge v2 v3 st ;;
    '(status, errCode, pUm) <- op_t_edge v3 v1 st ;;
    (* Mark the vertex points as referenced in the usage map *)
    pUm <-
      (if status then
         pUm <- usage_map_point pUm v1 ;;
         pUm <- usage_map_point pUm v2 ;;
         usage_map_point pUm v3
       else Some pUm) ;;
    (* Add the triangle to the triangle list *)
    '(pM, triWritten) <-
      (if status then
         let pt := triWritten * 3 in
         tris <- store (pTris pM) pt v1 ;;
         tris <- store tris (pt + 1) v2 ;;
         tris <- store tris (pt + 2) v3 ;;
         Some (set_pTris pM tris, triWritten + 1)
       else Some (pM, triWritten)) ;;
    Some (status, pM, triWritten, pUm, errCode).

(** ** The Shastina tokenizer *)

(** Modelled from the spec: the entity kinds of the Shastina tokenizer
    ([shastina.h] is not among the sources).  Each read returns one of
    BEGIN_META, END_META, META_TOKEN(text), NUMERIC(text),
    OPERATION(name), EOF, or a negative error code; [SNENTITY_OTHER]
    stands for the remaining (positive) entity kinds of Shastina, which
    the loader never names.  [SNERR c] is the negative status [- c]. *)
Inductive sn_status : Type :=
| SNENTITY_EOF
| SNENTITY_BEGIN_META
| SNENTITY_END_META
| SNENTITY_META_TOKEN
| SNENTITY_NUMERIC
| SNENTITY_OPERATION
| SNENTITY_OTHER
| SNERR (c : positive).

Record SNENTITY : Type := mkEnt {
  status : sn_status;
  pKey : string
}.

(** [ent.status < 0]. *)
Definition status_neg (s : sn_status) : bool :=
  match s with SNERR _ => true | _ => false end.

(** [ent.status > 0]. *)
Definition status_pos (s : sn_status) : bool :=
  match s with SNERR _ | SNENTITY_EOF => false | _ => true end.

(** The value stored by [*pErrCode = ent.status] for a negative status. *)
Definition status_code (s : sn_status) : Z :=
  match s with SNERR c => Z.neg c | _ => 0 end.

Definition status_eqb (a b : sn_status) : bool :=
  match a, b with
  | SNENTITY_EOF, SNENTITY_EOF
  | SNENTITY_BEGIN_META, SNENTITY_BEGIN_META
  | SNENTITY_END_META, SNENTITY_END_META
  | SNENTITY_META_TOKEN, SNENTITY_META_TOKEN
  | SNENTITY_NUMERIC, SNENTITY_NUMERIC
  | SNENTITY_OPERATION, SNENTITY_OPERATION
  | SNENTITY_OTHER, SNENTITY_OTHER => true
  | SNERR c, SNERR d => Pos.eqb c d
  | _, _ => false
  end.

(** Modelled from the spec: the parser together with its source.  The
    input is the sequence of entities the tokenizer will produce, each
    with the value of the line counter after it has been read; once the
    sequence is exhausted every read returns EOF. *)
Record SNPARSER : Type := mkParser {
  sn_input : list (SNENTITY * Z);
  sn_count : Z
}.

(** Modelled from the spec: a fresh parser on the source [pIn]; the line
    counter starts at one. *)
Definition snparser_alloc (pIn : list (SNENTITY * Z)) : SNPARSER :=
  {| sn_input := pIn; sn_count := 1 |}.

Definition snparser_read (pSn : SNPARSER) : SNENTITY * SNPARSER :=
  match sn_input pSn with
  | [] => ({| status := SNENTITY_EOF; pKey := EmptyString |}, pSn)
  | (ent, line) :: rest => (ent, {| sn_input := rest; sn_count := line |})
  end.

Definition snparser_count (pSn : SNPARSER) : Z := sn_count pSn.

(** ** readHeader *)

(** The local variables of [readHeader] that survive a block. *)
Record header_vars : Type := mkHeader {
  h_status : bool;
  h_ent : SNENTITY;
  h_parser : SNPARSER;
  h_pts : Z;
  h_tris : Z;
  h_err : Z;
  h_line : Z
}.

(** [snparser_read] followed by the test of the entity kind: a negative
    status is reported as it is with the current line, any other kind
    than [kind] as [err], with the current line or with line zero. *)
Definition read_expect (kind : sn_status) (err : Z) (with_line : bool)
    (h : header_vars) : header_vars :=
  let '(ent, pSn) := snparser_read (h_parser h) in
  if status_neg (status ent) then
    {| h_status := false; h_ent := ent; h_parser := pSn;
       h_pts := h_pts h; h_tris := h_tris h;
       h_err := status_code (status ent); h_line := snparser_count pSn |}
  else if negb (status_eqb (status ent) kind) then
    {| h_status := false; h_ent := ent; h_parser := pSn;
       h_pts := h_pts h; h_tris := h_tris h;
       h_err := err;
       h_line := if with_line then snparser_count pSn else 0 |}
  else
    {| h_status := h_status h; h_ent := ent; h_parser := pSn;
       h_pts := h_pts h; h_tris := h_tris h;
       h_err := h_err h; h_line := h_line h |}.

(** [if (status && (strcmp(ent.pKey, key) != 0))]. *)
Definition expect_key (key : string) (err : Z) (h : header_vars)
    : header_vars :=
  if h_status h && negb (String.eqb (pKey (h_ent h)) key) then
    {| h_status := false; h_ent := h_ent h; h_parser := h_parser h;
       h_pts := h_pts h; h_tris := h_tris h;
       h_err := err; h_line := 0 |}
  else h.

Definition fail_header (err line : Z) (h : header_vars) : header_vars :=
  {| h_status := false; h_ent := h_ent h; h_parser := h_parser h;
     h_pts := h_pts h; h_tris := h_tris h;
     h_err := err; h_line := line |}.

(** The first three reads: the signature metacommand. *)
Definition read_signature (h : header_vars) : header_vars :=
  let h := read_expect SNENTITY_BEGIN_META LILAC_MESH_ERR_NOSIG false h in
  let h :=
    if h_status h then
      let h := read_expect SNENTITY_META_TOKEN LILAC_MESH_ERR_NOSIG false h in
      expect_key "lilac-mesh" LILAC_MESH_ERR_NOSIG h
    else h in
  if h_status h
  then read_expect SNENTITY_END_META LILAC_MESH_ERR_SIGVER true h
  else h.

(** A dimension token: read it and parse it with [parseNumber]; [set]
    stores the parsed value in [i_pts] or in [i_tris]. *)
Definition read_count (set : Z -> header_vars -> header_vars)
    (h : header_vars) : header_vars :=
  let h := read_expect SNENTITY_META_TOKEN LILAC_MESH_ERR_BADDIM true h in
  if h_status h then
    let i := parseNumber (pKey (h_ent h)) in
    let h := set i h in
    if i <? 0
    then fail_header LILAC_MESH_ERR_DIMVAL (snparser_count (h_parser h)) h
    else h
  else h.

Definition set_pts (i : Z) (h : header_vars) : header_vars :=
  {| h_status := h_status h; h_ent := h_ent h; h_parser := h_parser h;
     h_pts := i; h_tris := h_tris h; h_err := h_err h; h_line := h_line h |}.

Definition set_tris (i : Z) (h : header_vars) : header_vars :=
  {| h_status := h_status h; h_ent := h_ent h; h_parser := h_parser h;
     h_pts := h_pts h; h_tris := i; h_err := h_err h; h_line := h_line h |}.

(** The next five reads: the dimension metacommand. *)
Definition read_dimensions (h : header_vars) : header_vars :=
  let h :=
    if h_status h
    then read_expect SNENTITY_BEGIN_META LILAC_MESH_ERR_NODIM false h
    else h in
  let h :=
    if h_status h then
      let h := read_expect SNENTITY_META_TOKEN LILAC_MESH_ERR_NODIM false h in
      expect_key "dim" LILAC_MESH_ERR_NODIM h
    else h in
  let h := if h_status h then read_count set_pts h else h in
  let h := if h_status h then read_count set_tris h else h in
  if h_status h
  then read_expect SNENTITY_END_META LILAC_MESH_ERR_BADDIM true h
  else h.

(** Validate ranges of dimensions that were read. *)
Definition validate_dimensions (h : header_vars) : header_vars :=
  let h :=
    if h_status h then
      if (h_pts h <? 0) || (h_pts h >? LILAC_MESH_MAX_POINTS)
      then fail_header LILAC_MESH_ERR_PCOUNT 0 h else h
    else h in
  if h_status h then
    if (h_tris h <? 0) || (h_tris h >? LILAC_MESH_MAX_TRIS)
    then fail_header LILAC_MESH_ERR_TCOUNT 0 h else h
  else h.

(** The result is [(status, parser, *pPoints, *pTris, *pErrCode, *pLine)]. *)
Definition readHeader (pSn : SNPARSER) (points tris errCode line : Z)
    : bool * SNPARSER * Z * Z * Z * Z :=
  let h := {| h_status := true;
              h_ent := {| status := SNENTITY_EOF; pKey := EmptyString |};
              h_parser := pSn; h_pts := 0; h_tris := 0;
              h_err := errCode; h_line := line |} in
  let h := read_signature h in
  let h := read_dimensions h in
  let h := validate_dimensions h in
  (* If we got here successfully, store the read dimensions *)
  let '(points, tris) :=
    if h_status h then (h_pts h, h_tris h) else (points, tris) in
  (* Adjust line count if error and out of range *)
  let line :=
    if negb (h_status h) then
      if (h_line h <? 1) || (h_line h >=? LONG_MAX) then 0 else h_line h
    else h_line h in
  (h_status h, h_parser h, points, tris, h_err h, line).

(** ** lilac_mesh_new *)

(** The local variables of [lilac_mesh_new] during interpretation.  [st]
    is the sixteen-element stack array and [st_count] the number of
    elements in use; elements above [st_count] keep whatever was written
    there, as in the source. *)
Record loader_vars : Type := mkLoader {
  l_status : bool;
  l_err : Z;
  l_line : Z;
  l_pM : LILAC_MESH;
  points_written : Z;
  tris_written : Z;
  st : list Z;
  st_count : Z;
  l_um : USAGE_MAP
}.

(** [status = 0; *pErrCode = err; *pLine = line;] *)
Definition fail_with (err line : Z) (L : loader_vars) : loader_vars :=
  {| l_status := false; l_err := err; l_line := line;
     l_pM := l_pM L; points_written := points_written L;
     tris_written := tris_written L; st := st L; st_count := st_count L;
     l_um := l_um L |}.

Definition set_stack (a : list Z) (n : Z) (L : loader_vars) : loader_vars :=
  {| l_status := l_status L; l_err := l_err L; l_line := l_line L;
     l_pM := l_pM L; points_written := points_written L;
     tris_written := tris_written L; st := a; st_count := n;
     l_um := l_um L |}.

(** The numeric entity branch of the loop body. *)
Definition interpret_numeric (ent : SNENTITY) (pSn : SNPARSER)
    (L : loader_vars) : option loader_vars :=
  let i := parseNumber (pKey ent) in
  let L :=
    if i <? 0
    then fail_with LILAC_MESH_ERR_NUMBER (snparser_count pSn) L else L in
  let L :=
    if l_status L && (st_count L >=? MAX_SN_STACK)
    then fail_with LILAC_MESH_ERR_OVERFL (snparser_count pSn) L else L in
  if l_status L then
    a <- store (st L) (st_count L) (uint16 i) ;;
    Some (set_stack a (st_count L + 1) L)
  else Some L.

(** The "p" branch of the loop body. *)
Definition interpret_p (pSn : SNPARSER) (L : loader_vars)
    : option loader_vars :=
  let L :=
    if st_count L <? 4
    then fail_with LILAC_MESH_ERR_UNDERF (snparser_count pSn) L else L in
  L <-
    (if l_status L then
       a1 <- load (st L) (st_count L - 4) ;;
       a2 <- load (st L) (st_count L - 3) ;;
       a3 <- load (st L) (st_count L - 2) ;;
       a4 <- load (st L) (st_count L - 1) ;;
       '(r, pM, written, err) <-
         op_p a1 a2 a3 a4 (l_pM L) (points_written L) (l_err L) ;;
       Some {| l_status := if r then l_status L else false;
               l_err := err;
               l_line := if r then l_line L else snparser_count pSn;
               l_pM := pM; points_written := written;
               tris_written := tris_written L;
               st := st L; st_count := st_count L; l_um := l_um L |}
     else Some L) ;;
  if l_status L then Some (set_stack (st L) (st_count L - 4) L)
  else Some L.

(** The "t" branch of the loop body. *)
Definition interpret_t (pSn : SNPARSER) (L : loader_vars)
    : option loader_vars :=
  let L :=
    if st_count L <? 3
    then fail_with LILAC_MESH_ERR_UNDERF (snparser_count pSn) L else L in
  L <-
    (if l_status L then
       a1 <- load (st L) (st_count L - 3) ;;
       a2 <- load (st L) (st_count L - 2) ;;
       a3 <- load (st L) (st_count L - 1) ;;
       '(r, pM, written, pUm, err) <-
         op_t a1 a2 a3 (l_pM L) (points_written L) (tris_written L)
              (l_um L) (l_err L) ;;
       Some {| l_status := if r then l_status L else false;
               l_err := err;
               l_line := if r then l_line L else snparser_count pSn;
               l_pM := pM; points_written := points_written L;
               tris_written := written;
               st := st L; st_count := st_count L; l_um := pUm |}
     else Some L) ;;
  if l_status L then Some (set_stack (st L) (st_count L - 3) L)
  else Some L.

(** The body of the interpreter loop for the entity [ent] just read;
    [pSn] is the parser after the read. *)
Definition interpret_entity (ent : SNENTITY) (pSn : SNPARSER)
    (L : loader_vars) : option loader_vars :=
  match status ent with
  | SNENTITY_NUMERIC => interpret_numeric ent pSn L
  | SNENTITY_OPERATION =>
      if String.eqb (pKey ent) "p" then interpret_p pSn L
      else if String.eqb (pKey ent) "t" then interpret_t pSn L
      else Some (fail_with LILAC_MESH_ERR_BADOP (snparser_count pSn) L)
  | _ => Some (fail_with LILAC_MESH_ERR_ETYPE (snparser_count pSn) L)
  end.

(** [for(snparser_read(...); ent.status > 0; snparser_read(...))] with
    the [break] on error.  [snparser_read] is unfolded on the input list
    so that the recursion is structural; the result is the last entity
    read, the parser and the local variables at the exit of the loop. *)
Fixpoint interpret_loop (input : list (SNENTITY * Z)) (count : Z)
    (L : loader_vars) : option (SNENTITY * SNPARSER * loader_vars) :=
  match input with
  | [] =>
      Some ({| status := SNENTITY_EOF; pKey := EmptyString |},
            {| sn_input := []; sn_count := count |}, L)
  | (ent, line) :: rest =>
      let pSn := {| sn_input := rest; sn_count := line |} in
      if status_pos (status ent) then
        L <- interpret_entity ent pSn L ;;
        if negb (l_status L) then Some (ent, pSn, L)
        else interpret_loop rest line L
      else Some (ent, pSn, L)
  end.

(** What [lilac_mesh_new] leaves behind: the returned pointer ([None] for
    NULL), [*pErrCode], [*pLine], and the history of the usage map. *)
Record new_result : Type := mkNew {
  r_mesh : option LILAC_MESH;
  r_err : Z;
  r_line : Z;
  r_calls : list um_call
}.

(** The end of [lilac_mesh_new]: reset of the usage map, release of the
    mesh on failure, normalisation of the line number. *)
Definition finish_new (status : bool) (pM : option LILAC_MESH)
    (errCode line : Z) (um : USAGE_MAP) : new_result :=
  let um := usage_map_reset um in
  let pM := if negb status then None else pM in
  let line :=
    if negb status then
      if (line <? 1) || (line >=? LONG_MAX) then 0 else line
    else line in
  {| r_mesh := pM; r_err := errCode; r_line := line; r_calls := um_calls um |}.

Definition lilac_mesh_new (pIn : list (SNENTITY * Z)) : option new_result :=
  let um := usage_map_init in
  let errCode := LILAC_MESH_ERR_OK in
  let line := 0 in
  let pSn := snparser_alloc pIn in
  (* Begin by reading the header and getting dimension information *)
  let '(hstatus, pSn, point_count, tri_count, errCode, line) :=
    readHeader pSn 0 0 errCode line in
  if hstatus then
    (* Prepare the usage map using the point count *)
    um <- usage_map_dim um point_count ;;
    (* Allocate the Lilac mesh structure *)
    let pM :=
      {| pPoints := repeat (mkPoint 0 0 0 0) (Z.to_nat point_count);
         pTris := repeat 0 (Z.to_nat (tri_count * 3));
         point_count := point_count; tri_count := tri_count |} in
    let L :=
      {| l_status := hstatus; l_err := errCode; l_line := line;
         l_pM := pM; points_written := 0; tris_written := 0;
         st := repeat 0 (Z.to_nat MAX_SN_STACK); st_count := 0;
         l_um := um |} in
    (* Interpret the Shastina mesh file *)
    '(ent, pSn, L) <- interpret_loop (sn_input pSn) (sn_count pSn) L ;;
    (* If parsing error encountered, report it *)
    let L :=
      if l_status L && status_neg (status ent)
      then fail_with (status_code (status ent)) (snparser_count pSn) L
      else L in
    (* The stack must be empty and everything must have been written *)
    let L :=
      if l_status L && (st_count L >? 0)
      then fail_with LILAC_MESH_ERR_REM 0 L else L in
    let L :=
      if l_status L && negb (points_written L =? point_count)
      then fail_with LILAC_MESH_ERR_PUNDEF 0 L else L in
    let L :=
      if l_status L && negb (tris_written L =? tri_count)
      then fail_with LILAC_MESH_ERR_TUNDEF 0 L else L in
    (* Check for orphan points *)
    L <-
      (if l_status L then
         r <- usage_map_orphan (l_um L) ;;
         if negb (r =? 0) then Some (fail_with LILAC_MESH_ERR_ORPHAN 0 L)
         else Some L
       else Some L) ;;
    Some (finish_new (l_status L) (Some (l_pM L)) (l_err L) (l_line L) (l_um L))
  else
    Some (finish_new hstatus None errCode line um).

(** ** lilac_mesh_errstr *)

Section ErrStr.

Local Open Scope string_scope.

(** [snerror_str] of Shastina, which [shastina.h] declares: the message
    of a negative code. *)
Variable snerror_str : Z -> string.

Definition lilac_mesh_errstr (code : Z) : string :=
  if (code =? LILAC_MESH_ERR_OK)%Z then "No error"
  else if (code =? LILAC_MESH_ERR_REM)%Z then
    "Elements remain on the interpreter stack at end"
  else if (code =? LILAC_MESH_ERR_PUNDEF)%Z then "Points remain undefined in mesh"
  else if (code =? LILAC_MESH_ERR_TUNDEF)%Z then
    "Triangles remain undefined in mesh"
  else if (code =? LILAC_MESH_ERR_ORPHAN)%Z then "Orphan points detected in mesh"
  else if (code =? LILAC_MESH_ERR_ETYPE)%Z then "Unsupported Shastina entity type"
  else if (code =? LILAC_MESH_ERR_NUMBER)%Z then "Invalid numeric literal"
  else if (code =? LILAC_MESH_ERR_OVERFL)%Z then "Interpreter stack overflow"
  else if (code =? LILAC_MESH_ERR_BADOP)%Z then "Unrecognized mesh operation"
  else if (code =? LILAC_MESH_ERR_UNDERF)%Z then
    "Stack underflow during operation"
  else if (code =? LILAC_MESH_ERR_NOSIG)%Z then
    "Failed to read Lilac mesh signature"
  else if (code =? LILAC_MESH_ERR_SIGVER)%Z then
    "Lilac mesh signature for unsupported version"
  else if (code =? LILAC_MESH_ERR_NODIM)%Z then
    "Failed to read Lilac mesh dimensions metacommand"
  else if (code =? LILAC_MESH_ERR_BADDIM)%Z then
    "Invalid Lilac mesh dimension metacommand syntax"
  else if (code =? LILAC_MESH_ERR_DIMVAL)%Z then
    "Lilac mesh dimension value is out of range"
  else if (code =? LILAC_MESH_ERR_PCOUNT)%Z then
    "Declared mesh point count is out of allowed range"
  else if (code =? LILAC_MESH_ERR_TCOUNT)%Z then
    "Declared mesh triangle count is out of allowed range"
  else if (code =? LILAC_MESH_ERR_NORMDA)%Z then
    "norma must be zero when normd is zero"
  else if (code =? LILAC_MESH_ERR_NORM2P)%Z then
    "norma must be less than 2*PI radians"
  else if (code =? LILAC_MESH_ERR_PTOVER)%Z then
    "More points defined than were declared in dimensions"
  else if (code =? LILAC_MESH_ERR_PTREF)%Z then
    "Triangle references point that hasn't been defined"
  else if (code =? LILAC_MESH_ERR_VXDUP)%Z then
    "Triangle has duplicated vertex point"
  else if (code =? LILAC_MESH_ERR_VXORD)%Z then
    "First triangle vertex must have lowest numeric index"
  else if (code =? LILAC_MESH_ERR_ORIENT)%Z then
    "Triangle vertices must be in counter-clockwise order"
  else if (code =? LILAC_MESH_ERR_TRSORT)%Z then
    "Triangles are sorted incorrectly in list"
  else if (code =? LILAC_MESH_ERR_DUPEDG)%Z then
    "Same directed triangle edge used more than once"
  else if (code <? 0)%Z then snerror_str code
  else "Unknown error".

End ErrStr.

End LilacMesh.

Module LilacMe2Png.

Import LilacMesh.
Local Open Scope R_scope.

(** In this module the [double] and [float] values of the source are real
    numbers and every operation on them is exact: the model is the
    program in exact real arithmetic.  All reals are finite, so
    [isfinite] is always true; the conversions between [float] and
    [double] are the identity. *)

Definition isfinite (f : R) : bool := true.

Definition Rleb (a b : R) : bool := if Rle_dec a b then true else false.
Definition Rltb (a b : R) : bool := if Rlt_dec a b then true else false.
Definition Reqb (a b : R) : bool := if Req_dec_T a b then true else false.

Definition floor (f : R) : R := IZR (Zfloor f).

(** ** Constants *)

Definition IVEC_THETA : R := 1 / 100000.

Definition MAX_IMAGE_DIM : Z := 16384.
Definition MAX_IMAGE_PIXELS : Z := 16777216.

Definition M_PI : R := PI.
Definition M_PI_2 : R := PI / 2.

Definition MIN_SLERP_ANGLE : R := M_PI / 1024.
Definition MAX_SLERP_ANGLE : R := M_PI - (M_PI / 1024).

Definition INTER_UNDEF  : Z := 0.
Definition INTER_SCALAR : Z := 1.
Definition INTER_VECTOR : Z := 2.

Definition IMODE_SCALAR  : Z := 1.
Definition IMODE_VLINEAR : Z := 2.
Definition IMODE_SLERP   : Z := 3.
Definition IMODE_DOUBLE  : Z := 4.

Definition INT32_MIN : Z := - 2147483648.
Definition INT32_MAX : Z := 2147483647.

(** The mask sentinel, [UINT32_C(0xff000000)]. *)
Definition MASKED : Z := 4278190080.

(** ** Types *)

Record VERTEX : Type := mkVertex {
  x : R;
  y : R;
  v : R;
  vx : R;
  vy : R;
  vz : R
}.

Record IVEC : Type := mkIvec {
  v1 : VERTEX;
  v2 : VERTEX;
  mode : Z;
  angle : R;
  denom : R
}.


(** The local data of the program: the interpolation mode and the pixel
    buffer ([None] while [pBuf] is NULL). *)
Record globals : Type := mkGlobals {
  m_inter : Z;
  m_w : Z;
  m_h : Z;
  pBuf : option (list Z)
}.

Definition set_pBuf (G : globals) (buf : list Z) : globals :=
  {| m_inter := m_inter G; m_w := m_w G; m_h := m_h G; pBuf := Some buf |}.

(** ** Integer helpers *)

Definition ifloor (f : R) : option Z :=
  let f := floor f in
  if negb (isfinite f) then None
  else if negb (Rleb (IZR INT32_MIN) f && Rleb f (IZR INT32_MAX)) then None
  else Some (Zfloor f).

Definition iinc (v : Z) : option Z :=
  if (v >=? INT32_MAX)%Z then None else Some (v + 1)%Z.

Definition idec (v : Z) : option Z :=
  if (v <=? INT32_MIN)%Z then None else Some (v - 1)%Z.

(** ** checkVertex and vertexColor *)

Definition checkVertex (G : globals) (pv : VERTEX) : option unit :=
  if negb (isfinite (x pv) && isfinite (y pv)) then None
  else if (m_inter G =? INTER_SCALAR)%Z then
    if negb (isfinite (v pv)) then None else Some tt
  else if (m_inter G =? INTER_VECTOR)%Z then
    if negb (isfinite (vx pv) && isfinite (vy pv) && isfinite (vz pv))
    then None else Some tt
  else None.

(** [(float) floor((((c + 1.0f) / 2.0f) * 254.0f) + 1.0f)]. *)
Definition channel_float (c : R) : R :=
  floor ((((c + 1) / 2) * 254) + 1).

(** [if (!(gf >= 1.0f)) gf = 1.0f;] *)
Definition at_least_one (gf : R) : R :=
  if negb (Rleb 1 gf) then 1 else gf.

(** [(uint32_t) gf] for [gf >= 1].  The conversion truncates; where the
    truncated value does not fit 32 bits the C conversion is undefined
    and the model wraps. *)
Definition to_uint32 (gf : R) : Z := u32 (Zfloor gf).

(** [if (gi > 255) gi = 255; else if (gi < 1) gi = 1;] *)
Definition clamp_channel (gi : Z) : Z :=
  if (gi >? 255)%Z then 255%Z
  else if (gi <? 1)%Z then 1%Z
  else gi.

(** [UINT32_C(0xff000000) | (ri << 16) | (gi << 8) | bi]. *)
Definition pack_argb (ri gi bi : Z) : Z :=
  Z.lor (Z.lor (Z.lor MASKED (u32 (Z.shiftl ri 16))) (u32 (Z.shiftl gi 8))) bi.

Definition vertexColor (G : globals) (pv : VERTEX) : option Z :=
  _ <- checkVertex G pv ;;
  if (m_inter G =? INTER_SCALAR)%Z then
    let gf := channel_float (v pv) in
    let gf := at_least_one gf in
    let gi := to_uint32 gf in
    let gi := clamp_channel gi in
    Some (pack_argb gi gi gi)
  else if (m_inter G =? INTER_VECTOR)%Z then
    let rf := channel_float (vx pv) in
    let gf := channel_float (vy pv) in
    let bf := channel_float (vz pv) in
    let rf := at_least_one rf in
    let gf := at_least_one gf in
    let bf := at_least_one bf in
    let ri := to_uint32 rf in
    let gi := to_uint32 gf in
    let bi := to_uint32 bf in
    let ri := clamp_channel ri in
    let gi := clamp_channel gi in
    let bi := clamp_channel bi in
    Some (pack_argb ri gi bi)
  else None.

(** ** Interpolation *)

Definition ivec_init (G : globals) (v1 v2 : VERTEX) : option IVEC :=
  _ <- checkVertex G v1 ;;
  _ <- checkVertex G v2 ;;
  (* memset, then copies of the vertices *)
  let piv := {| v1 := v1; v2 := v2; mode := 0; angle := 0; denom := 0 |} in
  if (m_inter G =? INTER_SCALAR)%Z then
    Some {| v1 := v1; v2 := v2; mode := IMODE_SCALAR;
            angle := angle piv; denom := denom piv |}
  else if (m_inter G =? INTER_VECTOR)%Z then
    let a := (vx v1 * vx v2) + (vy v1 * vy v2) + (vz v1 * vz v2) in
    if negb (isfinite a) then None
    else
      let a :=
        if negb (Rleb (-1) a) then -1
        else if negb (Rleb a 1) then 1
        else a in
      let a := acos a in
      if negb (isfinite a) then None
      else if Rleb MIN_SLERP_ANGLE a && Rleb a MAX_SLERP_ANGLE then
        let d := sin a in
        if negb (isfinite d) then None
        else Some {| v1 := v1; v2 := v2; mode := IMODE_SLERP;
                     angle := a; denom := d |}
      else if Rltb a MIN_SLERP_ANGLE then
        Some {| v1 := v1; v2 := v2; mode := IMODE_VLINEAR;
                angle := angle piv; denom := denom piv |}
      else if Rltb MAX_SLERP_ANGLE a then
        Some {| v1 := v1; v2 := v2; mode := IMODE_DOUBLE;
                angle := angle piv; denom := denom piv |}
      else None
  else None.

(** One component of the slerp branch:
    [d = ((a * v1.c) + (b * v2.c)) / piv->denom], checked for finiteness. *)
Definition slerp_component (a b c1 c2 dn : R) : option R :=
  let d := ((a * c1) + (b * c2)) / dn in
  if negb (isfinite d) then None else Some d.

(** One component of the double-slerp branches, [d] already computed. *)
Definition checked (d : R) : option R :=
  if negb (isfinite d) then None else Some d.

Definition ivec_compute (piv : IVEC) (t : R) : option VERTEX :=
  if negb (isfinite t) then None
  else
    (* Clamp t *)
    let t :=
      if negb (Rleb 0 t) then 0
      else if negb (Rleb t 1) then 1
      else t in
    let tf := t in
    (* Linear interpolation on coordinates *)
    let rx := (x (v1 piv) * (1 - t)) + (x (v2 piv) * t) in
    let ry := (y (v1 piv) * (1 - t)) + (y (v2 piv) * t) in
    if negb (isfinite rx && isfinite ry) then None
    else if (mode piv =? IMODE_SCALAR)%Z then
      let f := (v (v1 piv) * (1 - tf)) + (v (v2 piv) * tf) in
      if negb (isfinite f) then None
      else
        let f :=
          if negb (Rleb (-1) f) then -1
          else if negb (Rleb f 1) then 1
          else f in
        Some {| x := rx; y := ry; v := f; vx := 0; vy := 0; vz := 0 |}
    else if (mode piv =? IMODE_VLINEAR)%Z then
      let rvx := (vx (v1 piv) * (1 - tf)) + (vx (v2 piv) * tf) in
      let rvy := (vy (v1 piv) * (1 - tf)) + (vy (v2 piv) * tf) in
      let rvz := (vz (v1 piv) * (1 - tf)) + (vz (v2 piv) * tf) in
      if negb (isfinite rvx && isfinite rvy && isfinite rvz) then None
      else Some {| x := rx; y := ry; v := 0; vx := rvx; vy := rvy; vz := rvz |}
    else if (mode piv =? IMODE_SLERP)%Z then
      let a := sin ((1 - t) * angle piv) in
      let b := sin (t * angle piv) in
      if negb (isfinite a && isfinite b) then None
      else
        rvx <- slerp_component a b (vx (v1 piv)) (vx (v2 piv)) (denom piv) ;;
        rvy <- slerp_component a b (vy (v1 piv)) (vy (v2 piv)) (denom piv) ;;
        rvz <- slerp_component a b (vz (v1 piv)) (vz (v2 piv)) (denom piv) ;;
        if negb (isfinite rvx && isfinite rvy && isfinite rvz) then None
        else Some {| x := rx; y := ry; v := 0;
                     vx := rvx; vy := rvy; vz := rvz |}
    else if (mode piv =? IMODE_DOUBLE)%Z then
      if Rltb t (1 / 2) then
        let t := t * 2 in
        let a := sin ((1 - t) * M_PI_2) in
        let b := sin (t * M_PI_2) in
        if negb (isfinite a && isfinite b) then None
        else
          rvx <- checked (a * vx (v1 piv)) ;;
          rvy <- checked (a * vy (v1 piv)) ;;
          rvz <- checked ((a * vz (v1 piv)) + b) ;;
          if negb (isfinite rvx && isfinite rvy && isfinite rvz) then None
          else Some {| x := rx; y := ry; v := 0;
                       vx := rvx; vy := rvy; vz := rvz |}
      else
        let t := (t - 1 / 2) * 2 in
        let a := sin ((1 - t) * M_PI_2) in
        let b := sin (t * M_PI_2) in
        if negb (isfinite a && isfinite b) then None
        else
          rvx <- checked (b * vx (v2 piv)) ;;
          rvy <- checked (b * vy (v2 piv)) ;;
          rvz <- checked (a + (b * vz (v2 piv))) ;;
          if negb (isfinite rvx && isfinite rvy && isfinite rvz) then None
          else Some {| x := rx; y := ry; v := 0;
                       vx := rvx; vy := rvy; vz := rvz |}
    else None.

Definition ivec_atX (piv : IVEC) (xt : R) : option VERTEX :=
  if negb (isfinite xt) then None
  else
    let '(min_x, max_x, reverse) :=
      if Rleb (x (v1 piv)) (x (v2 piv))
      then (x (v1 piv), x (v2 piv), false)
      else (x (v2 piv), x (v1 piv), true) in
    (* Check that given X coordinate is in range *)
    if negb (Rleb min_x xt && Rleb xt max_x) then None
    else
      let dn := max_x - min_x in
      t <-
        (if Rleb IVEC_THETA dn then
           let t := (xt - min_x) / (max_x - min_x) in
           if negb (isfinite t) then None else Some t
         else Some 0) ;;
      let t := if reverse then 1 - t else t in
      pr <- ivec_compute piv t ;;
      (* Force the interpolated X coordinate to the given X *)
      Some {| x := xt; y := y pr; v := v pr;
              vx := vx pr; vy := vy pr; vz := vz pr |}.

(** ** renderSpan *)

(** The pixel loop [for(x = x_min; x <= x_max; x = iinc(x))].  [n] is the
    number of iterations left, [x_max + 1 - x], and [ps] the index in the
    buffer of the pixel the pointer [ps] of the source designates. *)
Fixpoint renderSpan_loop (G : globals) (iv : IVEC) (n : nat) (xi : Z)
    (ps : Z) (buf : list Z) : option (list Z) :=
  match n with
  | O => Some buf
  | S n' =>
      px <- load buf ps ;;
      if (px =? MASKED)%Z then
        (* Skip this pixel if it is masked out *)
        xi' <- iinc xi ;;
        renderSpan_loop G iv n' xi' (ps + 1)%Z buf
      else
        vxt <- ivec_atX iv (IZR xi + 1 / 2) ;;
        c <- vertexColor G vxt ;;
        buf <- store buf ps c ;;
        xi' <- iinc xi ;;
        renderSpan_loop G iv n' xi' (ps + 1)%Z buf
  end.

(** The result is the program state after the call; only the pixel
    buffer can differ. *)
Definition renderSpan (G : globals) (v1 v2 : VERTEX) : option globals :=
  buf <- pBuf G ;;
  _ <- checkVertex G v1 ;;
  _ <- checkVertex G v2 ;;
  if negb (Reqb (y v1) (y v2)) then None
  else
    (* Swap so that X coordinate of v1 is at most X coordinate of v2 *)
    let '(v1, v2) := if negb (Rleb (x v1) (x v2)) then (v2, v1) else (v1, v2) in
    yi <- ifloor (y v1) ;;
    x_min <- ifloor (x v1) ;;
    x_max <- ifloor (x v2) ;;
    x_min <- (if Rltb (1 / 2) (x v1 - IZR x_min) then iinc x_min
              else Some x_min) ;;
    x_max <- (if Rleb (x v2 - IZR x_max) (1 / 2) then idec x_max
              else Some x_max) ;;
    (* If x_min and x_max have crossed, nothing to render *)
    if (x_max <? x_min)%Z then Some G
    (* Perform clipping *)
    else if ((yi <? 0) || (yi >=? m_h G))%Z then Some G
    else if ((x_max <? 0) || (x_min >=? m_w G))%Z then Some G
    else
      let x_min := if (x_min <? 0)%Z then 0%Z else x_min in
      let x_max := if (x_max >=? m_w G)%Z then (m_w G - 1)%Z else x_max in
      iv <- ivec_init G v1 v2 ;;
      let ps := ((yi * m_w G) + x_min)%Z in
      buf <- renderSpan_loop G iv (Z.to_nat (x_max + 1 - x_min)) x_min ps buf ;;
      Some (set_pBuf G buf).

(** ** renderPair and renderTri *)

Definition ivec_atY (piv : IVEC) (yt : R) : option VERTEX :=
  if negb (isfinite yt) then None
  else
    let '(min_y, max_y, reverse) :=
      if Rleb (y (v1 piv)) (y (v2 piv))
      then (y (v1 piv), y (v2 piv), false)
      else (y (v2 piv), y (v1 piv), true) in
    (* Check that given Y coordinate is in range *)
    if negb (Rleb min_y yt && Rleb yt max_y) then None
    else
      let dn := max_y - min_y in
      t <-
        (if Rleb IVEC_THETA dn then
           let t := (yt - min_y) / (max_y - min_y) in
           if negb (isfinite t) then None else Some t
         else Some 0) ;;
      let t := if reverse then 1 - t else t in
      pr <- ivec_compute piv t ;;
      (* Force the interpolated Y coordinate to the given Y *)
      Some {| x := x pr; y := yt; v := v pr;
              vx := vx pr; vy := vy pr; vz := vz pr |}.

(** The scanline loop [for(y = start_y; y <= finish_y; y = iinc(y))];
    [n] is the number of iterations left, [finish_y + 1 - y]. *)
Fixpoint renderPair_loop (G : globals) (e1 e2 : IVEC) (n : nat) (yi : Z)
    : option globals :=
  match n with
  | O => Some G
  | S n' =>
      let ys := IZR yi + 1 / 2 in
      ve1 <- ivec_atY e1 ys ;;
      ve2 <- ivec_atY e2 ys ;;
      G <- renderSpan G ve1 ve2 ;;
      yi' <- iinc yi ;;
      renderPair_loop G e1 e2 n' yi'
  end.

Definition renderPair (G : globals) (va1 va2 vb1 vb2 : VERTEX)
    : option globals :=
  _ <- pBuf G ;;
  _ <- checkVertex G va1 ;;
  _ <- checkVertex G va2 ;;
  _ <- checkVertex G vb1 ;;
  _ <- checkVertex G vb2 ;;
  (* Within each edge, the first vertex Y is at most the second *)
  let '(va1, va2) :=
    if negb (Rleb (y va1) (y va2)) then (va2, va1) else (va1, va2) in
  let '(vb1, vb2) :=
    if negb (Rleb (y vb1) (y vb2)) then (vb2, vb1) else (vb1, vb2) in
  let min_y := y va1 in
  let max_y := y va2 in
  if negb (Rleb (y vb1) max_y && Rleb min_y (y vb2)) then Some G
  else
    let min_y := if Rltb min_y (y vb1) then y vb1 else min_y in
    let max_y := if Rltb (y vb2) max_y then y vb2 else max_y in
    start_y <- ifloor min_y ;;
    finish_y <- ifloor max_y ;;
    start_y <- (if Rltb (1 / 2) (min_y - IZR start_y) then iinc start_y
                else Some start_y) ;;
    finish_y <- (if Rleb (max_y - IZR finish_y) (1 / 2) then idec finish_y
                 else Some finish_y) ;;
    if (finish_y <? start_y)%Z then Some G
    else if ((finish_y <? 0) || (start_y >=? m_h G))%Z then Some G
    else
      let start_y := if (start_y <? 0)%Z then 0%Z else start_y in
      let finish_y :=
        if (finish_y >=? m_h G)%Z then (m_h G - 1)%Z else finish_y in
      e1 <- ivec_init G va1 va2 ;;
      e2 <- ivec_init G vb1 vb2 ;;
      renderPair_loop G e1 e2 (Z.to_nat (finish_y + 1 - start_y)) start_y.

(** [fabs]. *)
Definition fabs (f : R) : R := Rabs f.

Definition renderTri (G : globals) (v1 v2 v3 : VERTEX) : option globals :=
  _ <- checkVertex G v1 ;;
  _ <- checkVertex G v2 ;;
  _ <- checkVertex G v3 ;;
  let et0 := (v1, v2) in
  let et1 := (v2, v3) in
  let et2 := (v3, v1) in
  (* Figure out the longest edge in terms of Y extent *)
  let long_edge := 0%Z in
  let max_extent := fabs (y (fst et0) - y (snd et0)) in
  if negb (isfinite max_extent) then None
  else
    let ex := fabs (y (fst et1) - y (snd et1)) in
    if negb (isfinite ex) then None
    else
      let '(long_edge, max_extent) :=
        if Rltb max_extent ex then (1%Z, ex) else (long_edge, max_extent) in
      let ex := fabs (y (fst et2) - y (snd et2)) in
      if negb (isfinite ex) then None
      else
        let '(long_edge, max_extent) :=
          if Rltb max_extent ex then (2%Z, ex) else (long_edge, max_extent) in
        (* Make the first edge the long one *)
        let '(et0, et1, et2) :=
          if (long_edge =? 1)%Z then (et1, et0, et2)
          else if (long_edge =? 2)%Z then (et2, et1, et0)
          else (et0, et1, et2) in
        (* Render pairs of the long edge with the other two *)
        G <- renderPair G (fst et0) (snd et0) (fst et1) (snd et1) ;;
        renderPair G (fst et0) (snd et0) (fst et2) (snd et2).

(** The loop of [main] that renders each triangle of the mesh from the
    converted vertex buffer. *)
Fixpoint renderTris (G : globals) (tris : list (VERTEX * VERTEX * VERTEX))
    : option globals :=
  match tris with
  | [] => Some G
  | (v1, v2, v3) :: rest =>
      G <- renderTri G v1 v2 v3 ;;
      renderTris G rest
  end.

(** A sequence of [renderSpan] calls, as [renderPair] issues them. *)
Fixpoint renderSpans (G : globals) (spans : list (VERTEX * VERTEX))
    : option globals :=
  match spans with
  | [] => Some G
  | (v1, v2) :: rest =>
      G <- renderSpan G v1 v2 ;;
      renderSpans G rest
  end.

(** ** convertVertex *)

Definition VMODE_UNDEF : Z := 0.
Definition VMODE_X     : Z := 1.
Definition VMODE_Y     : Z := 2.
Definition VMODE_3D    : Z := 3.

(** [m_vmode], the second mode variable of the program, is an argument
    here; the result is [*pv] after the [memset] and the assignments. *)
Definition convertVertex (G : globals) (m_vmode : Z) (pp : LILAC_MESH_POINT)
    : option VERTEX :=
  _ <- pBuf G ;;
  (* X and Y are first converted into floating point [0.0, 1.0] range *)
  let px := IZR (LilacMesh.x pp) / IZR LILAC_MESH_MAX_C in
  let py := IZR (LilacMesh.y pp) / IZR LILAC_MESH_MAX_C in
  (* invert Y *)
  let py := 1 - py in
  let px := px * IZR (m_w G - 1) in
  let py := py * IZR (m_h G - 1) in
  (* Floor coordinates and add 0.5 so they are in the center of pixels *)
  let px := floor px + 1 / 2 in
  let py := floor py + 1 / 2 in
  let ad := IZR (normd pp) / IZR LILAC_MESH_MAX_C in
  let aa := IZR (norma pp) / IZR LILAC_MESH_MAX_C in
  (* Convert aa into radians *)
  let aa := aa * 2 * M_PI in
  let pvx := ad * cos aa in
  let pvy := ad * sin aa in
  pv <-
    (if (m_vmode =? VMODE_X)%Z then
       Some {| x := px; y := py; v := pvx; vx := pvx; vy := pvy; vz := 0 |}
     else if (m_vmode =? VMODE_Y)%Z then
       Some {| x := px; y := py; v := pvy; vx := pvx; vy := pvy; vz := 0 |}
     else if (m_vmode =? VMODE_3D)%Z then
       (* Compute vz so as to make the vector a unit vector *)
       let pvz := 1 - (pvx * pvx) - (pvy * pvy) in
       let pvz := if negb (Rleb 0 pvz) then 0 else pvz in
       let pvz := sqrt pvz in
       Some {| x := px; y := py; v := 0; vx := pvx; vy := pvy; vz := pvz |}
     else None) ;;
  _ <- checkVertex G pv ;;
  Some pv.

(** ** initBufDim *)

(** [calloc] is taken to succeed. *)
Definition initBufDim (G : globals) (w h : Z) : option globals :=
  match pBuf G with
  | Some _ => None
  | None =>
      if ((w <? 1) || (h <? 1))%Z then None
      else if ((w >? MAX_IMAGE_DIM) || (h >? MAX_IMAGE_DIM))%Z then None
      else if (w * h >? MAX_IMAGE_PIXELS)%Z then None
      else Some {| m_inter := m_inter G; m_w := w; m_h := h;
                   pBuf := Some (repeat 0%Z (Z.to_nat (w * h))) |}
  end.

(** ** The loops of main *)




End LilacMe2Png.

(** * lilacme2json.c

    The conversion of a loaded mesh to JSON. *)

Module LilacMe2Json.

Import LilacMesh.
Local Open Scope Z_scope.

(** The program writes its output with [printf]; the model records the
    sequence of the calls.  Each constructor is one call with one of the
    format strings of [meshToJSON], the arguments of the call being the
    arguments of the constructor:
    - [P_open]: the start of the object and of the points array;
    - [P_comma]: the comma between two records;
    - [P_line]: the line break and the indent before a record;
    - [P_point uid normd norma x y]: a point record, the uid printed
      with %lx and the four fields with %d;
    - [P_tris]: the end of the points array and the start of the
      triangle array;
    - [P_tri a b c]: a triangle record, three uids printed with %lx;
    - [P_close]: the end of the triangle array and of the object. *)
Inductive printed : Type :=
  | P_open
  | P_comma
  | P_line
  | P_point (uid normd norma x y : Z)
  | P_tris
  | P_tri (a b c : Z)
  | P_close.

(** [for(i = 0; i < pMesh->point_count; i++)], [n] iterations left; the
    result is what the remaining iterations print. *)
Fixpoint print_points (pPoints : list LILAC_MESH_POINT) (i : Z) (n : nat)
    : option (list printed) :=
  match n with
  | O => Some []
  | S n' =>
      pp <- load pPoints i ;;
      rest <- print_points pPoints (i + 1) n' ;;
      Some ((if i >? 0 then [P_comma] else [])
            ++ [P_line; P_point (i + 1) (normd pp) (norma pp) (x pp) (y pp)]
            ++ rest)
  end.

(** [for(i = 0; i < pMesh->tri_count; i++)], [n] iterations left. *)
Fixpoint print_tris (pTris : list Z) (i : Z) (n : nat)
    : option (list printed) :=
  match n with
  | O => Some []
  | S n' =>
      pt0 <- load pTris (i * 3) ;;
      pt1 <- load pTris (i * 3 + 1) ;;
      pt2 <- load pTris (i * 3 + 2) ;;
      rest <- print_tris pTris (i + 1) n' ;;
      Some ((if i >? 0 then [P_comma] else [])
            ++ [P_line; P_tri (pt0 + 1) (pt1 + 1) (pt2 + 1)]
            ++ rest)
  end.

Definition meshToJSON (pMesh : LILAC_MESH) : option (list printed) :=
  points <- print_points (pPoints pMesh) 0 (Z.to_nat (point_count pMesh)) ;;
  tris <- print_tris (pTris pMesh) 0 (Z.to_nat (tri_count pMesh)) ;;
  Some ([P_open] ++ points ++ [P_tris] ++ tris ++ [P_close]).

End LilacMe2Json.

(** * Specification of the loader

    The notions the properties of the loader are stated with: decimal
    literals, the bits of the usage map, the checks of the triangle
    operation, the invariant of the interpreter loop, and the sample mesh
    of the format description. *)

Module LilacMeshSpec.

Import LilacMesh.
Local Open Scope Z_scope.

(** ** Decimal literals *)

(** The C string stored at [pstr]: the characters before the first nul. *)
Fixpoint c_str (pstr : string) : string :=
  match pstr with
  | EmptyString => EmptyString
  | String ch rest =>
      if char_code ch =? 0 then EmptyString else String ch (c_str rest)
  end.

(** An ASCII digit ['0'] to ['9']. *)
Definition is_digit (ch : ascii) : bool :=
  (48 <=? char_code ch) && (char_code ch <=? 57).

(** Every character is a digit. *)
Fixpoint all_digits (s : string) : bool :=
  match s with
  | EmptyString => true
  | String ch rest => is_digit ch && all_digits rest
  end.

(** Positional value of a digit string: the digit at distance [k] from
    the right end weighs [10 ^ k]. *)
Fixpoint decimal_value (s : string) : Z :=
  match s with
  | EmptyString => 0
  | String ch rest =>
      (char_code ch - 48) * 10 ^ Z.of_nat (String.length rest)
      + decimal_value rest
  end.

(** Non-empty, digits only, value at most [C_MAX]. *)
Definition valid_number (s : string) : bool :=
  negb (String.eqb s EmptyString) && all_digits s
  && (decimal_value s <=? LILAC_MESH_MAX_C).

(** ** Usage map *)

(** The bit of point [i] in the point bitmap: block [i / 32], most
    significant bit first. *)
Definition point_used (pM : USAGE_MAP) (i : Z) : bool :=
  match load (pPointUse pM) (i / 32) with
  | Some w => Z.testbit w (31 - i mod 32)
  | None => false
  end.

(** The bit of the directed edge [i1 -> i2] in the edge bitmap. *)
Definition edge_used (pM : USAGE_MAP) (i1 i2 : Z) : bool :=
  let ix := i1 * um_point_count pM + i2 in
  match load (pEdgeUse pM) (ix / 32) with
  | Some w => Z.testbit w (31 - ix mod 32)
  | None => false
  end.

(** A dimensioned map: the arrays have the sizes [usage_map_dim] gives
    them. *)
Definition um_wf (pM : USAGE_MAP) : Prop :=
  0 <= um_point_count pM <= LILAC_MESH_MAX_POINTS /\
  len (pPointUse pM) = block_count (um_point_count pM) /\
  len (pEdgeUse pM) = block_count (um_point_count pM * um_point_count pM).

(** A sequence of [usage_map_point] calls. *)
Fixpoint mark_points (pM : USAGE_MAP) (marks : list Z) : option USAGE_MAP :=
  match marks with
  | [] => Some pM
  | i :: rest => pM <- usage_map_point pM i ;; mark_points pM rest
  end.

(** The point bitmap read as a sequence of bits. *)
Definition bit_of (points : list Z) (j : Z) : bool :=
  match load points (j / 32) with
  | Some w => Z.testbit w (31 - j mod 32)
  | None => false
  end.

(** ** The checks of the triangle operation *)

(** Point [v] of the mesh and element [k] of its triangle list. *)
Definition point_at (pM : LILAC_MESH) (v : Z) : LILAC_MESH_POINT :=
  nth (Z.to_nat v) (pPoints pM) (mkPoint 0 0 0 0).

Definition tri_elem (pM : LILAC_MESH) (k : Z) : Z :=
  nth (Z.to_nat k) (pTris pM) 0.

(** The signed area (x2-x1)(y3-y1) - (y2-y1)(x3-x1) on the encoded
    integer coordinates. *)
Definition cross_Z (pA pB pC : LILAC_MESH_POINT) : Z :=
  (x pB - x pA) * (y pC - y pA) - (y pB - y pA) * (x pC - x pA).

(** Some vertex is not below the number of points written. *)
Definition fails_PTREF (v1 v2 v3 ptsWritten : Z) : bool :=
  (v1 >=? ptsWritten) || (v2 >=? ptsWritten) || (v3 >=? ptsWritten).

(** Two vertices are equal. *)
Definition fails_VXDUP (v1 v2 v3 : Z) : bool :=
  (v1 =? v2) || (v2 =? v3) || (v1 =? v3).

(** The first vertex is not the least. *)
Definition fails_VXORD (v1 v2 v3 : Z) : bool :=
  (v2 <? v1) || (v3 <? v1).

(** The signed area is not positive. *)
Definition fails_ORIENT (pM : LILAC_MESH) (v1 v2 v3 : Z) : bool :=
  cross_Z (point_at pM v1) (point_at pM v2) (point_at pM v3) <=? 0.

(** With a previous triangle (v1', v2', _): not (v1' < v1, or v1' = v1
    and v2' < v2). *)
Definition fails_TRSORT (pM : LILAC_MESH) (triWritten v1 v2 : Z) : bool :=
  (triWritten >? 0) &&
  negb ((tri_elem pM ((triWritten - 1) * 3) <? v1) ||
        ((tri_elem pM ((triWritten - 1) * 3) =? v1) &&
         (tri_elem pM ((triWritten - 1) * 3 + 1) <? v2))).

(** All declared triangles have been written. *)
Definition fails_TROVER (pM : LILAC_MESH) (triWritten : Z) : bool :=
  triWritten >=? tri_count pM.

(** The checks of the triangle operation in the documented order, each
    with its error code and whether it fails. *)
Definition triangle_checks (v1 v2 v3 : Z) (pM : LILAC_MESH)
    (ptsWritten triWritten : Z) (pUm : USAGE_MAP) : list (Z * bool) :=
  [ (LILAC_MESH_ERR_PTREF,  fails_PTREF v1 v2 v3 ptsWritten);
    (LILAC_MESH_ERR_VXDUP,  fails_VXDUP v1 v2 v3);
    (LILAC_MESH_ERR_VXORD,  fails_VXORD v1 v2 v3);
    (LILAC_MESH_ERR_ORIENT, fails_ORIENT pM v1 v2 v3);
    (LILAC_MESH_ERR_TRSORT, fails_TRSORT pM triWritten v1 v2);
    (LILAC_MESH_ERR_TROVER, fails_TROVER pM triWritten);
    (LILAC_MESH_ERR_DUPEDG, edge_used pUm v1 v2);
    (LILAC_MESH_ERR_DUPEDG, edge_used pUm v2 v3);
    (LILAC_MESH_ERR_DUPEDG, edge_used pUm v3 v1) ].

(** The error code of the first failing check, if any. *)
Definition first_failure (checks : list (Z * bool)) : option Z :=
  option_map fst (find snd checks).

(** The state in which the loader calls [op_t]. *)
Definition op_t_pre (v1 v2 v3 : Z) (pM : LILAC_MESH)
    (ptsWritten triWritten : Z) (pUm : USAGE_MAP) : Prop :=
  0 <= v1 <= LILAC_MESH_MAX_C /\ 0 <= v2 <= LILAC_MESH_MAX_C /\
  0 <= v3 <= LILAC_MESH_MAX_C /\
  0 <= ptsWritten <= LILAC_MESH_MAX_POINTS /\
  ptsWritten <= len (pPoints pM) /\
  ptsWritten <= um_point_count pUm /\ um_wf pUm /\
  0 <= triWritten <= tri_count pM /\
  len (pTris pM) = 3 * tri_count pM.

(** A call recorded in the history of the usage map is in range, and an
    edge call has two different end points. *)
Definition call_ok (c : um_call) : Prop :=
  match c with
  | CallPoint n i => 0 <= i < n
  | CallEdge n i1 i2 => 0 <= i1 < n /\ 0 <= i2 < n /\ i1 <> i2
  end.

(** The triangle list after the three stores of [op_t]. *)
Definition tris_with (tris : list Z) (triWritten v1 v2 v3 : Z) : list Z :=
  upd (upd (upd tris (Z.to_nat (triWritten * 3)) v1)
           (Z.to_nat (triWritten * 3 + 1)) v2)
      (Z.to_nat (triWritten * 3 + 2)) v3.

(** The usage map after some marking calls: still dimensioned for the
    same number of points, with the calls, all of them in range, added to
    its history. *)
Definition um_step (pUm pUm' : USAGE_MAP) (calls : list um_call) : Prop :=
  um_wf pUm' /\ um_point_count pUm' = um_point_count pUm /\
  um_calls pUm' = calls ++ um_calls pUm /\ Forall call_ok calls.

(** The calls a successful triangle operation makes, the latest first:
    the edges v1 -> v2, v2 -> v3, v3 -> v1 in that order, then the three
    points. *)
Definition triangle_calls (n v1 v2 v3 : Z) : list um_call :=
  [CallPoint n v3; CallPoint n v2; CallPoint n v1;
   CallEdge n v3 v1; CallEdge n v2 v3; CallEdge n v1 v2].

(** What [op_t] returns in a state of the loader: the first failing check
    decides the error code, and a failure leaves the mesh as it was. *)
Definition op_t_post (v1 v2 v3 : Z) (pM : LILAC_MESH)
    (ptsWritten triWritten : Z) (pUm : USAGE_MAP) (errCode : Z)
    (res : option (bool * LILAC_MESH * Z * USAGE_MAP * Z)) : Prop :=
  match first_failure (triangle_checks v1 v2 v3 pM ptsWritten triWritten pUm) with
  | Some code =>
      exists pUm' calls,
        res = Some (false, pM, triWritten, pUm', code) /\
        um_step pUm pUm' calls /\
        pPointUse pUm' = pPointUse pUm /\
        (code <> LILAC_MESH_ERR_DUPEDG -> pUm' = pUm)
  | None =>
      exists pUm',
        res = Some (true,
                    set_pTris pM (tris_with (pTris pM) triWritten v1 v2 v3),
                    triWritten + 1, pUm', errCode) /\
        um_step pUm pUm' (triangle_calls (um_point_count pUm) v1 v2 v3) /\
        (forall j, point_used pUm' j
                   = (j =? v1) || (j =? v2) || (j =? v3) || point_used pUm j)
  end.

(** ** A sample mesh *)

(** The four corners of the unit square, the mesh of the two-triangle
    quad before any triangle is written, and a usage map dimensioned for
    its four points. *)
Definition quad_points : list LILAC_MESH_POINT :=
  [mkPoint 0 0 0 0; mkPoint 0 0 16384 0;
   mkPoint 0 0 16384 16384; mkPoint 0 0 0 16384].

Definition quad_mesh : LILAC_MESH :=
  {| pPoints := quad_points; pTris := [0; 0; 0; 0; 0; 0];
     point_count := 4; tri_count := 2 |}.

Definition quad_um : USAGE_MAP :=
  {| pPointUse := [0]; pEdgeUse := [0]; um_point_count := 4; um_calls := [] |}.

(** ** The loaded mesh *)

(** Triangle [i] comes strictly before triangle [i + 1] in the order by
    (v1, v2). *)
Definition tri_lt (pM : LILAC_MESH) (i : Z) : Prop :=
  tri_elem pM (3 * i) < tri_elem pM (3 * (i + 1)) \/
  (tri_elem pM (3 * i) = tri_elem pM (3 * (i + 1)) /\
   tri_elem pM (3 * i + 1) < tri_elem pM (3 * (i + 1) + 1)).

(** The invariant of the interpreter loop for the declared counts [pc]
    and [tc]: the arrays have their declared sizes, the counters are
    within them, the usage map is dimensioned for [pc] points and has only
    been called in range, every triangle written refers to points written
    before it, every point marked in the usage map occurs in a written
    triangle, and the written triangles are sorted. *)
Record loader_inv (pc tc : Z) (L : loader_vars) : Prop := mkInv {
  inv_pcount : point_count (l_pM L) = pc;
  inv_tcount : tri_count (l_pM L) = tc;
  inv_pc : 0 <= point_count (l_pM L) <= LILAC_MESH_MAX_POINTS;
  inv_tc : 0 <= tri_count (l_pM L) <= LILAC_MESH_MAX_TRIS;
  inv_plen : len (pPoints (l_pM L)) = point_count (l_pM L);
  inv_tlen : len (pTris (l_pM L)) = 3 * tri_count (l_pM L);
  inv_pw : 0 <= points_written L <= point_count (l_pM L);
  inv_tw : 0 <= tris_written L <= tri_count (l_pM L);
  inv_um : um_wf (l_um L);
  inv_umn : um_point_count (l_um L) = point_count (l_pM L);
  inv_stlen : len (st L) = MAX_SN_STACK;
  inv_stc : 0 <= st_count L <= MAX_SN_STACK;
  inv_stv : Forall (fun v => 0 <= v <= LILAC_MESH_MAX_C) (st L);
  inv_calls : Forall call_ok (um_calls (l_um L));
  inv_ref : forall k, 0 <= k < 3 * tris_written L ->
            0 <= tri_elem (l_pM L) k < points_written L;
  inv_used : forall j, point_used (l_um L) j = true ->
             exists k, 0 <= k < 3 * tris_written L /\
                       tri_elem (l_pM L) k = j;
  inv_sorted : forall i, 0 <= i -> i + 1 < tris_written L ->
               tri_lt (l_pM L) i
}.

(** What the loader guarantees about a mesh it returns. *)
Record loaded_mesh (pM : LILAC_MESH) : Prop := mkLoaded {
  lm_points : len (pPoints pM) = point_count pM;
  lm_tris : len (pTris pM) = 3 * tri_count pM;
  lm_range : forall k, 0 <= k < 3 * tri_count pM ->
             0 <= tri_elem pM k < point_count pM;
  lm_cover : forall p, 0 <= p < point_count pM ->
             exists k, 0 <= k < 3 * tri_count pM /\ tri_elem pM k = p;
  lm_sorted : forall i, 0 <= i -> i + 1 < tri_count pM -> tri_lt pM i
}.

(** The entity stream of the two-triangle quad of the format
    description: [%lilac-mesh; %dim 4 2;], four points, two triangles. *)
Definition entity (s : sn_status) (key : string) : SNENTITY * Z :=
  ({| status := s; pKey := key |}, 1).

Definition header_entities (points tris : string) : list (SNENTITY * Z) :=
  [entity SNENTITY_BEGIN_META ""; entity SNENTITY_META_TOKEN "lilac-mesh";
   entity SNENTITY_END_META "";
   entity SNENTITY_BEGIN_META ""; entity SNENTITY_META_TOKEN "dim";
   entity SNENTITY_META_TOKEN points; entity SNENTITY_META_TOKEN tris;
   entity SNENTITY_END_META ""].

Definition point_entities (d a px py : string) : list (SNENTITY * Z) :=
  [entity SNENTITY_NUMERIC d; entity SNENTITY_NUMERIC a;
   entity SNENTITY_NUMERIC px; entity SNENTITY_NUMERIC py;
   entity SNENTITY_OPERATION "p"].

Definition triangle_entities (a b c : string) : list (SNENTITY * Z) :=
  [entity SNENTITY_NUMERIC a; entity SNENTITY_NUMERIC b;
   entity SNENTITY_NUMERIC c; entity SNENTITY_OPERATION "t"].

Definition quad_input : list (SNENTITY * Z) :=
  header_entities "4" "2"
  ++ point_entities "0" "0" "0" "0"
  ++ point_entities "0" "0" "16384" "0"
  ++ point_entities "0" "0" "16384" "16384"
  ++ point_entities "0" "0" "0" "16384"
  ++ triangle_entities "0" "1" "2"
  ++ triangle_entities "0" "2" "3"
  ++ [entity SNENTITY_EOF ""].

Definition quad_loaded : LILAC_MESH :=
  {| pPoints := quad_points; pTris := [0; 1; 2; 0; 2; 3];
     point_count := 4; tri_count := 2 |}.

Definition quad_result : new_result :=
  {| r_mesh := Some quad_loaded; r_err := 0; r_line := 0;
     r_calls := triangle_calls 4 0 2 3 ++ triangle_calls 4 0 1 2 |}.

(** ** Further notions

    The checks of the point operation, the directed edges of a triangle,
    the shape of a header, and what holds of the points and triangles of
    a loaded mesh. *)

(** The codes 0 to [n - 1]. *)
Definition codes_below (n : nat) : list Z := map Z.of_nat (seq 0 n).

Definition point_checks (normd norma : Z) (pM : LILAC_MESH)
    (ptsWritten : Z) : list (Z * bool) :=
  [ (LILAC_MESH_ERR_NORMDA, (normd =? 0) && negb (norma =? 0));
    (LILAC_MESH_ERR_NORM2P, norma >=? LILAC_MESH_MAX_C);
    (LILAC_MESH_ERR_PTOVER, ptsWritten >=? point_count pM) ].

(** [j1 -> j2] is one of the directed edges of the triangle. *)
Definition is_edge (v1 v2 v3 j1 j2 : Z) : bool :=
  ((j1 =? v1) && (j2 =? v2)) || ((j1 =? v2) && (j2 =? v3)) ||
  ((j1 =? v3) && (j2 =? v1)).

(** The shape of a header: the signature metacommand and the dimension
    metacommand with two tokens; gives the two tokens, the entities after
    the header and the line count after the last header entity. *)
Definition header_shape (input : list (SNENTITY * Z))
    : option (string * string * list (SNENTITY * Z) * Z) :=
  match input with
  | (e1, _) :: (e2, _) :: (e3, _) :: (e4, _) :: (e5, _) :: (e6, _)
      :: (e7, _) :: (e8, line) :: rest =>
      if status_eqb (status e1) SNENTITY_BEGIN_META &&
         status_eqb (status e2) SNENTITY_META_TOKEN &&
         String.eqb (pKey e2) "lilac-mesh" &&
         status_eqb (status e3) SNENTITY_END_META &&
         status_eqb (status e4) SNENTITY_BEGIN_META &&
         status_eqb (status e5) SNENTITY_META_TOKEN &&
         String.eqb (pKey e5) "dim" &&
         status_eqb (status e6) SNENTITY_META_TOKEN &&
         status_eqb (status e7) SNENTITY_META_TOKEN &&
         status_eqb (status e8) SNENTITY_END_META
      then Some (pKey e6, pKey e7, rest, line)
      else None
  | _ => None
  end.

(** A decimal literal of value at most [limit]. *)
Definition valid_count (s : string) (limit : Z) : bool :=
  valid_number (c_str s) && (decimal_value (c_str s) <=? limit).

(** The error a well-shaped header is rejected with, zero when it is
    accepted. *)
Definition header_error (sp st : string) : Z :=
  if negb (valid_number (c_str sp)) then LILAC_MESH_ERR_DIMVAL
  else if negb (valid_number (c_str st)) then LILAC_MESH_ERR_DIMVAL
  else if decimal_value (c_str sp) >? LILAC_MESH_MAX_POINTS
  then LILAC_MESH_ERR_PCOUNT
  else if decimal_value (c_str st) >? LILAC_MESH_MAX_TRIS
  then LILAC_MESH_ERR_TCOUNT
  else LILAC_MESH_ERR_OK.

(** A failed header block always leaves a nonzero error code. *)
Definition h_fail_ok (h : header_vars) : Prop :=
  h_status h = false -> h_err h <> 0.

(** The ranges of the fields of a point of the mesh. *)
Definition point_ok (p : LILAC_MESH_POINT) : Prop :=
  0 <= normd p <= LILAC_MESH_MAX_C /\ 0 <= norma p < LILAC_MESH_MAX_C /\
  (normd p = 0 -> norma p = 0) /\
  0 <= x p <= LILAC_MESH_MAX_C /\ 0 <= y p <= LILAC_MESH_MAX_C.

(** Triangle [i]: the first vertex has the least index, the vertices are
    different points, and they are in counter-clockwise order (so not
    colinear). *)
Definition tri_ok (pM : LILAC_MESH) (i : Z) : Prop :=
  let a := tri_elem pM (3 * i) in
  let b := tri_elem pM (3 * i + 1) in
  let c := tri_elem pM (3 * i + 2) in
  a < b /\ a < c /\ b <> c /\
  0 < cross_Z (point_at pM a) (point_at pM b) (point_at pM c).

(** [j1 -> j2] is a directed edge of triangle [i]. *)
Definition tri_edge (pM : LILAC_MESH) (i j1 j2 : Z) : bool :=
  is_edge (tri_elem pM (3 * i)) (tri_elem pM (3 * i + 1))
          (tri_elem pM (3 * i + 2)) j1 j2.

(** What the interpreter loop keeps besides [loader_inv]: the error code
    is zero exactly while the status is set, and while it is set the
    points and the triangles written are valid and every directed edge of
    a written triangle is marked in the usage map and belongs to no other
    written triangle. *)
Record mesh_inv (L : loader_vars) : Prop := mkMeshInv {
  inv_pts : forall p, 0 <= p < points_written L ->
            point_ok (point_at (l_pM L) p);
  inv_tri : forall i, 0 <= i < tris_written L -> tri_ok (l_pM L) i;
  inv_edge : forall i j1 j2, 0 <= i < tris_written L ->
             tri_edge (l_pM L) i j1 j2 = true ->
             edge_used (l_um L) j1 j2 = true;
  inv_uniq : forall i j j1 j2, 0 <= i < j -> j < tris_written L ->
             tri_edge (l_pM L) i j1 j2 = true ->
             tri_edge (l_pM L) j j1 j2 = false
}.

Definition loader_inv2 (L : loader_vars) : Prop :=
  (if l_status L then l_err L = 0 /\ l_line L = 0 else l_err L <> 0) /\
  (l_status L = true -> mesh_inv L).

(** What the loader guarantees besides [loaded_mesh]. *)
Record sound_mesh (pM : LILAC_MESH) : Prop := mkSound {
  sm_pcount : 0 <= point_count pM <= LILAC_MESH_MAX_POINTS;
  sm_tcount : 0 <= tri_count pM <= LILAC_MESH_MAX_TRIS;
  sm_points : forall p, 0 <= p < point_count pM -> point_ok (point_at pM p);
  sm_tris : forall i, 0 <= i < tri_count pM -> tri_ok pM i;
  sm_edges : forall i j j1 j2, 0 <= i < j -> j < tri_count pM ->
             tri_edge pM i j1 j2 = true -> tri_edge pM j j1 j2 = false
}.

(** ** Writing a mesh

    The entity stream of a mesh file that lists the points and the
    triangles of a given mesh. *)

(** The token [s] is a decimal literal of value [n]. *)
Definition numeral (s : string) (n : Z) : Prop :=
  valid_number (c_str s) = true /\ decimal_value (c_str s) = n.

(** The four tokens of a point and the three tokens of a triangle. *)
Definition denotes_point (t : string * string * string * string)
    (p : LILAC_MESH_POINT) : Prop :=
  let '(d, a, px, py) := t in
  numeral d (normd p) /\ numeral a (norma p) /\
  numeral px (x p) /\ numeral py (y p).

Definition denotes_tri (t : string * string * string) (v1 v2 v3 : Z)
    : Prop :=
  let '(a, b, c) := t in numeral a v1 /\ numeral b v2 /\ numeral c v3.

(** The tokens [ps] denote the points [k], [k + 1], ... of the mesh, and
    the tokens [ts] its triangles [k], [k + 1], ... *)
Fixpoint points_from (pM : LILAC_MESH) (k : Z)
    (ps : list (string * string * string * string)) : Prop :=
  match ps with
  | [] => True
  | t :: rest => denotes_point t (point_at pM k) /\ points_from pM (k + 1) rest
  end.

Fixpoint tris_from (pM : LILAC_MESH) (k : Z)
    (ts : list (string * string * string)) : Prop :=
  match ts with
  | [] => True
  | t :: rest =>
      denotes_tri t (tri_elem pM (3 * k)) (tri_elem pM (3 * k + 1))
                    (tri_elem pM (3 * k + 2)) /\
      tris_from pM (k + 1) rest
  end.

(** The tokens of a file that lists the whole mesh: the two counts, all
    the points and all the triangles. *)
Definition mesh_written (pM : LILAC_MESH) (sp st : string)
    (ps : list (string * string * string * string))
    (ts : list (string * string * string)) : Prop :=
  numeral sp (point_count pM) /\ numeral st (tri_count pM) /\
  len ps = point_count pM /\ points_from pM 0 ps /\
  len ts = tri_count pM /\ tris_from pM 0 ts.

(** The entity stream of such a file: the header, a "p" operation for
    each point, a "t" operation for each triangle, the end of file. *)
Definition mesh_stream (sp st : string)
    (ps : list (string * string * string * string))
    (ts : list (string * string * string)) : list (SNENTITY * Z) :=
  header_entities sp st
  ++ flat_map (fun '(d, a, px, py) => point_entities d a px py) ps
  ++ flat_map (fun '(a, b, c) => triangle_entities a b c) ts
  ++ [entity SNENTITY_EOF ""].

(** The local variables of the loader between two operations, while no
    error has occurred: the stack is empty. *)
Definition between_ops (pM : LILAC_MESH) (pw tw : Z) (stk : list Z)
    (um : USAGE_MAP) : loader_vars :=
  {| l_status := true; l_err := 0; l_line := 0; l_pM := pM;
     points_written := pw; tris_written := tw; st := stk; st_count := 0;
     l_um := um |}.

(** The tokens of the two-triangle quad. *)
Definition quad_point_tokens : list (string * string * string * string) :=
  [("0", "0", "0", "0"); ("0", "0", "16384", "0");
   ("0", "0", "16384", "16384"); ("0", "0", "0", "16384")]%string.

Definition quad_tri_tokens : list (string * string * string) :=
  [("0", "1", "2"); ("0", "2", "3")]%string.

(** The state of the loader when the points and the first [k] triangles
    of the mesh [pM] have been written: the mesh under construction
    [pMk] and the usage map. *)
Definition tris_loaded (pM : LILAC_MESH) (k : Z) (pMk : LILAC_MESH)
    (um : USAGE_MAP) : Prop :=
  pPoints pMk = pPoints pM /\ point_count pMk = point_count pM /\
  tri_count pMk = tri_count pM /\ len (pTris pMk) = 3 * tri_count pM /\
  (forall idx, 0 <= idx < 3 * k -> tri_elem pMk idx = tri_elem pM idx) /\
  um_wf um /\ um_point_count um = point_count pM /\
  (forall j, point_used um j = true <->
             exists idx, 0 <= idx < 3 * k /\ tri_elem pM idx = j) /\
  (forall j1 j2, 0 <= j2 < point_count pM -> edge_used um j1 j2 = true ->
     exists i, 0 <= i < k /\ tri_edge pM i j1 j2 = true).

End LilacMeshSpec.

(** * Specification of the rasterizer

    Packed colours, the mask, valid vertices and the sample buffers. *)

Module LilacMe2PngSpec.

Import LilacMesh LilacMeshSpec LilacMe2Png.
Local Open Scope Z_scope.

(** ** Colours and the mask *)

(** The alpha, red, green and blue channels of a packed colour. *)
Definition alpha_of (c : Z) : Z := Z.shiftr c 24.
Definition red_of (c : Z) : Z := Z.land (Z.shiftr c 16) 255.
Definition green_of (c : Z) : Z := Z.land (Z.shiftr c 8) 255.
Definition blue_of (c : Z) : Z := Z.land c 255.

(** An opaque colour none of whose channels is zero. *)
Definition written_colour (c : Z) : Prop :=
  alpha_of c = 255 /\ 1 <= red_of c <= 255 /\ 1 <= green_of c <= 255 /\
  1 <= blue_of c <= 255 /\ c <> MASKED.

(** The pixel at index [i] of the buffer. *)
Definition pixel (G : globals) (i : Z) : option Z :=
  buf <- pBuf G ;; load buf i.

(** [G'] has the same masked pixels as [G] (and the same dimensions and
    mode). *)
Definition same_mask (G G' : globals) : Prop :=
  m_inter G' = m_inter G /\ m_w G' = m_w G /\ m_h G' = m_h G /\
  forall i, pixel G' i = Some MASKED <-> pixel G i = Some MASKED.

Local Open Scope R_scope.

(** A one-column, two-row buffer in scalar mode whose upper pixel is
    masked, and one span on each row. *)
Definition mask_buffer : globals :=
  {| m_inter := INTER_SCALAR; m_w := 1; m_h := 2;
     pBuf := Some [MASKED; 0%Z] |}.

Definition span_vertex (px py : R) : VERTEX :=
  {| x := px; y := py; v := 0; vx := 0; vy := 0; vz := 0 |}.

Definition mask_spans : list (VERTEX * VERTEX) :=
  [ (span_vertex (1 / 2) (0 + 1 / 2),
     span_vertex (1 / 2 + 1 / 1000000) (0 + 1 / 2));
    (span_vertex (1 / 2) (1 + 1 / 2),
     span_vertex (1 / 2 + 1 / 1000000) (1 + 1 / 2)) ].

(** The lower pixel receives the gray level 128, the upper one stays
    masked. *)
Definition mask_rendered : globals :=
  {| m_inter := INTER_SCALAR; m_w := 1; m_h := 2;
     pBuf := Some [MASKED; 4286611584%Z] |}.

(** A triangle with the vertical edge (0,0)-(0,2) and the apex (2,1); it
    covers the centres of both pixels of the buffer. *)
Definition tri_A : VERTEX := span_vertex 0 0.
Definition tri_B : VERTEX := span_vertex 0 2.
Definition tri_C : VERTEX := span_vertex 2 1.

Definition mask_triangle : list (VERTEX * VERTEX * VERTEX) :=
  [ (tri_A, tri_B, tri_C) ].

(** ** Interpolation *)

(** An interpolation structure as [ivec_init] leaves it: in scalar mode
    the two scalars are in [-1, 1]; in slerp mode the cached denominator
    is the sine of the cached angle and is not zero. *)
Definition ivec_ready (iv : IVEC) : Prop :=
  (mode iv = IMODE_SCALAR /\
   -1 <= v (v1 iv) <= 1 /\ -1 <= v (v2 iv) <= 1) \/
  mode iv = IMODE_VLINEAR \/
  (mode iv = IMODE_SLERP /\ denom iv = sin (angle iv) /\ denom iv <> 0) \/
  mode iv = IMODE_DOUBLE.

(** [r] carries the attribute of [pv]: the scalar in scalar mode, the
    three components of the vector in the vector modes. *)
Definition same_attribute (scalar : bool) (r pv : VERTEX) : Prop :=
  if scalar then v r = v pv
  else vx r = vx pv /\ vy r = vy pv /\ vz r = vz pv.

(** [r] has the position and the attribute of [pv]. *)
Definition at_vertex (scalar : bool) (r pv : VERTEX) : Prop :=
  x r = x pv /\ y r = y pv /\ same_attribute scalar r pv.

(** The documented ranges of the fields of a vertex: the scalar in
    [-1, 1] in scalar mode; in vector mode a unit vector with components
    in [-1, 1] that does not point away from the viewer. *)
Definition valid_vertex (G : globals) (pv : VERTEX) : Prop :=
  (m_inter G = INTER_SCALAR -> -1 <= v pv <= 1) /\
  (m_inter G = INTER_VECTOR ->
     -1 <= vx pv <= 1 /\ -1 <= vy pv <= 1 /\ 0 <= vz pv <= 1 /\
     vx pv * vx pv + vy pv * vy pv + vz pv * vz pv = 1).

(** Unit vectors along the axes, at two places of a scan line, in vector
    mode. *)
Definition vector_mode : globals :=
  {| m_inter := INTER_VECTOR; m_w := 1; m_h := 1; pBuf := Some [0%Z] |}.

Definition unit_vertex (px nx ny nz : R) : VERTEX :=
  {| x := px; y := 1 / 2; v := 0; vx := nx; vy := ny; vz := nz |}.

(** ** Conversion, coverage and frames

    The notions the properties of the conversion of the points and of
    the rasterizer are stated with. *)


(** The two mode variables as [main] sets them. *)
Definition modes_set (G : globals) (m_vmode : Z) : Prop :=
  (m_inter G = INTER_VECTOR /\ m_vmode = VMODE_3D) \/
  (m_inter G = INTER_SCALAR /\ (m_vmode = VMODE_X \/ m_vmode = VMODE_Y)).

(** The vertex is at the centre of the pixel in column [col] and row
    [row]. *)
Definition at_pixel (pv : VERTEX) (col row : Z) : Prop :=
  x pv = IZR col + 1 / 2 /\ y pv = IZR row + 1 / 2.

(** A scalar edge from (0, 0) to (1, 1). *)
Definition unit_edge : IVEC :=
  {| v1 := span_vertex 0 0; v2 := span_vertex 1 1; mode := IMODE_SCALAR;
     angle := 0; denom := 0 |}.

(** The program state before the buffer is allocated, in scalar mode. *)
Definition no_buffer : globals :=
  {| m_inter := INTER_SCALAR; m_w := 0; m_h := 0; pBuf := None |}.

(** [r] is on the line through the positions of [a] and [b]. *)
Definition on_line (a b r : VERTEX) : Prop :=
  (x r - x a) * (y b - y a) = (y r - y a) * (x b - x a).

(** [c] is between [a] and [b], whichever is the smaller. *)
Definition between (a b c : R) : Prop := Rmin a b <= c <= Rmax a b.

(** Pixel [i] of the buffer is in the row of the scan line through [va]
    and its centre is between the two vertices, the left end included and
    the right end excluded. *)
Definition span_covers (G : globals) (va vb : VERTEX) (i : Z) : Prop :=
  exists col row,
    i = (row * m_w G + col)%Z /\
    (0 <= col < m_w G)%Z /\ (0 <= row < m_h G)%Z /\
    IZR row <= y va < IZR row + 1 /\
    Rmin (x va) (x vb) <= IZR col + 1 / 2 < Rmax (x va) (x vb).

(** [G'] is [G] with some pixels painted: the mode and the dimensions
    are the same, the buffer has the same length, and each pixel is as
    before or was not masked and holds a written colour. *)
Definition painted (G G' : globals) : Prop :=
  m_inter G' = m_inter G /\ m_w G' = m_w G /\ m_h G' = m_h G /\
  exists buf buf',
    pBuf G = Some buf /\ pBuf G' = Some buf' /\ len buf' = len buf /\
    forall i px, load buf i = Some px ->
      load buf' i = Some px \/
      (px <> MASKED /\ exists c, load buf' i = Some c /\ written_colour c).

(** A span from x = 0 to x = 1 through the centre of the lower pixel of
    [mask_buffer]. *)
Definition flat_span : VERTEX * VERTEX :=
  (span_vertex 0 (1 + 1 / 2), span_vertex 1 (1 + 1 / 2)).





(** The image of one column and two rows as [initBufDim] allocates it,
    and the same image after the triangle of [mask_triangle] is
    rendered. *)
Definition fresh_buffer : globals :=
  {| m_inter := INTER_SCALAR; m_w := 1; m_h := 2;
     pBuf := Some [0%Z; 0%Z] |}.


(** The interpolation structure with its two vertices exchanged. *)
Definition ivec_swap (iv : IVEC) : IVEC :=
  {| v1 := v2 iv; v2 := v1 iv; mode := mode iv; angle := angle iv;
     denom := denom iv |}.



End LilacMe2PngSpec.

(** * Specification of the JSON conversion *)

Module LilacMe2JsonSpec.

Import LilacMesh LilacMeshSpec LilacMe2Json.
Local Open Scope Z_scope.

(** The integers [i], [i + 1], ..., [i + n - 1]. *)
Fixpoint zrange (i : Z) (n : nat) : list Z :=
  match n with
  | O => []
  | S n' => i :: zrange (i + 1) n'
  end.

(** The point records of an output, each with its uid, and the triangle
    records, in the order they are printed. *)
Definition printed_points (out : list printed)
    : list (Z * LILAC_MESH_POINT) :=
  flat_map (fun e => match e with
                     | P_point uid d a px py => [(uid, mkPoint d a px py)]
                     | _ => []
                     end) out.

Definition printed_tris (out : list printed) : list (Z * Z * Z) :=
  flat_map (fun e => match e with
                     | P_tri a b c => [(a, b, c)]
                     | _ => []
                     end) out.

(** The uids of the point records. *)
Definition printed_uids (out : list printed) : list Z :=
  map fst (printed_points out).

End LilacMe2JsonSpec.

(** * Properties of the loader *)

Module LilacMeshProofs.

Import LilacMesh LilacMeshSpec.
Local Open Scope Z_scope.

(** ** parseNumber *)

Lemma decimal_value_nonneg (s : string) :
  all_digits s = true -> 0 <= decimal_value s.
Proof.
  induction s as [|ch s IH]; simpl; [lia|].
  unfold is_digit. intros H.
  apply andb_prop in H as [Hd Hs]. apply andb_prop in Hd as [Hlo Hhi].
  specialize (IH Hs).
  assert (0 <= 10 ^ Z.of_nat (String.length s)) by (apply Z.pow_nonneg; lia).
  nia.
Qed.

Lemma parseNumber_loop_spec (pstr : string) :
  forall acc, 0 <= acc <= LILAC_MESH_MAX_C ->
  parseNumber_loop pstr acc =
    if all_digits (c_str pstr) &&
       (acc * 10 ^ Z.of_nat (String.length (c_str pstr))
        + decimal_value (c_str pstr) <=? LILAC_MESH_MAX_C)
    then acc * 10 ^ Z.of_nat (String.length (c_str pstr))
         + decimal_value (c_str pstr)
    else -1.
Proof.
  assert (Hnil : forall acc, 0 <= acc <= LILAC_MESH_MAX_C ->
    acc = if all_digits EmptyString &&
             (acc * 10 ^ Z.of_nat (String.length EmptyString)
              + decimal_value EmptyString <=? LILAC_MESH_MAX_C)
          then acc * 10 ^ Z.of_nat (String.length EmptyString)
               + decimal_value EmptyString
          else -1).
  { intros acc Hacc. cbn [all_digits String.length decimal_value andb].
    change (10 ^ Z.of_nat 0) with 1. rewrite Z.mul_1_r, Z.add_0_r.
    destruct (Z.leb_spec acc LILAC_MESH_MAX_C); [reflexivity | lia]. }
  induction pstr as [|ch rest IH]; intros acc Hacc.
  - cbn [parseNumber_loop c_str]. apply Hnil, Hacc.
  - cbn [parseNumber_loop c_str].
    destruct (char_code ch =? 0) eqn:Hnul; [apply Hnil, Hacc|].
    change (char_code "0") with 48. change (char_code "9") with 57.
    cbn [all_digits]. unfold is_digit.
    destruct (Z.ltb_spec (char_code ch) 48) as [Hlo|Hlo].
    { destruct (Z.leb_spec 48 (char_code ch)); [lia | reflexivity]. }
    destruct (Z.gtb_spec (char_code ch) 57) as [Hhi|Hhi].
    { destruct (Z.leb_spec 48 (char_code ch)); [|reflexivity].
      destruct (Z.leb_spec (char_code ch) 57); [lia | reflexivity]. }
    cbn [orb].
    destruct (Z.leb_spec 48 (char_code ch)); [|lia].
    destruct (Z.leb_spec (char_code ch) 57); [|lia].
    cbn [andb].
    set (acc' := acc * 10 + (char_code ch - 48)).
    set (n := Z.of_nat (String.length (c_str rest))).
    assert (Hp : 0 < 10 ^ n) by (apply Z.pow_pos_nonneg; lia).
    assert (Htot :
      acc * 10 ^ Z.of_nat (String.length (String ch (c_str rest)))
      + decimal_value (String ch (c_str rest))
      = acc' * 10 ^ n + decimal_value (c_str rest)).
    { cbn [String.length decimal_value].
      rewrite Nat2Z.inj_succ, Z.pow_succ_r by lia. unfold acc', n. ring. }
    rewrite Htot.
    destruct (Z.gtb_spec acc' LILAC_MESH_MAX_C) as [Hov|Hov].
    + destruct (all_digits (c_str rest)) eqn:Hall; [|reflexivity].
      pose proof (decimal_value_nonneg _ Hall).
      cbn [andb].
      destruct (Z.leb_spec (acc' * 10 ^ n + decimal_value (c_str rest))
                           LILAC_MESH_MAX_C); [nia | reflexivity].
    + apply IH. unfold acc'. lia.
Qed.

Lemma parseNumber_value (pstr : string) :
  parseNumber pstr =
    if valid_number (c_str pstr) then decimal_value (c_str pstr) else -1.
Proof.
  unfold parseNumber, valid_number.
  destruct pstr as [|ch rest]; [reflexivity|].
  cbn [c_str]. destruct (char_code ch =? 0) eqn:Hnul; [reflexivity|].
  change (0 >=? 0) with true. cbv iota.
  rewrite parseNumber_loop_spec by (unfold LILAC_MESH_MAX_C; lia).
  cbn [c_str]. rewrite Hnul. cbn [String.eqb negb andb].
  rewrite Z.mul_0_l, Z.add_0_l. reflexivity.
Qed.

Lemma valid_number_range (s : string) :
  valid_number s = true -> 0 <= decimal_value s <= LILAC_MESH_MAX_C.
Proof.
  unfold valid_number. intros H.
  apply andb_prop in H as [H Hle]. apply andb_prop in H as [_ Hall].
  apply Z.leb_le in Hle. split; [apply decimal_value_nonneg, Hall | exact Hle].
Qed.

Lemma parseNumber_range (pstr : string) :
  parseNumber pstr = -1 \/ 0 <= parseNumber pstr <= LILAC_MESH_MAX_C.
Proof.
  rewrite parseNumber_value.
  destruct (valid_number (c_str pstr)) eqn:E; [right | left; reflexivity].
  now apply valid_number_range.
Qed.

(** C5.  [parseNumber] returns the decimal value of the string when the
    string is non-empty, consists of ASCII digits only (leading zeros
    allowed, no sign, no blank) and its value is at most 16384; in every
    other case it returns -1.  A successful result is in [0, 16384]. *)
Theorem parseNumber_decimal (pstr : string) :
  parseNumber pstr =
    (if valid_number (c_str pstr) then decimal_value (c_str pstr) else -1)
  /\ (parseNumber pstr = -1 \/ 0 <= parseNumber pstr <= LILAC_MESH_MAX_C)
  /\ (parseNumber pstr <> -1 <-> valid_number (c_str pstr) = true).
Proof.
  assert (Hmain : parseNumber pstr =
    if valid_number (c_str pstr) then decimal_value (c_str pstr) else -1).
  { unfold parseNumber, valid_number.
    destruct pstr as [|ch rest]; [reflexivity|].
    cbn [c_str]. destruct (char_code ch =? 0) eqn:Hnul; [reflexivity|].
    change (0 >=? 0) with true. cbv iota.
    rewrite parseNumber_loop_spec by (unfold LILAC_MESH_MAX_C; lia).
    cbn [c_str]. rewrite Hnul. cbn [String.eqb negb andb].
    rewrite Z.mul_0_l, Z.add_0_l. reflexivity. }
  split; [exact Hmain|].
  assert (Hrange : valid_number (c_str pstr) = true ->
                   0 <= decimal_value (c_str pstr) <= LILAC_MESH_MAX_C).
  { unfold valid_number. intros H.
    apply andb_prop in H as [H Hle]. apply andb_prop in H as [_ Hall].
    apply Z.leb_le in Hle. split; [apply decimal_value_nonneg, Hall | exact Hle]. }
  rewrite Hmain.
  destruct (valid_number (c_str pstr)).
  - specialize (Hrange eq_refl). split; [right; exact Hrange|].
    split; [reflexivity | lia].
  - split; [left; reflexivity|]. split; [congruence | discriminate].
Qed.

(** ** Arrays *)

Lemma load_Some {A : Type} (a : list A) (i : Z) (v : A) :
  load a i = Some v -> 0 <= i < len a.
Proof.
  unfold load, len. destruct (Z.ltb_spec i 0); [discriminate|].
  intros Hv. assert (Hn : nth_error a (Z.to_nat i) <> None) by congruence.
  apply nth_error_Some in Hn. lia.
Qed.

Lemma load_in_range {A : Type} (a : list A) (i : Z) :
  0 <= i < len a -> exists v, load a i = Some v.
Proof.
  unfold load, len. intros H. destruct (Z.ltb_spec i 0); [lia|].
  destruct (nth_error a (Z.to_nat i)) eqn:E; [eauto|].
  apply nth_error_None in E. lia.
Qed.

Lemma upd_length {A : Type} (a : list A) :
  forall n v, List.length (upd a n v) = List.length a.
Proof.
  induction a as [|h t IH]; intros [|n] v; simpl; auto.
Qed.

Lemma nth_error_upd {A : Type} (a : list A) :
  forall n m v, (n < List.length a)%nat ->
  nth_error (upd a n v) m = if Nat.eqb m n then Some v else nth_error a m.
Proof.
  induction a as [|h t IH]; intros [|n] [|m] v Hn; simpl in *;
    try lia; try reflexivity.
  apply IH. lia.
Qed.

Lemma store_in_range {A : Type} (a : list A) (i : Z) (v : A) :
  0 <= i < len a -> store a i v = Some (upd a (Z.to_nat i) v).
Proof.
  unfold store, len. intros H.
  destruct (Z.leb_spec 0 i); [|lia].
  destruct (Z.ltb_spec i (Z.of_nat (List.length a))); [reflexivity | lia].
Qed.

Lemma store_Some {A : Type} (a a' : list A) (i : Z) (v : A) :
  store a i v = Some a' ->
  0 <= i < len a /\ a' = upd a (Z.to_nat i) v.
Proof.
  unfold store, len.
  destruct (Z.leb_spec 0 i); [|discriminate].
  destruct (Z.ltb_spec i (Z.of_nat (List.length a))); [|discriminate].
  simpl. intros Hs; inversion Hs. split; [lia | reflexivity].
Qed.

Lemma store_len {A : Type} (a a' : list A) (i : Z) (v : A) :
  store a i v = Some a' -> len a' = len a.
Proof.
  intros H. apply store_Some in H as [_ ->]. unfold len.
  now rewrite upd_length.
Qed.

Lemma load_store {A : Type} (a a' : list A) (i j : Z) (v : A) :
  store a i v = Some a' ->
  load a' j = if j =? i then Some v else load a j.
Proof.
  intros H. apply store_Some in H as [Hi ->]. unfold load, len in *.
  destruct (Z.ltb_spec j 0).
  - destruct (Z.eqb_spec j i); [lia | reflexivity].
  - rewrite nth_error_upd by lia.
    destruct (Z.eqb_spec j i) as [->|Hne].
    + now rewrite Nat.eqb_refl.
    + destruct (Nat.eqb_spec (Z.to_nat j) (Z.to_nat i)); [lia | reflexivity].
Qed.

Lemma load_repeat {A : Type} (d : A) (n : nat) (i : Z) :
  0 <= i < Z.of_nat n -> load (repeat d n) i = Some d.
Proof.
  intros H. unfold load. destruct (Z.ltb_spec i 0); [lia|].
  rewrite nth_error_repeat by lia. reflexivity.
Qed.

Lemma len_repeat {A : Type} (d : A) (n : Z) :
  0 <= n -> len (repeat d (Z.to_nat n)) = n.
Proof. intros H. unfold len. rewrite repeat_length. lia. Qed.

(** ** Bits of a 32-bit word *)

Lemma bits32_dec (P : Z -> bool) (lo : Z) :
  0 <= lo ->
  (forall b, lo <= b < 32 -> P b = true) \/
  (exists b, lo <= b < 32 /\ P b = false).
Proof.
  intros Hlo.
  set (bits := map Z.of_nat (seq 0 32)).
  assert (Hin : forall b, 0 <= b < 32 -> In b bits).
  { intros b Hb. unfold bits. apply in_map_iff. exists (Z.to_nat b).
    split; [lia|]. apply in_seq. lia. }
  destruct (forallb (fun b => (b <? lo) || P b) bits) eqn:E.
  - left. intros b Hb. rewrite forallb_forall in E.
    specialize (E b (Hin b ltac:(lia))).
    destruct (Z.ltb_spec b lo); [lia | exact E].
  - right.
    assert (Hex : existsb (fun b => negb ((b <? lo) || P b)) bits = true).
    { clear Hin. induction bits as [|h t IH]; [discriminate|].
      simpl in *. destruct ((h <? lo) || P h); simpl in *; auto. }
    apply existsb_exists in Hex as [b [Hb Hneg]].
    unfold bits in Hb. apply in_map_iff in Hb as [k [<- Hk]].
    apply in_seq in Hk. apply negb_true_iff, orb_false_iff in Hneg as [H1 H2].
    apply Z.ltb_ge in H1. exists (Z.of_nat k). split; [lia | exact H2].
Qed.

Lemma testbit_u32_not (w b : Z) :
  0 <= b < 32 -> Z.testbit (u32_not w) b = negb (Z.testbit w b).
Proof.
  intros Hb. unfold u32_not, u32.
  rewrite <- Z.land_ones by lia.
  rewrite Z.land_spec, Z.lnot_spec, Z.ones_spec_low by lia.
  now rewrite andb_true_r.
Qed.

Lemma testbit_u32_not_high (w b : Z) :
  32 <= b -> Z.testbit (u32_not w) b = false.
Proof.
  intros Hb. unfold u32_not, u32.
  rewrite <- Z.land_ones by lia.
  rewrite Z.land_spec, Z.ones_spec_high by lia.
  now rewrite andb_false_r.
Qed.

(** [~(w | mask)] is non-zero exactly when a bit of [w] above the [k]
    low bits covered by the mask is clear. *)
Lemma u32_not_lor_ones (w k : Z) :
  0 <= k <= 32 ->
  (u32_not (Z.lor w (Z.ones k)) =? 0) = false <->
  exists b, k <= b < 32 /\ Z.testbit w b = false.
Proof.
  intros Hk. split.
  - intros Hnz. apply Z.eqb_neq in Hnz.
    destruct (bits32_dec (Z.testbit w) k ltac:(lia)) as [Hall|Hex]; [|exact Hex].
    exfalso. apply Hnz. apply Z.bits_inj'. intros b Hb.
    rewrite Z.bits_0.
    destruct (Z.lt_ge_cases b 32) as [Hlt|Hge].
    + rewrite testbit_u32_not, Z.lor_spec by lia.
      destruct (Z.lt_ge_cases b k) as [Hbk|Hbk].
      * rewrite Z.ones_spec_low by lia. now rewrite orb_true_r.
      * rewrite Hall by lia. reflexivity.
    + apply testbit_u32_not_high, Hge.
  - intros [b [Hb Hclear]]. apply Z.eqb_neq. intros Hz.
    assert (Hbit : Z.testbit (u32_not (Z.lor w (Z.ones k))) b = true).
    { rewrite testbit_u32_not, Z.lor_spec, Hclear by lia.
      rewrite Z.ones_spec_high by lia. reflexivity. }
    rewrite Hz, Z.bits_0 in Hbit. discriminate.
Qed.

Lemma u32_not_nonzero (w : Z) :
  (u32_not w =? 0) = false <->
  exists b, 0 <= b < 32 /\ Z.testbit w b = false.
Proof.
  rewrite <- (u32_not_lor_ones w 0) by lia.
  change (Z.ones 0) with 0. now rewrite Z.lor_0_r.
Qed.

(** The mask [UINT32_C(1) << shift]. *)
Lemma mask_bit (shift : Z) :
  0 <= shift <= 31 -> u32 (Z.shiftl 1 shift) = 2 ^ shift.
Proof.
  intros H. unfold u32. rewrite Z.shiftl_1_l.
  apply Z.mod_small. split; [apply Z.pow_nonneg; lia|].
  apply Z.pow_lt_mono_r; lia.
Qed.

Lemma testbit_lor_mask (w shift b : Z) :
  0 <= shift <= 31 -> 0 <= b ->
  Z.testbit (Z.lor w (u32 (Z.shiftl 1 shift))) b
  = Z.testbit w b || (b =? shift).
Proof.
  intros Hs Hb. rewrite mask_bit, Z.lor_spec, Z.pow2_bits_eqb by lia.
  now rewrite (Z.eqb_sym shift b).
Qed.

Lemma land_mask_zero (w shift : Z) :
  0 <= shift <= 31 ->
  (Z.land w (u32 (Z.shiftl 1 shift)) =? 0) = negb (Z.testbit w shift).
Proof.
  intros Hs. rewrite mask_bit by lia.
  destruct (Z.testbit w shift) eqn:Hbit; simpl.
  - apply Z.eqb_neq. intros Hz.
    assert (Hb : Z.testbit (Z.land w (2 ^ shift)) shift = true).
    { rewrite Z.land_spec, Hbit, Z.pow2_bits_true by lia. reflexivity. }
    rewrite Hz, Z.bits_0 in Hb. discriminate.
  - apply Z.eqb_eq. apply Z.bits_inj'. intros b Hb.
    rewrite Z.land_spec, Z.bits_0, Z.pow2_bits_eqb by lia.
    destruct (Z.eqb_spec shift b) as [<-|]; [now rewrite Hbit|].
    now rewrite andb_false_r.
Qed.

(** ** Usage map *)

Lemma block_count_range (bits i : Z) :
  0 <= i < bits -> 0 <= i / 32 < block_count bits.
Proof.
  intros H. unfold block_count.
  destruct (Z.eqb_spec (bits mod 32) 0) as [Hz|Hnz]; simpl;
    Z.div_mod_to_equations; lia.
Qed.

Lemma block_count_nonneg (bits : Z) : 0 <= bits -> 0 <= block_count bits.
Proof.
  intros H. unfold block_count.
  destruct (bits mod 32 =? 0); simpl; Z.div_mod_to_equations; lia.
Qed.

Lemma shift_range (i : Z) : 0 <= 31 - i mod 32 <= 31.
Proof. Z.div_mod_to_equations; lia. Qed.

Lemma same_bit_iff (i j : Z) :
  i / 32 = j / 32 -> (31 - j mod 32 =? 31 - i mod 32) = (j =? i).
Proof.
  intros H.
  destruct (Z.eqb_spec j i) as [->|Hne]; [apply Z.eqb_refl|].
  apply Z.eqb_neq. Z.div_mod_to_equations; lia.
Qed.

Lemma usage_map_dim_ok (pM : USAGE_MAP) (n : Z) :
  0 <= n <= LILAC_MESH_MAX_POINTS ->
  exists pM',
    usage_map_dim pM n = Some pM' /\ um_wf pM' /\ um_point_count pM' = n /\
    (forall i, point_used pM' i = false) /\
    (forall i1 i2, edge_used pM' i1 i2 = false) /\
    um_calls pM' = um_calls pM.
Proof.
  intros Hn. unfold usage_map_dim.
  destruct (Z.ltb_spec n 0); [lia|].
  destruct (Z.gtb_spec n LILAC_MESH_MAX_POINTS); [lia|]. simpl orb. cbv iota.
  assert (Hzero : forall (k : Z) i b,
             match load (calloc_u32 k) i with
             | Some w => Z.testbit w b
             | None => false
             end = false).
  { intros k i b. destruct (load (calloc_u32 k) i) eqn:E; [|reflexivity].
    unfold load, calloc_u32 in E. destruct (i <? 0); [discriminate|].
    apply nth_error_In, repeat_spec in E. subst. apply Z.bits_0. }
  destruct (Z.gtb_spec n 0) as [Hpos|Hzero'].
  - eexists. split; [reflexivity|]. unfold um_wf, point_used, edge_used; simpl.
    repeat split; try lia; try (intros; apply Hzero).
    + unfold calloc_u32. apply len_repeat, block_count_nonneg. lia.
    + unfold calloc_u32. apply len_repeat, block_count_nonneg. nia.
  - assert (n = 0) by lia. subst n.
    eexists. split; [reflexivity|]. unfold um_wf, point_used, edge_used; simpl.
    repeat split; try lia; try reflexivity.
    + intros i. unfold load. destruct (i / 32 <? 0); [reflexivity|].
      now destruct (Z.to_nat (i / 32)).
    + intros i1 i2. unfold load. destruct ((i1 * 0 + i2) / 32 <? 0); [reflexivity|].
      now destruct (Z.to_nat ((i1 * 0 + i2) / 32)).
Qed.

Lemma usage_map_point_ok (pM : USAGE_MAP) (i : Z) :
  um_wf pM -> 0 <= i < um_point_count pM ->
  exists pM',
    usage_map_point pM i = Some pM' /\ um_wf pM' /\
    um_point_count pM' = um_point_count pM /\
    pEdgeUse pM' = pEdgeUse pM /\
    (forall j, point_used pM' j = (j =? i) || point_used pM j) /\
    um_calls pM' = CallPoint (um_point_count pM) i :: um_calls pM.
Proof.
  intros (Hn & Hpl & Hel) Hi. unfold usage_map_point.
  destruct (Z.ltb_spec i 0); [lia|].
  destruct (Z.geb_spec i (um_point_count pM)); [lia|]. simpl orb. cbv iota.
  pose proof (block_count_range _ _ Hi) as Hoffs. rewrite <- Hpl in Hoffs.
  destruct (load_in_range _ _ Hoffs) as [w Hw].
  rewrite Hw. cbn [bind].
  rewrite (store_in_range _ _ _ Hoffs). cbn [bind].
  eexists. split; [reflexivity|].
  assert (Hst := store_in_range (pPointUse pM) (i / 32)
                   (Z.lor w (u32 (Z.shiftl 1 (31 - i mod 32)))) Hoffs).
  unfold um_wf, point_used. cbn [pPointUse pEdgeUse um_point_count um_calls].
  repeat split; try lia; try reflexivity.
  - unfold len. rewrite upd_length. exact Hpl.
  - intros j. rewrite (load_store _ _ _ (j / 32) _ Hst).
    destruct (Z.eqb_spec (j / 32) (i / 32)) as [Heq|Hne].
    + rewrite testbit_lor_mask by apply shift_range.
      rewrite <- Heq in Hw. rewrite Heq in Hw. rewrite Heq, Hw.
      rewrite same_bit_iff by congruence. apply orb_comm.
    + destruct (Z.eqb_spec j i) as [->|_]; [congruence | reflexivity].
Qed.

Lemma edge_index_inj (n i1 i2 j1 j2 : Z) :
  0 <= i2 < n -> 0 <= j2 < n ->
  (j1 * n + j2 =? i1 * n + i2) = (j1 =? i1) && (j2 =? i2).
Proof.
  intros Hi Hj.
  destruct (Z.eqb_spec j1 i1) as [->|H1]; simpl.
  - destruct (Z.eqb_spec j2 i2) as [->|H2]; [apply Z.eqb_refl|].
    apply Z.eqb_neq. lia.
  - apply Z.eqb_neq. nia.
Qed.

Lemma usage_map_edge_ok (pM : USAGE_MAP) (i1 i2 : Z) :
  um_wf pM ->
  0 <= i1 < um_point_count pM -> 0 <= i2 < um_point_count pM ->
  exists pM',
    usage_map_edge pM i1 i2
      = Some ((if edge_used pM i1 i2 then 0 else 1), pM') /\
    um_wf pM' /\
    um_point_count pM' = um_point_count pM /\
    pPointUse pM' = pPointUse pM /\
    (forall j1 j2, 0 <= j2 < um_point_count pM ->
       edge_used pM' j1 j2
       = ((j1 =? i1) && (j2 =? i2)) || edge_used pM j1 j2) /\
    um_calls pM' = CallEdge (um_point_count pM) i1 i2 :: um_calls pM.
Proof.
  intros (Hn & Hpl & Hel) H1 H2. unfold usage_map_edge.
  destruct (Z.ltb_spec i1 0); [lia|].
  destruct (Z.geb_spec i1 (um_point_count pM)); [lia|].
  destruct (Z.ltb_spec i2 0); [lia|].
  destruct (Z.geb_spec i2 (um_point_count pM)); [lia|]. simpl orb. cbv iota.
  set (n := um_point_count pM) in *.
  set (ix := i1 * n + i2).
  assert (Hix : 0 <= ix < n * n) by (unfold ix; nia).
  pose proof (block_count_range _ _ Hix) as Hoffs. rewrite <- Hel in Hoffs.
  destruct (load_in_range _ _ Hoffs) as [w Hw].
  cbv zeta. rewrite Hw. cbn [bind].
  rewrite land_mask_zero by apply shift_range.
  unfold edge_used at 1. fold n. fold ix. rewrite Hw.
  destruct (Z.testbit w (31 - ix mod 32)) eqn:Hbit; cbn [negb].
  - eexists. split; [reflexivity|].
    unfold um_wf, edge_used. cbn [pPointUse pEdgeUse um_point_count um_calls].
    fold n. repeat split; try lia; try reflexivity; try assumption.
    intros j1 j2 Hj2.
    rewrite <- (edge_index_inj n i1 i2 j1 j2) by lia. fold ix.
    destruct (Z.eqb_spec (j1 * n + j2) ix) as [->|_]; [|reflexivity].
    now rewrite Hw, Hbit.
  - assert (Hst := store_in_range (pEdgeUse pM) (ix / 32)
                     (Z.lor w (u32 (Z.shiftl 1 (31 - ix mod 32)))) Hoffs).
    rewrite Hst. cbn [bind].
    eexists. split; [reflexivity|].
    unfold um_wf, edge_used. cbn [pPointUse pEdgeUse um_point_count um_calls].
    fold n. repeat split; try lia; try reflexivity; try assumption.
    + unfold len. rewrite upd_length. exact Hel.
    + intros j1 j2 Hj2.
      rewrite <- (edge_index_inj n i1 i2 j1 j2) by lia. fold ix.
      set (jx := j1 * n + j2).
      rewrite (load_store _ _ _ (jx / 32) _ Hst).
      destruct (Z.eqb_spec (jx / 32) (ix / 32)) as [Heq|Hne].
      * rewrite testbit_lor_mask by apply shift_range.
        rewrite Heq, Hw. rewrite same_bit_iff by congruence. apply orb_comm.
      * destruct (Z.eqb_spec jx ix) as [Hx|_]; [congruence | reflexivity].
Qed.

Lemma orphan_full_blocks_spec (points : list Z) :
  forall fuel i, 0 <= i -> i + Z.of_nat fuel <= len points ->
  exists r,
    orphan_full_blocks points i fuel = Some r /\ (r = 0 \/ r = 1) /\
    (r <> 0 <->
     exists j, 32 * i <= j < 32 * (i + Z.of_nat fuel) /\ bit_of points j = false).
Proof.
  induction fuel as [|fuel IH]; intros i Hi Hlen.
  - exists 0. split; [reflexivity|]. split; [now left|].
    split; [congruence|]. intros [j [Hj _]]. lia.
  - cbn [orphan_full_blocks].
    destruct (load_in_range points i ltac:(lia)) as [w Hw].
    rewrite Hw. cbn [bind].
    destruct (u32_not w =? 0) eqn:Hz; cbn [negb].
    + destruct (IH (i + 1) ltac:(lia) ltac:(lia)) as (r & Hr & Hr01 & Hiff).
      exists r. split; [exact Hr|]. split; [exact Hr01|].
      rewrite Hiff. split; intros [j [Hj Hclear]]; exists j.
      * split; [lia | exact Hclear].
      * split; [|exact Hclear].
        destruct (Z.lt_ge_cases j (32 * (i + 1))) as [Hlow|]; [|lia].
        exfalso.
        assert (Hblock : j / 32 = i) by (Z.div_mod_to_equations; lia).
        unfold bit_of in Hclear. rewrite Hblock, Hw in Hclear.
        assert (Hnz : (u32_not w =? 0) = false).
        { apply u32_not_nonzero. exists (31 - j mod 32).
          split; [pose proof (shift_range j); lia | exact Hclear]. }
        congruence.
    + exists 1. split; [reflexivity|]. split; [now right|].
      split; [|lia]. intros _.
      apply u32_not_nonzero in Hz as [b [Hb Hclear]].
      exists (32 * i + (31 - b)).
      assert (Hblock : (32 * i + (31 - b)) / 32 = i)
        by (Z.div_mod_to_equations; lia).
      assert (Hbit : 31 - (32 * i + (31 - b)) mod 32 = b)
        by (Z.div_mod_to_equations; lia).
      split; [lia|]. unfold bit_of. now rewrite Hblock, Hw, Hbit.
Qed.

Lemma tail_mask (extra : Z) :
  0 < extra < 32 -> u32 (Z.shiftl 1 (32 - extra) - 1) = Z.ones (32 - extra).
Proof.
  intros H. unfold u32. rewrite Z.shiftl_1_l, Z.ones_equiv, <- Z.sub_1_r.
  apply Z.mod_small.
  assert (0 < 2 ^ (32 - extra)) by (apply Z.pow_pos_nonneg; lia).
  assert (2 ^ (32 - extra) < 2 ^ 32) by (apply Z.pow_lt_mono_r; lia).
  lia.
Qed.

Lemma usage_map_orphan_spec (pM : USAGE_MAP) :
  len (pPointUse pM) = block_count (um_point_count pM) ->
  exists r,
    usage_map_orphan pM = Some r /\ (r = 0 \/ r = 1) /\
    (r <> 0 <->
     exists j, 0 <= j < um_point_count pM /\ point_used pM j = false).
Proof.
  intros Hpl. unfold usage_map_orphan.
  set (n := um_point_count pM) in *.
  destruct (Z.gtb_spec n 0) as [Hpos|Hzero].
  2:{ exists 0. split; [reflexivity|]. split; [now left|].
      split; [congruence|]. intros [j [Hj _]]. lia. }
  cbv zeta.
  set (full := n / 32). set (extra := n mod 32).
  assert (Hsplit : n = 32 * full + extra /\ 0 <= extra < 32 /\ 0 <= full)
    by (unfold full, extra; Z.div_mod_to_equations; lia).
  destruct Hsplit as (Hsplit & Hextra & Hfull).
  assert (Hlen : len (pPointUse pM) = if extra =? 0 then full else full + 1).
  { rewrite Hpl. unfold block_count. fold extra. fold full.
    now destruct (extra =? 0). }
  destruct (orphan_full_blocks_spec (pPointUse pM) (Z.to_nat full) 0
              ltac:(lia) ltac:(destruct (extra =? 0); lia))
    as (r & Hr & Hr01 & Hiff).
  rewrite Hr. cbn [bind].
  replace (32 * (0 + Z.of_nat (Z.to_nat full))) with (32 * full) in Hiff by lia.
  change (exists j, 32 * 0 <= j < 32 * full /\ bit_of (pPointUse pM) j = false)
    with (exists j, 0 <= j < 32 * full /\ point_used pM j = false) in Hiff.
  destruct (Z.eqb_spec r 0) as [Hr0|Hr1]; cbn [andb].
  - destruct (Z.gtb_spec extra 0) as [Hex|Hex].
    + destruct (Z.eqb_spec extra 0) as [|_]; [lia|].
      destruct (load_in_range (pPointUse pM) full ltac:(lia)) as [w Hw].
      rewrite Hw. cbn [bind]. rewrite tail_mask by lia.
      assert (Hfullclear : forall j, 0 <= j < 32 * full ->
                point_used pM j = true).
      { intros j Hj. destruct (point_used pM j) eqn:E; [reflexivity|].
        exfalso. apply (proj2 Hiff); [eauto | exact Hr0]. }
      destruct (u32_not (Z.lor w (Z.ones (32 - extra))) =? 0) eqn:Hz; cbn [negb].
      * exists r. split; [reflexivity|]. split; [exact Hr01|].
        split; [congruence|]. intros [j [Hj Hclear]]. exfalso.
        destruct (Z.lt_ge_cases j (32 * full)) as [Hlow|Hhigh].
        { rewrite Hfullclear in Hclear by lia. discriminate. }
        assert (Hblock : j / 32 = full) by (Z.div_mod_to_equations; lia).
        unfold point_used in Hclear. rewrite Hblock, Hw in Hclear.
        assert (Hnz : (u32_not (Z.lor w (Z.ones (32 - extra))) =? 0) = false).
        { apply u32_not_lor_ones; [lia|]. exists (31 - j mod 32).
          split; [Z.div_mod_to_equations; lia | exact Hclear]. }
        congruence.
      * exists 1. split; [reflexivity|]. split; [now right|].
        split; [|lia]. intros _.
        apply u32_not_lor_ones in Hz as [b [Hb Hclear]]; [|lia].
        exists (32 * full + (31 - b)).
        assert (Hblock : (32 * full + (31 - b)) / 32 = full)
          by (Z.div_mod_to_equations; lia).
        assert (Hbit : 31 - (32 * full + (31 - b)) mod 32 = b)
          by (Z.div_mod_to_equations; lia).
        split; [lia|]. unfold point_used. now rewrite Hblock, Hw, Hbit.
    + exists r. split; [reflexivity|]. split; [exact Hr01|].
      assert (extra = 0) by lia.
      rewrite Hiff. replace n with (32 * full) by lia. reflexivity.
  - exists r. split; [reflexivity|]. split; [exact Hr01|].
    split; [|intros _; exact Hr1]. intros _.
    destruct (proj1 Hiff Hr1) as [j [Hj Hclear]].
    exists j. split; [lia | exact Hclear].
Qed.

Lemma mark_points_ok (marks : list Z) :
  forall pM,
  um_wf pM -> Forall (fun i => 0 <= i < um_point_count pM) marks ->
  exists pM',
    mark_points pM marks = Some pM' /\ um_wf pM' /\
    um_point_count pM' = um_point_count pM /\
    (forall j, point_used pM' j = true <->
               In j marks \/ point_used pM j = true).
Proof.
  induction marks as [|i rest IH]; intros pM Hwf Hall.
  - exists pM. split; [reflexivity|]. split; [exact Hwf|].
    split; [reflexivity|]. intros j. split; [now right|].
    intros [[]|H]; exact H.
  - inversion Hall as [|? ? Hi Hrest]; subst.
    destruct (usage_map_point_ok pM i Hwf Hi)
      as (pM1 & Hcall & Hwf1 & Hn1 & _ & Hbits & _).
    rewrite <- Hn1 in Hrest.
    destruct (IH pM1 Hwf1 Hrest) as (pM' & Hmarks & Hwf' & Hn' & Hbits').
    exists pM'. cbn [mark_points]. rewrite Hcall. cbn [bind].
    split; [exact Hmarks|]. split; [exact Hwf'|].
    split; [congruence|]. intros j. split.
    + intros Hj. apply Hbits' in Hj as [Hj|Hj]; [left; now right|].
      rewrite Hbits in Hj. apply orb_prop in Hj as [Hj|Hj]; [|now right].
      apply Z.eqb_eq in Hj. left; left. congruence.
    + intros [[Hj|Hj]|Hj]; apply Hbits'.
      * right. rewrite Hbits. subst j. now rewrite Z.eqb_refl.
      * now left.
      * right. rewrite Hbits, Hj. apply orb_true_r.
Qed.

(** C6.  After dimensioning the usage map for [n] points and any
    sequence of [usage_map_point] calls with indices in [0, n),
    [usage_map_orphan] returns non-zero exactly when some index in [0, n)
    has not been marked.  For [n = 0] the result is zero.  The result
    only depends on the bits of the indices below [n]: any map with the
    same point count and array size that agrees on those bits, whatever
    the remaining bits of its last word are, gives the same result. *)
Theorem usage_map_orphan_marks (n : Z) (marks : list Z) :
  0 <= n <= LILAC_MESH_MAX_POINTS ->
  Forall (fun i => 0 <= i < n) marks ->
  exists pM0 pM r,
    usage_map_dim usage_map_init n = Some pM0 /\
    mark_points pM0 marks = Some pM /\
    usage_map_orphan pM = Some r /\
    (r <> 0 <-> exists i, 0 <= i < n /\ ~ In i marks) /\
    (n = 0 -> r = 0) /\
    (forall pM',
       um_point_count pM' = n ->
       len (pPointUse pM') = len (pPointUse pM) ->
       (forall i, 0 <= i < n -> point_used pM' i = point_used pM i) ->
       usage_map_orphan pM' = Some r).
Proof.
  intros Hn Hall.
  destruct (usage_map_dim_ok usage_map_init n Hn)
    as (pM0 & Hdim & Hwf0 & Hn0 & Hclear & _).
  rewrite <- Hn0 in Hall.
  destruct (mark_points_ok marks pM0 Hwf0 Hall)
    as (pM & Hmarks & Hwf & Hcount & Hbits).
  destruct Hwf as (Hrange & Hpl & Hel).
  destruct (usage_map_orphan_spec pM Hpl) as (r & Hr & Hr01 & Hiff).
  exists pM0, pM, r. rewrite Hcount, Hn0 in Hiff.
  assert (Hmarked : forall i, point_used pM i = false <-> ~ In i marks).
  { intros i. split.
    - intros Hf Hin. assert (point_used pM i = true) by (apply Hbits; now left).
      congruence.
    - intros Hnin. destruct (point_used pM i) eqn:E; [|reflexivity].
      apply Hbits in E as [E|E]; [contradiction|].
      rewrite Hclear in E. discriminate. }
  repeat split; auto.
  - intros Hnz. apply Hiff in Hnz as [i [Hi Hf]].
    exists i. split; [exact Hi | now apply Hmarked].
  - intros [i [Hi Hnin]]. apply Hiff. exists i.
    split; [exact Hi | now apply Hmarked].
  - intros Hz. destruct Hr01 as [|Hone]; [assumption|].
    exfalso. assert (Hnz : r <> 0) by lia.
    apply Hiff in Hnz as [i [Hi _]]. lia.
  - intros pM' Hn' Hlen' Hagree.
    assert (Hpl' : len (pPointUse pM') = block_count (um_point_count pM'))
      by congruence.
    destruct (usage_map_orphan_spec pM' Hpl') as (r' & Hr' & Hr01' & Hiff').
    rewrite Hr'. f_equal. rewrite Hn' in Hiff'.
    assert (Hsame : r' <> 0 <-> r <> 0).
    { rewrite Hiff, Hiff'. split; intros [i [Hi Hf]]; exists i;
        (split; [exact Hi|]); [rewrite <- Hagree | rewrite Hagree]; auto. }
    destruct Hr01 as [-> | ->], Hr01' as [-> | ->]; try reflexivity;
      exfalso; [apply (proj1 Hsame) | apply (proj2 Hsame)]; congruence.
Qed.

Lemma usage_map_orphan_marks_witness :
  0 <= 34 <= LILAC_MESH_MAX_POINTS /\
  Forall (fun i => 0 <= i < 34) [33; 0; 33] /\
  exists pM0 pM r,
    usage_map_dim usage_map_init 34 = Some pM0 /\
    mark_points pM0 [33; 0; 33] = Some pM /\
    usage_map_orphan pM = Some r /\
    (r <> 0 <-> exists i, 0 <= i < 34 /\ ~ In i [33; 0; 33]) /\
    (34 = 0 -> r = 0) /\
    (forall pM',
       um_point_count pM' = 34 ->
       len (pPointUse pM') = len (pPointUse pM) ->
       (forall i, 0 <= i < 34 -> point_used pM' i = point_used pM i) ->
       usage_map_orphan pM' = Some r).
Proof.
  assert (Hn : 0 <= 34 <= LILAC_MESH_MAX_POINTS)
    by (unfold LILAC_MESH_MAX_POINTS; lia).
  assert (Hmarks : Forall (fun i => 0 <= i < 34) [33; 0; 33])
    by (repeat constructor; lia).
  split; [exact Hn|]. split; [exact Hmarks|].
  apply (usage_map_orphan_marks 34 [33; 0; 33] Hn Hmarks).
Defined.

(** C7 (as the code behaves).  With equal indices inside the dimensioned
    range [usage_map_edge] does not abort: on a fresh map for two points
    the call for the edge 1 -> 1 returns the non-zero status and marks
    the bit of that edge. *)
Theorem usage_map_edge_equal_indices_returns :
  exists pM pM',
    usage_map_dim usage_map_init 2 = Some pM /\
    usage_map_edge pM 1 1 = Some (1, pM') /\
    edge_used pM' 1 1 = true.
Proof.
  eexists. eexists. split; [reflexivity|]. split; reflexivity.
Qed.


Lemma cross_k_sign (pA pB pC : LILAC_MESH_POINT) :
  Qgtb (cross_k pA pB pC) 0 = (0 <? cross_Z pA pB pC).
Proof.
  destruct pA as [d1 a1 x1 y1], pB as [d2 a2 x2 y2], pC as [d3 a3 x3 y3].
  unfold Qgtb, cross_k, cross_Z, normalized, LILAC_MESH_MAX_C.
  cbn [x y Qnum Qden Qminus Qplus Qmult Qdiv Qinv Qopp inject_Z
       Pos.mul Pos.add].
  set (c := (x2 - x1) * (y3 - y1) - (y2 - y1) * (x3 - x1)).
  match goal with
  | |- (_ <? ?b) = _ => replace b with (c * 2 ^ 84) by (unfold c; ring)
  end.
  rewrite Z.mul_0_l.
  destruct (Z.ltb_spec 0 c); destruct (Z.ltb_spec 0 (c * 2 ^ 84));
    try reflexivity; lia.
Qed.

Lemma load_nth {A : Type} (a : list A) (i : Z) (v d : A) :
  load a i = Some v -> nth (Z.to_nat i) a d = v.
Proof.
  unfold load. destruct (i <? 0); [discriminate|].
  intros H. now apply nth_error_nth.
Qed.

Lemma op_t_edge_ok (pUm : USAGE_MAP) (i1 i2 errCode : Z) :
  um_wf pUm ->
  0 <= i1 < um_point_count pUm -> 0 <= i2 < um_point_count pUm ->
  exists pUm',
    op_t_edge i1 i2 (true, errCode, pUm)
      = Some (if edge_used pUm i1 i2
              then (false, LILAC_MESH_ERR_DUPEDG, pUm')
              else (true, errCode, pUm')) /\
    um_wf pUm' /\
    um_point_count pUm' = um_point_count pUm /\
    pPointUse pUm' = pPointUse pUm /\
    (forall j1 j2, 0 <= j2 < um_point_count pUm ->
       edge_used pUm' j1 j2
       = ((j1 =? i1) && (j2 =? i2)) || edge_used pUm j1 j2) /\
    um_calls pUm' = CallEdge (um_point_count pUm) i1 i2 :: um_calls pUm.
Proof.
  intros Hwf H1 H2.
  destruct (usage_map_edge_ok pUm i1 i2 Hwf H1 H2)
    as (pUm' & Hcall & Hrest).
  exists pUm'. split; [|exact Hrest].
  unfold op_t_edge. rewrite Hcall. cbn [bind].
  now destruct (edge_used pUm i1 i2).
Qed.

(** ** The triangle operation *)

Ltac zcases :=
  repeat match goal with
  | H : context [Z.geb ?a ?b] |- _ => destruct (Z.geb_spec a b)
  | H : context [Z.gtb ?a ?b] |- _ => destruct (Z.gtb_spec a b)
  | H : context [Z.ltb ?a ?b] |- _ => destruct (Z.ltb_spec a b)
  | H : context [Z.leb ?a ?b] |- _ => destruct (Z.leb_spec a b)
  | H : context [Z.eqb ?a ?b] |- _ => destruct (Z.eqb_spec a b)
  | |- context [Z.geb ?a ?b] => destruct (Z.geb_spec a b)
  | |- context [Z.gtb ?a ?b] => destruct (Z.gtb_spec a b)
  | |- context [Z.ltb ?a ?b] => destruct (Z.ltb_spec a b)
  | |- context [Z.leb ?a ?b] => destruct (Z.leb_spec a b)
  | |- context [Z.eqb ?a ?b] => destruct (Z.eqb_spec a b)
  end.

Lemma load_point (pM : LILAC_MESH) (v : Z) :
  0 <= v < len (pPoints pM) -> load (pPoints pM) v = Some (point_at pM v).
Proof.
  intros H. destruct (load_in_range _ _ H) as [p Hp].
  rewrite Hp. f_equal. symmetry. now apply load_nth.
Qed.

Lemma load_tri (pM : LILAC_MESH) (k : Z) :
  0 <= k < len (pTris pM) -> load (pTris pM) k = Some (tri_elem pM k).
Proof.
  intros H. destruct (load_in_range _ _ H) as [p Hp].
  rewrite Hp. f_equal. symmetry. now apply load_nth.
Qed.

Lemma um_step_refl (pUm : USAGE_MAP) : um_wf pUm -> um_step pUm pUm [].
Proof. intros H. repeat split; try apply H. constructor. Qed.

Lemma op_t_spec v1 v2 v3 pM ptsWritten triWritten pUm errCode :
  op_t_pre v1 v2 v3 pM ptsWritten triWritten pUm ->
  op_t_post v1 v2 v3 pM ptsWritten triWritten pUm errCode
    (op_t v1 v2 v3 pM ptsWritten triWritten pUm errCode).
Proof.
  intros (Hv1 & Hv2 & Hv3 & Hpts & Hplen & Hpum & Hwf & Htri & Htlen).
  unfold op_t_post, op_t, first_failure, triangle_checks.
  destruct (Z.gtb_spec v1 LILAC_MESH_MAX_C); [lia|].
  destruct (Z.gtb_spec v2 LILAC_MESH_MAX_C); [lia|].
  destruct (Z.gtb_spec v3 LILAC_MESH_MAX_C); [lia|].
  destruct (Z.ltb_spec ptsWritten 0); [lia|].
  destruct (Z.gtb_spec ptsWritten LILAC_MESH_MAX_POINTS); [lia|].
  cbn [orb]. cbv iota.
  pose proof (um_step_refl pUm Hwf) as Hrefl.
  (* PTREF *)
  change ((v1 >=? ptsWritten) || (v2 >=? ptsWritten) || (v3 >=? ptsWritten))
    with (fails_PTREF v1 v2 v3 ptsWritten).
  destruct (fails_PTREF v1 v2 v3 ptsWritten) eqn:E1;
    cbn [find snd fst option_map]; cbv beta iota zeta delta [bind andb].
  { cbv beta iota zeta delta [op_t_edge]. exists pUm, []. auto. }
  assert (Hdef : v1 < ptsWritten /\ v2 < ptsWritten /\ v3 < ptsWritten).
  { unfold fails_PTREF in E1. zcases; cbn in E1; try discriminate; lia. }
  (* VXDUP *)
  change ((v1 =? v2) || (v2 =? v3) || (v1 =? v3)) with (fails_VXDUP v1 v2 v3).
  destruct (fails_VXDUP v1 v2 v3) eqn:E2;
    cbn [find snd fst option_map]; cbv beta iota zeta delta [bind andb].
  { cbv beta iota zeta delta [op_t_edge]. exists pUm, []. auto. }
  assert (Hdist : v1 <> v2 /\ v2 <> v3 /\ v1 <> v3).
  { unfold fails_VXDUP in E2. zcases; cbn in E2; try discriminate; lia. }
  (* VXORD *)
  change ((v2 <? v1) || (v3 <? v1)) with (fails_VXORD v1 v2 v3).
  destruct (fails_VXORD v1 v2 v3) eqn:E3;
    cbn [find snd fst option_map]; cbv beta iota zeta delta [bind andb].
  { cbv beta iota zeta delta [op_t_edge]. exists pUm, []. auto. }
  (* ORIENT *)
  rewrite !load_point by lia. cbv beta iota zeta delta [bind andb].
  rewrite cross_k_sign.
  replace (negb (0 <? cross_Z (point_at pM v1) (point_at pM v2) (point_at pM v3)))
    with (fails_ORIENT pM v1 v2 v3)
    by (unfold fails_ORIENT; zcases; reflexivity || lia).
  destruct (fails_ORIENT pM v1 v2 v3) eqn:E4;
    cbn [find snd fst option_map]; cbv beta iota zeta delta [bind andb].
  { cbv beta iota zeta delta [op_t_edge]. exists pUm, []. auto. }
  (* TRSORT *)
  match goal with
  | |- context [match (if triWritten >? 0 then ?body else ?other) with _ => _ end] =>
      assert (Hsort : (if triWritten >? 0 then body else other)
                = if fails_TRSORT pM triWritten v1 v2
                  then Some (false, LILAC_MESH_ERR_TRSORT)
                  else Some (true, errCode))
  end.
  { unfold fails_TRSORT. destruct (Z.gtb_spec triWritten 0); [|reflexivity].
    rewrite !load_tri by lia. cbv beta iota zeta delta [bind andb].
    zcases; cbn; reflexivity || lia. }
  rewrite Hsort. clear Hsort.
  destruct (fails_TRSORT pM triWritten v1 v2) eqn:E5;
    cbn [find snd fst option_map]; cbv beta iota zeta delta [bind andb].
  { cbv beta iota zeta delta [op_t_edge]. exists pUm, []. auto. }
  (* TROVER *)
  change (triWritten >=? tri_count pM) with (fails_TROVER pM triWritten).
  destruct (fails_TROVER pM triWritten) eqn:E6;
    cbn [find snd fst option_map]; cbv beta iota zeta delta [bind andb].
  { cbv beta iota zeta delta [op_t_edge]. exists pUm, []. auto. }
  assert (Hroom : triWritten < tri_count pM).
  { unfold fails_TROVER in E6. zcases; try discriminate; lia. }
  (* DUPEDG, first edge *)
  pose proof Hwf as (Hn & Hpl & Hel).
  set (n := um_point_count pUm) in *.
  destruct (op_t_edge_ok pUm v1 v2 errCode Hwf ltac:(lia) ltac:(lia))
    as (pUm1 & Hcall1 & Hwf1 & Hn1 & Hp1 & He1 & Hc1).
  rewrite Hcall1. fold n in Hn1, He1, Hc1.
  assert (Hok1 : call_ok (CallEdge n v1 v2)) by (cbn; lia).
  assert (Hok2 : call_ok (CallEdge n v2 v3)) by (cbn; lia).
  assert (Hok3 : call_ok (CallEdge n v3 v1)) by (cbn; lia).
  destruct (edge_used pUm v1 v2) eqn:E7;
    cbn [find snd fst option_map]; cbv beta iota zeta delta [bind andb].
  { cbv beta iota zeta delta [op_t_edge]. exists pUm1, [CallEdge n v1 v2].
    split; [reflexivity|]. split; [|split; [exact Hp1 | congruence]].
    repeat split; try apply Hwf1; auto. }
  (* second edge *)
  destruct (op_t_edge_ok pUm1 v2 v3 errCode Hwf1 ltac:(lia) ltac:(lia))
    as (pUm2 & Hcall2 & Hwf2 & Hn2 & Hp2 & He2 & Hc2).
  rewrite Hcall2. rewrite Hn1 in Hn2, He2, Hc2.
  assert (Hu2 : edge_used pUm1 v2 v3 = edge_used pUm v2 v3).
  { rewrite He1 by lia. zcases; cbn; reflexivity || lia. }
  rewrite Hu2.
  destruct (edge_used pUm v2 v3) eqn:E8;
    cbn [find snd fst option_map]; cbv beta iota zeta delta [bind andb].
  { cbv beta iota zeta delta [op_t_edge].
    exists pUm2, [CallEdge n v2 v3; CallEdge n v1 v2].
    split; [reflexivity|]. split; [|split; [congruence | congruence]].
    repeat split; try apply Hwf2; auto. cbn [app]. congruence. }
  (* third edge *)
  destruct (op_t_edge_ok pUm2 v3 v1 errCode Hwf2 ltac:(lia) ltac:(lia))
    as (pUm3 & Hcall3 & Hwf3 & Hn3 & Hp3 & He3 & Hc3).
  rewrite Hcall3. rewrite Hn2 in Hn3, He3, Hc3.
  assert (Hu3 : edge_used pUm2 v3 v1 = edge_used pUm v3 v1).
  { rewrite He2, He1 by lia. zcases; cbn; reflexivity || lia. }
  rewrite Hu3.
  destruct (edge_used pUm v3 v1) eqn:E9;
    cbn [find snd fst option_map]; cbv beta iota zeta delta [bind andb].
  { exists pUm3, [CallEdge n v3 v1; CallEdge n v2 v3; CallEdge n v1 v2].
    split; [reflexivity|]. split; [|split; [congruence | congruence]].
    repeat split; try apply Hwf3; auto. cbn [app]. congruence. }
  (* points *)
  destruct (usage_map_point_ok pUm3 v1 Hwf3 ltac:(lia))
    as (pUm4 & Hcall4 & Hwf4 & Hn4 & _ & Hb4 & Hc4).
  destruct (usage_map_point_ok pUm4 v2 Hwf4 ltac:(lia))
    as (pUm5 & Hcall5 & Hwf5 & Hn5 & _ & Hb5 & Hc5).
  destruct (usage_map_point_ok pUm5 v3 Hwf5 ltac:(lia))
    as (pUm6 & Hcall6 & Hwf6 & Hn6 & _ & Hb6 & Hc6).
  rewrite Hcall4, Hcall5, Hcall6.
  (* stores *)
  assert (Hs1 := store_in_range (pTris pM) (triWritten * 3) v1 ltac:(lia)).
  rewrite Hs1.
  assert (Hl1 := store_len _ _ _ _ Hs1).
  assert (Hs2 := store_in_range
            (upd (pTris pM) (Z.to_nat (triWritten * 3)) v1)
            (triWritten * 3 + 1) v2 ltac:(lia)).
  rewrite Hs2.
  assert (Hl2 := store_len _ _ _ _ Hs2).
  assert (Hs3 := store_in_range
            (upd (upd (pTris pM) (Z.to_nat (triWritten * 3)) v1)
                 (Z.to_nat (triWritten * 3 + 1)) v2)
            (triWritten * 3 + 2) v3 ltac:(lia)).
  rewrite Hs3.
  exists pUm6. unfold triangle_calls.
  split; [reflexivity|]. split.
  - split; [exact Hwf6|].
    split; [rewrite Hn6, Hn5, Hn4, Hn3; reflexivity|]. split.
    + cbn [app]. rewrite Hc6, Hc5, Hc4, Hc3, Hc2, Hc1, Hn5, Hn4, Hn3.
      reflexivity.
    + repeat constructor; cbn; lia.
  - intros j. rewrite Hb6, Hb5, Hb4.
    assert (Hsame : point_used pUm3 j = point_used pUm j)
      by (unfold point_used; rewrite Hp3, Hp2, Hp1; reflexivity).
    rewrite Hsame.
    destruct (j =? v1), (j =? v2), (j =? v3), (point_used pUm j); reflexivity.
Qed.

(** Case analysis along the control flow of a function of the loader:
    [step H] splits on the condition or on the partial operation at the
    head of the result in [H]. *)
Ltac head_of t :=
  lazymatch t with
  | (if ?c then _ else _) => head_of c
  | (match ?c with Some _ => _ | None => _ end) => head_of c
  | (let (_, _) := ?c in _) => head_of c
  | _ => t
  end.

Ltac step H :=
  cbv beta iota zeta delta [bind andb op_t_edge] in H;
  lazymatch type of H with
  | ?lhs = _ =>
      let c := head_of lhs in
      lazymatch c with
      | Some _ => fail
      | None => fail
      | _ => destruct c eqn:?
      end
  end.

Ltac walk H :=
  repeat (step H; try discriminate);
  cbv beta iota zeta delta [bind andb op_t_edge] in H.

Lemma op_t_failure v1 v2 v3 pM ptsW triW pUm err pM' triW' pUm' err' :
  op_t v1 v2 v3 pM ptsW triW pUm err = Some (false, pM', triW', pUm', err') ->
  pM' = pM /\ triW' = triW /\ (err' <> LILAC_MESH_ERR_DUPEDG -> pUm' = pUm).
Proof.
  unfold op_t. intros H.
  walk H; inversion H; subst; repeat split; congruence.
Qed.

Lemma op_p_failure normd norma x y pM ptsW err pM' ptsW' err' :
  op_p normd norma x y pM ptsW err = Some (false, pM', ptsW', err') ->
  pM' = pM /\ ptsW' = ptsW.
Proof.
  unfold op_p. intros H.
  walk H; inversion H; subst; repeat split; congruence.
Qed.

(** C9.  A failing [op_t] leaves the mesh (and so its triangle array)
    and the count of written triangles as they were, and leaves the usage
    map as it was unless the failure is a duplicated edge; a failing
    [op_p] leaves the mesh (and so its point array) and the count of
    written points as they were. *)
Theorem op_failure_leaves_mesh :
  (forall v1 v2 v3 pM ptsW triW pUm err pM' triW' pUm' err',
     op_t v1 v2 v3 pM ptsW triW pUm err
       = Some (false, pM', triW', pUm', err') ->
     pM' = pM /\ pTris pM' = pTris pM /\ triW' = triW /\
     (err' <> LILAC_MESH_ERR_DUPEDG -> pUm' = pUm)) /\
  (forall normd norma x y pM ptsW err pM' ptsW' err',
     op_p normd norma x y pM ptsW err = Some (false, pM', ptsW', err') ->
     pM' = pM /\ pPoints pM' = pPoints pM /\ ptsW' = ptsW).
Proof.
  split.
  - intros * H. apply op_t_failure in H as (-> & -> & Hum). auto.
  - intros * H. apply op_p_failure in H as (-> & ->). auto.
Qed.

Lemma op_failure_leaves_mesh_witness :
  (op_t 0 2 1 quad_mesh 4 0 quad_um 0
     = Some (false, quad_mesh, 0, quad_um, LILAC_MESH_ERR_ORIENT) /\
   quad_mesh = quad_mesh /\ pTris quad_mesh = pTris quad_mesh /\ 0 = 0 /\
   (LILAC_MESH_ERR_ORIENT <> LILAC_MESH_ERR_DUPEDG -> quad_um = quad_um)) /\
  (op_p 0 5 0 0 quad_mesh 4 0
     = Some (false, quad_mesh, 4, LILAC_MESH_ERR_NORMDA) /\
   quad_mesh = quad_mesh /\ pPoints quad_mesh = pPoints quad_mesh /\ 4 = 4).
Proof.
  split.
  - split; [reflexivity|].
    eapply (proj1 op_failure_leaves_mesh 0 2 1 quad_mesh 4 0 quad_um 0).
    reflexivity.
  - split; [reflexivity|].
    eapply (proj2 op_failure_leaves_mesh 0 5 0 0 quad_mesh 4 0).
    reflexivity.
Defined.

(** C2.  In a state of the loader [op_t] returns, and the error code it
    reports is the code of the first check that fails in the order PTREF,
    VXDUP, VXORD, ORIENT, TRSORT, TROVER, DUPEDG (edges v1 -> v2,
    v2 -> v3, v3 -> v1); it succeeds, leaving the error code alone,
    exactly when no check fails, and then the usage map was called for
    the three edges in that order before the three points.  In
    particular a triangle whose vertices are defined and two of which are
    equal reports VXDUP, whatever its orientation. *)
Theorem op_t_reports_first_failure v1 v2 v3 pM ptsW triW pUm err :
  op_t_pre v1 v2 v3 pM ptsW triW pUm ->
  (exists status pM' triW' pUm' err',
     op_t v1 v2 v3 pM ptsW triW pUm err
       = Some (status, pM', triW', pUm', err') /\
     match first_failure (triangle_checks v1 v2 v3 pM ptsW triW pUm) with
     | Some code => status = false /\ err' = code
     | None =>
         status = true /\ err' = err /\
         um_calls pUm'
         = triangle_calls (um_point_count pUm) v1 v2 v3 ++ um_calls pUm
     end) /\
  (fails_PTREF v1 v2 v3 ptsW = false -> fails_VXDUP v1 v2 v3 = true ->
   op_t v1 v2 v3 pM ptsW triW pUm err
     = Some (false, pM, triW, pUm, LILAC_MESH_ERR_VXDUP)).
Proof.
  intros Hpre. pose proof (op_t_spec _ _ _ _ _ _ _ err Hpre) as Hpost.
  unfold op_t_post in Hpost. split.
  - destruct (first_failure (triangle_checks v1 v2 v3 pM ptsW triW pUm)).
    + destruct Hpost as (pUm' & calls & Hres & _).
      rewrite Hres. do 5 eexists. split; [reflexivity|]. auto.
    + destruct Hpost as (pUm' & Hres & (_ & _ & Hcalls & _) & _).
      rewrite Hres. do 5 eexists. split; [reflexivity|]. auto.
  - intros H1 H2. unfold first_failure, triangle_checks in Hpost.
    cbn [find snd fst option_map] in Hpost. rewrite H1, H2 in Hpost.
    cbn [find snd fst option_map] in Hpost.
    destruct Hpost as (pUm' & calls & Hres & _ & _ & Hsame).
    rewrite Hres. rewrite Hsame; [reflexivity | discriminate].
Qed.

Lemma op_t_reports_first_failure_witness :
  op_t_pre 0 0 1 quad_mesh 4 0 quad_um /\
  fails_ORIENT quad_mesh 0 0 1 = true /\
  op_t 0 0 1 quad_mesh 4 0 quad_um 0
    = Some (false, quad_mesh, 0, quad_um, LILAC_MESH_ERR_VXDUP).
Proof.
  assert (Hpre : op_t_pre 0 0 1 quad_mesh 4 0 quad_um).
  { unfold op_t_pre, um_wf, LILAC_MESH_MAX_C, LILAC_MESH_MAX_POINTS.
    cbn. lia. }
  split; [exact Hpre|]. split; [reflexivity|].
  apply (proj2 (op_t_reports_first_failure 0 0 1 quad_mesh 4 0 quad_um 0 Hpre));
    reflexivity.
Defined.

(** ** The interpreter loop *)

Lemma nth_upd {A : Type} (a : list A) :
  forall n m v d, (n < List.length a)%nat ->
  nth m (upd a n v) d = if Nat.eqb m n then v else nth m a d.
Proof.
  induction a as [|h t IH]; intros [|n] [|m] v d Hn; simpl in *;
    try lia; try reflexivity.
  apply IH. lia.
Qed.

Lemma Forall_upd {A : Type} (P : A -> Prop) (a : list A) :
  forall n v, Forall P a -> P v -> Forall P (upd a n v).
Proof.
  induction a as [|h t IH]; intros [|n] v Ha Hv; simpl; auto;
    inversion Ha; subst; constructor; auto.
Qed.

Lemma load_Forall {A : Type} (P : A -> Prop) (a : list A) (i : Z) (v : A) :
  Forall P a -> load a i = Some v -> P v.
Proof.
  intros Ha Hl. unfold load in Hl. destruct (i <? 0); [discriminate|].
  apply nth_error_In in Hl. rewrite Forall_forall in Ha. auto.
Qed.

Ltac inv_simpl :=
  cbn [set_stack fail_with l_status l_err l_line l_pM points_written
       tris_written st st_count l_um set_pTris set_pPoints
       pPoints pTris point_count tri_count].

Lemma loader_inv_fail (pc tc err line : Z) (L : loader_vars) :
  loader_inv pc tc L -> loader_inv pc tc (fail_with err line L).
Proof. intros []. constructor; assumption. Qed.

Lemma interpret_numeric_inv (pc tc : Z) (ent : SNENTITY) (pSn : SNPARSER)
    (L : loader_vars) :
  loader_inv pc tc L ->
  exists L', interpret_numeric ent pSn L = Some L' /\ loader_inv pc tc L'.
Proof.
  intros HI. unfold interpret_numeric.
  pose proof (parseNumber_range (pKey ent)) as Hrange.
  set (i := parseNumber (pKey ent)) in *.
  destruct (Z.ltb_spec i 0) as [Hneg|Hpos].
  - cbn [fail_with l_status andb]. eexists. split; [reflexivity|].
    now apply loader_inv_fail.
  - destruct (l_status L) eqn:Hs; cbn [andb].
    + destruct (Z.geb_spec (st_count L) MAX_SN_STACK) as [Hfull|Hroom].
      * cbn [fail_with l_status]. eexists. split; [reflexivity|].
        now apply loader_inv_fail.
      * rewrite Hs. destruct HI.
        assert (Hin : 0 <= st_count L < len (st L)) by lia.
        rewrite (store_in_range _ _ _ Hin). cbn [bind].
        eexists. split; [reflexivity|].
        assert (Hi : uint16 i = i).
        { unfold uint16. apply Z.mod_small.
          unfold LILAC_MESH_MAX_C in Hrange. lia. }
        constructor; inv_simpl; try assumption.
        -- unfold len. rewrite upd_length. assumption.
        -- lia.
        -- apply Forall_upd; [assumption|]. rewrite Hi. lia.
    + rewrite Hs. eexists. split; [reflexivity | assumption].
Qed.

Lemma op_p_ok (a1 a2 a3 a4 : Z) (pM : LILAC_MESH) (ptsW err : Z) :
  0 <= a1 <= LILAC_MESH_MAX_C -> 0 <= a2 <= LILAC_MESH_MAX_C ->
  0 <= a3 <= LILAC_MESH_MAX_C -> 0 <= a4 <= LILAC_MESH_MAX_C ->
  0 <= ptsW -> len (pPoints pM) = point_count pM ->
  exists r pM' ptsW' err',
    op_p a1 a2 a3 a4 pM ptsW err = Some (r, pM', ptsW', err') /\
    pTris pM' = pTris pM /\ point_count pM' = point_count pM /\
    tri_count pM' = tri_count pM /\ len (pPoints pM') = len (pPoints pM) /\
    if r then ptsW' = ptsW + 1 /\ ptsW < point_count pM
    else ptsW' = ptsW.
Proof.
  intros H1 H2 H3 H4 Hw Hlen. unfold op_p.
  destruct (Z.gtb_spec a1 LILAC_MESH_MAX_C); [lia|].
  destruct (Z.gtb_spec a2 LILAC_MESH_MAX_C); [lia|].
  destruct (Z.gtb_spec a3 LILAC_MESH_MAX_C); [lia|].
  destruct (Z.gtb_spec a4 LILAC_MESH_MAX_C); [lia|].
  cbn [orb]. cbv iota.
  destruct (a1 =? 0); [destruct (negb (a2 =? 0))|];
    cbv beta iota zeta delta [bind andb];
    try (do 4 eexists; split; [reflexivity|]; auto);
    (destruct (a2 >=? LILAC_MESH_MAX_C);
     cbv beta iota zeta delta [bind andb];
     [do 4 eexists; split; [reflexivity|]; auto|]);
    (destruct (Z.geb_spec ptsW (point_count pM));
     cbv beta iota zeta delta [bind andb];
     [do 4 eexists; split; [reflexivity|]; auto|]);
    (rewrite store_in_range by lia; cbv beta iota zeta delta [bind andb];
     do 4 eexists; split; [reflexivity|];
     cbn [set_pPoints pPoints pTris point_count tri_count];
     repeat split; try lia; unfold len; now rewrite upd_length).
Qed.

Lemma load_stack (pc tc : Z) (L : loader_vars) (i : Z) :
  loader_inv pc tc L -> 0 <= i < st_count L ->
  exists v, load (st L) i = Some v /\ 0 <= v <= LILAC_MESH_MAX_C.
Proof.
  intros HI Hi. destruct HI.
  destruct (load_in_range (st L) i ltac:(lia)) as [v Hv].
  exists v. split; [exact Hv|].
  exact (load_Forall _ _ _ _ inv_stv0 Hv).
Qed.

Lemma interpret_p_inv (pc tc : Z) (pSn : SNPARSER) (L : loader_vars) :
  loader_inv pc tc L ->
  exists L', interpret_p pSn L = Some L' /\ loader_inv pc tc L'.
Proof.
  intros HI. unfold interpret_p.
  set (L1 := if st_count L <? 4 then _ else L).
  assert (HI1 : loader_inv pc tc L1)
    by (unfold L1; destruct (st_count L <? 4); auto using loader_inv_fail).
  assert (Hcount : l_status L1 = true -> 4 <= st_count L1).
  { unfold L1. destruct (Z.ltb_spec (st_count L) 4); cbn; [discriminate|lia]. }
  clearbody L1. clear HI L. rename L1 into L.
  destruct (l_status L) eqn:Hs.
  2:{ cbv beta iota delta [bind]. rewrite Hs.
      eexists. split; [reflexivity | assumption]. }
  specialize (Hcount eq_refl).
  destruct (load_stack pc tc L (st_count L - 4) HI1 ltac:(lia)) as (a1 & -> & Ha1).
  destruct (load_stack pc tc L (st_count L - 3) HI1 ltac:(lia)) as (a2 & -> & Ha2).
  destruct (load_stack pc tc L (st_count L - 2) HI1 ltac:(lia)) as (a3 & -> & Ha3).
  destruct (load_stack pc tc L (st_count L - 1) HI1 ltac:(lia)) as (a4 & -> & Ha4).
  cbn [bind]. destruct HI1.
  destruct (op_p_ok a1 a2 a3 a4 (l_pM L) (points_written L) (l_err L)
              Ha1 Ha2 Ha3 Ha4 ltac:(lia) inv_plen0)
    as (r & pM' & w' & e' & -> & Htris & Hpc & Htc & Hplen & Hr).
  cbn [bind]. cbv beta iota zeta.
  assert (Htri : forall k, tri_elem pM' k = tri_elem (l_pM L) k)
    by (intros k; unfold tri_elem; now rewrite Htris).
  assert (Hlt : forall i, tri_lt (l_pM L) i -> tri_lt pM' i)
    by (intros i; unfold tri_lt; now rewrite !Htri).
  destruct r; cbn [l_status set_stack].
  - destruct Hr as [-> Hroom].
    eexists. split; [reflexivity|].
    constructor; inv_simpl;
      rewrite ?Hpc, ?Htc, ?Htris; try assumption; try lia.
    + intros k Hk. rewrite Htri. specialize (inv_ref0 k Hk). lia.
    + intros j Hj. destruct (inv_used0 j Hj) as [k [Hk Hkj]].
      exists k. rewrite Htri. auto.
    + auto.
  - subst w'. eexists. split; [reflexivity|].
    constructor; inv_simpl;
      rewrite ?Hpc, ?Htc, ?Htris; try assumption; try lia.
    + intros k Hk. rewrite Htri. auto.
    + intros j Hj. destruct (inv_used0 j Hj) as [k [Hk Hkj]].
      exists k. rewrite Htri. auto.
    + auto.
Qed.

Lemma first_failure_None v1 v2 v3 pM ptsW triW pUm :
  first_failure (triangle_checks v1 v2 v3 pM ptsW triW pUm) = None ->
  fails_PTREF v1 v2 v3 ptsW = false /\ fails_VXDUP v1 v2 v3 = false /\
  fails_VXORD v1 v2 v3 = false /\ fails_ORIENT pM v1 v2 v3 = false /\
  fails_TRSORT pM triW v1 v2 = false /\ fails_TROVER pM triW = false /\
  edge_used pUm v1 v2 = false /\ edge_used pUm v2 v3 = false /\
  edge_used pUm v3 v1 = false.
Proof.
  unfold first_failure, triangle_checks. cbn [find snd].
  destruct (fails_PTREF v1 v2 v3 ptsW); [discriminate|].
  destruct (fails_VXDUP v1 v2 v3); [discriminate|].
  destruct (fails_VXORD v1 v2 v3); [discriminate|].
  destruct (fails_ORIENT pM v1 v2 v3); [discriminate|].
  destruct (fails_TRSORT pM triW v1 v2); [discriminate|].
  destruct (fails_TROVER pM triW); [discriminate|].
  destruct (edge_used pUm v1 v2); [discriminate|].
  destruct (edge_used pUm v2 v3); [discriminate|].
  destruct (edge_used pUm v3 v1); [discriminate|].
  intros _. repeat split.
Qed.

Lemma tri_elem_tris_with (pM : LILAC_MESH) (t v1 v2 v3 k : Z) :
  0 <= t -> t * 3 + 2 < len (pTris pM) -> 0 <= k ->
  tri_elem (set_pTris pM (tris_with (pTris pM) t v1 v2 v3)) k
  = if k =? t * 3 then v1
    else if k =? t * 3 + 1 then v2
    else if k =? t * 3 + 2 then v3
    else tri_elem pM k.
Proof.
  intros Ht Hlen Hk. unfold tri_elem, tris_with, len in *.
  cbn [set_pTris pTris].
  rewrite !nth_upd by (rewrite ?upd_length; lia).
  destruct (Z.eqb_spec k (t * 3)) as [->|H0].
  - destruct (Nat.eqb_spec (Z.to_nat (t * 3)) (Z.to_nat (t * 3 + 2))); [lia|].
    destruct (Nat.eqb_spec (Z.to_nat (t * 3)) (Z.to_nat (t * 3 + 1))); [lia|].
    now rewrite Nat.eqb_refl.
  - destruct (Z.eqb_spec k (t * 3 + 1)) as [->|H1].
    + destruct (Nat.eqb_spec (Z.to_nat (t * 3 + 1)) (Z.to_nat (t * 3 + 2)));
        [lia|].
      now rewrite Nat.eqb_refl.
    + destruct (Z.eqb_spec k (t * 3 + 2)) as [->|H2].
      * now rewrite Nat.eqb_refl.
      * destruct (Nat.eqb_spec (Z.to_nat k) (Z.to_nat (t * 3 + 2))); [lia|].
        destruct (Nat.eqb_spec (Z.to_nat k) (Z.to_nat (t * 3 + 1))); [lia|].
        destruct (Nat.eqb_spec (Z.to_nat k) (Z.to_nat (t * 3))); [lia|].
        reflexivity.
Qed.

Lemma interpret_t_inv (pc tc : Z) (pSn : SNPARSER) (L : loader_vars) :
  loader_inv pc tc L ->
  exists L', interpret_t pSn L = Some L' /\ loader_inv pc tc L'.
Proof.
  intros HI. unfold interpret_t.
  set (L1 := if st_count L <? 3 then _ else L).
  assert (HI1 : loader_inv pc tc L1)
    by (unfold L1; destruct (st_count L <? 3); auto using loader_inv_fail).
  assert (Hcount : l_status L1 = true -> 3 <= st_count L1).
  { unfold L1. destruct (Z.ltb_spec (st_count L) 3); cbn; [discriminate|lia]. }
  clearbody L1. clear HI L. rename L1 into L.
  destruct (l_status L) eqn:Hs.
  2:{ cbv beta iota delta [bind]. rewrite Hs.
      eexists. split; [reflexivity | assumption]. }
  specialize (Hcount eq_refl).
  destruct (load_stack pc tc L (st_count L - 3) HI1 ltac:(lia)) as (v1 & -> & Hv1).
  destruct (load_stack pc tc L (st_count L - 2) HI1 ltac:(lia)) as (v2 & -> & Hv2).
  destruct (load_stack pc tc L (st_count L - 1) HI1 ltac:(lia)) as (v3 & -> & Hv3).
  cbn [bind]. destruct HI1.
  assert (Hpre : op_t_pre v1 v2 v3 (l_pM L) (points_written L)
                   (tris_written L) (l_um L)).
  { unfold op_t_pre. repeat split; try lia; try apply inv_um0. }
  pose proof (op_t_spec _ _ _ _ _ _ _ (l_err L) Hpre) as Hpost.
  unfold op_t_post in Hpost.
  destruct (first_failure _) as [code|] eqn:Hff.
  - destruct Hpost as (pUm' & calls & -> & (Hwf' & Hn' & Hcalls & Hok) & Hpu & _).
    cbn [bind]. cbv beta iota zeta. inv_simpl.
    eexists. split; [reflexivity|].
    constructor; inv_simpl; try assumption; try lia.
    + rewrite Hcalls. apply Forall_app. split; assumption.
    + intros j Hj. apply inv_used0. unfold point_used in *. now rewrite <- Hpu.
  - destruct Hpost as (pUm' & -> & (Hwf' & Hn' & Hcalls & Hok) & Hbits).
    apply first_failure_None in Hff
      as (F1 & F2 & F3 & F4 & F5 & F6 & _).
    assert (Hdef : v1 < points_written L /\ v2 < points_written L /\
                   v3 < points_written L).
    { unfold fails_PTREF in F1. zcases; cbn in F1; try discriminate; lia. }
    assert (Hroom : tris_written L < tri_count (l_pM L)).
    { unfold fails_TROVER in F6. zcases; try discriminate; lia. }
    set (t := tris_written L) in *.
    assert (Helem : forall k, 0 <= k ->
              tri_elem (set_pTris (l_pM L)
                          (tris_with (pTris (l_pM L)) t v1 v2 v3)) k
              = if k =? t * 3 then v1
                else if k =? t * 3 + 1 then v2
                else if k =? t * 3 + 2 then v3
                else tri_elem (l_pM L) k).
    { intros k Hk. apply tri_elem_tris_with; lia. }
    cbn [bind]. cbv beta iota zeta. inv_simpl.
    eexists. split; [reflexivity|].
    constructor; inv_simpl; try assumption; try lia.
    + unfold tris_with, len. rewrite !upd_length. exact inv_tlen0.
    + rewrite Hcalls. apply Forall_app. split; assumption.
    + intros k Hk. rewrite Helem by lia.
      zcases; try lia. apply inv_ref0. lia.
    + intros j Hj. rewrite Hbits in Hj.
      apply orb_prop in Hj as [Hj|Hj];
        [apply orb_prop in Hj as [Hj|Hj];
           [apply orb_prop in Hj as [Hj|Hj]|]|].
      * apply Z.eqb_eq in Hj. exists (t * 3). split; [lia|].
        rewrite Helem by lia. now rewrite Z.eqb_refl.
      * apply Z.eqb_eq in Hj. exists (t * 3 + 1). split; [lia|].
        rewrite Helem by lia. zcases; try lia; auto.
      * apply Z.eqb_eq in Hj. exists (t * 3 + 2). split; [lia|].
        rewrite Helem by lia. zcases; try lia; auto.
      * destruct (inv_used0 j Hj) as [k [Hk Hkj]].
        exists k. split; [lia|]. rewrite Helem by lia. zcases; try lia; auto.
    + intros i Hi Hlast. unfold tri_lt.
      assert (E0 : forall k, 0 <= k < t * 3 ->
                tri_elem (set_pTris (l_pM L)
                            (tris_with (pTris (l_pM L)) t v1 v2 v3)) k
                = tri_elem (l_pM L) k).
      { intros k Hk. rewrite Helem by lia.
        destruct (Z.eqb_spec k (t * 3)); [lia|].
        destruct (Z.eqb_spec k (t * 3 + 1)); [lia|].
        destruct (Z.eqb_spec k (t * 3 + 2)); [lia | reflexivity]. }
      rewrite !(E0 (3 * i)), !(E0 (3 * i + 1)) by lia.
      destruct (Z.eq_dec (i + 1) t) as [Heq|Hne].
      * rewrite !Helem by lia.
        replace (3 * (i + 1)) with (t * 3) by lia.
        rewrite Z.eqb_refl.
        destruct (Z.eqb_spec (t * 3 + 1) (t * 3)); [lia|].
        rewrite Z.eqb_refl.
        unfold fails_TRSORT in F5.
        replace ((t - 1) * 3) with (3 * i) in F5 by lia.
        clear - F5 Hi Heq.
        zcases; cbn in F5; try discriminate; lia.
      * rewrite !(E0 (3 * (i + 1))), !(E0 (3 * (i + 1) + 1)) by lia.
        apply inv_sorted0; lia.
Qed.

Lemma interpret_entity_inv (pc tc : Z) (ent : SNENTITY) (pSn : SNPARSER)
    (L : loader_vars) :
  loader_inv pc tc L ->
  exists L', interpret_entity ent pSn L = Some L' /\ loader_inv pc tc L'.
Proof.
  intros HI. unfold interpret_entity.
  destruct (status ent);
    try (eexists; split; [reflexivity | now apply loader_inv_fail]).
  - now apply interpret_numeric_inv.
  - destruct (String.eqb (pKey ent) "p"); [now apply interpret_p_inv|].
    destruct (String.eqb (pKey ent) "t"); [now apply interpret_t_inv|].
    eexists; split; [reflexivity | now apply loader_inv_fail].
Qed.

Lemma interpret_loop_inv (pc tc : Z) (input : list (SNENTITY * Z)) :
  forall count L, loader_inv pc tc L ->
  exists ent pSn L',
    interpret_loop input count L = Some (ent, pSn, L') /\
    loader_inv pc tc L'.
Proof.
  induction input as [|[ent line] rest IH]; intros count L HI;
    cbn [interpret_loop].
  - do 3 eexists. split; [reflexivity | assumption].
  - destruct (status_pos (status ent)).
    + destruct (interpret_entity_inv pc tc ent
                  {| sn_input := rest; sn_count := line |} L HI)
        as (L1 & -> & HI1).
      cbn [bind]. destruct (l_status L1); cbn [negb].
      * apply IH, HI1.
      * do 3 eexists. split; [reflexivity | assumption].
    + do 3 eexists. split; [reflexivity | assumption].
Qed.

Lemma validate_dimensions_ok (h : header_vars) :
  h_status (validate_dimensions h) = true ->
  0 <= h_pts (validate_dimensions h) <= LILAC_MESH_MAX_POINTS /\
  0 <= h_tris (validate_dimensions h) <= LILAC_MESH_MAX_TRIS.
Proof.
  unfold validate_dimensions.
  destruct (h_status h) eqn:Hs.
  - destruct (Z.ltb_spec (h_pts h) 0); cbn [orb fail_header h_status];
      [discriminate|].
    destruct (Z.gtb_spec (h_pts h) LILAC_MESH_MAX_POINTS);
      cbn [fail_header h_status]; [discriminate|].
    rewrite Hs.
    destruct (Z.ltb_spec (h_tris h) 0); cbn [orb fail_header h_status];
      [discriminate|].
    destruct (Z.gtb_spec (h_tris h) LILAC_MESH_MAX_TRIS);
      cbn [fail_header h_status]; [discriminate|]. lia.
  - rewrite Hs. congruence.
Qed.

Lemma readHeader_ok pSn p t e l pSn' pc tc e' l' :
  readHeader pSn p t e l = (true, pSn', pc, tc, e', l') ->
  0 <= pc <= LILAC_MESH_MAX_POINTS /\ 0 <= tc <= LILAC_MESH_MAX_TRIS.
Proof.
  unfold readHeader.
  set (h := validate_dimensions _).
  pose proof (validate_dimensions_ok _ : h_status h = true -> _) as Hok.
  fold h in Hok. clearbody h.
  destruct (h_status h); intros H; inversion H; subst. auto.
Qed.

Lemma lilac_mesh_new_spec (pIn : list (SNENTITY * Z)) :
  exists r,
    lilac_mesh_new pIn = Some r /\ Forall call_ok (r_calls r) /\
    forall pM, r_mesh r = Some pM -> loaded_mesh pM.
Proof.
  unfold lilac_mesh_new.
  destruct (readHeader (snparser_alloc pIn) 0 0 LILAC_MESH_ERR_OK 0)
    as [[[[[hstatus pSn] pc] tc] errCode] line] eqn:Hhdr.
  destruct hstatus.
  2:{ eexists. split; [reflexivity|]. split; [constructor|].
      cbn. discriminate. }
  apply readHeader_ok in Hhdr as [Hpc Htc].
  destruct (usage_map_dim_ok usage_map_init pc Hpc)
    as (um0 & -> & Hwf0 & Hn0 & Hclear & _ & Hcalls0).
  cbn [bind].
  set (L0 := {| l_status := true; l_err := errCode; l_line := line;
                l_pM := _; points_written := 0; tris_written := 0;
                st := _; st_count := 0; l_um := um0 |}).
  assert (HI0 : loader_inv pc tc L0).
  { constructor; unfold L0; inv_simpl; try reflexivity; try assumption;
      try (unfold MAX_SN_STACK; lia).
    - apply len_repeat. lia.
    - rewrite len_repeat; lia.
    - apply Forall_forall. intros v Hv. apply repeat_spec in Hv. subst v.
      unfold LILAC_MESH_MAX_C. lia.
    - rewrite Hcalls0. constructor.
    - intros j Hj. rewrite Hclear in Hj. discriminate. }
  destruct (interpret_loop_inv pc tc (sn_input pSn) (sn_count pSn) L0 HI0)
    as (ent & pSn1 & L1 & -> & HI1).
  cbn [bind]. cbv beta iota zeta.
  clearbody L0. clear HI0 L0.
  set (L2 := if l_status L1 && status_neg (status ent) then _ else L1).
  assert (HI2 : loader_inv pc tc L2)
    by (unfold L2; destruct (_ && _); auto using loader_inv_fail).
  clearbody L2.
  set (L3 := if l_status L2 && (st_count L2 >? 0) then _ else L2).
  assert (HI3 : loader_inv pc tc L3)
    by (unfold L3; destruct (_ && _); auto using loader_inv_fail).
  clearbody L3.
  set (L4 := if l_status L3 && negb (points_written L3 =? pc) then _ else L3).
  assert (HI4 : loader_inv pc tc L4)
    by (unfold L4; destruct (_ && _); auto using loader_inv_fail).
  assert (Hpw : l_status L4 = true -> points_written L4 = pc).
  { unfold L4. destruct (l_status L3) eqn:Hs; cbn [andb].
    - destruct (Z.eqb_spec (points_written L3) pc); cbn [negb];
        [auto | cbn; discriminate].
    - rewrite Hs. discriminate. }
  clearbody L4.
  set (L5 := if l_status L4 && negb (tris_written L4 =? tc) then _ else L4).
  assert (HI5 : loader_inv pc tc L5)
    by (unfold L5; destruct (_ && _); auto using loader_inv_fail).
  assert (Hw : l_status L5 = true ->
               points_written L5 = pc /\ tris_written L5 = tc).
  { unfold L5. destruct (l_status L4) eqn:Hs; cbn [andb].
    - destruct (Z.eqb_spec (tris_written L4) tc); cbn [negb];
        [rewrite Hs; auto | cbn; discriminate].
    - rewrite Hs. discriminate. }
  clearbody L5. clear Hpw.
  pose proof HI5 as [].
  destruct inv_um0 as (Hrange & Hpl & Hel).
  destruct (usage_map_orphan_spec (l_um L5) Hpl) as (r & Hr & Hr01 & Horphan).
  destruct (l_status L5) eqn:Hs5.
  - rewrite Hr. cbn [bind].
    destruct (Z.eqb_spec r 0) as [Hr0|Hr1]; cbn [negb].
    + eexists. split; [reflexivity|].
      unfold finish_new. inv_simpl. rewrite Hs5. cbn [negb r_calls r_mesh].
      split; [exact inv_calls0|].
      intros pM HM. inversion HM; subst pM. clear HM.
      destruct (Hw eq_refl) as [Hp Ht].
      constructor; try assumption.
      * intros k Hk. rewrite inv_tcount0, <- Ht in Hk.
        rewrite inv_pcount0, <- Hp. auto.
      * intros p Hp'. rewrite inv_tcount0, <- Ht. apply inv_used0.
        destruct (point_used (l_um L5) p) eqn:Hused; [reflexivity|].
        exfalso. apply (proj2 Horphan); [|exact Hr0].
        exists p. split; [lia | exact Hused].
      * intros i Hi Hlt. apply inv_sorted0; lia.
    + eexists. split; [reflexivity|].
      unfold finish_new. inv_simpl. cbn [negb r_calls r_mesh].
      split; [exact inv_calls0 | discriminate].
  - eexists. split; [reflexivity|].
    unfold finish_new. rewrite Hs5. cbn [negb r_calls r_mesh].
    split; [exact inv_calls0 | discriminate].
Qed.

Lemma quad_loads : lilac_mesh_new quad_input = Some quad_result.
Proof. reflexivity. Qed.

(** C1.  In a mesh returned by [lilac_mesh_new] every point index below
    [point_count] occurs in the triangle list and every element of the
    triangle list (which holds three elements for each of the
    [tri_count] triangles) is a point index below [point_count]: the
    indices occurring in the triangles are exactly [0, point_count). *)
Theorem loaded_mesh_no_orphans (pIn : list (SNENTITY * Z))
    (r : new_result) (pM : LILAC_MESH) :
  lilac_mesh_new pIn = Some r -> r_mesh r = Some pM ->
  len (pTris pM) = 3 * tri_count pM /\
  (forall p, 0 <= p < point_count pM ->
     exists k, 0 <= k < 3 * tri_count pM /\ tri_elem pM k = p) /\
  (forall k, 0 <= k < 3 * tri_count pM ->
     0 <= tri_elem pM k < point_count pM) /\
  (forall p, (exists k, 0 <= k < 3 * tri_count pM /\ tri_elem pM k = p)
             <-> 0 <= p < point_count pM).
Proof.
  intros Hnew Hmesh.
  destruct (lilac_mesh_new_spec pIn) as (r' & Hr' & _ & Hloaded).
  assert (r' = r) by congruence. subst r'.
  destruct (Hloaded pM Hmesh).
  split; [assumption|]. split; [assumption|]. split; [assumption|].
  intros p. split; [|apply lm_cover0].
  intros [k [Hk <-]]. apply lm_range0, Hk.
Qed.

Lemma loaded_mesh_no_orphans_witness :
  lilac_mesh_new quad_input = Some quad_result /\
  r_mesh quad_result = Some quad_loaded /\
  len (pTris quad_loaded) = 3 * tri_count quad_loaded /\
  (forall p, 0 <= p < point_count quad_loaded ->
     exists k, 0 <= k < 3 * tri_count quad_loaded /\
               tri_elem quad_loaded k = p) /\
  (forall k, 0 <= k < 3 * tri_count quad_loaded ->
     0 <= tri_elem quad_loaded k < point_count quad_loaded) /\
  (forall p, (exists k, 0 <= k < 3 * tri_count quad_loaded /\
                        tri_elem quad_loaded k = p)
             <-> 0 <= p < point_count quad_loaded).
Proof.
  split; [reflexivity|]. split; [reflexivity|].
  apply (loaded_mesh_no_orphans quad_input quad_result quad_loaded);
    reflexivity.
Defined.

(** C3.  In a mesh returned by [lilac_mesh_new] the triangle list (three
    elements for each of the [tri_count] triangles) is strictly ascending
    by (v1, v2): for consecutive triangles i and
    i + 1, either v1 of i is below v1 of i + 1, or they are equal and v2
    of i is below v2 of i + 1. *)
Theorem loaded_mesh_sorted (pIn : list (SNENTITY * Z))
    (r : new_result) (pM : LILAC_MESH) :
  lilac_mesh_new pIn = Some r -> r_mesh r = Some pM ->
  len (pTris pM) = 3 * tri_count pM /\
  forall i, 0 <= i -> i + 1 < tri_count pM ->
  tri_elem pM (3 * i) < tri_elem pM (3 * (i + 1)) \/
  (tri_elem pM (3 * i) = tri_elem pM (3 * (i + 1)) /\
   tri_elem pM (3 * i + 1) < tri_elem pM (3 * (i + 1) + 1)).
Proof.
  intros Hnew Hmesh.
  destruct (lilac_mesh_new_spec pIn) as (r' & Hr' & _ & Hloaded).
  assert (r' = r) by congruence. subst r'.
  destruct (Hloaded pM Hmesh). split; [exact lm_tris0 | exact lm_sorted0].
Qed.

Lemma loaded_mesh_sorted_witness :
  lilac_mesh_new quad_input = Some quad_result /\
  r_mesh quad_result = Some quad_loaded /\
  len (pTris quad_loaded) = 3 * tri_count quad_loaded /\
  forall i, 0 <= i -> i + 1 < tri_count quad_loaded ->
  tri_elem quad_loaded (3 * i) < tri_elem quad_loaded (3 * (i + 1)) \/
  (tri_elem quad_loaded (3 * i) = tri_elem quad_loaded (3 * (i + 1)) /\
   tri_elem quad_loaded (3 * i + 1) < tri_elem quad_loaded (3 * (i + 1) + 1)).
Proof.
  split; [reflexivity|]. split; [reflexivity|].
  apply (loaded_mesh_sorted quad_input quad_result quad_loaded);
    reflexivity.
Defined.

(** C10.  No execution of the loader aborts, whatever the tokenizer
    delivers, and every call of [usage_map_point] and [usage_map_edge] it
    has made has its indices in [0, n), n being the point count the map
    was dimensioned with, an edge call having two different end
    points. *)
Theorem loader_usage_map_calls_in_range (pIn : list (SNENTITY * Z)) :
  exists r, lilac_mesh_new pIn = Some r /\ Forall call_ok (r_calls r).
Proof.
  destruct (lilac_mesh_new_spec pIn) as (r & Hr & Hcalls & _).
  exists r. split; assumption.
Qed.

End LilacMeshProofs.

(** * Properties of the rasterizer *)

Module LilacMe2PngProofs.

Import LilacMesh LilacMeshSpec LilacMeshProofs LilacMe2Png LilacMe2PngSpec.
Local Open Scope Z_scope.

(** ** Packed colours *)

Lemma clamp_channel_range (gi : Z) : 1 <= clamp_channel gi <= 255.
Proof.
  unfold clamp_channel.
  destruct (Z.gtb_spec gi 255); [lia|].
  destruct (Z.ltb_spec gi 1); lia.
Qed.

Lemma lor_disjoint (hi lo k : Z) :
  0 <= k -> 0 <= lo < 2 ^ k -> Z.lor (hi * 2 ^ k) lo = hi * 2 ^ k + lo.
Proof.
  intros Hk Hlo.
  assert (Hland : Z.land (hi * 2 ^ k) lo = 0).
  { apply Z.bits_inj'. intros i Hi. rewrite Z.land_spec, Z.bits_0.
    destruct (Z.lt_ge_cases i k) as [Hlt|Hge].
    - rewrite Z.mul_pow2_bits_low by lia. reflexivity.
    - rewrite <- (Z.mod_small lo (2 ^ k)) by lia.
      rewrite Z.mod_pow2_bits_high by lia. apply andb_false_r. }
  rewrite <- Z.lxor_lor by exact Hland.
  symmetry. apply Z.add_nocarry_lxor, Hland.
Qed.

Lemma pack_argb_sum (ri gi bi : Z) :
  0 <= ri <= 255 -> 0 <= gi <= 255 -> 0 <= bi <= 255 ->
  pack_argb ri gi bi = 4278190080 + ri * 65536 + gi * 256 + bi.
Proof.
  intros Hr Hg Hb. unfold pack_argb, MASKED, u32.
  rewrite !Z.shiftl_mul_pow2 by lia.
  rewrite !Z.mod_small by lia.
  change 4278190080 with (255 * 2 ^ 24).
  rewrite lor_disjoint by lia.
  replace (255 * 2 ^ 24 + ri * 2 ^ 16) with ((255 * 2 ^ 8 + ri) * 2 ^ 16) by lia.
  rewrite lor_disjoint by lia.
  replace ((255 * 2 ^ 8 + ri) * 2 ^ 16 + gi * 2 ^ 8)
    with (((255 * 2 ^ 8 + ri) * 2 ^ 8 + gi) * 2 ^ 8) by lia.
  rewrite lor_disjoint by lia. lia.
Qed.

Lemma land_255 (c : Z) : Z.land c 255 = c mod 256.
Proof. change 255 with (Z.ones 8). now rewrite Z.land_ones by lia. Qed.

Lemma pack_argb_written (ri gi bi : Z) :
  1 <= ri <= 255 -> 1 <= gi <= 255 -> 1 <= bi <= 255 ->
  written_colour (pack_argb ri gi bi).
Proof.
  intros Hr Hg Hb. rewrite pack_argb_sum by lia.
  unfold written_colour, alpha_of, red_of, green_of, blue_of, MASKED.
  rewrite !land_255, !Z.shiftr_div_pow2 by lia.
  change (2 ^ 24) with 16777216. change (2 ^ 16) with 65536.
  change (2 ^ 8) with 256.
  repeat split; Z.div_mod_to_equations; lia.
Qed.

Lemma vertexColor_written (G : globals) (pv : VERTEX) (c : Z) :
  vertexColor G pv = Some c -> written_colour c.
Proof.
  unfold vertexColor. intros H.
  destruct (checkVertex G pv); [|discriminate]. cbn [bind] in H.
  destruct (m_inter G =? INTER_SCALAR).
  - inversion H. apply pack_argb_written; apply clamp_channel_range.
  - destruct (m_inter G =? INTER_VECTOR); [|discriminate].
    inversion H. apply pack_argb_written; apply clamp_channel_range.
Qed.

(** ** The mask *)

Lemma same_mask_refl (G : globals) : same_mask G G.
Proof. repeat split; auto. Qed.

Lemma same_mask_trans (G1 G2 G3 : globals) :
  same_mask G1 G2 -> same_mask G2 G3 -> same_mask G1 G3.
Proof.
  intros (A1 & A2 & A3 & A4) (B1 & B2 & B3 & B4).
  repeat split; try congruence.
  - intros H. apply A4, B4, H.
  - intros H. apply B4, A4, H.
Qed.

Lemma renderSpan_loop_mask (G : globals) (iv : IVEC) (n : nat) :
  forall xi ps buf buf',
  renderSpan_loop G iv n xi ps buf = Some buf' ->
  forall i, load buf' i = Some MASKED <-> load buf i = Some MASKED.
Proof.
  induction n as [|n IH]; intros xi ps buf buf' H i; cbn [renderSpan_loop] in H.
  - inversion H. reflexivity.
  - destruct (load buf ps) as [px|] eqn:Hpx; [|discriminate].
    cbn [bind] in H.
    destruct (Z.eqb_spec px MASKED) as [Hm|Hm].
    + destruct (iinc xi) as [xi'|]; [|discriminate]. cbn [bind] in H.
      apply (IH _ _ _ _ H).
    + destruct (ivec_atX iv (IZR xi + 1 / 2)) as [vxt|]; [|discriminate].
      cbn [bind] in H.
      destruct (vertexColor G vxt) as [c|] eqn:Hc; [|discriminate].
      cbn [bind] in H.
      destruct (store buf ps c) as [buf1|] eqn:Hst; [|discriminate].
      cbn [bind] in H.
      destruct (iinc xi) as [xi'|]; [|discriminate]. cbn [bind] in H.
      rewrite (IH _ _ _ _ H i), (load_store _ _ _ i _ Hst).
      destruct (Z.eqb_spec i ps) as [->|Hne]; [|reflexivity].
      apply vertexColor_written in Hc as (_ & _ & _ & _ & Hc).
      rewrite Hpx. split; intros Heq; inversion Heq; contradiction.
Qed.

Lemma renderSpan_mask (G G' : globals) (v1 v2 : VERTEX) :
  renderSpan G v1 v2 = Some G' -> same_mask G G'.
Proof.
  unfold renderSpan. intros H.
  destruct (pBuf G) as [buf|] eqn:Hbuf; [|discriminate]. cbn [bind] in H.
  walk H; inversion H; subst; try apply same_mask_refl;
    match goal with
    | Hl : renderSpan_loop _ _ _ _ _ _ = Some _ |- _ =>
        pose proof (renderSpan_loop_mask _ _ _ _ _ _ _ Hl) as Hmask
    end;
    unfold same_mask, pixel; cbn [set_pBuf m_inter m_w m_h pBuf bind];
    rewrite Hbuf; cbn [bind]; repeat split; auto; apply Hmask.
Qed.

Lemma renderSpans_mask (spans : list (VERTEX * VERTEX)) :
  forall G G', renderSpans G spans = Some G' -> same_mask G G'.
Proof.
  induction spans as [|[v1 v2] rest IH]; intros G G' H; cbn [renderSpans] in H.
  - inversion H. apply same_mask_refl.
  - destruct (renderSpan G v1 v2) as [G1|] eqn:H1; [|discriminate].
    cbn [bind] in H.
    eapply same_mask_trans; [eapply renderSpan_mask, H1 | apply IH, H].
Qed.

Lemma renderPair_loop_mask (e1 e2 : IVEC) (n : nat) :
  forall G yi G', renderPair_loop G e1 e2 n yi = Some G' -> same_mask G G'.
Proof.
  induction n as [|n IH]; intros G yi G' H; cbn [renderPair_loop] in H.
  - inversion H. apply same_mask_refl.
  - destruct (ivec_atY e1 _) as [ve1|]; [|discriminate]. cbn [bind] in H.
    destruct (ivec_atY e2 _) as [ve2|]; [|discriminate]. cbn [bind] in H.
    destruct (renderSpan G ve1 ve2) as [G1|] eqn:HG1; [|discriminate].
    cbn [bind] in H.
    destruct (iinc yi) as [yi'|]; [|discriminate]. cbn [bind] in H.
    eapply same_mask_trans; [eapply renderSpan_mask, HG1 | eapply IH, H].
Qed.

Lemma renderPair_mask (G G' : globals) (va1 va2 vb1 vb2 : VERTEX) :
  renderPair G va1 va2 vb1 vb2 = Some G' -> same_mask G G'.
Proof.
  unfold renderPair. intros H.
  walk H; inversion H; subst; try apply same_mask_refl;
    match goal with
    | Hl : renderPair_loop _ _ _ _ _ = Some _ |- _ =>
        eapply renderPair_loop_mask, Hl
    end.
Qed.

Lemma renderTri_mask (G G' : globals) (v1 v2 v3 : VERTEX) :
  renderTri G v1 v2 v3 = Some G' -> same_mask G G'.
Proof.
  unfold renderTri. intros H.
  walk H; inversion H; subst;
    match goal with
    | H1 : renderPair G _ _ _ _ = Some ?G1,
      H2 : renderPair ?G1 _ _ _ _ = Some G' |- _ =>
        eapply same_mask_trans;
          [eapply renderPair_mask, H1 | eapply renderPair_mask, H2]
    end.
Qed.

Lemma renderTris_mask (tris : list (VERTEX * VERTEX * VERTEX)) :
  forall G G', renderTris G tris = Some G' -> same_mask G G'.
Proof.
  induction tris as [|[[v1 v2] v3] rest IH]; intros G G' H;
    cbn [renderTris] in H.
  - inversion H. apply same_mask_refl.
  - destruct (renderTri G v1 v2 v3) as [G1|] eqn:H1; [|discriminate].
    cbn [bind] in H.
    eapply same_mask_trans; [eapply renderTri_mask, H1 | apply IH, H].
Qed.

(** ** Comparisons and floors on given values *)

Local Open Scope R_scope.

Lemma Rleb_true (a b : R) : a <= b -> Rleb a b = true.
Proof. intros H. unfold Rleb. destruct (Rle_dec a b); [reflexivity | lra]. Qed.

Lemma Rleb_false (a b : R) : b < a -> Rleb a b = false.
Proof. intros H. unfold Rleb. destruct (Rle_dec a b); [lra | reflexivity]. Qed.

Lemma Rltb_true (a b : R) : a < b -> Rltb a b = true.
Proof. intros H. unfold Rltb. destruct (Rlt_dec a b); [reflexivity | lra]. Qed.

Lemma Rltb_false (a b : R) : b <= a -> Rltb a b = false.
Proof. intros H. unfold Rltb. destruct (Rlt_dec a b); [lra | reflexivity]. Qed.

Lemma Reqb_true (a b : R) : a = b -> Reqb a b = true.
Proof.
  intros H. unfold Reqb. destruct (Req_dec_T a b); [reflexivity | contradiction].
Qed.

Lemma ifloor_eq (f : R) (z : Z) :
  IZR z <= f < IZR z + 1 -> (INT32_MIN <= z <= INT32_MAX)%Z ->
  ifloor f = Some z.
Proof.
  intros Hf Hz. unfold ifloor, floor, isfinite.
  rewrite (Zfloor_eq z f Hf). cbn [negb].
  rewrite !Rleb_true by (apply IZR_le; lia). cbn [andb negb].
  now rewrite ZfloorZ.
Qed.

Lemma gray_colour (G : globals) (pv : VERTEX) :
  m_inter G = INTER_SCALAR -> v pv = 0 ->
  vertexColor G pv = Some 4286611584%Z.
Proof.
  intros Hmode Hv. unfold vertexColor, checkVertex. rewrite Hmode.
  cbn [isfinite andb negb Z.eqb INTER_SCALAR Pos.eqb bind].
  unfold channel_float, floor.
  rewrite (Zfloor_eq 128) by (rewrite Hv; lra).
  unfold at_least_one. rewrite Rleb_true by lra. cbn [negb].
  unfold to_uint32. rewrite ZfloorZ. reflexivity.
Qed.

(** The span from x = 1/2 to x = 1/2 + 10^-6 on row [r] of a buffer one
    pixel wide covers the pixel of that row. *)
Lemma renderSpan_row (G : globals) (buf : list Z) (r : Z) :
  m_inter G = INTER_SCALAR -> m_w G = 1%Z -> pBuf G = Some buf ->
  (0 <= r < m_h G)%Z -> (r <= INT32_MAX)%Z ->
  renderSpan G (span_vertex (1 / 2) (IZR r + 1 / 2))
               (span_vertex (1 / 2 + 1 / 1000000) (IZR r + 1 / 2))
  = (buf' <-
       renderSpan_loop G
         {| v1 := span_vertex (1 / 2) (IZR r + 1 / 2);
            v2 := span_vertex (1 / 2 + 1 / 1000000) (IZR r + 1 / 2);
            mode := IMODE_SCALAR; angle := 0; denom := 0 |}
         1 0%Z r buf ;;
     Some (set_pBuf G buf')).
Proof.
  intros Hmode Hw Hbuf Hr Hmax.
  unfold renderSpan, ivec_init, checkVertex, span_vertex.
  rewrite Hbuf, Hmode, Hw.
  cbn [bind isfinite x y v andb negb Z.eqb INTER_SCALAR Pos.eqb angle denom].
  rewrite Reqb_true by reflexivity. cbn [negb].
  rewrite Rleb_true by lra. cbn [negb x y].
  rewrite (ifloor_eq (IZR r + 1 / 2) r)
    by (unfold INT32_MIN, INT32_MAX in *; lra || lia).
  rewrite (ifloor_eq (1 / 2) 0) by (unfold INT32_MIN, INT32_MAX; lra || lia).
  rewrite (ifloor_eq (1 / 2 + 1 / 1000000) 0)
    by (unfold INT32_MIN, INT32_MAX; lra || lia).
  cbn [bind].
  rewrite Rltb_false by lra. rewrite Rleb_false by lra. cbn [bind].
  change (0 <? 0)%Z with false. change (0 >=? 1)%Z with false.
  destruct (Z.ltb_spec r 0); [lia|].
  destruct (Z.geb_spec r (m_h G)); [lia|].
  cbn [orb]. cbv iota.
  replace (r * 1 + 0)%Z with r by lia. reflexivity.
Qed.

Lemma mask_spans_render :
  renderSpans mask_buffer mask_spans = Some mask_rendered.
Proof.
  unfold mask_spans. cbn [renderSpans].
  (* first span: the pixel is masked and skipped *)
  rewrite (renderSpan_row mask_buffer [MASKED; 0%Z] 0)
    by (reflexivity || (unfold INT32_MAX; cbn; lia)).
  cbn [renderSpan_loop load Z.ltb Z.compare Z.to_nat nth_error bind].
  rewrite Z.eqb_refl.
  cbn [iinc INT32_MAX Z.geb Z.compare bind].
  (* second span: the pixel is written *)
  rewrite (renderSpan_row _ [MASKED; 0%Z] 1)
    by (reflexivity || (unfold INT32_MAX; cbn; lia)).
  cbn [renderSpan_loop load Z.ltb Z.compare Z.to_nat Pos.to_nat Pos.iter_op
       Nat.add nth_error bind].
  change (0 =? MASKED)%Z with false. cbv iota.
  unfold ivec_atX, span_vertex.
  cbn [isfinite negb v1 v2 x y v].
  rewrite (Rleb_true (1 / 2) (1 / 2 + 1 / 1000000)) by lra.
  rewrite (Rleb_true (1 / 2) (IZR 0 + 1 / 2)) by lra.
  rewrite (Rleb_true (IZR 0 + 1 / 2) (1 / 2 + 1 / 1000000)) by lra.
  cbn [andb negb].
  rewrite Rleb_false by (unfold IVEC_THETA; lra).
  cbn [bind].
  unfold ivec_compute.
  cbn [isfinite negb andb mode v1 v2 x y v Z.eqb IMODE_SCALAR Pos.eqb].
  rewrite (Rleb_true 0 0) by lra. rewrite (Rleb_true 0 1) by lra.
  cbn [negb].
  rewrite (Rleb_true (-1)) by lra. rewrite (Rleb_true _ 1) by lra.
  cbn [negb bind].
  rewrite (gray_colour mask_buffer) by (reflexivity || (cbn [v]; lra)).
  reflexivity.
Qed.

(** ** A triangle over the sample buffer *)

(** An edge between two vertices of scalar 0, at a height between them. *)
Lemma ivec_atY_flat (a b : VERTEX) (yt : R) :
  v a = 0 -> v b = 0 -> y a + 1 <= y b -> y a <= yt <= y b ->
  exists r,
    ivec_atY {| v1 := a; v2 := b; mode := IMODE_SCALAR;
                angle := 0; denom := 0 |} yt = Some r /\
    x r = x a * (1 - (yt - y a) / (y b - y a))
          + x b * ((yt - y a) / (y b - y a)) /\
    y r = yt /\ v r = 0.
Proof.
  intros Hva Hvb Hab Hyt.
  unfold ivec_atY. cbn [isfinite negb v1 v2].
  rewrite (Rleb_true (y a) (y b)) by lra.
  rewrite (Rleb_true (y a) yt), (Rleb_true yt (y b)) by lra.
  cbn [andb negb].
  rewrite Rleb_true by (unfold IVEC_THETA; lra).
  cbn [bind].
  set (t := (yt - y a) / (y b - y a)).
  assert (Ht : 0 <= t <= 1).
  { unfold t. split.
    - apply Rmult_le_pos; [lra|]. apply Rlt_le, Rinv_0_lt_compat. lra.
    - apply (Rmult_le_reg_r (y b - y a)); [lra|].
      unfold Rdiv. rewrite Rmult_assoc, Rinv_l by lra. lra. }
  unfold ivec_compute.
  cbn [isfinite negb andb mode v1 v2 Z.eqb IMODE_SCALAR Pos.eqb].
  rewrite (Rleb_true 0 t), (Rleb_true t 1) by lra.
  cbn [negb]. rewrite Hva, Hvb.
  rewrite (Rleb_true (-1)) by lra. rewrite (Rleb_true _ 1) by lra.
  cbn [negb bind]. eexists. split; [reflexivity|].
  cbn [x y v]. repeat split; lra.
Qed.

(** A span from x = 0 to x = 1 on row [r] of a buffer one pixel wide
    visits the pixel of that row. *)
Lemma renderSpan_flat (G : globals) (buf : list Z) (r : Z) (pa pb : VERTEX) :
  m_inter G = INTER_SCALAR -> m_w G = 1%Z -> pBuf G = Some buf ->
  (0 <= r < m_h G)%Z -> (r <= INT32_MAX)%Z ->
  v pa = 0 -> v pb = 0 -> y pa = IZR r + 1 / 2 -> y pb = IZR r + 1 / 2 ->
  x pa = 0 -> x pb = 1 ->
  renderSpan G pa pb =
    (px <- load buf r ;;
     if (px =? MASKED)%Z then Some (set_pBuf G buf)
     else buf' <- store buf r 4286611584%Z ;; Some (set_pBuf G buf')).
Proof.
  intros Hmode Hw Hbuf Hr Hmax Hva Hvb Hya Hyb Hxa Hxb.
  unfold renderSpan, ivec_init, checkVertex.
  rewrite Hbuf, Hmode, Hw.
  cbn [bind isfinite andb negb Z.eqb INTER_SCALAR Pos.eqb angle denom].
  rewrite Hya, Hyb, Hxa, Hxb.
  rewrite Reqb_true by reflexivity. cbn [negb].
  rewrite Rleb_true by lra. cbn [negb]. rewrite Hya, Hxa, Hxb.
  rewrite (ifloor_eq (IZR r + 1 / 2) r)
    by (unfold INT32_MIN, INT32_MAX in *; lra || lia).
  rewrite (ifloor_eq 0 0) by (unfold INT32_MIN, INT32_MAX; lra || lia).
  rewrite (ifloor_eq 1 1) by (unfold INT32_MIN, INT32_MAX; lra || lia).
  cbn [bind].
  rewrite Rltb_false by lra. rewrite Rleb_true by lra. cbn [bind idec].
  change (idec 1) with (Some 0%Z). cbn [bind].
  change (0 <? 0)%Z with false. change (0 >=? 1)%Z with false.
  destruct (Z.ltb_spec r 0); [lia|].
  destruct (Z.geb_spec r (m_h G)); [lia|].
  cbn [orb]. cbv iota.
  replace (r * 1 + 0)%Z with r by lia.
  change (Z.to_nat (0 + 1 - 0)) with 1%nat.
  cbn [renderSpan_loop].
  destruct (load buf r) as [px|]; [|reflexivity]. cbn [bind].
  change (iinc 0) with (Some 1%Z).
  destruct (px =? MASKED)%Z; [reflexivity|].
  unfold ivec_atX. cbn [isfinite negb v1 v2]. rewrite Hxa, Hxb.
  rewrite (Rleb_true 0 1) by lra.
  rewrite (Rleb_true 0 (IZR 0 + 1 / 2)), (Rleb_true (IZR 0 + 1 / 2) 1) by lra.
  cbn [andb negb].
  rewrite Rleb_true by (unfold IVEC_THETA; lra).
  cbn [bind].
  replace ((IZR 0 + 1 / 2 - 0) / (1 - 0)) with (1 / 2) by (field; lra).
  unfold ivec_compute.
  cbn [isfinite negb andb mode v1 v2 Z.eqb IMODE_SCALAR Pos.eqb].
  rewrite (Rleb_true 0 (1 / 2)), (Rleb_true (1 / 2) 1) by lra.
  cbn [negb]. rewrite Hva, Hvb.
  rewrite (Rleb_true (-1)) by lra. rewrite (Rleb_true _ 1) by lra.
  cbn [negb bind].
  rewrite (gray_colour G) by (assumption || (cbn [v]; lra)).
  cbn [bind]. destruct (store buf r 4286611584%Z); reflexivity.
Qed.

(** A pair of edges whose common extent is the row [r]: the first edge is
    vertical at x = 0, the second is given from its upper vertex. *)
Lemma renderPair_flat (G : globals) (buf : list Z) (r : Z)
    (a1 a2 b1 b2 : VERTEX) :
  m_inter G = INTER_SCALAR -> m_w G = 1%Z -> pBuf G = Some buf ->
  (0 <= r < m_h G)%Z -> (r < INT32_MAX)%Z ->
  v a1 = 0 -> v a2 = 0 -> v b1 = 0 -> v b2 = 0 ->
  x a1 = 0 -> x a2 = 0 -> x b1 + x b2 = 2 ->
  y a1 <= IZR r -> IZR r + 1 <= y a2 ->
  y b1 = IZR r -> y b2 = IZR r + 1 ->
  renderPair G a1 a2 b2 b1 =
    (px <- load buf r ;;
     if (px =? MASKED)%Z then Some (set_pBuf G buf)
     else buf' <- store buf r 4286611584%Z ;; Some (set_pBuf G buf')).
Proof.
  intros Hmode Hw Hbuf Hr Hmax Hva1 Hva2 Hvb1 Hvb2 Hxa1 Hxa2 Hxb Hya1 Hya2
    Hyb1 Hyb2.
  unfold renderPair, ivec_init, checkVertex.
  rewrite Hbuf, Hmode.
  cbn [bind isfinite andb negb Z.eqb INTER_SCALAR Pos.eqb angle denom].
  rewrite (Rleb_true (y a1) (y a2)) by lra.
  rewrite (Rleb_false (y b2) (y b1)) by lra.
  cbn [negb].
  rewrite (Rleb_true (y b1) (y a2)), (Rleb_true (y a1) (y b2)) by lra.
  cbn [andb negb].
  assert (Hmin : (if Rltb (y a1) (y b1) then y b1 else y a1) = IZR r).
  { unfold Rltb. destruct (Rlt_dec (y a1) (y b1)); lra. }
  assert (Hmaxy : (if Rltb (y b2) (y a2) then y b2 else y a2) = IZR r + 1).
  { unfold Rltb. destruct (Rlt_dec (y b2) (y a2)); lra. }
  rewrite Hmin, Hmaxy.
  rewrite (ifloor_eq (IZR r) r)
    by (unfold INT32_MIN, INT32_MAX in *; lra || lia).
  replace (IZR r + 1) with (IZR (r + 1)) by (rewrite plus_IZR; lra).
  rewrite (ifloor_eq (IZR (r + 1)) (r + 1))
    by (unfold INT32_MIN, INT32_MAX in *; lra || lia).
  cbn [bind].
  rewrite Rltb_false by lra. rewrite Rleb_true by lra. cbn [bind].
  unfold idec. destruct (Z.leb_spec (r + 1) INT32_MIN);
    [unfold INT32_MIN in *; lia|].
  cbn [bind]. replace (r + 1 - 1)%Z with r by lia.
  rewrite Z.ltb_irrefl.
  destruct (Z.ltb_spec r 0); [lia|].
  destruct (Z.geb_spec r (m_h G)); [lia|].
  cbn [orb]. cbv iota.
  replace (Z.to_nat (r + 1 - r)) with 1%nat by lia.
  cbn [renderPair_loop].
  destruct (ivec_atY_flat a1 a2 (IZR r + 1 / 2))
    as (ve1 & -> & Hx1 & Hy1 & Hv1); try lra.
  destruct (ivec_atY_flat b1 b2 (IZR r + 1 / 2))
    as (ve2 & -> & Hx2 & Hy2 & Hv2); try lra.
  cbn [bind].
  rewrite (renderSpan_flat G buf r ve1 ve2); try assumption; try lia.
  - destruct (load buf r) as [px|]; [|reflexivity]. cbn [bind].
    unfold iinc. destruct (Z.geb_spec r INT32_MAX); [lia|].
    destruct (px =? MASKED)%Z; cbn [bind]; [reflexivity|].
    destruct (store buf r 4286611584%Z); reflexivity.
  - rewrite Hx1, Hxa1, Hxa2. ring.
  - rewrite Hx2, Hyb1, Hyb2.
    replace ((IZR r + 1 / 2 - IZR r) / (IZR r + 1 - IZR r)) with (1 / 2)
      by (field; lra).
    lra.
Qed.

Lemma mask_triangle_render :
  renderTris mask_buffer mask_triangle = Some mask_rendered.
Proof.
  unfold mask_triangle. cbn [renderTris]. unfold renderTri, tri_A, tri_B, tri_C, span_vertex.
  cbn [checkVertex mask_buffer m_inter isfinite x y v andb negb Z.eqb
       INTER_SCALAR Pos.eqb bind fst snd].
  assert (E0 : fabs (0 - 2) = 2)
    by (unfold fabs, Rabs; destruct (Rcase_abs (0 - 2)); lra).
  assert (E1 : fabs (2 - 1) = 1)
    by (unfold fabs, Rabs; destruct (Rcase_abs (2 - 1)); lra).
  assert (E2 : fabs (1 - 0) = 1)
    by (unfold fabs, Rabs; destruct (Rcase_abs (1 - 0)); lra).
  rewrite E0, E1, E2.
  rewrite (Rltb_false 2 1) by lra. cbv iota beta.
  rewrite (Rltb_false 2 1) by lra. cbv iota beta.
  cbn [Z.eqb fst snd].
  (* the long edge with the upper edge: row 1 is written *)
  rewrite (renderPair_flat mask_buffer [MASKED; 0%Z] 1)
    by (reflexivity || (unfold INT32_MAX; cbn [m_h mask_buffer]; lia)
        || (cbn [x y]; lra)).
  change (load [MASKED; 0%Z] 1) with (Some 0%Z).
  change (store [MASKED; 0%Z] 1 4286611584%Z)
    with (Some [MASKED; 4286611584%Z]).
  cbn [bind]. change (0 =? MASKED)%Z with false. cbv iota. cbn [bind].
  (* the long edge with the lower edge: row 0 is masked *)
  rewrite (renderPair_flat _ [MASKED; 4286611584%Z] 0)
    by (reflexivity || (unfold INT32_MAX; cbn [m_h mask_buffer set_pBuf]; lia)
        || (cbn [x y]; lra)).
  change (load [MASKED; 4286611584%Z] 0) with (Some MASKED).
  cbn [bind]. rewrite Z.eqb_refl. reflexivity.
Qed.

(** C4.  [vertexColor] only returns opaque colours whose three channels
    are in [1, 255], so never the mask sentinel; and after any sequence of
    [renderSpan] calls, and after rendering any list of triangles, a pixel
    holds the sentinel 0xFF000000 exactly when it held it before. *)
Theorem masked_pixels_preserved :
  (forall G pv c, vertexColor G pv = Some c ->
     alpha_of c = 255%Z /\ (1 <= red_of c <= 255)%Z /\
     (1 <= green_of c <= 255)%Z /\ (1 <= blue_of c <= 255)%Z /\
     c <> MASKED) /\
  (forall G spans G', renderSpans G spans = Some G' ->
     forall i, pixel G' i = Some MASKED <-> pixel G i = Some MASKED) /\
  (forall G tris G', renderTris G tris = Some G' ->
     forall i, pixel G' i = Some MASKED <-> pixel G i = Some MASKED).
Proof.
  split; [|split].
  - intros G pv c H. exact (vertexColor_written G pv c H).
  - intros G spans G' H. apply renderSpans_mask in H as (_ & _ & _ & H).
    exact H.
  - intros G tris G' H. apply renderTris_mask in H as (_ & _ & _ & H).
    exact H.
Qed.

Lemma masked_pixels_preserved_witness :
  renderSpans mask_buffer mask_spans = Some mask_rendered /\
  renderTris mask_buffer mask_triangle = Some mask_rendered /\
  (forall i, pixel mask_rendered i = Some MASKED
             <-> pixel mask_buffer i = Some MASKED) /\
  (forall i, pixel mask_rendered i = Some MASKED
             <-> pixel mask_buffer i = Some MASKED) /\
  vertexColor mask_buffer (span_vertex 0 0) = Some 4286611584%Z /\
  alpha_of 4286611584 = 255%Z /\ (1 <= red_of 4286611584 <= 255)%Z /\
  (1 <= green_of 4286611584 <= 255)%Z /\
  (1 <= blue_of 4286611584 <= 255)%Z /\ 4286611584%Z <> MASKED.
Proof.
  split; [exact mask_spans_render|].
  split; [exact mask_triangle_render|].
  split.
  - exact (proj1 (proj2 masked_pixels_preserved) mask_buffer mask_spans
             mask_rendered mask_spans_render).
  - split.
    + exact (proj2 (proj2 masked_pixels_preserved) mask_buffer mask_triangle
               mask_rendered mask_triangle_render).
    + split; [exact (gray_colour mask_buffer (span_vertex 0 0)
                       eq_refl eq_refl)|].
      exact (proj1 masked_pixels_preserved mask_buffer (span_vertex 0 0)
               4286611584%Z
               (gray_colour mask_buffer (span_vertex 0 0) eq_refl eq_refl)).
Defined.

(** ** Interpolation at the end points *)

Ltac endpoints :=
  do 2 eexists; split; [reflexivity|]; split; [|split; [reflexivity|]];
  unfold at_vertex, same_attribute; cbn [x y v vx vy vz]; repeat split.

Lemma ivec_compute_endpoints (iv : IVEC) :
  ivec_ready iv ->
  exists r0 r1,
    ivec_compute iv 0 = Some r0 /\
    at_vertex (mode iv =? IMODE_SCALAR)%Z r0 (v1 iv) /\
    ivec_compute iv 1 = Some r1 /\
    at_vertex (mode iv =? IMODE_SCALAR)%Z r1 (v2 iv).
Proof.
  intros Hready. unfold ivec_compute, isfinite, checked, slerp_component.
  cbn [negb andb].
  rewrite (Rleb_true 0 0), (Rleb_true 0 1), (Rleb_true 1 1) by lra.
  cbn [negb].
  destruct Hready as [(Hm & Ha & Hb) | [Hm | [(Hm & Hd & Hnz) | Hm]]];
    rewrite Hm;
    cbn [Z.eqb IMODE_SCALAR IMODE_VLINEAR IMODE_SLERP IMODE_DOUBLE Pos.eqb
         bind isfinite negb andb].
  - rewrite (Rleb_true (-1) (v (v1 iv) * (1 - 0) + v (v2 iv) * 0)) by lra.
    rewrite (Rleb_true (-1) (v (v1 iv) * (1 - 1) + v (v2 iv) * 1)) by lra.
    rewrite (Rleb_true (v (v1 iv) * (1 - 0) + v (v2 iv) * 0) 1) by lra.
    rewrite (Rleb_true (v (v1 iv) * (1 - 1) + v (v2 iv) * 1) 1) by lra.
    cbn [negb]. endpoints; lra.
  - endpoints; lra.
  - replace ((1 - 0) * angle iv) with (angle iv) by ring.
    replace (0 * angle iv) with 0 by ring.
    replace ((1 - 1) * angle iv) with 0 by ring.
    replace (1 * angle iv) with (angle iv) by ring.
    rewrite sin_0, Hd. rewrite Hd in Hnz.
    endpoints; try lra; field; exact Hnz.
  - rewrite (Rltb_true 0 (1 / 2)), (Rltb_false 1 (1 / 2)) by lra.
    unfold M_PI_2.
    replace ((1 - 0 * 2) * (PI / 2)) with (PI / 2) by field.
    replace (0 * 2 * (PI / 2)) with 0 by field.
    replace ((1 - (1 - 1 / 2) * 2) * (PI / 2)) with 0 by field.
    replace ((1 - 1 / 2) * 2 * (PI / 2)) with (PI / 2) by field.
    rewrite sin_0, sin_PI2.
    cbn [bind isfinite negb andb].
    endpoints; lra.
Qed.

Lemma slerp_angle_sin (a : R) :
  MIN_SLERP_ANGLE <= a <= MAX_SLERP_ANGLE -> sin a <> 0.
Proof.
  unfold MIN_SLERP_ANGLE, MAX_SLERP_ANGLE, M_PI. intros Ha.
  pose proof PI_RGT_0 as Hpi.
  assert (0 < sin a) by (apply sin_gt_0; lra). lra.
Qed.

Lemma ivec_init_ready (G : globals) (va vb : VERTEX) :
  m_inter G = INTER_SCALAR \/ m_inter G = INTER_VECTOR ->
  valid_vertex G va -> valid_vertex G vb ->
  exists iv,
    ivec_init G va vb = Some iv /\ v1 iv = va /\ v2 iv = vb /\
    ivec_ready iv /\
    (mode iv =? IMODE_SCALAR)%Z = (m_inter G =? INTER_SCALAR)%Z.
Proof.
  intros Hmode [Hsa Hva] [Hsb Hvb].
  unfold ivec_init, checkVertex, isfinite. cbn [negb andb].
  destruct Hmode as [Hm|Hm]; rewrite Hm;
    cbn [Z.eqb INTER_SCALAR INTER_VECTOR Pos.eqb bind angle denom].
  - eexists. split; [reflexivity|]. unfold ivec_ready.
    cbn [v1 v2 mode]. repeat split. left. auto.
  - set (d := vx va * vx vb + vy va * vy vb + vz va * vz vb).
    set (c := if negb (Rleb (-1) d) then -1
              else if negb (Rleb d 1) then 1 else d).
    set (a := acos c).
    unfold Rleb at 1 2, Rltb.
    destruct (Rle_dec MIN_SLERP_ANGLE a) as [Hlo|Hlo];
      [destruct (Rle_dec a MAX_SLERP_ANGLE) as [Hhi|Hhi]|]; cbn [andb].
    + eexists. split; [reflexivity|]. unfold ivec_ready.
      cbn [v1 v2 mode angle denom]. repeat split.
      right; right; left. repeat split. apply slerp_angle_sin. lra.
    + destruct (Rlt_dec a MIN_SLERP_ANGLE) as [Hlt|Hlt]; [lra|].
      destruct (Rlt_dec MAX_SLERP_ANGLE a) as [Hgt|Hgt]; [|lra].
      eexists. split; [reflexivity|]. unfold ivec_ready.
      cbn [v1 v2 mode]. repeat split. right; right; right. reflexivity.
    + destruct (Rlt_dec a MIN_SLERP_ANGLE) as [Hlt|Hlt]; [|lra].
      eexists. split; [reflexivity|]. unfold ivec_ready.
      cbn [v1 v2 mode]. repeat split. right; left. reflexivity.
Qed.

(** C8.  For an interpolator built by [ivec_init] from two valid
    vertices, whatever the mode it selects, [ivec_compute] at t = 0
    returns the position and the attribute of the first vertex and at
    t = 1 those of the second; and the same holds of any interpolation
    structure in one of the four modes (in exact real arithmetic). *)
Theorem ivec_compute_at_endpoints :
  (forall G va vb,
     m_inter G = INTER_SCALAR \/ m_inter G = INTER_VECTOR ->
     valid_vertex G va -> valid_vertex G vb ->
     exists iv r0 r1,
       ivec_init G va vb = Some iv /\
       ivec_compute iv 0 = Some r0 /\
       at_vertex (m_inter G =? INTER_SCALAR)%Z r0 va /\
       ivec_compute iv 1 = Some r1 /\
       at_vertex (m_inter G =? INTER_SCALAR)%Z r1 vb) /\
  (forall iv, ivec_ready iv ->
     exists r0 r1,
       ivec_compute iv 0 = Some r0 /\
       at_vertex (mode iv =? IMODE_SCALAR)%Z r0 (v1 iv) /\
       ivec_compute iv 1 = Some r1 /\
       at_vertex (mode iv =? IMODE_SCALAR)%Z r1 (v2 iv)).
Proof.
  split; [|exact ivec_compute_endpoints].
  intros G va vb Hmode Hva Hvb.
  destruct (ivec_init_ready G va vb Hmode Hva Hvb)
    as (iv & Hinit & H1 & H2 & Hready & Hscalar).
  destruct (ivec_compute_endpoints iv Hready) as (r0 & r1 & E0 & A0 & E1 & A1).
  rewrite Hscalar, H1 in A0. rewrite Hscalar, H2 in A1.
  exists iv, r0, r1. auto.
Qed.

Lemma unit_vertex_valid (px nx ny nz : R) :
  -1 <= nx <= 1 -> -1 <= ny <= 1 -> 0 <= nz <= 1 ->
  nx * nx + ny * ny + nz * nz = 1 ->
  valid_vertex vector_mode (unit_vertex px nx ny nz).
Proof.
  intros Hx Hy Hz Hunit. split; [discriminate|]. intros _.
  cbn [unit_vertex vx vy vz]. auto.
Qed.

Lemma ivec_init_vector (va vb : VERTEX) (d : R) :
  vx va * vx vb + vy va * vy vb + vz va * vz vb = d -> -1 <= d <= 1 ->
  ivec_init vector_mode va vb =
    if Rleb MIN_SLERP_ANGLE (acos d) && Rleb (acos d) MAX_SLERP_ANGLE
    then Some {| v1 := va; v2 := vb; mode := IMODE_SLERP;
                 angle := acos d; denom := sin (acos d) |}
    else if Rltb (acos d) MIN_SLERP_ANGLE
    then Some {| v1 := va; v2 := vb; mode := IMODE_VLINEAR;
                 angle := 0; denom := 0 |}
    else if Rltb MAX_SLERP_ANGLE (acos d)
    then Some {| v1 := va; v2 := vb; mode := IMODE_DOUBLE;
                 angle := 0; denom := 0 |}
    else None.
Proof.
  intros Hd Hrange. unfold ivec_init, checkVertex, isfinite.
  cbn [vector_mode m_inter negb andb Z.eqb INTER_SCALAR INTER_VECTOR
       Pos.eqb bind angle denom].
  rewrite Hd. rewrite (Rleb_true (-1) d), (Rleb_true d 1) by lra.
  reflexivity.
Qed.

(** Each of the three vector modes is selected for some pair of unit
    vectors: a right angle gives slerp, equal vectors the linear mode,
    opposite vectors the double slerp. *)
Lemma ivec_init_selects_each_mode :
  (exists iv, ivec_init vector_mode (unit_vertex 0 1 0 0) (unit_vertex 1 0 0 1)
              = Some iv /\ mode iv = IMODE_SLERP) /\
  (exists iv, ivec_init vector_mode (unit_vertex 0 0 0 1) (unit_vertex 1 0 0 1)
              = Some iv /\ mode iv = IMODE_VLINEAR) /\
  (exists iv, ivec_init vector_mode (unit_vertex 0 1 0 0) (unit_vertex 1 (-1) 0 0)
              = Some iv /\ mode iv = IMODE_DOUBLE).
Proof.
  pose proof PI_RGT_0 as Hpi.
  split; [|split].
  - rewrite (ivec_init_vector _ _ 0) by (cbn [unit_vertex vx vy vz]; lra).
    rewrite acos_0.
    rewrite !Rleb_true by (unfold MIN_SLERP_ANGLE, MAX_SLERP_ANGLE, M_PI; lra).
    eexists. split; reflexivity.
  - rewrite (ivec_init_vector _ _ 1) by (cbn [unit_vertex vx vy vz]; lra).
    rewrite acos_1.
    rewrite Rleb_false by (unfold MIN_SLERP_ANGLE, M_PI; lra).
    rewrite Rltb_true by (unfold MIN_SLERP_ANGLE, M_PI; lra).
    eexists. split; reflexivity.
  - rewrite (ivec_init_vector _ _ (-1)) by (cbn [unit_vertex vx vy vz]; lra).
    replace (acos (-1)) with PI
      by (replace (-1) with (Ropp 1) by lra; rewrite acos_opp, acos_1; lra).
    rewrite (Rleb_true MIN_SLERP_ANGLE)
      by (unfold MIN_SLERP_ANGLE, M_PI; lra).
    rewrite Rleb_false by (unfold MAX_SLERP_ANGLE, M_PI; lra).
    rewrite Rltb_false by (unfold MIN_SLERP_ANGLE, M_PI; lra).
    rewrite Rltb_true by (unfold MAX_SLERP_ANGLE, M_PI; lra).
    eexists. split; reflexivity.
Qed.

Lemma ivec_compute_at_endpoints_witness :
  (m_inter vector_mode = INTER_SCALAR \/ m_inter vector_mode = INTER_VECTOR) /\
  valid_vertex vector_mode (unit_vertex 0 1 0 0) /\
  valid_vertex vector_mode (unit_vertex 1 0 0 1) /\
  exists iv r0 r1,
    ivec_init vector_mode (unit_vertex 0 1 0 0) (unit_vertex 1 0 0 1)
      = Some iv /\
    ivec_compute iv 0 = Some r0 /\
    at_vertex (m_inter vector_mode =? INTER_SCALAR)%Z r0 (unit_vertex 0 1 0 0) /\
    ivec_compute iv 1 = Some r1 /\
    at_vertex (m_inter vector_mode =? INTER_SCALAR)%Z r1 (unit_vertex 1 0 0 1).
Proof.
  assert (Hmode : m_inter vector_mode = INTER_SCALAR \/
                  m_inter vector_mode = INTER_VECTOR) by (right; reflexivity).
  assert (Ha : valid_vertex vector_mode (unit_vertex 0 1 0 0))
    by (apply unit_vertex_valid; lra).
  assert (Hb : valid_vertex vector_mode (unit_vertex 1 0 0 1))
    by (apply unit_vertex_valid; lra).
  split; [exact Hmode|]. split; [exact Ha|]. split; [exact Hb|].
  exact (proj1 ivec_compute_at_endpoints vector_mode _ _ Hmode Ha Hb).
Defined.

End LilacMe2PngProofs.

(** * Further properties of the loader

    The usage map, the point and triangle operations, the header, and
    what holds of every mesh [lilac_mesh_new] returns. *)

Module LilacMeshLoader.

Import LilacMesh LilacMeshSpec LilacMeshProofs.
Local Open Scope Z_scope.

(** ** The usage map *)

(** X1.  [usage_map_dim] faults exactly when the point count is outside
    [0, LILAC_MESH_MAX_POINTS].  The map it leaves has no point and no
    edge marked, whatever the map held before, and [usage_map_orphan]
    on it reports an orphan exactly when the point count is not zero. *)
Theorem usage_map_dim_fresh (pM : USAGE_MAP) (n : Z) :
  (usage_map_dim pM n = None <-> n < 0 \/ LILAC_MESH_MAX_POINTS < n) /\
  (forall pM', usage_map_dim pM n = Some pM' ->
     um_wf pM' /\ um_point_count pM' = n /\
     (forall i, point_used pM' i = false) /\
     (forall i1 i2, edge_used pM' i1 i2 = false) /\
     usage_map_orphan pM' = Some (if n =? 0 then 0 else 1)).
Proof.
  split.
  - unfold usage_map_dim.
    destruct (Z.ltb_spec n 0); [cbn [orb]; split; [lia | reflexivity]|].
    destruct (Z.gtb_spec n LILAC_MESH_MAX_POINTS);
      [cbn [orb]; split; [lia | reflexivity]|].
    cbn [orb]. destruct (n >? 0); split; (discriminate || lia).
  - intros pM' H.
    assert (Hn : 0 <= n <= LILAC_MESH_MAX_POINTS).
    { unfold usage_map_dim in H.
      destruct (Z.ltb_spec n 0); [discriminate|].
      destruct (Z.gtb_spec n LILAC_MESH_MAX_POINTS); [discriminate|]. lia. }
    destruct (usage_map_dim_ok pM n Hn) as (pM1 & E & Hwf & Hc & Hp & He & _).
    rewrite E in H. inversion H. subst pM1.
    repeat split; try assumption; try apply Hwf.
    destruct Hwf as (_ & Hpl & _).
    destruct (usage_map_orphan_spec pM' Hpl) as (r & Er & Hr01 & Hr).
    rewrite Er. f_equal.
    destruct (Z.eqb_spec n 0) as [->|Hnz].
    + destruct Hr01 as [->| ->]; [reflexivity|].
      destruct (proj1 Hr ltac:(lia)) as (j & Hj & _). lia.
    + destruct Hr01 as [->| ->]; [|reflexivity].
      exfalso. apply (proj2 Hr); [|reflexivity].
      exists 0. split; [lia | apply Hp].
Qed.

(** X2.  On a dimensioned map and for an index in range,
    [usage_map_point] marks the point and changes the mark of no other
    point and of no edge; marking the same point again changes
    nothing. *)
Theorem usage_map_point_marks (pM : USAGE_MAP) (i : Z) :
  um_wf pM -> 0 <= i < um_point_count pM ->
  exists pM1 pM2,
    usage_map_point pM i = Some pM1 /\
    (forall j, point_used pM1 j = (j =? i) || point_used pM j) /\
    (forall j1 j2, edge_used pM1 j1 j2 = edge_used pM j1 j2) /\
    usage_map_point pM1 i = Some pM2 /\
    (forall j, point_used pM2 j = point_used pM1 j).
Proof.
  intros Hwf Hi.
  destruct (usage_map_point_ok pM i Hwf Hi) as (pM1 & E1 & Hwf1 & Hc1 & He1 & Hp1 & _).
  assert (Hi1 : 0 <= i < um_point_count pM1) by lia.
  destruct (usage_map_point_ok pM1 i Hwf1 Hi1) as (pM2 & E2 & _ & _ & _ & Hp2 & _).
  exists pM1, pM2. repeat split; try assumption.
  - intros j1 j2. unfold edge_used. now rewrite He1, Hc1.
  - intros j. rewrite Hp2, Hp1. now destruct (j =? i).
Qed.

Lemma usage_map_point_marks_witness :
  um_wf quad_um /\
  exists pM1 pM2,
    usage_map_point quad_um 2 = Some pM1 /\
    (forall j, point_used pM1 j = (j =? 2) || point_used quad_um j) /\
    (forall j1 j2, edge_used pM1 j1 j2 = edge_used quad_um j1 j2) /\
    usage_map_point pM1 2 = Some pM2 /\
    (forall j, point_used pM2 j = point_used pM1 j).
Proof.
  assert (Hwf : um_wf quad_um)
    by (unfold um_wf, LILAC_MESH_MAX_POINTS; cbn; lia).
  split; [exact Hwf|].
  apply (usage_map_point_marks quad_um 2 Hwf); cbn; lia.
Defined.

(** X3.  On a dimensioned map and for indices in range,
    [usage_map_edge] returns 1 when the directed edge was not marked and
    0 when it was; after the call the edge is marked, no other edge and
    no point has changed, and a second call for the same edge returns 0
    and changes nothing. *)
Theorem usage_map_edge_consumes_once (pM : USAGE_MAP) (i1 i2 : Z) :
  um_wf pM ->
  0 <= i1 < um_point_count pM -> 0 <= i2 < um_point_count pM ->
  exists pM1 pM2,
    usage_map_edge pM i1 i2
      = Some ((if edge_used pM i1 i2 then 0 else 1), pM1) /\
    edge_used pM1 i1 i2 = true /\
    (forall j1 j2, 0 <= j2 < um_point_count pM ->
       (j1 <> i1 \/ j2 <> i2) -> edge_used pM1 j1 j2 = edge_used pM j1 j2) /\
    (forall j, point_used pM1 j = point_used pM j) /\
    usage_map_edge pM1 i1 i2 = Some (0, pM2) /\
    (forall j1 j2, 0 <= j2 < um_point_count pM ->
       edge_used pM2 j1 j2 = edge_used pM1 j1 j2).
Proof.
  intros Hwf H1 H2.
  destruct (usage_map_edge_ok pM i1 i2 Hwf H1 H2)
    as (pM1 & E1 & Hwf1 & Hc1 & Hp1 & He1 & _).
  assert (H1' : 0 <= i1 < um_point_count pM1) by lia.
  assert (H2' : 0 <= i2 < um_point_count pM1) by lia.
  destruct (usage_map_edge_ok pM1 i1 i2 Hwf1 H1' H2')
    as (pM2 & E2 & _ & _ & _ & He2 & _).
  assert (Hset : edge_used pM1 i1 i2 = true).
  { rewrite He1 by lia. now rewrite !Z.eqb_refl. }
  exists pM1, pM2. repeat split; try assumption.
  - intros j1 j2 Hj Hne. rewrite He1 by assumption.
    destruct (Z.eqb_spec j1 i1), (Z.eqb_spec j2 i2); cbn [andb orb];
      try reflexivity. lia.
  - intros j. unfold point_used. now rewrite Hp1.
  - now rewrite Hset in E2.
  - intros j1 j2 Hj. rewrite He2 by lia.
    destruct (Z.eqb_spec j1 i1), (Z.eqb_spec j2 i2); cbn [andb orb];
      try reflexivity. subst. exact (eq_sym Hset).
Qed.

Lemma usage_map_edge_consumes_once_witness :
  um_wf quad_um /\
  exists pM1 pM2,
    usage_map_edge quad_um 1 2 = Some (1, pM1) /\
    edge_used pM1 1 2 = true /\ edge_used pM1 2 1 = false /\
    usage_map_edge pM1 1 2 = Some (0, pM2).
Proof.
  assert (Hwf : um_wf quad_um)
    by (unfold um_wf, LILAC_MESH_MAX_POINTS; cbn; lia).
  split; [exact Hwf|].
  destruct (usage_map_edge_consumes_once quad_um 1 2 Hwf)
    as (pM1 & pM2 & E1 & Hset & Hother & _ & E2 & _); try (cbn; lia).
  exists pM1, pM2. split; [exact E1|]. split; [exact Hset|].
  split; [|exact E2].
  rewrite (Hother 2 1); [reflexivity | cbn; lia | lia].
Defined.

(** ** The point and triangle operations *)

Lemma point_at_upd (pM : LILAC_MESH) (i j : Z) (p : LILAC_MESH_POINT) :
  0 <= i < len (pPoints pM) -> 0 <= j ->
  point_at (set_pPoints pM (upd (pPoints pM) (Z.to_nat i) p)) j
  = if j =? i then p else point_at pM j.
Proof.
  intros Hi Hj. unfold point_at, len in *. cbn [pPoints set_pPoints].
  rewrite nth_upd by lia.
  destruct (Z.eqb_spec j i) as [->|Hne].
  - now rewrite Nat.eqb_refl.
  - destruct (Nat.eqb_spec (Z.to_nat j) (Z.to_nat i)); [lia | reflexivity].
Qed.

Lemma op_p_spec (normd norma x y : Z) (pM : LILAC_MESH)
    (ptsW err : Z) :
  0 <= normd <= LILAC_MESH_MAX_C -> 0 <= norma <= LILAC_MESH_MAX_C ->
  0 <= x <= LILAC_MESH_MAX_C -> 0 <= y <= LILAC_MESH_MAX_C ->
  0 <= ptsW -> len (pPoints pM) = point_count pM ->
  match first_failure (point_checks normd norma pM ptsW) with
  | Some code => op_p normd norma x y pM ptsW err = Some (false, pM, ptsW, code)
  | None =>
      exists pM',
        op_p normd norma x y pM ptsW err = Some (true, pM', ptsW + 1, err) /\
        point_at pM' ptsW = mkPoint normd norma x y /\
        (forall j, 0 <= j -> j <> ptsW -> point_at pM' j = point_at pM j) /\
        len (pPoints pM') = len (pPoints pM) /\
        pTris pM' = pTris pM /\ point_count pM' = point_count pM /\
        tri_count pM' = tri_count pM
  end.
Proof.
  intros Hd Ha Hx Hy Hw Hlen.
  unfold op_p, first_failure, point_checks.
  destruct (Z.gtb_spec normd LILAC_MESH_MAX_C); [lia|].
  destruct (Z.gtb_spec norma LILAC_MESH_MAX_C); [lia|].
  destruct (Z.gtb_spec x LILAC_MESH_MAX_C); [lia|].
  destruct (Z.gtb_spec y LILAC_MESH_MAX_C); [lia|].
  cbn [orb find snd fst option_map].
  destruct (Z.eqb_spec normd 0) as [Hd0|Hd0];
    destruct (Z.eqb_spec norma 0) as [Ha0|Ha0]; cbn [negb andb];
    try reflexivity;
    (destruct (Z.geb_spec norma LILAC_MESH_MAX_C) as [Ha1|Ha1];
     cbn [andb option_map fst]; [reflexivity|]);
    (destruct (Z.geb_spec ptsW (point_count pM)) as [Hp|Hp];
     cbn [andb option_map fst bind]; [reflexivity|]);
    (assert (Hin : 0 <= ptsW < len (pPoints pM)) by lia;
     rewrite (store_in_range (pPoints pM) ptsW
                {| normd := normd; norma := norma; x := x; y := y |} Hin);
     cbn [bind]; eexists; split; [reflexivity|];
     repeat split; try reflexivity;
     [ rewrite point_at_upd by lia; now rewrite Z.eqb_refl
     | intros j Hj Hne; rewrite point_at_upd by lia;
       destruct (Z.eqb_spec j ptsW); [contradiction | reflexivity]
     | cbn [pPoints set_pPoints]; unfold len; now rewrite upd_length ]).
Qed.

(** X4.  With arguments in [0, LILAC_MESH_MAX_C], [op_p] checks NORMDA
    (normd is zero and norma is not), then NORM2P (norma is
    LILAC_MESH_MAX_C), then PTOVER (all declared points are written) and
    fails with the code of the first check that fails, leaving the mesh
    and the counter as they were.  When none fails it stores the point at
    index [ptsW], leaves the other points and the triangle list as they
    were, adds one to the counter and does not touch the error code. *)
Theorem op_p_reports_first_failure (normd norma x y : Z) (pM : LILAC_MESH)
    (ptsW err : Z) :
  0 <= normd <= LILAC_MESH_MAX_C -> 0 <= norma <= LILAC_MESH_MAX_C ->
  0 <= x <= LILAC_MESH_MAX_C -> 0 <= y <= LILAC_MESH_MAX_C ->
  0 <= ptsW -> len (pPoints pM) = point_count pM ->
  match first_failure (point_checks normd norma pM ptsW) with
  | Some code => op_p normd norma x y pM ptsW err = Some (false, pM, ptsW, code)
  | None =>
      exists pM',
        op_p normd norma x y pM ptsW err = Some (true, pM', ptsW + 1, err) /\
        point_at pM' ptsW = mkPoint normd norma x y /\
        (forall j, 0 <= j -> j <> ptsW -> point_at pM' j = point_at pM j) /\
        len (pPoints pM') = len (pPoints pM) /\
        pTris pM' = pTris pM /\ point_count pM' = point_count pM /\
        tri_count pM' = tri_count pM
  end.
Proof. exact (op_p_spec normd norma x y pM ptsW err). Qed.

Lemma op_p_reports_first_failure_witness :
  op_p 0 5 0 0 quad_mesh 4 0
    = Some (false, quad_mesh, 4, LILAC_MESH_ERR_NORMDA) /\
  op_p 5 16384 0 0 quad_mesh 4 0
    = Some (false, quad_mesh, 4, LILAC_MESH_ERR_NORM2P) /\
  op_p 5 5 0 0 quad_mesh 4 0
    = Some (false, quad_mesh, 4, LILAC_MESH_ERR_PTOVER) /\
  exists pM',
    op_p 5 5 7 9 quad_mesh 3 0 = Some (true, pM', 4, 0) /\
    point_at pM' 3 = mkPoint 5 5 7 9.
Proof.
  assert (H0 : 0 <= 0 <= LILAC_MESH_MAX_C) by (unfold LILAC_MESH_MAX_C; lia).
  assert (H5 : 0 <= 5 <= LILAC_MESH_MAX_C) by (unfold LILAC_MESH_MAX_C; lia).
  assert (H7 : 0 <= 7 <= LILAC_MESH_MAX_C) by (unfold LILAC_MESH_MAX_C; lia).
  assert (H9 : 0 <= 9 <= LILAC_MESH_MAX_C) by (unfold LILAC_MESH_MAX_C; lia).
  assert (HC : 0 <= 16384 <= LILAC_MESH_MAX_C)
    by (unfold LILAC_MESH_MAX_C; lia).
  split; [exact (op_p_reports_first_failure 0 5 0 0 quad_mesh 4 0
                   H0 H5 H0 H0 ltac:(lia) eq_refl)|].
  split; [exact (op_p_reports_first_failure 5 16384 0 0 quad_mesh 4 0
                   H5 HC H0 H0 ltac:(lia) eq_refl)|].
  split; [exact (op_p_reports_first_failure 5 5 0 0 quad_mesh 4 0
                   H5 H5 H0 H0 ltac:(lia) eq_refl)|].
  destruct (op_p_reports_first_failure 5 5 7 9 quad_mesh 3 0
              H5 H5 H7 H9 ltac:(lia) eq_refl) as (pM' & E & Hp & _).
  exists pM'. split; [exact E | exact Hp].
Defined.

Lemma op_t_accepts v1 v2 v3 pM ptsW triW pUm err :
  op_t_pre v1 v2 v3 pM ptsW triW pUm ->
  first_failure (triangle_checks v1 v2 v3 pM ptsW triW pUm) = None ->
  exists pUm',
    op_t v1 v2 v3 pM ptsW triW pUm err
      = Some (true, set_pTris pM (tris_with (pTris pM) triW v1 v2 v3),
              triW + 1, pUm', err) /\
    um_wf pUm' /\ um_point_count pUm' = um_point_count pUm /\
    (forall j, point_used pUm' j
               = (j =? v1) || (j =? v2) || (j =? v3) || point_used pUm j) /\
    (forall j1 j2, 0 <= j2 < um_point_count pUm ->
       edge_used pUm' j1 j2 = is_edge v1 v2 v3 j1 j2 || edge_used pUm j1 j2).
Proof.
  intros Hpre Hnone.
  pose proof Hpre as (Hv1 & Hv2 & Hv3 & Hpts & Hplen & Hpum & Hwf & Htri & Htlen).
  destruct (first_failure_None _ _ _ _ _ _ _ Hnone)
    as (E1 & E2 & E3 & E4 & E5 & E6 & E7 & E8 & E9).
  assert (Hdef : v1 < ptsW /\ v2 < ptsW /\ v3 < ptsW).
  { unfold fails_PTREF in E1. zcases; cbn in E1; try discriminate; lia. }
  assert (Hdist : v1 <> v2 /\ v2 <> v3 /\ v1 <> v3).
  { unfold fails_VXDUP in E2. zcases; cbn in E2; try discriminate; lia. }
  assert (Hroom : triW < tri_count pM).
  { unfold fails_TROVER in E6. zcases; try discriminate; lia. }
  unfold op_t.
  destruct (Z.gtb_spec v1 LILAC_MESH_MAX_C); [lia|].
  destruct (Z.gtb_spec v2 LILAC_MESH_MAX_C); [lia|].
  destruct (Z.gtb_spec v3 LILAC_MESH_MAX_C); [lia|].
  destruct (Z.ltb_spec ptsW 0); [lia|].
  destruct (Z.gtb_spec ptsW LILAC_MESH_MAX_POINTS); [lia|].
  cbn [orb]. cbv iota.
  change ((v1 >=? ptsW) || (v2 >=? ptsW) || (v3 >=? ptsW))
    with (fails_PTREF v1 v2 v3 ptsW). rewrite E1.
  change ((v1 =? v2) || (v2 =? v3) || (v1 =? v3)) with (fails_VXDUP v1 v2 v3).
  rewrite E2.
  change ((v2 <? v1) || (v3 <? v1)) with (fails_VXORD v1 v2 v3). rewrite E3.
  rewrite !load_point by lia. cbv beta iota zeta delta [bind andb].
  rewrite cross_k_sign.
  replace (negb (0 <? cross_Z (point_at pM v1) (point_at pM v2) (point_at pM v3)))
    with (fails_ORIENT pM v1 v2 v3)
    by (unfold fails_ORIENT; zcases; reflexivity || lia).
  rewrite E4. cbv beta iota zeta delta [bind andb].
  match goal with
  | |- context [match (if triW >? 0 then ?body else ?other) with _ => _ end] =>
      assert (Hsort : (if triW >? 0 then body else other)
                = if fails_TRSORT pM triW v1 v2
                  then Some (false, LILAC_MESH_ERR_TRSORT)
                  else Some (true, err))
  end.
  { unfold fails_TRSORT. destruct (Z.gtb_spec triW 0); [|reflexivity].
    rewrite !load_tri by lia. cbv beta iota zeta delta [bind andb].
    zcases; cbn; reflexivity || lia. }
  rewrite Hsort, E5. clear Hsort. cbv beta iota zeta delta [bind andb].
  change (triW >=? tri_count pM) with (fails_TROVER pM triW). rewrite E6.
  set (n := um_point_count pUm) in *.
  destruct (op_t_edge_ok pUm v1 v2 err Hwf ltac:(lia) ltac:(lia))
    as (pUm1 & Hcall1 & Hwf1 & Hn1 & Hp1 & He1 & _).
  rewrite Hcall1, E7. fold n in Hn1, He1. cbv beta iota zeta delta [bind].
  destruct (op_t_edge_ok pUm1 v2 v3 err Hwf1 ltac:(lia) ltac:(lia))
    as (pUm2 & Hcall2 & Hwf2 & Hn2 & Hp2 & He2 & _).
  rewrite Hcall2. rewrite Hn1 in Hn2, He2.
  assert (Hu2 : edge_used pUm1 v2 v3 = false).
  { rewrite He1, E8 by lia. zcases; cbn; reflexivity || lia. }
  rewrite Hu2. cbv beta iota zeta delta [bind].
  destruct (op_t_edge_ok pUm2 v3 v1 err Hwf2 ltac:(lia) ltac:(lia))
    as (pUm3 & Hcall3 & Hwf3 & Hn3 & Hp3 & He3 & _).
  rewrite Hcall3. rewrite Hn2 in Hn3, He3.
  assert (Hu3 : edge_used pUm2 v3 v1 = false).
  { rewrite He2, He1, E9 by lia. zcases; cbn; reflexivity || lia. }
  rewrite Hu3. cbv beta iota zeta delta [bind].
  destruct (usage_map_point_ok pUm3 v1 Hwf3 ltac:(lia))
    as (pUm4 & Hcall4 & Hwf4 & Hn4 & Hq4 & Hb4 & _).
  destruct (usage_map_point_ok pUm4 v2 Hwf4 ltac:(lia))
    as (pUm5 & Hcall5 & Hwf5 & Hn5 & Hq5 & Hb5 & _).
  destruct (usage_map_point_ok pUm5 v3 Hwf5 ltac:(lia))
    as (pUm6 & Hcall6 & Hwf6 & Hn6 & Hq6 & Hb6 & _).
  rewrite Hcall4. cbv beta iota zeta delta [bind].
  rewrite Hcall5. cbv beta iota zeta delta [bind].
  rewrite Hcall6. cbv beta iota zeta delta [bind].
  assert (Hs1 := store_in_range (pTris pM) (triW * 3) v1 ltac:(lia)).
  rewrite Hs1. cbv beta iota zeta delta [bind].
  assert (Hl1 := store_len _ _ _ _ Hs1).
  assert (Hs2 := store_in_range
            (upd (pTris pM) (Z.to_nat (triW * 3)) v1)
            (triW * 3 + 1) v2 ltac:(lia)).
  rewrite Hs2. cbv beta iota zeta delta [bind].
  assert (Hl2 := store_len _ _ _ _ Hs2).
  assert (Hs3 := store_in_range
            (upd (upd (pTris pM) (Z.to_nat (triW * 3)) v1)
                 (Z.to_nat (triW * 3 + 1)) v2)
            (triW * 3 + 2) v3 ltac:(lia)).
  rewrite Hs3. cbv beta iota zeta delta [bind].
  exists pUm6. split; [reflexivity|].
  split; [exact Hwf6|].
  split; [rewrite Hn6, Hn5, Hn4, Hn3; reflexivity|].
  split.
  - intros j. rewrite Hb6, Hb5, Hb4.
    assert (Hsame : point_used pUm3 j = point_used pUm j)
      by (unfold point_used; rewrite Hp3, Hp2, Hp1; reflexivity).
    rewrite Hsame.
    destruct (j =? v1), (j =? v2), (j =? v3), (point_used pUm j); reflexivity.
  - intros j1 j2 Hj.
    assert (Hsame : edge_used pUm6 j1 j2 = edge_used pUm3 j1 j2).
    { unfold edge_used. rewrite Hq6, Hq5, Hq4, Hn6, Hn5, Hn4. reflexivity. }
    rewrite Hsame, He3, He2, He1 by lia. unfold is_edge.
    destruct ((j1 =? v1) && (j2 =? v2)), ((j1 =? v2) && (j2 =? v3)),
      ((j1 =? v3) && (j2 =? v1)), (edge_used pUm j1 j2); reflexivity.
Qed.

(** X5.  In a state of the loader in which none of the checks of the
    triangle operation fails, [op_t] succeeds: it writes the three
    vertices as triangle [triW], leaves the triangles before it and the
    points as they were, adds one to the counter, does not touch the
    error code, and marks in the usage map exactly the three points and
    the three directed edges v1 -> v2, v2 -> v3, v3 -> v1 in addition to
    what was marked. *)
Theorem op_t_accepts_valid_triangle v1 v2 v3 pM ptsW triW pUm err :
  op_t_pre v1 v2 v3 pM ptsW triW pUm ->
  first_failure (triangle_checks v1 v2 v3 pM ptsW triW pUm) = None ->
  exists pM' pUm',
    op_t v1 v2 v3 pM ptsW triW pUm err
      = Some (true, pM', triW + 1, pUm', err) /\
    tri_elem pM' (3 * triW) = v1 /\ tri_elem pM' (3 * triW + 1) = v2 /\
    tri_elem pM' (3 * triW + 2) = v3 /\
    (forall k, 0 <= k < 3 * triW -> tri_elem pM' k = tri_elem pM k) /\
    pPoints pM' = pPoints pM /\
    (forall j, point_used pUm' j
               = (j =? v1) || (j =? v2) || (j =? v3) || point_used pUm j) /\
    (forall j1 j2, 0 <= j2 < um_point_count pUm ->
       edge_used pUm' j1 j2 = is_edge v1 v2 v3 j1 j2 || edge_used pUm j1 j2).
Proof.
  intros Hpre Hnone.
  destruct (op_t_accepts v1 v2 v3 pM ptsW triW pUm err Hpre Hnone)
    as (pUm' & E & _ & _ & Hp & He).
  destruct Hpre as (_ & _ & _ & _ & _ & _ & _ & Htri & Htlen).
  apply first_failure_None in Hnone as (_ & _ & _ & _ & _ & F6 & _).
  assert (Hroom : triW < tri_count pM) by (unfold fails_TROVER in F6; lia).
  assert (Helem : forall k, 0 <= k ->
            tri_elem (set_pTris pM (tris_with (pTris pM) triW v1 v2 v3)) k
            = if k =? triW * 3 then v1
              else if k =? triW * 3 + 1 then v2
              else if k =? triW * 3 + 2 then v3
              else tri_elem pM k).
  { intros k Hk. apply tri_elem_tris_with; lia. }
  eexists. exists pUm'. split; [exact E|].
  rewrite !Helem by lia.
  replace (3 * triW) with (triW * 3) by lia. rewrite Z.eqb_refl.
  destruct (Z.eqb_spec (triW * 3 + 1) (triW * 3)); [lia|]. rewrite Z.eqb_refl.
  destruct (Z.eqb_spec (triW * 3 + 2) (triW * 3)); [lia|].
  destruct (Z.eqb_spec (triW * 3 + 2) (triW * 3 + 1)); [lia|].
  rewrite Z.eqb_refl.
  repeat split; try assumption.
  intros k Hk. rewrite Helem by lia.
  destruct (Z.eqb_spec k (triW * 3)); [lia|].
  destruct (Z.eqb_spec k (triW * 3 + 1)); [lia|].
  destruct (Z.eqb_spec k (triW * 3 + 2)); [lia | reflexivity].
Qed.

Lemma op_t_accepts_valid_triangle_witness :
  op_t_pre 0 1 2 quad_mesh 4 0 quad_um /\
  first_failure (triangle_checks 0 1 2 quad_mesh 4 0 quad_um) = None /\
  exists pM' pUm',
    op_t 0 1 2 quad_mesh 4 0 quad_um 0 = Some (true, pM', 1, pUm', 0) /\
    tri_elem pM' 0 = 0 /\ tri_elem pM' 1 = 1 /\ tri_elem pM' 2 = 2 /\
    edge_used pUm' 0 1 = true /\ edge_used pUm' 1 0 = false.
Proof.
  assert (Hpre : op_t_pre 0 1 2 quad_mesh 4 0 quad_um).
  { unfold op_t_pre, um_wf, LILAC_MESH_MAX_C, LILAC_MESH_MAX_POINTS.
    cbn. lia. }
  split; [exact Hpre|]. split; [reflexivity|].
  destruct (op_t_accepts_valid_triangle 0 1 2 quad_mesh 4 0 quad_um 0 Hpre
              eq_refl) as (pM' & pUm' & E & T0 & T1 & T2 & _ & _ & _ & He).
  exists pM', pUm'. split; [exact E|].
  split; [exact T0|]. split; [exact T1|]. split; [exact T2|].
  split; [apply (He 0 1); cbn; lia | apply (He 1 0); cbn; lia].
Defined.

(** ** The header *)

Lemma status_eqb_eq (a b : sn_status) : status_eqb a b = true -> a = b.
Proof.
  destruct a, b; cbn; try discriminate; try reflexivity.
  intros H. apply Pos.eqb_eq in H. now subst.
Qed.

Lemma status_eqb_neg (a b : sn_status) :
  status_eqb a b = true -> status_neg b = false -> status_neg a = false.
Proof. intros H. apply status_eqb_eq in H. now subst. Qed.

(** What a header block leaves when it succeeds. *)
Lemma read_expect_true kind err wl h :
  status_eqb SNENTITY_EOF kind = false ->
  h_status (read_expect kind err wl h) = true ->
  h_status h = true /\
  exists ent line rest,
    sn_input (h_parser h) = (ent, line) :: rest /\
    status_eqb (status ent) kind = true /\
    read_expect kind err wl h =
      {| h_status := true; h_ent := ent;
         h_parser := {| sn_input := rest; sn_count := line |};
         h_pts := h_pts h; h_tris := h_tris h;
         h_err := h_err h; h_line := h_line h |}.
Proof.
  intros Hk. unfold read_expect, snparser_read.
  destruct (sn_input (h_parser h)) as [|[ent line] rest] eqn:Hin.
  - cbn [status status_neg]. rewrite Hk. cbn. discriminate.
  - destruct (status_neg (status ent)); [cbn; discriminate|].
    destruct (status_eqb (status ent) kind) eqn:E; cbn [negb];
      [|cbn; discriminate].
    cbn [h_status]. intros Hs. split; [exact Hs|].
    exists ent, line, rest. rewrite Hs. auto.
Qed.

Lemma read_expect_accepts kind err wl h ent line rest :
  sn_input (h_parser h) = (ent, line) :: rest ->
  status_eqb (status ent) kind = true -> status_neg kind = false ->
  read_expect kind err wl h =
    {| h_status := h_status h; h_ent := ent;
       h_parser := {| sn_input := rest; sn_count := line |};
       h_pts := h_pts h; h_tris := h_tris h;
       h_err := h_err h; h_line := h_line h |}.
Proof.
  intros Hin E Hneg. unfold read_expect, snparser_read. rewrite Hin.
  rewrite (status_eqb_neg _ _ E Hneg), E. reflexivity.
Qed.

Lemma expect_key_true key err h :
  h_status (expect_key key err h) = true ->
  String.eqb (pKey (h_ent h)) key = true /\ expect_key key err h = h.
Proof.
  unfold expect_key. destruct (h_status h) eqn:Hs; cbn [andb].
  - destruct (String.eqb (pKey (h_ent h)) key); cbn [negb];
      [auto | cbn; discriminate].
  - congruence.
Qed.

Lemma read_count_true set h :
  (forall i h, h_status (set i h) = h_status h /\ h_ent (set i h) = h_ent h /\
               h_parser (set i h) = h_parser h) ->
  h_status (read_count set h) = true ->
  h_status h = true /\
  exists ent line rest,
    sn_input (h_parser h) = (ent, line) :: rest /\
    status_eqb (status ent) SNENTITY_META_TOKEN = true /\
    0 <= parseNumber (pKey ent) /\
    read_count set h =
      set (parseNumber (pKey ent))
        {| h_status := true; h_ent := ent;
           h_parser := {| sn_input := rest; sn_count := line |};
           h_pts := h_pts h; h_tris := h_tris h;
           h_err := h_err h; h_line := h_line h |}.
Proof.
  intros Hset. unfold read_count.
  destruct (h_status (read_expect SNENTITY_META_TOKEN LILAC_MESH_ERR_BADDIM
                        true h)) eqn:Hs; [|congruence].
  apply read_expect_true in Hs as (Hs0 & ent & line & rest & Hin & E & ->);
    [|reflexivity].
  cbn [h_ent].
  destruct (Z.ltb_spec (parseNumber (pKey ent)) 0); [cbn; discriminate|].
  intros _. split; [exact Hs0|]. exists ent, line, rest. auto.
Qed.

Lemma set_pts_fields i h :
  h_status (set_pts i h) = h_status h /\ h_ent (set_pts i h) = h_ent h /\
  h_parser (set_pts i h) = h_parser h.
Proof. repeat split. Qed.

Lemma set_tris_fields i h :
  h_status (set_tris i h) = h_status h /\ h_ent (set_tris i h) = h_ent h /\
  h_parser (set_tris i h) = h_parser h.
Proof. repeat split. Qed.

Lemma read_signature_true h :
  h_status (read_signature h) = true ->
  exists e1 l1 e2 l2 e3 l3 rest,
    sn_input (h_parser h) = (e1, l1) :: (e2, l2) :: (e3, l3) :: rest /\
    status_eqb (status e1) SNENTITY_BEGIN_META = true /\
    status_eqb (status e2) SNENTITY_META_TOKEN = true /\
    String.eqb (pKey e2) "lilac-mesh" = true /\
    status_eqb (status e3) SNENTITY_END_META = true /\
    h_status h = true /\
    read_signature h =
      {| h_status := true; h_ent := e3;
         h_parser := {| sn_input := rest; sn_count := l3 |};
         h_pts := h_pts h; h_tris := h_tris h;
         h_err := h_err h; h_line := h_line h |}.
Proof.
  unfold read_signature.
  destruct (h_status (read_expect SNENTITY_BEGIN_META LILAC_MESH_ERR_NOSIG
                        false h)) eqn:Ha.
  2:{ rewrite Ha. congruence. }
  apply read_expect_true in Ha as (Hs & e1 & l1 & r1 & Hin1 & E1 & ->);
    [|reflexivity].
  destruct (h_status (expect_key _ _ _)) eqn:Hb; [|congruence].
  apply expect_key_true in Hb as (K2 & ->).
  match goal with
  | |- context [read_expect SNENTITY_META_TOKEN ?e ?w ?hh] =>
      destruct (h_status (read_expect SNENTITY_META_TOKEN e w hh)) eqn:Hb
  end.
  2:{ intros Hc. apply read_expect_true in Hc as (Hc & _); [|reflexivity].
      congruence. }
  apply read_expect_true in Hb as (_ & e2 & l2 & r2 & Hin2 & E2 & Hb);
    [|reflexivity].
  rewrite Hb in K2 |- *. cbn [h_parser sn_input h_ent] in *.
  intros Hc.
  apply read_expect_true in Hc as (_ & e3 & l3 & r3 & Hin3 & E3 & ->);
    [|reflexivity].
  cbn [h_parser sn_input h_ent h_pts h_tris h_err h_line] in *.
  subst r1 r2.
  exists e1, l1, e2, l2, e3, l3, r3. repeat split; assumption.
Qed.

Lemma guard_true (f : header_vars -> header_vars) (h : header_vars) :
  h_status (if h_status h then f h else h) = true ->
  h_status h = true /\ h_status (f h) = true.
Proof. destruct (h_status h) eqn:E; [auto | congruence]. Qed.

Lemma read_dimensions_true h :
  h_status (read_dimensions h) = true ->
  exists e4 l4 e5 l5 e6 l6 e7 l7 e8 l8 rest,
    sn_input (h_parser h)
      = (e4, l4) :: (e5, l5) :: (e6, l6) :: (e7, l7) :: (e8, l8) :: rest /\
    status_eqb (status e4) SNENTITY_BEGIN_META = true /\
    status_eqb (status e5) SNENTITY_META_TOKEN = true /\
    String.eqb (pKey e5) "dim" = true /\
    status_eqb (status e6) SNENTITY_META_TOKEN = true /\
    status_eqb (status e7) SNENTITY_META_TOKEN = true /\
    status_eqb (status e8) SNENTITY_END_META = true /\
    0 <= parseNumber (pKey e6) /\ 0 <= parseNumber (pKey e7) /\
    h_status h = true /\
    read_dimensions h =
      {| h_status := true; h_ent := e8;
         h_parser := {| sn_input := rest; sn_count := l8 |};
         h_pts := parseNumber (pKey e6); h_tris := parseNumber (pKey e7);
         h_err := h_err h; h_line := h_line h |}.
Proof.
  unfold read_dimensions.
  set (ha := if h_status h then _ else h).
  set (hb := if h_status ha then _ else ha).
  set (hc := if h_status hb then _ else hb).
  set (hd := if h_status hc then _ else hc).
  intros H.
  destruct (guard_true (read_expect SNENTITY_END_META LILAC_MESH_ERR_BADDIM true)
              hd H) as [Hd He].
  rewrite Hd. clear H.
  destruct (guard_true (read_count set_tris) hc Hd) as [Hc Hd'].
  destruct (guard_true (read_count set_pts) hb Hc) as [Hb Hc'].
  destruct (guard_true
              (fun h => expect_key "dim" LILAC_MESH_ERR_NODIM
                 (read_expect SNENTITY_META_TOKEN LILAC_MESH_ERR_NODIM false h))
              ha Hb) as [Ha Hb'].
  destruct (guard_true
              (read_expect SNENTITY_BEGIN_META LILAC_MESH_ERR_NODIM false)
              h Ha) as [Hs Ha'].
  assert (Eha : ha = read_expect SNENTITY_BEGIN_META LILAC_MESH_ERR_NODIM false h)
    by (unfold ha; now rewrite Hs).
  assert (Ehb : hb = expect_key "dim" LILAC_MESH_ERR_NODIM
                 (read_expect SNENTITY_META_TOKEN LILAC_MESH_ERR_NODIM false ha))
    by (unfold hb; now rewrite Ha).
  assert (Ehc : hc = read_count set_pts hb) by (unfold hc; now rewrite Hb).
  assert (Ehd : hd = read_count set_tris hc) by (unfold hd; now rewrite Hc).
  clearbody ha hb hc hd.
  apply read_expect_true in Ha' as (_ & e4 & l4 & r4 & Hin4 & E4 & Eq4);
    [|reflexivity].
  rewrite <- Eha in Eq4.
  apply expect_key_true in Hb' as (K5 & Eq5). rewrite <- Ehb in Eq5.
  assert (Hb'' : h_status (read_expect SNENTITY_META_TOKEN LILAC_MESH_ERR_NODIM
                             false ha) = true) by (rewrite <- Eq5; exact Hb).
  apply read_expect_true in Hb'' as (_ & e5 & l5 & r5 & Hin5 & E5 & Eq5');
    [|reflexivity].
  rewrite <- Eq5 in Eq5'. rewrite <- Eq5 in K5.
  apply read_count_true in Hc' as (_ & e6 & l6 & r6 & Hin6 & E6 & P6 & Eq6);
    [|apply set_pts_fields].
  rewrite <- Ehc in Eq6.
  apply read_count_true in Hd' as (_ & e7 & l7 & r7 & Hin7 & E7 & P7 & Eq7);
    [|apply set_tris_fields].
  rewrite <- Ehd in Eq7.
  apply read_expect_true in He as (_ & e8 & l8 & r8 & Hin8 & E8 & ->);
    [|reflexivity].
  clear Eha Ehb Ehc Ehd Eq5.
  subst ha. cbn [h_parser sn_input h_ent h_pts h_tris h_err h_line] in *.
  subst hb. cbn [h_parser sn_input h_ent h_pts h_tris h_err h_line] in *.
  subst hc.
  cbn [set_pts h_parser sn_input h_ent h_pts h_tris h_err h_line] in *.
  subst hd.
  cbn [set_tris h_parser sn_input h_ent h_pts h_tris h_err h_line] in *.
  subst r4 r5 r6 r7.
  exists e4, l4, e5, l5, e6, l6, e7, l7, e8, l8, r8.
  repeat split; assumption.
Qed.

Lemma validate_dimensions_true h :
  h_status (validate_dimensions h) = true ->
  h_status h = true /\ validate_dimensions h = h /\
  0 <= h_pts h <= LILAC_MESH_MAX_POINTS /\
  0 <= h_tris h <= LILAC_MESH_MAX_TRIS.
Proof.
  unfold validate_dimensions.
  destruct (h_status h) eqn:Hs.
  - destruct (Z.ltb_spec (h_pts h) 0); cbn [orb fail_header h_status];
      [discriminate|].
    destruct (Z.gtb_spec (h_pts h) LILAC_MESH_MAX_POINTS);
      cbn [fail_header h_status]; [discriminate|].
    rewrite Hs.
    destruct (Z.ltb_spec (h_tris h) 0); cbn [orb fail_header h_status];
      [discriminate|].
    destruct (Z.gtb_spec (h_tris h) LILAC_MESH_MAX_TRIS);
      cbn [fail_header h_status]; [discriminate|].
    intros _. repeat split; lia.
  - rewrite Hs. congruence.
Qed.

Lemma parseNumber_nonneg (pstr : string) :
  0 <= parseNumber pstr ->
  valid_number (c_str pstr) = true /\
  parseNumber pstr = decimal_value (c_str pstr).
Proof.
  rewrite parseNumber_value.
  destruct (valid_number (c_str pstr)); [auto | lia].
Qed.

Lemma readHeader_true pSn p t e l pSn' pc tc e' l' :
  readHeader pSn p t e l = (true, pSn', pc, tc, e', l') ->
  exists sp st rest line,
    header_shape (sn_input pSn) = Some (sp, st, rest, line) /\
    valid_count sp LILAC_MESH_MAX_POINTS = true /\
    valid_count st LILAC_MESH_MAX_TRIS = true /\
    pSn' = {| sn_input := rest; sn_count := line |} /\
    pc = decimal_value (c_str sp) /\ tc = decimal_value (c_str st) /\
    e' = e /\ l' = l.
Proof.
  unfold readHeader.
  set (h0 := {| h_status := true; h_ent := _; h_parser := pSn; h_pts := 0;
                h_tris := 0; h_err := e; h_line := l |}).
  destruct (h_status (validate_dimensions (read_dimensions (read_signature h0))))
    eqn:Hs; [|intros H; inversion H].
  apply validate_dimensions_true in Hs as (Hs & -> & Hp & Ht).
  apply read_dimensions_true in Hs
    as (e4 & l4 & e5 & l5 & e6 & l6 & e7 & l7 & e8 & l8 & rest & Hin2 &
        E4 & E5 & K5 & E6 & E7 & E8 & P6 & P7 & Hs & Eq2).
  rewrite Eq2 in Hp, Ht |- *. cbn [h_pts h_tris] in Hp, Ht.
  apply read_signature_true in Hs
    as (e1 & l1 & e2 & l2 & e3 & l3 & rest1 & Hin1 & E1 & E2 & K2 & E3 & _ & Eq1).
  rewrite Eq1 in Hin2 |- *.
  cbn [h_status h_parser h_pts h_tris h_err h_line sn_input negb h0] in *.
  subst rest1.
  intros H. inversion H; subst. clear H.
  apply parseNumber_nonneg in P6 as [V6 D6], P7 as [V7 D7].
  exists (pKey e6), (pKey e7), rest, l8.
  unfold header_shape, valid_count. rewrite Hin1.
  rewrite E1, E2, K2, E3, E4, E5, K5, E6, E7, E8, V6, V7. cbn [andb].
  rewrite <- D6, <- D7.
  repeat split; try reflexivity; apply Z.leb_le; lia.
Qed.

Ltac hfields :=
  cbn [h_status h_ent h_parser h_pts h_tris h_err h_line sn_input sn_count
       set_pts set_tris fail_header snparser_count pKey status].

Lemma read_signature_accepts h e1 l1 e2 l2 e3 l3 rest :
  sn_input (h_parser h) = (e1, l1) :: (e2, l2) :: (e3, l3) :: rest ->
  status_eqb (status e1) SNENTITY_BEGIN_META = true ->
  status_eqb (status e2) SNENTITY_META_TOKEN = true ->
  String.eqb (pKey e2) "lilac-mesh" = true ->
  status_eqb (status e3) SNENTITY_END_META = true ->
  h_status h = true ->
  read_signature h =
    {| h_status := true; h_ent := e3;
       h_parser := {| sn_input := rest; sn_count := l3 |};
       h_pts := h_pts h; h_tris := h_tris h;
       h_err := h_err h; h_line := h_line h |}.
Proof.
  intros Hin E1 E2 K2 E3 Hs. unfold read_signature.
  rewrite (read_expect_accepts _ _ _ h e1 l1 _ Hin E1 eq_refl).
  rewrite Hs. hfields.
  erewrite (read_expect_accepts _ _ _ _ e2 l2); [|reflexivity|exact E2|reflexivity].
  unfold expect_key. hfields. rewrite K2. cbn [andb negb]. hfields.
  erewrite (read_expect_accepts _ _ _ _ e3 l3); [|reflexivity|exact E3|reflexivity].
  reflexivity.
Qed.

Lemma read_count_accepts set h ent line rest :
  sn_input (h_parser h) = (ent, line) :: rest ->
  status_eqb (status ent) SNENTITY_META_TOKEN = true ->
  (forall i h, h_status (set i h) = h_status h /\ h_ent (set i h) = h_ent h /\
               h_parser (set i h) = h_parser h) ->
  h_status h = true ->
  read_count set h =
    let h' := set (parseNumber (pKey ent))
                {| h_status := true; h_ent := ent;
                   h_parser := {| sn_input := rest; sn_count := line |};
                   h_pts := h_pts h; h_tris := h_tris h;
                   h_err := h_err h; h_line := h_line h |} in
    if parseNumber (pKey ent) <? 0
    then fail_header LILAC_MESH_ERR_DIMVAL line h' else h'.
Proof.
  intros Hin E Hset Hs. unfold read_count.
  rewrite (read_expect_accepts _ _ _ h ent line rest Hin E eq_refl).
  rewrite Hs. hfields. cbv zeta.
  destruct (Hset (parseNumber (pKey ent))
                 {| h_status := true; h_ent := ent;
                    h_parser := {| sn_input := rest; sn_count := line |};
                    h_pts := h_pts h; h_tris := h_tris h;
                    h_err := h_err h; h_line := h_line h |})
    as (_ & _ & ->).
  reflexivity.
Qed.

Lemma read_dimensions_accepts h e4 l4 e5 l5 e6 l6 e7 l7 e8 l8 rest :
  sn_input (h_parser h)
    = (e4, l4) :: (e5, l5) :: (e6, l6) :: (e7, l7) :: (e8, l8) :: rest ->
  status_eqb (status e4) SNENTITY_BEGIN_META = true ->
  status_eqb (status e5) SNENTITY_META_TOKEN = true ->
  String.eqb (pKey e5) "dim" = true ->
  status_eqb (status e6) SNENTITY_META_TOKEN = true ->
  status_eqb (status e7) SNENTITY_META_TOKEN = true ->
  status_eqb (status e8) SNENTITY_END_META = true ->
  h_status h = true ->
  read_dimensions h =
    if parseNumber (pKey e6) <? 0 then
      {| h_status := false; h_ent := e6;
         h_parser := {| sn_input := (e7, l7) :: (e8, l8) :: rest;
                        sn_count := l6 |};
         h_pts := parseNumber (pKey e6); h_tris := h_tris h;
         h_err := LILAC_MESH_ERR_DIMVAL; h_line := l6 |}
    else if parseNumber (pKey e7) <? 0 then
      {| h_status := false; h_ent := e7;
         h_parser := {| sn_input := (e8, l8) :: rest; sn_count := l7 |};
         h_pts := parseNumber (pKey e6); h_tris := parseNumber (pKey e7);
         h_err := LILAC_MESH_ERR_DIMVAL; h_line := l7 |}
    else
      {| h_status := true; h_ent := e8;
         h_parser := {| sn_input := rest; sn_count := l8 |};
         h_pts := parseNumber (pKey e6); h_tris := parseNumber (pKey e7);
         h_err := h_err h; h_line := h_line h |}.
Proof.
  intros Hin E4 E5 K5 E6 E7 E8 Hs. unfold read_dimensions.
  rewrite Hs.
  rewrite (read_expect_accepts _ _ _ h e4 l4 _ Hin E4 eq_refl).
  rewrite Hs. hfields.
  erewrite (read_expect_accepts _ _ _ _ e5 l5);
    [|reflexivity|exact E5|reflexivity].
  unfold expect_key. hfields. rewrite K5. cbn [andb negb]. hfields.
  match goal with
  | |- context [read_count set_pts ?hh] =>
      rewrite (read_count_accepts set_pts hh e6 l6 _ eq_refl E6
                 set_pts_fields eq_refl)
  end.
  cbv zeta. hfields.
  destruct (parseNumber (pKey e6) <? 0); hfields; [reflexivity|].
  match goal with
  | |- context [read_count set_tris ?hh] =>
      rewrite (read_count_accepts set_tris hh e7 l7 _ eq_refl E7
                 set_tris_fields eq_refl)
  end.
  cbv zeta. hfields.
  destruct (parseNumber (pKey e7) <? 0); hfields; [reflexivity|].
  erewrite (read_expect_accepts _ _ _ _ e8 l8);
    [|reflexivity|exact E8|reflexivity].
  reflexivity.
Qed.

Lemma parseNumber_neg (pstr : string) :
  (parseNumber pstr <? 0) = negb (valid_number (c_str pstr)).
Proof.
  rewrite parseNumber_value.
  destruct (valid_number (c_str pstr)) eqn:E; cbn [negb]; [|reflexivity].
  apply valid_number_range in E. apply Z.ltb_ge. lia.
Qed.

Lemma readHeader_shape input count p t e l sp st rest line :
  header_shape input = Some (sp, st, rest, line) ->
  if header_error sp st =? 0 then
    readHeader {| sn_input := input; sn_count := count |} p t e l
    = (true, {| sn_input := rest; sn_count := line |},
       decimal_value (c_str sp), decimal_value (c_str st), e, l)
  else
    exists pSn' l',
      readHeader {| sn_input := input; sn_count := count |} p t e l
      = (false, pSn', p, t, header_error sp st, l') /\
      (header_error sp st <> LILAC_MESH_ERR_DIMVAL -> l' = 0).
Proof.
  unfold header_shape.
  destruct input as [|[e1 l1] [|[e2 l2] [|[e3 l3] [|[e4 l4] [|[e5 l5]
    [|[e6 l6] [|[e7 l7] [|[e8 l8] rest']]]]]]]]; try discriminate.
  destruct (status_eqb (status e1) SNENTITY_BEGIN_META) eqn:E1; [|discriminate].
  destruct (status_eqb (status e2) SNENTITY_META_TOKEN) eqn:E2; [|discriminate].
  destruct (String.eqb (pKey e2) "lilac-mesh") eqn:K2; [|discriminate].
  destruct (status_eqb (status e3) SNENTITY_END_META) eqn:E3; [|discriminate].
  destruct (status_eqb (status e4) SNENTITY_BEGIN_META) eqn:E4; [|discriminate].
  destruct (status_eqb (status e5) SNENTITY_META_TOKEN) eqn:E5; [|discriminate].
  destruct (String.eqb (pKey e5) "dim") eqn:K5; [|discriminate].
  destruct (status_eqb (status e6) SNENTITY_META_TOKEN) eqn:E6; [|discriminate].
  destruct (status_eqb (status e7) SNENTITY_META_TOKEN) eqn:E7; [|discriminate].
  destruct (status_eqb (status e8) SNENTITY_END_META) eqn:E8; [|discriminate].
  cbn [andb]. intros H. inversion H; subst. clear H.
  unfold readHeader.
  erewrite (read_signature_accepts _ e1 l1 e2 l2 e3 l3);
    [|reflexivity|exact E1|exact E2|exact K2|exact E3|reflexivity].
  erewrite (read_dimensions_accepts _ e4 l4 e5 l5 e6 l6 e7 l7 e8 line rest);
    [|reflexivity|exact E4|exact E5|exact K5|exact E6|exact E7|exact E8
     |reflexivity].
  hfields. rewrite !parseNumber_neg. unfold header_error.
  destruct (valid_number (c_str (pKey e6))) eqn:V6; cbn [negb].
  2:{ unfold validate_dimensions. hfields. cbn [negb].
      do 2 eexists. split; [reflexivity | congruence]. }
  destruct (valid_number (c_str (pKey e7))) eqn:V7; cbn [negb].
  2:{ unfold validate_dimensions. hfields. cbn [negb].
      do 2 eexists. split; [reflexivity | congruence]. }
  rewrite !parseNumber_value, V6, V7.
  pose proof (valid_number_range _ V6) as R6.
  pose proof (valid_number_range _ V7) as R7.
  unfold validate_dimensions. hfields.
  destruct (Z.ltb_spec (decimal_value (c_str (pKey e6))) 0); [lia|].
  cbn [orb].
  destruct (Z.gtb_spec (decimal_value (c_str (pKey e6))) LILAC_MESH_MAX_POINTS).
  { hfields. cbn [negb]. do 2 eexists. split; [reflexivity | reflexivity]. }
  hfields.
  destruct (Z.ltb_spec (decimal_value (c_str (pKey e7))) 0); [lia|].
  cbn [orb].
  destruct (Z.gtb_spec (decimal_value (c_str (pKey e7))) LILAC_MESH_MAX_TRIS).
  { hfields. cbn [negb]. do 2 eexists. split; [reflexivity | reflexivity]. }
  hfields. cbn [negb]. reflexivity.
Qed.

Lemma status_neg_code (s : sn_status) :
  status_neg s = true -> status_code s < 0.
Proof. destruct s; cbn; try discriminate. intros _. apply Pos2Z.neg_is_neg. Qed.

Lemma read_expect_fail kind err wl h :
  err <> 0 -> h_fail_ok h -> h_fail_ok (read_expect kind err wl h).
Proof.
  intros He Hh. unfold read_expect, h_fail_ok.
  destruct (snparser_read (h_parser h)) as [ent pSn].
  destruct (status_neg (status ent)) eqn:Hn; hfields.
  - intros _. apply status_neg_code in Hn. lia.
  - destruct (status_eqb (status ent) kind); cbn [negb]; hfields; auto.
Qed.

Lemma expect_key_fail key err h :
  err <> 0 -> h_fail_ok h -> h_fail_ok (expect_key key err h).
Proof.
  intros He Hh. unfold expect_key.
  destruct (h_status h && negb (String.eqb (pKey (h_ent h)) key));
    [intros _; exact He | exact Hh].
Qed.

Lemma guard_fail (f : header_vars -> header_vars) (h : header_vars) :
  h_fail_ok h -> (h_fail_ok h -> h_fail_ok (f h)) ->
  h_fail_ok (if h_status h then f h else h).
Proof. intros Hh Hf. destruct (h_status h); auto. Qed.

Lemma read_count_pts_fail h : h_fail_ok h -> h_fail_ok (read_count set_pts h).
Proof.
  intros Hh. unfold read_count.
  apply (guard_fail
           (fun h' => let i := parseNumber (pKey (h_ent h')) in
                      let h'' := set_pts i h' in
                      if i <? 0
                      then fail_header LILAC_MESH_ERR_DIMVAL
                             (snparser_count (h_parser h'')) h''
                      else h'')).
  - apply read_expect_fail; [discriminate | exact Hh].
  - intros Hh'. cbv zeta.
    destruct (parseNumber _ <? 0); [intros _; discriminate | exact Hh'].
Qed.

Lemma read_count_tris_fail h : h_fail_ok h -> h_fail_ok (read_count set_tris h).
Proof.
  intros Hh. unfold read_count.
  apply (guard_fail
           (fun h' => let i := parseNumber (pKey (h_ent h')) in
                      let h'' := set_tris i h' in
                      if i <? 0
                      then fail_header LILAC_MESH_ERR_DIMVAL
                             (snparser_count (h_parser h'')) h''
                      else h'')).
  - apply read_expect_fail; [discriminate | exact Hh].
  - intros Hh'. cbv zeta.
    destruct (parseNumber _ <? 0); [intros _; discriminate | exact Hh'].
Qed.

Lemma read_signature_fail h : h_fail_ok h -> h_fail_ok (read_signature h).
Proof.
  intros Hh. unfold read_signature.
  apply (guard_fail (read_expect SNENTITY_END_META LILAC_MESH_ERR_SIGVER true)).
  - apply (guard_fail
             (fun h => expect_key "lilac-mesh" LILAC_MESH_ERR_NOSIG
                (read_expect SNENTITY_META_TOKEN LILAC_MESH_ERR_NOSIG false h))).
    + apply read_expect_fail; [discriminate | exact Hh].
    + intros Hh'. apply expect_key_fail; [discriminate|].
      apply read_expect_fail; [discriminate | exact Hh'].
  - intros Hh'. apply read_expect_fail; [discriminate | exact Hh'].
Qed.

Lemma read_dimensions_fail h : h_fail_ok h -> h_fail_ok (read_dimensions h).
Proof.
  intros Hh. unfold read_dimensions.
  apply (guard_fail (read_expect SNENTITY_END_META LILAC_MESH_ERR_BADDIM true)).
  - apply (guard_fail (read_count set_tris)).
    + apply (guard_fail (read_count set_pts)).
      * apply (guard_fail
                 (fun h => expect_key "dim" LILAC_MESH_ERR_NODIM
                    (read_expect SNENTITY_META_TOKEN LILAC_MESH_ERR_NODIM
                       false h))).
        -- apply (guard_fail
                    (read_expect SNENTITY_BEGIN_META LILAC_MESH_ERR_NODIM false));
             [exact Hh|].
           intros Hh'. apply read_expect_fail; [discriminate | exact Hh'].
        -- intros Hh'. apply expect_key_fail; [discriminate|].
           apply read_expect_fail; [discriminate | exact Hh'].
      * apply read_count_pts_fail.
    + apply read_count_tris_fail.
  - intros Hh'. apply read_expect_fail; [discriminate | exact Hh'].
Qed.

Lemma validate_dimensions_fail h :
  h_fail_ok h -> h_fail_ok (validate_dimensions h).
Proof.
  intros Hh. unfold validate_dimensions.
  apply (guard_fail
           (fun h => if (h_tris h <? 0) || (h_tris h >? LILAC_MESH_MAX_TRIS)
                     then fail_header LILAC_MESH_ERR_TCOUNT 0 h else h)).
  - apply (guard_fail
           (fun h => if (h_pts h <? 0) || (h_pts h >? LILAC_MESH_MAX_POINTS)
                     then fail_header LILAC_MESH_ERR_PCOUNT 0 h else h));
      [exact Hh|].
    intros Hh'.
    destruct (_ || _); [|exact Hh'].
    unfold h_fail_ok. hfields. intros _. unfold LILAC_MESH_ERR_PCOUNT. lia.
  - intros Hh'. set (h1 := if h_status h then _ else h) in *. clearbody h1.
    destruct (_ || _); [|exact Hh'].
    unfold h_fail_ok. hfields. intros _. unfold LILAC_MESH_ERR_TCOUNT. lia.
Qed.

Lemma readHeader_false pSn p t e l pSn' pc tc e' l' :
  readHeader pSn p t e l = (false, pSn', pc, tc, e', l') ->
  pc = p /\ tc = t /\ e' <> 0 /\ 0 <= l' < LONG_MAX.
Proof.
  unfold readHeader.
  set (h0 := {| h_status := true; h_ent := _; h_parser := pSn; h_pts := 0;
                h_tris := 0; h_err := e; h_line := l |}).
  assert (H0 : h_fail_ok h0) by (unfold h_fail_ok; cbn; discriminate).
  pose proof (validate_dimensions_fail _
                (read_dimensions_fail _ (read_signature_fail _ H0))) as Hf.
  set (h := validate_dimensions _) in *. clearbody h. clear H0 h0.
  destruct (h_status h) eqn:Hs; intros H; inversion H; subst.
  cbn [negb].
  repeat split; auto.
  - destruct (Z.ltb_spec (h_line h) 1); cbn [orb]; [lia|].
    destruct (Z.geb_spec (h_line h) LONG_MAX); lia.
  - destruct (Z.ltb_spec (h_line h) 1); cbn [orb]; [unfold LONG_MAX; lia|].
    destruct (Z.geb_spec (h_line h) LONG_MAX); [unfold LONG_MAX|]; lia.
Qed.

(** X6.  [readHeader] succeeds exactly on an input that begins with the
    signature metacommand [%lilac-mesh;] and a dimension metacommand
    [%dim p t;] whose two tokens are decimal literals of value at most
    LILAC_MESH_MAX_POINTS and LILAC_MESH_MAX_TRIS.  It then returns the
    two values, leaves the parser after the eight entities of the header
    and does not touch the error code and the line number. *)
Theorem readHeader_accepts_exactly (input : list (SNENTITY * Z))
    (count p t e l : Z) (pSn' : SNPARSER) (pc tc e' l' : Z) :
  readHeader {| sn_input := input; sn_count := count |} p t e l
    = (true, pSn', pc, tc, e', l') <->
  exists sp st rest line,
    header_shape input = Some (sp, st, rest, line) /\
    valid_count sp LILAC_MESH_MAX_POINTS = true /\
    valid_count st LILAC_MESH_MAX_TRIS = true /\
    pSn' = {| sn_input := rest; sn_count := line |} /\
    pc = decimal_value (c_str sp) /\ tc = decimal_value (c_str st) /\
    e' = e /\ l' = l.
Proof.
  split.
  - exact (readHeader_true _ p t e l pSn' pc tc e' l').
  - intros (sp & st & rest & line & Hshape & Vp & Vt & -> & -> & -> & -> & ->).
    pose proof (readHeader_shape input count p t e l sp st rest line Hshape)
      as H.
    unfold valid_count in Vp, Vt.
    apply andb_prop in Vp as [Vp Lp], Vt as [Vt Lt].
    assert (Herr : header_error sp st = 0).
    { unfold header_error. rewrite Vp, Vt. cbn [negb].
      destruct (Z.gtb_spec (decimal_value (c_str sp)) LILAC_MESH_MAX_POINTS);
        [lia|].
      destruct (Z.gtb_spec (decimal_value (c_str st)) LILAC_MESH_MAX_TRIS);
        [lia | reflexivity]. }
    now rewrite Herr in H.
Qed.

(** X7.  On an input with a header of the right shape whose counts are
    not accepted, [readHeader] fails without writing the counts: with
    DIMVAL when one of the two tokens is not a decimal literal of value
    at most 16384 (the point count is looked at first), otherwise with
    PCOUNT when the point count exceeds LILAC_MESH_MAX_POINTS, otherwise
    with TCOUNT; PCOUNT and TCOUNT are reported with line zero.  So a
    count between 1025 and 16384 is a PCOUNT or TCOUNT error and a larger
    one a DIMVAL error. *)
Theorem readHeader_rejects_bad_counts (input : list (SNENTITY * Z))
    (count p t e l : Z) (sp st : string) (rest : list (SNENTITY * Z))
    (line : Z) :
  header_shape input = Some (sp, st, rest, line) ->
  header_error sp st <> LILAC_MESH_ERR_OK ->
  exists pSn' l',
    readHeader {| sn_input := input; sn_count := count |} p t e l
      = (false, pSn', p, t, header_error sp st, l') /\
    (header_error sp st <> LILAC_MESH_ERR_DIMVAL -> l' = 0).
Proof.
  intros Hshape Herr.
  pose proof (readHeader_shape input count p t e l sp st rest line Hshape)
    as H.
  destruct (Z.eqb_spec (header_error sp st) 0) as [Hz|_];
    [contradiction | exact H].
Qed.

Lemma readHeader_rejects_bad_counts_witness :
  header_error "1025" "2" = LILAC_MESH_ERR_PCOUNT /\
  header_error "16385" "2" = LILAC_MESH_ERR_DIMVAL /\
  header_error "4" "1025" = LILAC_MESH_ERR_TCOUNT /\
  (exists pSn' l',
     readHeader (snparser_alloc (header_entities "1025" "2")) 0 0 0 0
       = (false, pSn', 0, 0, LILAC_MESH_ERR_PCOUNT, l') /\
     (LILAC_MESH_ERR_PCOUNT <> LILAC_MESH_ERR_DIMVAL -> l' = 0)) /\
  (exists pSn' l',
     readHeader (snparser_alloc (header_entities "16385" "2")) 0 0 0 0
       = (false, pSn', 0, 0, LILAC_MESH_ERR_DIMVAL, l') /\
     (LILAC_MESH_ERR_DIMVAL <> LILAC_MESH_ERR_DIMVAL -> l' = 0)).
Proof.
  split; [reflexivity|]. split; [reflexivity|]. split; [reflexivity|].
  split.
  - apply (readHeader_rejects_bad_counts (header_entities "1025" "2") 1 0 0 0 0
             "1025" "2" [] 1); [reflexivity | discriminate].
  - apply (readHeader_rejects_bad_counts (header_entities "16385" "2") 1 0 0 0
             0 "16385" "2" [] 1); [reflexivity | discriminate].
Defined.

(** ** The interpreter loop *)

Lemma loader_inv2_fail (err line : Z) (L : loader_vars) :
  err <> 0 -> loader_inv2 (fail_with err line L).
Proof. intros He. split; [exact He | discriminate]. Qed.

Lemma loader_inv2_stack (a : list Z) (n : Z) (L : loader_vars) :
  loader_inv2 L -> loader_inv2 (set_stack a n L).
Proof.
  intros [He Hm]. split; [exact He|].
  intros Hs. destruct (Hm Hs). constructor; assumption.
Qed.

Lemma interpret_numeric_inv2 ent pSn L L' :
  loader_inv2 L -> interpret_numeric ent pSn L = Some L' -> loader_inv2 L'.
Proof.
  intros HI. unfold interpret_numeric.
  destruct (parseNumber (pKey ent) <? 0).
  - cbn [l_status fail_with andb]. intros H. inversion H.
    now apply loader_inv2_fail.
  - destruct (l_status L) eqn:Hs; cbn [andb].
    + destruct (st_count L >=? MAX_SN_STACK).
      * cbn [l_status fail_with]. intros H. inversion H.
        now apply loader_inv2_fail.
      * rewrite Hs. destruct (store _ _ _); [|discriminate]. cbn [bind].
        intros H. inversion H. now apply loader_inv2_stack.
    + rewrite Hs. intros H. inversion H. subst. exact HI.
Qed.

Lemma first_failure_code (checks : list (Z * bool)) (code : Z) :
  first_failure checks = Some code -> In code (map fst checks).
Proof.
  unfold first_failure. destruct (find snd checks) as [[c b]|] eqn:E;
    [|discriminate].
  intros H. inversion H. subst. apply find_some in E as [E _].
  apply in_map_iff. now exists (code, b).
Qed.

Lemma interpret_p_inv2 pc tc pSn L L' :
  loader_inv pc tc L -> loader_inv2 L ->
  interpret_p pSn L = Some L' -> loader_inv2 L'.
Proof.
  intros HI HI2. unfold interpret_p.
  set (L1 := if st_count L <? 4 then _ else L).
  assert (HI1 : loader_inv pc tc L1)
    by (unfold L1; destruct (st_count L <? 4); auto using loader_inv_fail).
  assert (HI21 : loader_inv2 L1).
  { unfold L1. destruct (st_count L <? 4); [|exact HI2].
    now apply loader_inv2_fail. }
  assert (Hcount : l_status L1 = true -> 4 <= st_count L1).
  { unfold L1. destruct (Z.ltb_spec (st_count L) 4); cbn; [discriminate|lia]. }
  clearbody L1. clear HI HI2 L. rename L1 into L.
  destruct (l_status L) eqn:Hs.
  2:{ cbv beta iota delta [bind]. rewrite Hs. intros H. inversion H. now subst. }
  specialize (Hcount eq_refl).
  destruct (load_stack pc tc L (st_count L - 4) HI1 ltac:(lia)) as (a1 & -> & Ha1).
  destruct (load_stack pc tc L (st_count L - 3) HI1 ltac:(lia)) as (a2 & -> & Ha2).
  destruct (load_stack pc tc L (st_count L - 2) HI1 ltac:(lia)) as (a3 & -> & Ha3).
  destruct (load_stack pc tc L (st_count L - 1) HI1 ltac:(lia)) as (a4 & -> & Ha4).
  cbn [bind]. destruct HI21 as [Herr Hmesh].
  rewrite Hs in Herr. destruct (Hmesh Hs) as [Ipts Itri Iedge Iuniq].
  pose proof (inv_ref _ _ _ HI1) as Iref.
  pose proof (inv_pw _ _ _ HI1) as Ipw.
  pose proof (op_p_spec a1 a2 a3 a4 (l_pM L)
                (points_written L) (l_err L) Ha1 Ha2 Ha3 Ha4 ltac:(lia)
                (inv_plen _ _ _ HI1)) as Hop.
  destruct (first_failure _) as [code|] eqn:Hff.
  - rewrite Hop. cbn [bind]. cbv beta iota zeta. inv_simpl.
    intros H. inversion H. split; [|discriminate].
    inv_simpl. apply first_failure_code in Hff. cbn in Hff.
    unfold LILAC_MESH_ERR_NORMDA, LILAC_MESH_ERR_NORM2P, LILAC_MESH_ERR_PTOVER
      in Hff. lia.
  - destruct Hop as (pM' & -> & Hnew & Hold & Hlen & Htris & Hpc & Htc).
    cbn [bind]. cbv beta iota zeta. inv_simpl.
    intros H. inversion H. clear H.
    split; inv_simpl; [exact Herr|]. intros _.
    assert (Htri : forall k, tri_elem pM' k = tri_elem (l_pM L) k)
      by (intros k; unfold tri_elem; now rewrite Htris).
    assert (Hedge : forall i j1 j2, tri_edge pM' i j1 j2
                                    = tri_edge (l_pM L) i j1 j2)
      by (intros; unfold tri_edge; now rewrite !Htri).
    unfold first_failure, point_checks in Hff. cbn [find snd] in Hff.
    destruct ((a1 =? 0) && negb (a2 =? 0)) eqn:C1; [discriminate|].
    destruct (Z.geb_spec a2 LILAC_MESH_MAX_C) as [C2|C2]; [discriminate|].
    constructor; inv_simpl.
    + intros p Hp. destruct (Z.eq_dec p (points_written L)) as [->|Hne].
      * rewrite Hnew. unfold point_ok. cbn [normd norma x y].
        repeat split; lia.
      * rewrite Hold by lia. apply Ipts. lia.
    + intros i Hi. specialize (Itri i Hi). unfold tri_ok in *.
      rewrite !Htri.
      pose proof (Iref (3 * i) ltac:(lia)).
      pose proof (Iref (3 * i + 1) ltac:(lia)).
      pose proof (Iref (3 * i + 2) ltac:(lia)).
      rewrite !Hold by lia. exact Itri.
    + intros i j1 j2 Hi. rewrite Hedge. now apply Iedge.
    + intros i j j1 j2 Hi Hj. rewrite !Hedge. now apply Iuniq.
Qed.

Lemma is_edge_vertices v1 v2 v3 j1 j2 :
  is_edge v1 v2 v3 j1 j2 = true ->
  (j1 = v1 \/ j1 = v2 \/ j1 = v3) /\ (j2 = v1 \/ j2 = v2 \/ j2 = v3).
Proof. unfold is_edge. lia. Qed.

Lemma interpret_t_inv2 pc tc pSn L L' :
  loader_inv pc tc L -> loader_inv2 L ->
  interpret_t pSn L = Some L' -> loader_inv2 L'.
Proof.
  intros HI HI2. unfold interpret_t.
  set (L1 := if st_count L <? 3 then _ else L).
  assert (HI1 : loader_inv pc tc L1)
    by (unfold L1; destruct (st_count L <? 3); auto using loader_inv_fail).
  assert (HI21 : loader_inv2 L1).
  { unfold L1. destruct (st_count L <? 3); [|exact HI2].
    now apply loader_inv2_fail. }
  assert (Hcount : l_status L1 = true -> 3 <= st_count L1).
  { unfold L1. destruct (Z.ltb_spec (st_count L) 3); cbn; [discriminate|lia]. }
  clearbody L1. clear HI HI2 L. rename L1 into L.
  destruct (l_status L) eqn:Hs.
  2:{ cbv beta iota delta [bind]. rewrite Hs. intros H. inversion H. now subst. }
  specialize (Hcount eq_refl).
  destruct (load_stack pc tc L (st_count L - 3) HI1 ltac:(lia)) as (v1 & -> & Hv1).
  destruct (load_stack pc tc L (st_count L - 2) HI1 ltac:(lia)) as (v2 & -> & Hv2).
  destruct (load_stack pc tc L (st_count L - 1) HI1 ltac:(lia)) as (v3 & -> & Hv3).
  cbn [bind]. destruct HI21 as [Herr Hmesh].
  rewrite Hs in Herr. destruct (Hmesh Hs) as [Ipts Itri Iedge Iuniq].
  pose proof (inv_ref _ _ _ HI1) as Iref.
  pose proof (inv_pw _ _ _ HI1) as Ipw.
  pose proof (inv_pc _ _ _ HI1) as Ipc.
  pose proof (inv_tw _ _ _ HI1) as Itw.
  pose proof (inv_tlen _ _ _ HI1) as Itlen.
  pose proof (inv_plen _ _ _ HI1) as Iplen.
  pose proof (inv_umn _ _ _ HI1) as Iumn.
  assert (Hpre : op_t_pre v1 v2 v3 (l_pM L) (points_written L)
                   (tris_written L) (l_um L)).
  { unfold op_t_pre. repeat split; try lia; try apply (inv_um _ _ _ HI1). }
  destruct (first_failure (triangle_checks v1 v2 v3 (l_pM L) (points_written L)
                             (tris_written L) (l_um L))) as [code|] eqn:Hff.
  - pose proof (op_t_spec _ _ _ _ _ _ _ (l_err L) Hpre) as Hpost.
    unfold op_t_post in Hpost. rewrite Hff in Hpost.
    destruct Hpost as (pUm' & calls & -> & _).
    cbn [bind]. cbv beta iota zeta. inv_simpl.
    intros H. inversion H. split; [|discriminate]. inv_simpl.
    apply first_failure_code in Hff. cbn in Hff.
    unfold LILAC_MESH_ERR_PTREF, LILAC_MESH_ERR_VXDUP, LILAC_MESH_ERR_VXORD,
      LILAC_MESH_ERR_ORIENT, LILAC_MESH_ERR_TRSORT, LILAC_MESH_ERR_TROVER,
      LILAC_MESH_ERR_DUPEDG in Hff. lia.
  - destruct (op_t_accepts _ _ _ _ _ _ _ (l_err L) Hpre Hff)
      as (pUm' & -> & Hwf' & Hn' & _ & Hedges).
    apply first_failure_None in Hff
      as (F1 & F2 & F3 & F4 & F5 & F6 & F7 & F8 & F9).
    assert (Hdef : v1 < points_written L /\ v2 < points_written L /\
                   v3 < points_written L)
      by (unfold fails_PTREF in F1; lia).
    assert (Hroom : tris_written L < tri_count (l_pM L))
      by (unfold fails_TROVER in F6; lia).
    set (t := tris_written L) in *.
    set (pM' := set_pTris (l_pM L) (tris_with (pTris (l_pM L)) t v1 v2 v3)).
    assert (Helem : forall k, 0 <= k ->
              tri_elem pM' k
              = if k =? t * 3 then v1
                else if k =? t * 3 + 1 then v2
                else if k =? t * 3 + 2 then v3
                else tri_elem (l_pM L) k).
    { intros k Hk. apply tri_elem_tris_with; lia. }
    assert (Hold : forall k, 0 <= k < 3 * t ->
              tri_elem pM' k = tri_elem (l_pM L) k).
    { intros k Hk. rewrite Helem by lia.
      destruct (Z.eqb_spec k (t * 3)); [lia|].
      destruct (Z.eqb_spec k (t * 3 + 1)); [lia|].
      destruct (Z.eqb_spec k (t * 3 + 2)); [lia | reflexivity]. }
    assert (Hnew : tri_elem pM' (3 * t) = v1 /\ tri_elem pM' (3 * t + 1) = v2 /\
                   tri_elem pM' (3 * t + 2) = v3).
    { rewrite !Helem by lia.
      replace (3 * t) with (t * 3) by lia. rewrite Z.eqb_refl.
      destruct (Z.eqb_spec (t * 3 + 1) (t * 3)); [lia|]. rewrite Z.eqb_refl.
      destruct (Z.eqb_spec (t * 3 + 2) (t * 3)); [lia|].
      destruct (Z.eqb_spec (t * 3 + 2) (t * 3 + 1)); [lia|].
      now rewrite Z.eqb_refl. }
    destruct Hnew as (N1 & N2 & N3).
    assert (Hpt : forall v, point_at pM' v = point_at (l_pM L) v)
      by reflexivity.
    assert (Hedge_old : forall i j1 j2, 0 <= i < t ->
              tri_edge pM' i j1 j2 = tri_edge (l_pM L) i j1 j2).
    { intros i j1 j2 Hi. unfold tri_edge. rewrite !Hold by lia. reflexivity. }
    assert (Hedge_new : forall j1 j2,
              tri_edge pM' t j1 j2 = is_edge v1 v2 v3 j1 j2).
    { intros j1 j2. unfold tri_edge. now rewrite N1, N2, N3. }
    cbn [bind]. cbv beta iota zeta. inv_simpl. fold pM'.
    intros H. inversion H. clear H.
    split; inv_simpl; [exact Herr|]. intros _.
    constructor; inv_simpl.
    + intros p Hp. rewrite Hpt. now apply Ipts.
    + intros i Hi. unfold tri_ok.
      destruct (Z.eq_dec i t) as [->|Hne].
      * rewrite N1, N2, N3, !Hpt.
        unfold fails_VXDUP, fails_VXORD in F2, F3.
        unfold fails_ORIENT in F4.
        repeat split; lia.
      * rewrite !Hold by lia. rewrite !Hpt. apply Itri. lia.
    + intros i j1 j2 Hi He.
      destruct (Z.eq_dec i t) as [->|Hne].
      * rewrite Hedge_new in He. rewrite Hedges, He; [reflexivity|].
        apply is_edge_vertices in He. lia.
      * rewrite Hedge_old in He by lia.
        assert (Hj2 : 0 <= j2 < um_point_count (l_um L)).
        { unfold tri_edge in He. apply is_edge_vertices in He.
          pose proof (Iref (3 * i) ltac:(lia)).
          pose proof (Iref (3 * i + 1) ltac:(lia)).
          pose proof (Iref (3 * i + 2) ltac:(lia)). lia. }
        rewrite Hedges by exact Hj2.
        rewrite (Iedge i j1 j2 ltac:(lia) He). apply orb_true_r.
    + intros i j j1 j2 Hi Hj He.
      rewrite Hedge_old in He by lia.
      destruct (Z.eq_dec j t) as [->|Hne].
      * rewrite Hedge_new.
        pose proof (Iedge i j1 j2 ltac:(lia) He) as Hused.
        destruct (is_edge v1 v2 v3 j1 j2) eqn:Hie; [|reflexivity].
        exfalso. unfold is_edge in Hie.
        apply orb_prop in Hie as [Hie|Hie];
          [apply orb_prop in Hie as [Hie|Hie]|];
          apply andb_prop in Hie as [A B];
          apply Z.eqb_eq in A, B; subst j1 j2; congruence.
      * rewrite Hedge_old by lia. apply (Iuniq i j); [lia | lia | exact He].
Qed.

Lemma interpret_entity_inv2 pc tc ent pSn L L' :
  loader_inv pc tc L -> loader_inv2 L ->
  interpret_entity ent pSn L = Some L' -> loader_inv2 L'.
Proof.
  intros HI HI2. unfold interpret_entity.
  destruct (status ent);
    try (intros H; inversion H; now apply loader_inv2_fail).
  - now apply interpret_numeric_inv2.
  - destruct (String.eqb (pKey ent) "p"); [now apply (interpret_p_inv2 pc tc)|].
    destruct (String.eqb (pKey ent) "t"); [now apply (interpret_t_inv2 pc tc)|].
    intros H; inversion H; now apply loader_inv2_fail.
Qed.

Lemma interpret_loop_inv2 pc tc input :
  forall count L ent pSn L',
  loader_inv pc tc L -> loader_inv2 L ->
  interpret_loop input count L = Some (ent, pSn, L') ->
  loader_inv2 L' /\
  (l_status L = true -> l_status L' = true -> status_pos (status ent) = false).
Proof.
  induction input as [|[e line] rest IH]; intros count L ent pSn L' HI HI2;
    cbn [interpret_loop].
  - intros H. inversion H. subst. split; [exact HI2 | reflexivity].
  - destruct (status_pos (status e)) eqn:Hpos.
    + destruct (interpret_entity_inv pc tc e
                  {| sn_input := rest; sn_count := line |} L HI)
        as (L1 & E1 & HI1).
      rewrite E1. cbn [bind].
      pose proof (interpret_entity_inv2 _ _ _ _ _ _ HI HI2 E1) as HI21.
      destruct (l_status L1) eqn:Hs1; cbn [negb].
      * intros H. destruct (IH _ _ _ _ _ HI1 HI21 H) as [A B].
        split; [exact A | auto].
      * intros H. inversion H. subst. split; [exact HI21|]. congruence.
    + intros H. inversion H. subst. split; [exact HI2 | auto].
Qed.

Lemma lilac_mesh_new_facts (pIn : list (SNENTITY * Z)) (r : new_result) :
  lilac_mesh_new pIn = Some r ->
  (r_mesh r = None <-> r_err r <> LILAC_MESH_ERR_OK) /\
  (r_mesh r <> None -> r_line r = 0) /\
  0 <= r_line r < LONG_MAX /\
  (forall pM, r_mesh r = Some pM -> sound_mesh pM).
Proof.
  unfold lilac_mesh_new.
  destruct (readHeader (snparser_alloc pIn) 0 0 LILAC_MESH_ERR_OK 0)
    as [[[[[hstatus pSn] pc] tc] errCode] line] eqn:Hhdr.
  destruct hstatus.
  2:{ apply readHeader_false in Hhdr as (_ & _ & He & Hl).
      intros H. inversion H. subst r. clear H.
      unfold finish_new. cbn [negb r_mesh r_err r_line].
      assert (Hline : (if (line <? 1) || (line >=? LONG_MAX) then 0 else line)
                      = line).
      { destruct (Z.ltb_spec line 1); cbn [orb]; [lia|].
        destruct (Z.geb_spec line LONG_MAX); lia. }
      rewrite Hline.
      repeat split; auto; try lia; try discriminate; try congruence. }
  pose proof (readHeader_ok _ _ _ _ _ _ _ _ _ _ Hhdr) as [Hpc Htc].
  apply readHeader_true in Hhdr
    as (sp & st & rest & ln & _ & _ & _ & _ & _ & _ & -> & ->).
  destruct (usage_map_dim_ok usage_map_init pc Hpc)
    as (um0 & -> & Hwf0 & Hn0 & Hclear & _ & Hcalls0).
  cbn [bind].
  set (L0 := {| l_status := true; l_err := LILAC_MESH_ERR_OK; l_line := 0;
                l_pM := _; points_written := 0; tris_written := 0;
                st := _; st_count := 0; l_um := um0 |}).
  assert (HI0 : loader_inv pc tc L0).
  { constructor; unfold L0; inv_simpl; try reflexivity; try assumption;
      try (unfold MAX_SN_STACK; lia).
    - apply len_repeat. lia.
    - rewrite len_repeat; lia.
    - apply Forall_forall. intros v Hv. apply repeat_spec in Hv. subst v.
      unfold LILAC_MESH_MAX_C. lia.
    - rewrite Hcalls0. constructor.
    - intros j Hj. rewrite Hclear in Hj. discriminate. }
  assert (HJ0 : loader_inv2 L0).
  { split; [unfold L0; cbn; auto|]. intros _.
    constructor; unfold L0; inv_simpl; intros; lia. }
  destruct (interpret_loop_inv pc tc (sn_input pSn) (sn_count pSn) L0 HI0)
    as (ent & pSn1 & L1 & Hloop & HI1).
  rewrite Hloop.
  destruct (interpret_loop_inv2 _ _ _ _ _ _ _ _ HI0 HJ0 Hloop) as [HJ1 _].
  cbn [bind]. cbv beta iota zeta.
  clearbody L0. clear HI0 HJ0 Hloop L0.
  set (L2 := if l_status L1 && status_neg (status ent) then _ else L1).
  assert (HI2 : loader_inv pc tc L2)
    by (unfold L2; destruct (_ && _); auto using loader_inv_fail).
  assert (HJ2 : loader_inv2 L2).
  { unfold L2. destruct (l_status L1); cbn [andb]; [|exact HJ1].
    destruct (status_neg (status ent)) eqn:Hn; [|exact HJ1].
    apply loader_inv2_fail. apply status_neg_code in Hn. lia. }
  clearbody L2. clear HI1 HJ1 L1.
  set (L3 := if l_status L2 && (st_count L2 >? 0) then _ else L2).
  assert (HI3 : loader_inv pc tc L3)
    by (unfold L3; destruct (_ && _); auto using loader_inv_fail).
  assert (HJ3 : loader_inv2 L3).
  { unfold L3. destruct (_ && _); [|exact HJ2].
    now apply loader_inv2_fail. }
  clearbody L3. clear HI2 HJ2 L2.
  set (L4 := if l_status L3 && negb (points_written L3 =? pc) then _ else L3).
  assert (HI4 : loader_inv pc tc L4)
    by (unfold L4; destruct (_ && _); auto using loader_inv_fail).
  assert (HJ4 : loader_inv2 L4).
  { unfold L4. destruct (_ && _); [|exact HJ3].
    now apply loader_inv2_fail. }
  assert (Hpw : l_status L4 = true -> points_written L4 = pc).
  { unfold L4. destruct (l_status L3) eqn:Hs; cbn [andb].
    - destruct (Z.eqb_spec (points_written L3) pc); cbn [negb];
        [auto | cbn; discriminate].
    - rewrite Hs. discriminate. }
  clearbody L4. clear HI3 HJ3 L3.
  set (L5 := if l_status L4 && negb (tris_written L4 =? tc) then _ else L4).
  assert (HI5 : loader_inv pc tc L5)
    by (unfold L5; destruct (_ && _); auto using loader_inv_fail).
  assert (HJ5 : loader_inv2 L5).
  { unfold L5. destruct (_ && _); [|exact HJ4].
    now apply loader_inv2_fail. }
  assert (Hw : l_status L5 = true ->
               points_written L5 = pc /\ tris_written L5 = tc).
  { unfold L5. destruct (l_status L4) eqn:Hs; cbn [andb].
    - destruct (Z.eqb_spec (tris_written L4) tc); cbn [negb];
        [rewrite Hs; auto | cbn; discriminate].
    - rewrite Hs. discriminate. }
  clearbody L5. clear Hpw HI4 HJ4 L4.
  pose proof (inv_um _ _ _ HI5) as (Hrange & Hpl & Hel).
  destruct (usage_map_orphan_spec (l_um L5) Hpl) as (ro & Hr & Hr01 & Horphan).
  destruct HJ5 as [Herr Hmesh].
  assert (Hnorm : forall l, 0 <= (if (l <? 1) || (l >=? LONG_MAX) then 0 else l)
                            < LONG_MAX).
  { intros l. destruct (Z.ltb_spec l 1); cbn [orb]; [unfold LONG_MAX; lia|].
    destruct (Z.geb_spec l LONG_MAX); [unfold LONG_MAX|]; lia. }
  destruct (l_status L5) eqn:Hs5.
  - rewrite Hr. cbn [bind].
    destruct (Z.eqb_spec ro 0) as [Hr0|Hr1]; cbn [negb].
    + intros H. inversion H. subst r. clear H.
      unfold finish_new. inv_simpl. rewrite Hs5.
      cbn [negb r_mesh r_err r_line].
      destruct Herr as [He Hl]. rewrite He, Hl.
      split; [split; [discriminate | intros Hc; now contradiction Hc]|].
      split; [reflexivity|]. split; [unfold LONG_MAX; lia|].
      intros pM HM. inversion HM. subst pM. clear HM.
      destruct (Hw eq_refl) as [Hp Ht].
      destruct (Hmesh eq_refl) as [Ipts Itri Iedge Iuniq].
      pose proof (inv_pcount _ _ _ HI5) as Ipc.
      pose proof (inv_tcount _ _ _ HI5) as Itc.
      constructor.
      * apply (inv_pc _ _ _ HI5).
      * apply (inv_tc _ _ _ HI5).
      * intros p Hp'. apply Ipts. lia.
      * intros i Hi. apply Itri. lia.
      * intros i j j1 j2 Hi Hj. apply Iuniq; lia.
    + intros H. inversion H. subst r. clear H.
      unfold finish_new. inv_simpl. cbn [negb r_mesh r_err r_line].
      split; [split; [discriminate | reflexivity]|].
      split; [intros Hc; now contradiction Hc|].
      split; [apply Hnorm | discriminate].
  - intros H. inversion H. subst r. clear H.
    unfold finish_new. rewrite Hs5. cbn [negb r_mesh r_err r_line].
    split; [split; [intros _; exact Herr | reflexivity]|].
    split; [intros Hc; now contradiction Hc|].
    split; [apply Hnorm | discriminate].
Qed.

(** ** The meshes the loader returns *)

(** X8.  [lilac_mesh_new] never faults, and what it reports is coherent:
    it returns NULL exactly when the error code it stores is not
    LILAC_MESH_ERR_OK; with a mesh the line number is zero; in every case
    the line number is in [0, LONG_MAX). *)
Theorem lilac_mesh_new_reports (pIn : list (SNENTITY * Z)) :
  exists r,
    lilac_mesh_new pIn = Some r /\
    (r_mesh r = None <-> r_err r <> LILAC_MESH_ERR_OK) /\
    (r_mesh r <> None -> r_line r = 0) /\
    0 <= r_line r < LONG_MAX.
Proof.
  destruct (lilac_mesh_new_spec pIn) as (r & Hr & _).
  exists r. split; [exact Hr|].
  destruct (lilac_mesh_new_facts pIn r Hr) as (A & B & C & _). auto.
Qed.

(** X9.  In a mesh returned by [lilac_mesh_new] the counts are within
    LILAC_MESH_MAX_POINTS and LILAC_MESH_MAX_TRIS and every point is
    within the ranges of the format: normd in [0, LILAC_MESH_MAX_C],
    norma in [0, LILAC_MESH_MAX_C), norma zero when normd is zero, x and
    y in [0, LILAC_MESH_MAX_C]. *)
Theorem loaded_mesh_points_valid (pIn : list (SNENTITY * Z))
    (r : new_result) (pM : LILAC_MESH) :
  lilac_mesh_new pIn = Some r -> r_mesh r = Some pM ->
  0 <= point_count pM <= LILAC_MESH_MAX_POINTS /\
  0 <= tri_count pM <= LILAC_MESH_MAX_TRIS /\
  forall p, 0 <= p < point_count pM -> point_ok (point_at pM p).
Proof.
  intros Hr HM.
  destruct (lilac_mesh_new_facts pIn r Hr) as (_ & _ & _ & Hs).
  destruct (Hs pM HM). auto.
Qed.

Lemma loaded_mesh_points_valid_witness :
  lilac_mesh_new quad_input = Some quad_result /\
  r_mesh quad_result = Some quad_loaded /\
  0 <= point_count quad_loaded <= LILAC_MESH_MAX_POINTS /\
  0 <= tri_count quad_loaded <= LILAC_MESH_MAX_TRIS /\
  forall p, 0 <= p < point_count quad_loaded ->
            point_ok (point_at quad_loaded p).
Proof.
  split; [reflexivity|]. split; [reflexivity|].
  apply (loaded_mesh_points_valid quad_input quad_result quad_loaded);
    reflexivity.
Defined.

(** X10.  In a mesh returned by [lilac_mesh_new] every triangle has three
    different vertices, the first of which has the least index, and its
    vertices are in counter-clockwise order: the signed area
    (x2-x1)(y3-y1) - (y2-y1)(x3-x1) of its points is positive, so the
    points are not colinear. *)
Theorem loaded_mesh_triangles_valid (pIn : list (SNENTITY * Z))
    (r : new_result) (pM : LILAC_MESH) :
  lilac_mesh_new pIn = Some r -> r_mesh r = Some pM ->
  forall i, 0 <= i < tri_count pM ->
    tri_elem pM (3 * i) < tri_elem pM (3 * i + 1) /\
    tri_elem pM (3 * i) < tri_elem pM (3 * i + 2) /\
    tri_elem pM (3 * i + 1) <> tri_elem pM (3 * i + 2) /\
    0 < cross_Z (point_at pM (tri_elem pM (3 * i)))
                (point_at pM (tri_elem pM (3 * i + 1)))
                (point_at pM (tri_elem pM (3 * i + 2))).
Proof.
  intros Hr HM i Hi.
  destruct (lilac_mesh_new_facts pIn r Hr) as (_ & _ & _ & Hs).
  destruct (Hs pM HM) as [_ _ _ Ht _]. exact (Ht i Hi).
Qed.

Lemma loaded_mesh_triangles_valid_witness :
  lilac_mesh_new quad_input = Some quad_result /\
  r_mesh quad_result = Some quad_loaded /\
  forall i, 0 <= i < tri_count quad_loaded ->
    tri_elem quad_loaded (3 * i) < tri_elem quad_loaded (3 * i + 1) /\
    tri_elem quad_loaded (3 * i) < tri_elem quad_loaded (3 * i + 2) /\
    tri_elem quad_loaded (3 * i + 1) <> tri_elem quad_loaded (3 * i + 2) /\
    0 < cross_Z (point_at quad_loaded (tri_elem quad_loaded (3 * i)))
                (point_at quad_loaded (tri_elem quad_loaded (3 * i + 1)))
                (point_at quad_loaded (tri_elem quad_loaded (3 * i + 2))).
Proof.
  split; [reflexivity|]. split; [reflexivity|].
  apply (loaded_mesh_triangles_valid quad_input quad_result quad_loaded);
    reflexivity.
Defined.

(** X11.  In a mesh returned by [lilac_mesh_new] no directed edge belongs
    to two triangles: an edge from one point to another that is an edge
    v1 -> v2, v2 -> v3 or v3 -> v1 of one triangle is not an edge of any
    other triangle of the list. *)
Theorem loaded_mesh_edges_unique (pIn : list (SNENTITY * Z))
    (r : new_result) (pM : LILAC_MESH) :
  lilac_mesh_new pIn = Some r -> r_mesh r = Some pM ->
  forall i j j1 j2,
    0 <= i < tri_count pM -> 0 <= j < tri_count pM -> i <> j ->
    tri_edge pM i j1 j2 = true -> tri_edge pM j j1 j2 = false.
Proof.
  intros Hr HM i j j1 j2 Hi Hj Hne He.
  destruct (lilac_mesh_new_facts pIn r Hr) as (_ & _ & _ & Hs).
  destruct (Hs pM HM) as [_ _ _ _ Hu].
  destruct (Z.lt_trichotomy i j) as [Hlt|[Heq|Hgt]]; [|contradiction|].
  - apply (Hu i j); [lia | lia | exact He].
  - destruct (tri_edge pM j j1 j2) eqn:Hej; [|reflexivity].
    rewrite (Hu j i j1 j2 ltac:(lia) ltac:(lia) Hej) in He. discriminate.
Qed.

Lemma loaded_mesh_edges_unique_witness :
  lilac_mesh_new quad_input = Some quad_result /\
  r_mesh quad_result = Some quad_loaded /\
  tri_edge quad_loaded 0 2 0 = true /\ tri_edge quad_loaded 1 0 2 = true /\
  forall i j j1 j2,
    0 <= i < tri_count quad_loaded -> 0 <= j < tri_count quad_loaded ->
    i <> j ->
    tri_edge quad_loaded i j1 j2 = true -> tri_edge quad_loaded j j1 j2 = false.
Proof.
  split; [reflexivity|]. split; [reflexivity|].
  split; [reflexivity|]. split; [reflexivity|].
  apply (loaded_mesh_edges_unique quad_input quad_result quad_loaded);
    reflexivity.
Defined.

(** ** Error messages *)

Lemma codes_below_In (n : nat) (c : Z) :
  0 <= c < Z.of_nat n -> In c (codes_below n).
Proof.
  intros H. unfold codes_below. apply in_map_iff. exists (Z.to_nat c).
  split; [lia|]. apply in_seq. lia.
Qed.

(** X12.  [lilac_mesh_errstr] has a message of its own for each of the
    codes 0 to 25, different from the message of every other of these
    codes and from "Unknown error".  The switch has no case for
    [LILAC_MESH_ERR_TROVER] (26): for it, as for every larger code, the
    result is "Unknown error".  A negative code is passed on to
    [snerror_str]. *)
Theorem lilac_mesh_errstr_messages (snerror_str : Z -> string) :
  (forall code, 0 <= code <= 25 ->
     lilac_mesh_errstr snerror_str code <> "Unknown error"%string) /\
  (forall c d, 0 <= c <= 25 -> 0 <= d <= 25 ->
     lilac_mesh_errstr snerror_str c = lilac_mesh_errstr snerror_str d ->
     c = d) /\
  lilac_mesh_errstr snerror_str LILAC_MESH_ERR_TROVER
    = "Unknown error"%string /\
  (forall code, 26 <= code ->
     lilac_mesh_errstr snerror_str code = "Unknown error"%string) /\
  (forall code, code < 0 ->
     lilac_mesh_errstr snerror_str code = snerror_str code).
Proof.
  assert (Hknown : forallb (fun c =>
            negb (String.eqb (lilac_mesh_errstr snerror_str c) "Unknown error"))
            (codes_below 26) = true) by (vm_compute; reflexivity).
  assert (Hinj : forallb (fun c => forallb (fun d =>
            implb (String.eqb (lilac_mesh_errstr snerror_str c)
                              (lilac_mesh_errstr snerror_str d)) (c =? d)%Z)
            (codes_below 26)) (codes_below 26) = true)
    by (vm_compute; reflexivity).
  rewrite forallb_forall in Hknown, Hinj.
  split; [|split; [|split; [|split]]].
  - intros code Hc Heq.
    specialize (Hknown code (codes_below_In 26 code ltac:(lia))).
    rewrite Heq in Hknown. discriminate.
  - intros c d Hc Hd Heq.
    specialize (Hinj c (codes_below_In 26 c ltac:(lia))).
    rewrite forallb_forall in Hinj.
    specialize (Hinj d (codes_below_In 26 d ltac:(lia))).
    rewrite Heq, String.eqb_refl in Hinj. cbn [implb] in Hinj.
    now apply Z.eqb_eq.
  - reflexivity.
  - intros code Hc. unfold lilac_mesh_errstr.
    repeat match goal with
    | |- context [(code =? ?k)%Z] =>
        let E := fresh in
        destruct (Z.eqb_spec code k) as [E|_];
        [unfold k in E; lia|]
    end.
    destruct (Z.ltb_spec code 0); [lia | reflexivity].
  - intros code Hc. unfold lilac_mesh_errstr.
    repeat match goal with
    | |- context [(code =? ?k)%Z] =>
        let E := fresh in
        destruct (Z.eqb_spec code k) as [E|_];
        [unfold k in E; lia|]
    end.
    destruct (Z.ltb_spec code 0); [reflexivity | lia].
Qed.

End LilacMeshLoader.

(** * Properties of the conversion and of the rasterizer

    The conversion of the mesh points, the interpolation along an edge,
    the pixels a span and a triangle cover, and the rendering loops of
    [main]. *)

Module LilacMe2PngRender.

Import LilacMesh LilacMeshSpec LilacMeshProofs LilacMe2Png LilacMe2PngSpec
  LilacMe2PngProofs LilacMeshLoader.
Local Open Scope R_scope.

(** ** Floors and comparisons *)

Lemma Zfloor_bounds (f : R) : IZR (Zfloor f) <= f < IZR (Zfloor f) + 1.
Proof. apply Zfloor_bound. Qed.

Lemma Rleb_iff (a b : R) : Rleb a b = true <-> a <= b.
Proof. unfold Rleb. destruct (Rle_dec a b); split; auto; discriminate. Qed.

Lemma Rltb_iff (a b : R) : Rltb a b = true <-> a < b.
Proof. unfold Rltb. destruct (Rlt_dec a b); split; auto; discriminate. Qed.


(** ** ifloor *)

Lemma ifloor_Some (f : R) (z : Z) :
  ifloor f = Some z ->
  IZR z <= f < IZR z + 1 /\ (INT32_MIN <= z <= INT32_MAX)%Z.
Proof.
  unfold ifloor, floor, isfinite. cbn [negb].
  destruct (Rleb (IZR INT32_MIN) (IZR (Zfloor f))) eqn:A; [|discriminate].
  destruct (Rleb (IZR (Zfloor f)) (IZR INT32_MAX)) eqn:B; [|discriminate].
  cbn [andb negb]. rewrite ZfloorZ. intros H. inversion H. subst z.
  apply Rleb_iff, le_IZR in A, B.
  split; [apply Zfloor_bounds | lia].
Qed.

(** X13.  [ifloor] returns the floor of its argument: the integer z with
    z <= f < z + 1, whenever that integer is in the range of [int32_t];
    it faults exactly when f is below INT32_MIN or at least
    INT32_MAX + 1. *)
Theorem ifloor_floor (f : R) :
  (forall z, ifloor f = Some z <->
     IZR z <= f < IZR z + 1 /\ (INT32_MIN <= z <= INT32_MAX)%Z) /\
  (ifloor f = None <-> f < IZR INT32_MIN \/ IZR INT32_MAX + 1 <= f).
Proof.
  assert (Hsome : forall z, ifloor f = Some z <->
            IZR z <= f < IZR z + 1 /\ (INT32_MIN <= z <= INT32_MAX)%Z).
  { intros z. split; [apply ifloor_Some|].
    intros [Hf Hz]. now apply ifloor_eq. }
  split; [exact Hsome|].
  pose proof (Zfloor_bounds f) as Hb.
  split.
  - intros Hnone.
    destruct (Rlt_dec f (IZR INT32_MIN)) as [|Hlo]; [now left|].
    destruct (Rle_dec (IZR INT32_MAX + 1) f) as [|Hhi]; [now right|].
    exfalso.
    assert (Hz : (INT32_MIN <= Zfloor f <= INT32_MAX)%Z).
    { split.
      - apply Z.lt_succ_r, lt_IZR. rewrite succ_IZR. lra.
      - apply Z.lt_succ_r, lt_IZR. rewrite succ_IZR. lra. }
    rewrite (proj2 (Hsome (Zfloor f)) (conj Hb Hz)) in Hnone. discriminate.
  - intros Hout. destruct (ifloor f) as [z|] eqn:E; [|reflexivity].
    apply ifloor_Some in E as [Hf Hz]. exfalso.
    destruct Hz as [Hlo Hhi]. apply IZR_le in Hlo, Hhi.
    destruct Hout; lra.
Qed.

(** ** Colours *)







(** ** convertVertex *)


Lemma scaled_range (c n : Z) :
  (0 <= c <= LILAC_MESH_MAX_C)%Z -> (1 <= n)%Z ->
  0 <= IZR c / IZR LILAC_MESH_MAX_C <= 1 /\
  0 <= IZR c / IZR LILAC_MESH_MAX_C * IZR (n - 1) <= IZR (n - 1).
Proof.
  intros Hc Hn. unfold LILAC_MESH_MAX_C in *.
  assert (H0 : 0 <= IZR c <= 16384) by (split; apply IZR_le; lia).
  assert (Hn' : 0 <= IZR (n - 1)) by (apply IZR_le; lia).
  assert (Ha : 0 <= IZR c / 16384 <= 1) by lra.
  split; [exact Ha|]. nra.
Qed.

Lemma Zfloor_range (f : R) (n : Z) :
  0 <= f <= IZR n -> (0 <= Zfloor f <= n)%Z.
Proof.
  intros Hf. pose proof (Zfloor_bounds f) as Hb. split.
  - apply Z.lt_succ_r, lt_IZR. rewrite succ_IZR. lra.
  - apply le_IZR. lra.
Qed.

Lemma convertVertex_some (G : globals) (m_vmode : Z) (pp : LILAC_MESH_POINT)
    (buf : list Z) :
  pBuf G = Some buf -> modes_set G m_vmode ->
  exists pv,
    convertVertex G m_vmode pp = Some pv /\
    x pv = floor (IZR (LilacMesh.x pp) / IZR LILAC_MESH_MAX_C
                  * IZR (m_w G - 1)) + 1 / 2 /\
    y pv = floor ((1 - IZR (LilacMesh.y pp) / IZR LILAC_MESH_MAX_C)
                  * IZR (m_h G - 1)) + 1 / 2 /\
    vx pv = IZR (normd pp) / IZR LILAC_MESH_MAX_C
            * cos (IZR (norma pp) / IZR LILAC_MESH_MAX_C * 2 * M_PI) /\
    vy pv = IZR (normd pp) / IZR LILAC_MESH_MAX_C
            * sin (IZR (norma pp) / IZR LILAC_MESH_MAX_C * 2 * M_PI) /\
    (m_vmode = VMODE_X -> v pv = vx pv) /\
    (m_vmode = VMODE_Y -> v pv = vy pv) /\
    (m_vmode = VMODE_3D ->
     v pv = 0 /\
     vz pv = sqrt (let z := 1 - vx pv * vx pv - vy pv * vy pv in
                   if negb (Rleb 0 z) then 0 else z)).
Proof.
  intros Hbuf Hmodes. unfold convertVertex. rewrite Hbuf. cbn [bind].
  cbv zeta.
  destruct Hmodes as [[Hi ->]|[Hi [->| ->]]];
    cbn [Z.eqb VMODE_X VMODE_Y VMODE_3D Pos.eqb bind];
    unfold checkVertex; rewrite Hi;
    cbn [isfinite andb negb Z.eqb INTER_SCALAR INTER_VECTOR Pos.eqb bind];
    eexists; (split; [reflexivity|]); cbn [x y v vx vy vz];
    repeat match goal with |- _ /\ _ => split end; try reflexivity;
    intros Hc; try discriminate Hc; try split; reflexivity.
Qed.

(** X15.  [convertVertex] places a mesh point whose coordinates are in
    [0, LILAC_MESH_MAX_C] at the centre of a pixel of the image: the
    converted position is (col + 1/2, row + 1/2) with col in
    [0, m_w - 1] and row in [0, m_h - 1].  The Y axis is inverted: the
    mesh coordinate x = 0 gives the first column and x = LILAC_MESH_MAX_C
    the last one, y = LILAC_MESH_MAX_C gives the first row and y = 0 the
    last one. *)
Theorem convertVertex_pixel_centre (G : globals) (m_vmode : Z)
    (pp : LILAC_MESH_POINT) (buf : list Z) :
  pBuf G = Some buf -> modes_set G m_vmode ->
  (1 <= m_w G)%Z -> (1 <= m_h G)%Z ->
  (0 <= LilacMesh.x pp <= LILAC_MESH_MAX_C)%Z ->
  (0 <= LilacMesh.y pp <= LILAC_MESH_MAX_C)%Z ->
  exists pv col row,
    convertVertex G m_vmode pp = Some pv /\ at_pixel pv col row /\
    (0 <= col <= m_w G - 1)%Z /\ (0 <= row <= m_h G - 1)%Z /\
    (LilacMesh.x pp = 0%Z -> col = 0%Z) /\
    (LilacMesh.x pp = LILAC_MESH_MAX_C -> col = (m_w G - 1)%Z) /\
    (LilacMesh.y pp = LILAC_MESH_MAX_C -> row = 0%Z) /\
    (LilacMesh.y pp = 0%Z -> row = (m_h G - 1)%Z).
Proof.
  intros Hbuf Hmodes Hw Hh Hx Hy.
  destruct (convertVertex_some G m_vmode pp buf Hbuf Hmodes)
    as (pv & E & Ex & Ey & _).
  destruct (scaled_range _ _ Hx Hw) as [Hx1 Hx2].
  destruct (scaled_range _ _ Hy Hh) as [Hy1 Hy2].
  assert (Hh' : 0 <= IZR (m_h G - 1)) by (apply IZR_le; lia).
  set (fx := IZR (LilacMesh.x pp) / IZR LILAC_MESH_MAX_C * IZR (m_w G - 1))
    in *.
  set (fy := (1 - IZR (LilacMesh.y pp) / IZR LILAC_MESH_MAX_C)
             * IZR (m_h G - 1)) in *.
  assert (Hfy : 0 <= fy <= IZR (m_h G - 1)) by (unfold fy; nra).
  exists pv, (Zfloor fx), (Zfloor fy).
  split; [exact E|]. split; [split; assumption|].
  split; [apply Zfloor_range, Hx2|]. split; [apply Zfloor_range, Hfy|].
  assert (HC : IZR LILAC_MESH_MAX_C / IZR LILAC_MESH_MAX_C = 1)
    by (unfold LILAC_MESH_MAX_C; lra).
  repeat split.
  - intros H0. unfold fx. rewrite H0.
    replace (0 / IZR LILAC_MESH_MAX_C * IZR (m_w G - 1)) with (IZR 0)
      by (unfold LILAC_MESH_MAX_C; lra).
    apply ZfloorZ.
  - intros HM. unfold fx. rewrite HM, HC, Rmult_1_l. apply ZfloorZ.
  - intros HM. unfold fy. rewrite HM, HC.
    replace ((1 - 1) * IZR (m_h G - 1)) with (IZR 0) by lra.
    apply ZfloorZ.
  - intros H0. unfold fy. rewrite H0.
    replace ((1 - 0 / IZR LILAC_MESH_MAX_C) * IZR (m_h G - 1))
      with (IZR (m_h G - 1)) by (unfold LILAC_MESH_MAX_C; lra).
    apply ZfloorZ.
Qed.

Lemma unit_disc (ad a : R) :
  0 <= ad <= 1 ->
  -1 <= ad * cos a <= 1 /\ -1 <= ad * sin a <= 1 /\
  1 - (ad * cos a) * (ad * cos a) - (ad * sin a) * (ad * sin a) = 1 - ad * ad.
Proof.
  intros Had.
  pose proof (COS_bound a) as Hc. pose proof (SIN_bound a) as Hs.
  pose proof (sin2_cos2 a) as H1. unfold Rsqr in H1.
  repeat split; try nra.
Qed.

Lemma convertVertex_unit (G : globals) (m_vmode : Z)
    (pp : LILAC_MESH_POINT) (buf : list Z) :
  pBuf G = Some buf -> modes_set G m_vmode ->
  (0 <= normd pp <= LILAC_MESH_MAX_C)%Z ->
  exists pv,
    convertVertex G m_vmode pp = Some pv /\ valid_vertex G pv.
Proof.
  intros Hbuf Hmodes Hd.
  destruct (convertVertex_some G m_vmode pp buf Hbuf Hmodes)
    as (pv & E & _ & _ & Evx & Evy & EX & EY & E3).
  destruct (scaled_range _ 1 Hd ltac:(lia)) as [Had _].
  set (ad := IZR (normd pp) / IZR LILAC_MESH_MAX_C) in *.
  set (aa := IZR (norma pp) / IZR LILAC_MESH_MAX_C * 2 * M_PI) in *.
  destruct (unit_disc ad aa Had) as (Hx & Hy & Hz).
  rewrite <- Evx in Hx, Hz. rewrite <- Evy in Hy, Hz.
  exists pv. split; [exact E|]. split.
  - intros Hs. destruct Hmodes as [[Hi _]|[_ [HX|HY]]].
    + rewrite Hi in Hs. discriminate.
    + now rewrite (EX HX).
    + now rewrite (EY HY).
  - intros Hv. destruct Hmodes as [[_ H3]|[Hi _]].
    2:{ rewrite Hi in Hv. discriminate. }
    assert (Ez : vz pv = sqrt (1 - ad * ad)).
    { rewrite (proj2 (E3 H3)). cbv zeta. rewrite Hz.
      rewrite Rleb_true by nra. reflexivity. }
    assert (Hr : 0 <= 1 - ad * ad <= 1) by nra.
    split; [exact Hx|]. split; [exact Hy|].
    pose proof (sqrt_pos (1 - ad * ad)) as Hp.
    assert (Hle : sqrt (1 - ad * ad) <= 1).
    { rewrite <- sqrt_1 at 2. apply sqrt_le_1_alt. lra. }
    split; [rewrite Ez; lra|].
    rewrite Ez. rewrite sqrt_sqrt by lra. lra.
Qed.

(** X16.  [convertVertex] gives a mesh point whose normd is in
    [0, LILAC_MESH_MAX_C] an attribute within the documented ranges: in
    the scalar modes the scalar is in [-1, 1]; in vector mode the normal
    has components in [-1, 1], does not point away from the viewer and
    has length one.  A point of normd zero is converted to the scalar 0
    and, in vector mode, to the normal (0, 0, 1) that faces the viewer
    (in exact real arithmetic). *)
Theorem convertVertex_valid (G : globals) (m_vmode : Z)
    (pp : LILAC_MESH_POINT) (buf : list Z) :
  pBuf G = Some buf -> modes_set G m_vmode ->
  (0 <= normd pp <= LILAC_MESH_MAX_C)%Z ->
  exists pv,
    convertVertex G m_vmode pp = Some pv /\ valid_vertex G pv /\
    (normd pp = 0%Z -> v pv = 0 /\ vx pv = 0 /\ vy pv = 0) /\
    (normd pp = 0%Z -> m_vmode = VMODE_3D -> vz pv = 1).
Proof.
  intros Hbuf Hmodes Hd.
  destruct (convertVertex_unit G m_vmode pp buf Hbuf Hmodes Hd)
    as (pv & E & Hvalid).
  destruct (convertVertex_some G m_vmode pp buf Hbuf Hmodes)
    as (pv' & E' & _ & _ & Evx & Evy & EX & EY & E3).
  rewrite E in E'. inversion E'. subst pv'. clear E'.
  exists pv. split; [exact E|]. split; [exact Hvalid|].
  assert (H0 : normd pp = 0%Z -> vx pv = 0 /\ vy pv = 0).
  { intros H0. rewrite Evx, Evy, H0. unfold LILAC_MESH_MAX_C. split; lra. }
  split.
  - intros Hn. destruct (H0 Hn) as [Ex0 Ey0].
    split; [|auto].
    destruct Hmodes as [[_ H3]|[_ [HX|HY]]].
    + exact (proj1 (E3 H3)).
    + now rewrite (EX HX).
    + now rewrite (EY HY).
  - intros Hn H3. destruct (H0 Hn) as [Ex0 Ey0].
    rewrite (proj2 (E3 H3)). cbv zeta. rewrite Ex0, Ey0.
    replace (1 - 0 * 0 - 0 * 0) with 1 by lra.
    rewrite Rleb_true by lra. apply sqrt_1.
Qed.

Lemma convertVertex_pixel_centre_witness :
  exists pv col row,
    convertVertex vector_mode VMODE_3D (mkPoint 0 0 16384 16384) = Some pv /\
    at_pixel pv col row /\
    (0 <= col <= m_w vector_mode - 1)%Z /\
    (0 <= row <= m_h vector_mode - 1)%Z /\
    (LilacMesh.x (mkPoint 0 0 16384 16384) = 0%Z -> col = 0%Z) /\
    (LilacMesh.x (mkPoint 0 0 16384 16384) = LILAC_MESH_MAX_C ->
     col = (m_w vector_mode - 1)%Z) /\
    (LilacMesh.y (mkPoint 0 0 16384 16384) = LILAC_MESH_MAX_C ->
     row = 0%Z) /\
    (LilacMesh.y (mkPoint 0 0 16384 16384) = 0%Z ->
     row = (m_h vector_mode - 1)%Z).
Proof.
  apply (convertVertex_pixel_centre vector_mode VMODE_3D
           (mkPoint 0 0 16384 16384) [0%Z]).
  - reflexivity.
  - left. split; reflexivity.
  - cbn. lia.
  - cbn. lia.
  - cbn. unfold LILAC_MESH_MAX_C. lia.
  - cbn. unfold LILAC_MESH_MAX_C. lia.
Defined.

Lemma convertVertex_valid_witness :
  exists pv,
    convertVertex vector_mode VMODE_3D (mkPoint 0 0 16384 16384) = Some pv /\
    valid_vertex vector_mode pv /\
    (normd (mkPoint 0 0 16384 16384) = 0%Z ->
     v pv = 0 /\ vx pv = 0 /\ vy pv = 0) /\
    (normd (mkPoint 0 0 16384 16384) = 0%Z -> VMODE_3D = VMODE_3D ->
     vz pv = 1).
Proof.
  apply (convertVertex_valid vector_mode VMODE_3D
           (mkPoint 0 0 16384 16384) [0%Z]).
  - reflexivity.
  - left. split; reflexivity.
  - cbn. unfold LILAC_MESH_MAX_C. lia.
Defined.

(** ** initBufDim *)


(** X17.  [initBufDim] accepts exactly the dimensions from 1 to
    MAX_IMAGE_DIM whose product is at most MAX_IMAGE_PIXELS, and only
    while no buffer is allocated; otherwise it faults.  The buffer it
    allocates has one pixel for each position of the image, all of them
    zero, and leaves the interpolation mode as it was. *)
Theorem initBufDim_accepts (G : globals) (w h : Z) :
  (initBufDim G w h <> None <->
   pBuf G = None /\ (1 <= w <= MAX_IMAGE_DIM)%Z /\
   (1 <= h <= MAX_IMAGE_DIM)%Z /\ (w * h <= MAX_IMAGE_PIXELS)%Z) /\
  (forall G', initBufDim G w h = Some G' ->
     m_inter G' = m_inter G /\ m_w G' = w /\ m_h G' = h /\
     (forall i, (0 <= i < w * h)%Z -> pixel G' i = Some 0%Z) /\
     (forall i, (i < 0 \/ w * h <= i)%Z -> pixel G' i = None)).
Proof.
  unfold initBufDim. split.
  - destruct (pBuf G).
    + split; [congruence | intros [H _]; discriminate].
    + destruct (Z.ltb_spec w 1), (Z.ltb_spec h 1); cbn [orb];
        try (split; [congruence | lia]);
        destruct (Z.gtb_spec w MAX_IMAGE_DIM), (Z.gtb_spec h MAX_IMAGE_DIM);
        cbn [orb]; try (split; [congruence | lia]);
        destruct (Z.gtb_spec (w * h) MAX_IMAGE_PIXELS);
        (split; [intros; try congruence; repeat split; lia
                | intros; try lia; discriminate]).
  - intros G'. destruct (pBuf G); [discriminate|].
    destruct (Z.ltb_spec w 1), (Z.ltb_spec h 1); cbn [orb];
      try discriminate.
    destruct ((w >? MAX_IMAGE_DIM) || (h >? MAX_IMAGE_DIM))%Z;
      [discriminate|].
    destruct (w * h >? MAX_IMAGE_PIXELS)%Z; [discriminate|].
    intros H'. inversion H'. subst G'. clear H'.
    unfold pixel. cbn [m_inter m_w m_h pBuf bind].
    repeat split.
    + intros i Hi. apply load_repeat. lia.
    + intros i Hi. destruct (load _ i) eqn:E; [|reflexivity].
      apply load_Some in E. rewrite len_repeat in E by nia. lia.
Qed.

(** ** ivec_atX and ivec_atY *)

Lemma ivec_compute_position (iv : IVEC) (t : R) :
  ivec_ready iv ->
  exists r, ivec_compute iv t = Some r /\
    exists t', 0 <= t' <= 1 /\
      (0 <= t <= 1 -> t' = t) /\
      x r = x (v1 iv) * (1 - t') + x (v2 iv) * t' /\
      y r = y (v1 iv) * (1 - t') + y (v2 iv) * t'.
Proof.
  intros Hready. unfold ivec_compute, isfinite, checked, slerp_component.
  cbn [negb andb bind].
  set (tc := if negb (Rleb 0 t) then 0 else if negb (Rleb t 1) then 1 else t).
  assert (Htc : 0 <= tc <= 1 /\ (0 <= t <= 1 -> tc = t)).
  { unfold tc. unfold Rleb.
    destruct (Rle_dec 0 t); cbn [negb]; [|split; lra].
    destruct (Rle_dec t 1); cbn [negb]; split; lra. }
  destruct Htc as [Htc Heq].
  destruct Hready as [[Hm _]|[Hm|[[Hm _]|Hm]]]; rewrite Hm;
    cbn [Z.eqb IMODE_SCALAR IMODE_VLINEAR IMODE_SLERP IMODE_DOUBLE Pos.eqb];
    try destruct (Rltb tc (1 / 2));
    eexists; (split; [reflexivity|]); exists tc; cbn [x y]; auto.
Qed.


Lemma lerp_between (a b t : R) :
  0 <= t <= 1 -> between a b (a * (1 - t) + b * t).
Proof.
  intros Ht. unfold between, Rmin, Rmax. destruct (Rle_dec a b); nra.
Qed.

Lemma ratio_range (lo hi c : R) :
  lo <= c <= hi -> IVEC_THETA <= hi - lo ->
  0 <= (c - lo) / (hi - lo) <= 1 /\ (c - lo) / (hi - lo) * (hi - lo) = c - lo.
Proof.
  unfold IVEC_THETA. intros Hc Hd.
  assert (Hpos : 0 < hi - lo) by lra.
  assert (Hm : (c - lo) / (hi - lo) * (hi - lo) = c - lo) by (field; lra).
  split; [|exact Hm].
  split.
  - apply Rmult_le_reg_r with (hi - lo); [exact Hpos|]. rewrite Hm. lra.
  - apply Rmult_le_reg_r with (hi - lo); [exact Hpos|]. rewrite Hm. lra.
Qed.

Lemma ivec_atX_spec (iv : IVEC) (xt : R) :
  ivec_ready iv ->
  (~ between (x (v1 iv)) (x (v2 iv)) xt -> ivec_atX iv xt = None) /\
  (between (x (v1 iv)) (x (v2 iv)) xt ->
   exists r, ivec_atX iv xt = Some r /\ x r = xt /\
     between (y (v1 iv)) (y (v2 iv)) (y r) /\
     (IVEC_THETA <= Rabs (x (v2 iv) - x (v1 iv)) -> on_line (v1 iv) (v2 iv) r) /\
     (Rabs (x (v2 iv) - x (v1 iv)) < IVEC_THETA ->
      y r = if Rle_dec (x (v1 iv)) (x (v2 iv)) then y (v1 iv) else y (v2 iv))).
Proof.
  intros Hready. unfold ivec_atX, isfinite, between, Rmin, Rmax, Rabs, Rleb.
  cbn [negb].
  destruct (Rle_dec (x (v1 iv)) (x (v2 iv))) as [Hle|Hgt].
  - split.
    + intros Hout.
      destruct (Rle_dec (x (v1 iv)) xt); [|reflexivity].
      destruct (Rle_dec xt (x (v2 iv))); [|reflexivity].
      exfalso. apply Hout. lra.
    + intros [Hlo Hhi].
      destruct (Rle_dec (x (v1 iv)) xt); [|lra].
      destruct (Rle_dec xt (x (v2 iv))); [|lra].
      cbn [andb negb].
      destruct (Rle_dec IVEC_THETA (x (v2 iv) - x (v1 iv))) as [Hd|Hd];
        cbn [bind].
      * destruct (ratio_range _ _ xt (conj Hlo Hhi) Hd) as [Ht Hm].
        destruct (ivec_compute_position iv
                    ((xt - x (v1 iv)) / (x (v2 iv) - x (v1 iv))) Hready)
          as (pr & -> & t' & Ht' & Heq & Hx & Hy).
        rewrite (Heq Ht) in *. clear Heq.
        cbn [bind]. eexists. split; [reflexivity|]. cbn [x y].
        split; [reflexivity|]. split; [rewrite Hy; now apply lerp_between|].
        split.
        -- intros _. unfold on_line. cbn [x y]. rewrite Hy.
           set (t := (xt - x (v1 iv)) / (x (v2 iv) - x (v1 iv))) in *.
           nra.
        -- unfold IVEC_THETA in *.
           destruct (Rcase_abs (x (v2 iv) - x (v1 iv))); lra.
      * destruct (ivec_compute_position iv 0 Hready)
          as (pr & -> & t' & Ht' & Heq & Hx & Hy).
        rewrite (Heq ltac:(lra)) in *. clear Heq.
        cbn [bind]. eexists. split; [reflexivity|]. cbn [x y].
        split; [reflexivity|].
        split; [rewrite Hy; apply lerp_between; lra|].
        split.
        -- unfold IVEC_THETA in *.
           destruct (Rcase_abs (x (v2 iv) - x (v1 iv))); lra.
        -- intros _. rewrite Hy. lra.
  - apply Rnot_le_lt in Hgt. split.
    + intros Hout.
      destruct (Rle_dec (x (v2 iv)) xt); [|reflexivity].
      destruct (Rle_dec xt (x (v1 iv))); [|reflexivity].
      exfalso. apply Hout. lra.
    + intros [Hlo Hhi].
      destruct (Rle_dec (x (v2 iv)) xt); [|lra].
      destruct (Rle_dec xt (x (v1 iv))); [|lra].
      cbn [andb negb].
      destruct (Rle_dec IVEC_THETA (x (v1 iv) - x (v2 iv))) as [Hd|Hd];
        cbn [bind].
      * destruct (ratio_range _ _ xt (conj Hlo Hhi) Hd) as [Ht Hm].
        destruct (ivec_compute_position iv
                    (1 - (xt - x (v2 iv)) / (x (v1 iv) - x (v2 iv))) Hready)
          as (pr & -> & t' & Ht' & Heq & Hx & Hy).
        rewrite (Heq ltac:(lra)) in *. clear Heq.
        cbn [bind]. eexists. split; [reflexivity|]. cbn [x y].
        split; [reflexivity|].
        split; [rewrite Hy; apply lerp_between; lra|].
        split.
        -- intros _. unfold on_line. cbn [x y]. rewrite Hy.
           set (t := (xt - x (v2 iv)) / (x (v1 iv) - x (v2 iv))) in *.
           nra.
        -- unfold IVEC_THETA in *.
           destruct (Rcase_abs (x (v2 iv) - x (v1 iv))); lra.
      * destruct (ivec_compute_position iv (1 - 0) Hready)
          as (pr & -> & t' & Ht' & Heq & Hx & Hy).
        rewrite (Heq ltac:(lra)) in *. clear Heq.
        cbn [bind]. eexists. split; [reflexivity|]. cbn [x y].
        split; [reflexivity|].
        split; [rewrite Hy; apply lerp_between; lra|].
        split.
        -- unfold IVEC_THETA in *.
           destruct (Rcase_abs (x (v2 iv) - x (v1 iv))); lra.
        -- intros _. rewrite Hy. lra.
Qed.

Lemma ivec_atY_spec (iv : IVEC) (yt : R) :
  ivec_ready iv ->
  (~ between (y (v1 iv)) (y (v2 iv)) yt -> ivec_atY iv yt = None) /\
  (between (y (v1 iv)) (y (v2 iv)) yt ->
   exists r, ivec_atY iv yt = Some r /\ y r = yt /\
     between (x (v1 iv)) (x (v2 iv)) (x r) /\
     (IVEC_THETA <= Rabs (y (v2 iv) - y (v1 iv)) -> on_line (v1 iv) (v2 iv) r) /\
     (Rabs (y (v2 iv) - y (v1 iv)) < IVEC_THETA ->
      x r = if Rle_dec (y (v1 iv)) (y (v2 iv)) then x (v1 iv) else x (v2 iv))).
Proof.
  intros Hready. unfold ivec_atY, isfinite, between, Rmin, Rmax, Rabs, Rleb.
  cbn [negb].
  destruct (Rle_dec (y (v1 iv)) (y (v2 iv))) as [Hle|Hgt].
  - split.
    + intros Hout.
      destruct (Rle_dec (y (v1 iv)) yt); [|reflexivity].
      destruct (Rle_dec yt (y (v2 iv))); [|reflexivity].
      exfalso. apply Hout. lra.
    + intros [Hlo Hhi].
      destruct (Rle_dec (y (v1 iv)) yt); [|lra].
      destruct (Rle_dec yt (y (v2 iv))); [|lra].
      cbn [andb negb].
      destruct (Rle_dec IVEC_THETA (y (v2 iv) - y (v1 iv))) as [Hd|Hd];
        cbn [bind].
      * destruct (ratio_range _ _ yt (conj Hlo Hhi) Hd) as [Ht Hm].
        destruct (ivec_compute_position iv
                    ((yt - y (v1 iv)) / (y (v2 iv) - y (v1 iv))) Hready)
          as (pr & -> & t' & Ht' & Heq & Hx & Hy).
        rewrite (Heq Ht) in *. clear Heq.
        cbn [bind]. eexists. split; [reflexivity|]. cbn [x y].
        split; [reflexivity|]. split; [rewrite Hx; now apply lerp_between|].
        split.
        -- intros _. unfold on_line. cbn [x y]. rewrite Hx.
           set (t := (yt - y (v1 iv)) / (y (v2 iv) - y (v1 iv))) in *.
           nra.
        -- unfold IVEC_THETA in *.
           destruct (Rcase_abs (y (v2 iv) - y (v1 iv))); lra.
      * destruct (ivec_compute_position iv 0 Hready)
          as (pr & -> & t' & Ht' & Heq & Hx & Hy).
        rewrite (Heq ltac:(lra)) in *. clear Heq.
        cbn [bind]. eexists. split; [reflexivity|]. cbn [x y].
        split; [reflexivity|].
        split; [rewrite Hx; apply lerp_between; lra|].
        split.
        -- unfold IVEC_THETA in *.
           destruct (Rcase_abs (y (v2 iv) - y (v1 iv))); lra.
        -- intros _. rewrite Hx. lra.
  - apply Rnot_le_lt in Hgt. split.
    + intros Hout.
      destruct (Rle_dec (y (v2 iv)) yt); [|reflexivity].
      destruct (Rle_dec yt (y (v1 iv))); [|reflexivity].
      exfalso. apply Hout. lra.
    + intros [Hlo Hhi].
      destruct (Rle_dec (y (v2 iv)) yt); [|lra].
      destruct (Rle_dec yt (y (v1 iv))); [|lra].
      cbn [andb negb].
      destruct (Rle_dec IVEC_THETA (y (v1 iv) - y (v2 iv))) as [Hd|Hd];
        cbn [bind].
      * destruct (ratio_range _ _ yt (conj Hlo Hhi) Hd) as [Ht Hm].
        destruct (ivec_compute_position iv
                    (1 - (yt - y (v2 iv)) / (y (v1 iv) - y (v2 iv))) Hready)
          as (pr & -> & t' & Ht' & Heq & Hx & Hy).
        rewrite (Heq ltac:(lra)) in *. clear Heq.
        cbn [bind]. eexists. split; [reflexivity|]. cbn [x y].
        split; [reflexivity|].
        split; [rewrite Hx; apply lerp_between; lra|].
        split.
        -- intros _. unfold on_line. cbn [x y]. rewrite Hx.
           set (t := (yt - y (v2 iv)) / (y (v1 iv) - y (v2 iv))) in *.
           nra.
        -- unfold IVEC_THETA in *.
           destruct (Rcase_abs (y (v2 iv) - y (v1 iv))); lra.
      * destruct (ivec_compute_position iv (1 - 0) Hready)
          as (pr & -> & t' & Ht' & Heq & Hx & Hy).
        rewrite (Heq ltac:(lra)) in *. clear Heq.
        cbn [bind]. eexists. split; [reflexivity|]. cbn [x y].
        split; [reflexivity|].
        split; [rewrite Hx; apply lerp_between; lra|].
        split.
        -- unfold IVEC_THETA in *.
           destruct (Rcase_abs (y (v2 iv) - y (v1 iv))); lra.
        -- intros _. rewrite Hx. lra.
Qed.

(** X18.  [ivec_atX] and [ivec_atY] interpolate along an edge at a given
    coordinate: they fault when the coordinate is not between those of
    the two end points, and otherwise return a vertex that has exactly
    the coordinate asked for and whose other coordinate is between those
    of the end points.  When the end points are at least IVEC_THETA
    apart in that coordinate the vertex is on the line through them;
    when they are closer the result is at the end point with the smaller
    coordinate (in exact real arithmetic). *)
Theorem ivec_at_on_edge (iv : IVEC) (c : R) :
  ivec_ready iv ->
  ((~ between (x (v1 iv)) (x (v2 iv)) c -> ivec_atX iv c = None) /\
   (between (x (v1 iv)) (x (v2 iv)) c ->
    exists r, ivec_atX iv c = Some r /\ x r = c /\
      between (y (v1 iv)) (y (v2 iv)) (y r) /\
      (IVEC_THETA <= Rabs (x (v2 iv) - x (v1 iv)) ->
       on_line (v1 iv) (v2 iv) r) /\
      (Rabs (x (v2 iv) - x (v1 iv)) < IVEC_THETA ->
       y r = if Rle_dec (x (v1 iv)) (x (v2 iv))
             then y (v1 iv) else y (v2 iv)))) /\
  ((~ between (y (v1 iv)) (y (v2 iv)) c -> ivec_atY iv c = None) /\
   (between (y (v1 iv)) (y (v2 iv)) c ->
    exists r, ivec_atY iv c = Some r /\ y r = c /\
      between (x (v1 iv)) (x (v2 iv)) (x r) /\
      (IVEC_THETA <= Rabs (y (v2 iv) - y (v1 iv)) ->
       on_line (v1 iv) (v2 iv) r) /\
      (Rabs (y (v2 iv) - y (v1 iv)) < IVEC_THETA ->
       x r = if Rle_dec (y (v1 iv)) (y (v2 iv))
             then x (v1 iv) else x (v2 iv)))).
Proof.
  intros Hready. split.
  - exact (ivec_atX_spec iv c Hready).
  - exact (ivec_atY_spec iv c Hready).
Qed.

Lemma unit_edge_ready : ivec_ready unit_edge.
Proof.
  left. unfold unit_edge, span_vertex. cbn [mode v1 v2 v].
  split; [reflexivity|]. split; lra.
Qed.

Lemma ivec_at_on_edge_witness :
  ivec_ready unit_edge /\
  between (x (v1 unit_edge)) (x (v2 unit_edge)) (1 / 2) /\
  (exists r, ivec_atX unit_edge (1 / 2) = Some r /\ x r = 1 / 2 /\
     between (y (v1 unit_edge)) (y (v2 unit_edge)) (y r) /\
     (IVEC_THETA <= Rabs (x (v2 unit_edge) - x (v1 unit_edge)) ->
      on_line (v1 unit_edge) (v2 unit_edge) r) /\
     (Rabs (x (v2 unit_edge) - x (v1 unit_edge)) < IVEC_THETA ->
      y r = if Rle_dec (x (v1 unit_edge)) (x (v2 unit_edge))
            then y (v1 unit_edge) else y (v2 unit_edge))) /\
  ivec_atY unit_edge 2 = None.
Proof.
  assert (Hin : between (x (v1 unit_edge)) (x (v2 unit_edge)) (1 / 2)).
  { unfold between, unit_edge, span_vertex, Rmin, Rmax. cbn [v1 v2 x].
    destruct (Rle_dec 0 1); lra. }
  assert (Hout : ~ between (y (v1 unit_edge)) (y (v2 unit_edge)) 2).
  { unfold between, unit_edge, span_vertex, Rmin, Rmax. cbn [v1 v2 y].
    destruct (Rle_dec 0 1); lra. }
  split; [exact unit_edge_ready|]. split; [exact Hin|]. split.
  - exact (proj2 (proj1 (ivec_at_on_edge unit_edge (1 / 2) unit_edge_ready))
             Hin).
  - exact (proj1 (proj2 (ivec_at_on_edge unit_edge 2 unit_edge_ready)) Hout).
Defined.

(** ** The pixels of a span *)

Lemma lower_pixel (f : R) (z0 z : Z) :
  ifloor f = Some z0 ->
  (if Rltb (1 / 2) (f - IZR z0) then iinc z0 else Some z0) = Some z ->
  forall c, f <= IZR c + 1 / 2 <-> (z <= c)%Z.
Proof.
  intros Hf Hz c.
  apply ifloor_Some in Hf as [Hf _].
  unfold Rltb, iinc in Hz.
  destruct (Rlt_dec (1 / 2) (f - IZR z0)) as [Hh|Hh].
  - destruct (z0 >=? INT32_MAX)%Z; [discriminate|]. inversion Hz. subst z.
    split.
    + intros Hc. apply Z.le_succ_l, lt_IZR. lra.
    + intros Hc. apply IZR_le in Hc. rewrite plus_IZR in Hc. lra.
  - inversion Hz. subst z. split.
    + intros Hc. apply Z.lt_succ_r, lt_IZR. rewrite succ_IZR. lra.
    + intros Hc. apply IZR_le in Hc. lra.
Qed.

Lemma upper_pixel (f : R) (z0 z : Z) :
  ifloor f = Some z0 ->
  (if Rleb (f - IZR z0) (1 / 2) then idec z0 else Some z0) = Some z ->
  forall c, IZR c + 1 / 2 < f <-> (c <= z)%Z.
Proof.
  intros Hf Hz c.
  apply ifloor_Some in Hf as [Hf _].
  unfold Rleb, idec in Hz.
  destruct (Rle_dec (f - IZR z0) (1 / 2)) as [Hh|Hh].
  - destruct (z0 <=? INT32_MIN)%Z; [discriminate|]. inversion Hz. subst z.
    split.
    + intros Hc. apply Z.lt_le_pred, lt_IZR. lra.
    + intros Hc. apply IZR_le in Hc. rewrite minus_IZR in Hc. lra.
  - inversion Hz. subst z. split.
    + intros Hc. apply Z.lt_succ_r, lt_IZR. rewrite succ_IZR. lra.
    + intros Hc. apply IZR_le in Hc. lra.
Qed.

Lemma renderSpan_loop_spec (G : globals) (iv : IVEC) (n : nat) :
  forall xi ps buf buf',
  renderSpan_loop G iv n xi ps buf = Some buf' ->
  len buf' = len buf /\
  (forall i, (i < ps \/ ps + Z.of_nat n <= i)%Z -> load buf' i = load buf i) /\
  (forall i, (ps <= i < ps + Z.of_nat n)%Z ->
     exists px, load buf i = Some px /\
       if (px =? MASKED)%Z then load buf' i = Some px
       else exists c, load buf' i = Some c /\ written_colour c).
Proof.
  induction n as [|n IH]; intros xi ps buf buf' H; cbn [renderSpan_loop] in H.
  - inversion H. subst buf'. split; [reflexivity|].
    split; [reflexivity|]. intros i Hi. cbn in Hi. lia.
  - destruct (load buf ps) as [px|] eqn:Hpx; [|discriminate].
    cbn [bind] in H.
    destruct (Z.eqb_spec px MASKED) as [Hm|Hm].
    + destruct (iinc xi) as [xi'|]; [|discriminate]. cbn [bind] in H.
      destruct (IH _ _ _ _ H) as (Hlen & Hout & Hin).
      split; [exact Hlen|]. split.
      * intros i Hi. apply Hout. lia.
      * intros i Hi. destruct (Z.eq_dec i ps) as [->|Hne].
        -- exists px. split; [exact Hpx|].
           destruct (Z.eqb_spec px MASKED); [|contradiction].
           rewrite Hout by lia. exact Hpx.
        -- apply Hin. lia.
    + destruct (ivec_atX iv (IZR xi + 1 / 2)) as [vxt|]; [|discriminate].
      cbn [bind] in H.
      destruct (vertexColor G vxt) as [c|] eqn:Hc; [|discriminate].
      cbn [bind] in H.
      destruct (store buf ps c) as [buf1|] eqn:Hst; [|discriminate].
      cbn [bind] in H.
      destruct (iinc xi) as [xi'|]; [|discriminate]. cbn [bind] in H.
      destruct (IH _ _ _ _ H) as (Hlen & Hout & Hin).
      split; [rewrite Hlen; apply (store_len _ _ _ _ Hst)|]. split.
      * intros i Hi. rewrite Hout by lia.
        rewrite (load_store _ _ _ i _ Hst).
        destruct (Z.eqb_spec i ps); [lia | reflexivity].
      * intros i Hi. destruct (Z.eq_dec i ps) as [->|Hne].
        -- exists px. split; [exact Hpx|].
           destruct (Z.eqb_spec px MASKED); [contradiction|].
           exists c. rewrite Hout by lia.
           rewrite (load_store _ _ _ ps _ Hst), Z.eqb_refl.
           split; [reflexivity|]. now apply (vertexColor_written G vxt).
        -- destruct (Hin i ltac:(lia)) as (px' & Hpx' & Hres).
           rewrite (load_store _ _ _ i _ Hst) in Hpx'.
           destruct (Z.eqb_spec i ps); [contradiction|].
           exists px'. split; assumption.
Qed.



Lemma span_order (va vb : VERTEX) :
  exists v1' v2',
    (if negb (Rleb (x va) (x vb)) then (vb, va) else (va, vb)) = (v1', v2') /\
    x v1' = Rmin (x va) (x vb) /\ x v2' = Rmax (x va) (x vb) /\
    (y va = y vb -> y v1' = y va).
Proof.
  unfold Rleb, Rmin, Rmax. destruct (Rle_dec (x va) (x vb)); cbn [negb].
  - exists va, vb. repeat split.
  - exists vb, va. repeat split. auto.
Qed.

Lemma renderSpan_spec (G G' : globals) (va vb : VERTEX) (buf : list Z) :
  pBuf G = Some buf -> renderSpan G va vb = Some G' ->
  m_inter G' = m_inter G /\ m_w G' = m_w G /\ m_h G' = m_h G /\
  exists buf',
    pBuf G' = Some buf' /\ len buf' = len buf /\
    forall i px, load buf i = Some px ->
      (span_covers G va vb i -> px <> MASKED ->
       exists c, load buf' i = Some c /\ written_colour c) /\
      (~ (span_covers G va vb i /\ px <> MASKED) -> load buf' i = Some px).
Proof.
  intros Hbuf H. unfold renderSpan in H. rewrite Hbuf in H. cbn [bind] in H.
  destruct (checkVertex G va); [|discriminate].
  destruct (checkVertex G vb); [|discriminate]. cbn [bind] in H.
  unfold Reqb in H. destruct (Req_dec_T (y va) (y vb)) as [Hy|]; [|discriminate].
  cbn [negb] in H.
  destruct (span_order va vb) as (v1' & v2' & Hsw & Hx1 & Hx2 & Hy1).
  rewrite Hsw in H. clear Hsw. specialize (Hy1 Hy).
  destruct (ifloor (y v1')) as [yi|] eqn:Hyi; [|discriminate].
  destruct (ifloor (x v1')) as [x0|] eqn:Hx0; [|discriminate].
  destruct (ifloor (x v2')) as [x9|] eqn:Hx9; [|discriminate].
  cbn [bind] in H.
  destruct (if Rltb (1 / 2) (x v1' - IZR x0) then iinc x0 else Some x0)
    as [x_min|] eqn:Hmin; [|discriminate].
  destruct (if Rleb (x v2' - IZR x9) (1 / 2) then idec x9 else Some x9)
    as [x_max|] eqn:Hmax; [|discriminate].
  cbn [bind] in H.
  pose proof (lower_pixel _ _ _ Hx0 Hmin) as Hlo.
  pose proof (upper_pixel _ _ _ Hx9 Hmax) as Hhi.
  apply ifloor_Some in Hyi as [Hyi _].
  rewrite Hx1 in Hlo. rewrite Hx2 in Hhi. rewrite Hy1 in Hyi.
  assert (Hrow : forall row, IZR row <= y va < IZR row + 1 -> row = yi).
  { intros row Hr. apply Z.le_antisymm.
    - apply Z.lt_succ_r, lt_IZR. rewrite succ_IZR. lra.
    - apply Z.lt_succ_r, lt_IZR. rewrite succ_IZR. lra. }
  assert (Hcov : forall i, span_covers G va vb i <->
            exists col, i = (yi * m_w G + col)%Z /\ (0 <= col < m_w G)%Z /\
                        (0 <= yi < m_h G)%Z /\ (x_min <= col <= x_max)%Z).
  { intros i. unfold span_covers. split.
    - intros (col & row & -> & Hc & Hr & Hyr & Hl & Hu).
      rewrite (Hrow row Hyr) in *. exists col.
      apply Hlo in Hl. apply Hhi in Hu. repeat split; lia.
    - intros (col & -> & Hc & Hr & Hl & Hu). exists col, yi.
      repeat split; try lia; try lra.
      + apply Hlo. lia.
      + apply Hhi. lia. }
  assert (Hsame : (forall i, ~ span_covers G va vb i) ->
            Some G = Some G' ->
            m_inter G' = m_inter G /\ m_w G' = m_w G /\ m_h G' = m_h G /\
            exists buf',
              pBuf G' = Some buf' /\ len buf' = len buf /\
              forall i px, load buf i = Some px ->
                (span_covers G va vb i -> px <> MASKED ->
                 exists c, load buf' i = Some c /\ written_colour c) /\
                (~ (span_covers G va vb i /\ px <> MASKED) ->
                 load buf' i = Some px)).
  { intros Hno HG. inversion HG. subst G'. repeat split.
    exists buf. repeat split; auto.
    intros Hc. destruct (Hno i Hc). }
  destruct (Z.ltb_spec x_max x_min).
  { apply Hsame; [|exact H]. intros i Hc. apply Hcov in Hc as (col & _ & _ & _ & Hc). lia. }
  destruct (Z.ltb_spec yi 0); cbn [orb] in H.
  { apply Hsame; [|exact H]. intros i Hc. apply Hcov in Hc as (col & _ & _ & Hc & _). lia. }
  destruct (Z.geb_spec yi (m_h G)).
  { apply Hsame; [|exact H]. intros i Hc. apply Hcov in Hc as (col & _ & _ & Hc & _). lia. }
  destruct (Z.ltb_spec x_max 0); cbn [orb] in H.
  { apply Hsame; [|exact H]. intros i Hc. apply Hcov in Hc as (col & _ & Hc & _ & Hd). lia. }
  destruct (Z.geb_spec x_min (m_w G)).
  { apply Hsame; [|exact H]. intros i Hc. apply Hcov in Hc as (col & _ & Hc & _ & Hd). lia. }
  clear Hsame.
  destruct (ivec_init G v1' v2') as [iv|]; [|discriminate]. cbn [bind] in H.
  set (xa := if (x_min <? 0)%Z then 0%Z else x_min) in *.
  set (xb := if (x_max >=? m_w G)%Z then (m_w G - 1)%Z else x_max) in *.
  assert (Hxa : xa = Z.max 0 x_min)
    by (unfold xa; destruct (Z.ltb_spec x_min 0); lia).
  assert (Hxb : xb = Z.min (m_w G - 1) x_max)
    by (unfold xb; destruct (Z.geb_spec x_max (m_w G)); lia).
  clearbody xa xb.
  destruct (renderSpan_loop G iv (Z.to_nat (xb + 1 - xa)) xa
              (yi * m_w G + xa) buf) as [buf'|] eqn:Hloop; [|discriminate].
  cbn [bind] in H. inversion H. subst G'. clear H.
  cbn [set_pBuf m_inter m_w m_h pBuf]. repeat split.
  exists buf'.
  destruct (renderSpan_loop_spec _ _ _ _ _ _ _ Hloop) as (Hlen & Hout & Hin).
  split; [reflexivity|]. split; [exact Hlen|].
  assert (Hn : Z.of_nat (Z.to_nat (xb + 1 - xa)) = Z.max 0 (xb + 1 - xa))
    by lia.
  rewrite Hn in Hout, Hin.
  intros i px Hpx. split.
  - intros Hc Hm. apply Hcov in Hc as (col & -> & Hc & Hr & Hd).
    destruct (Hin (yi * m_w G + col)%Z ltac:(lia)) as (px' & Hpx' & Hres).
    rewrite Hpx in Hpx'. inversion Hpx'. subst px'.
    destruct (Z.eqb_spec px MASKED); [contradiction | exact Hres].
  - intros Hno.
    destruct (Z_lt_dec i (yi * m_w G + xa)) as [|Hge];
      [rewrite Hout by lia; exact Hpx|].
    destruct (Z_le_dec (yi * m_w G + xa + Z.max 0 (xb + 1 - xa)) i) as [|Hlt];
      [rewrite Hout by lia; exact Hpx|].
    destruct (Hin i ltac:(lia)) as (px' & Hpx' & Hres).
    rewrite Hpx in Hpx'. inversion Hpx'. subst px'.
    destruct (Z.eqb_spec px MASKED); [exact Hres|].
    exfalso. apply Hno. split; [|assumption].
    apply Hcov. exists (i - yi * m_w G)%Z. repeat split; lia.
Qed.

Lemma renderSpan_painted (G G' : globals) (va vb : VERTEX) :
  renderSpan G va vb = Some G' -> painted G G'.
Proof.
  intros H. destruct (pBuf G) as [buf|] eqn:Hbuf.
  2:{ unfold renderSpan in H. rewrite Hbuf in H. discriminate. }
  destruct (renderSpan_spec G G' va vb buf Hbuf H)
    as (A & B & C & buf' & Hbuf' & Hlen & Hpix).
  unfold painted. repeat split; try assumption.
  exists buf, buf'. repeat split; try assumption.
  intros i px Hpx. destruct (Hpix i px Hpx) as [Hcov Hno].
  destruct (Classical_Prop.classic (span_covers G va vb i /\ px <> MASKED))
    as [[Hc Hm]|Hn].
  - right. split; [exact Hm | exact (Hcov Hc Hm)].
  - left. exact (Hno Hn).
Qed.





(** X19.  [renderSpan] paints exactly the pixels of the scan line of its
    two vertices whose centre is between them, the left end included and
    the right end excluded, and that are inside the image: each such
    pixel that is not masked receives an opaque colour with nonzero
    channels; every other pixel of the buffer, and every masked pixel,
    is left as it was.  The mode, the dimensions and the length of the
    buffer do not change. *)
Theorem renderSpan_covers (G G' : globals) (va vb : VERTEX) :
  renderSpan G va vb = Some G' ->
  painted G G' /\
  forall i,
    (span_covers G va vb i ->
     forall px, pixel G i = Some px -> px <> MASKED ->
     exists c, pixel G' i = Some c /\ written_colour c) /\
    (~ span_covers G va vb i -> pixel G' i = pixel G i) /\
    (pixel G i = Some MASKED -> pixel G' i = Some MASKED).
Proof.
  intros H. split; [exact (renderSpan_painted G G' va vb H)|].
  destruct (pBuf G) as [buf|] eqn:Hbuf.
  2:{ unfold renderSpan in H. rewrite Hbuf in H. discriminate. }
  destruct (renderSpan_spec G G' va vb buf Hbuf H)
    as (_ & _ & _ & buf' & Hbuf' & Hlen & Hpix).
  intros i. unfold pixel. rewrite Hbuf, Hbuf'. cbn [bind].
  split; [|split].
  - intros Hc px Hpx Hm. exact (proj1 (Hpix i px Hpx) Hc Hm).
  - intros Hc. destruct (load buf i) as [px|] eqn:Hpx.
    + apply (Hpix i px Hpx). tauto.
    + destruct (load buf' i) eqn:Hpx'; [|reflexivity].
      apply load_Some in Hpx'. rewrite Hlen in Hpx'.
      destruct (load_in_range buf i Hpx') as [px Hpx2]. congruence.
  - intros Hpx. apply (Hpix i MASKED Hpx). tauto.
Qed.

Lemma flat_span_render :
  renderSpan mask_buffer (fst flat_span) (snd flat_span) = Some mask_rendered.
Proof.
  unfold flat_span, span_vertex. cbn [fst snd].
  rewrite (renderSpan_flat mask_buffer [MASKED; 0%Z] 1)
    by (reflexivity || (unfold INT32_MAX; cbn [m_h mask_buffer]; lia)
        || (cbn [x y]; lra)).
  change (load [MASKED; 0%Z] 1) with (Some 0%Z).
  change (store [MASKED; 0%Z] 1 4286611584%Z)
    with (Some [MASKED; 4286611584%Z]).
  cbn [bind]. change (0 =? MASKED)%Z with false. reflexivity.
Qed.

Lemma renderSpan_covers_witness :
  renderSpan mask_buffer (fst flat_span) (snd flat_span) = Some mask_rendered /\
  painted mask_buffer mask_rendered /\
  forall i,
    (span_covers mask_buffer (fst flat_span) (snd flat_span) i ->
     forall px, pixel mask_buffer i = Some px -> px <> MASKED ->
     exists c, pixel mask_rendered i = Some c /\ written_colour c) /\
    (~ span_covers mask_buffer (fst flat_span) (snd flat_span) i ->
     pixel mask_rendered i = pixel mask_buffer i) /\
    (pixel mask_buffer i = Some MASKED -> pixel mask_rendered i = Some MASKED).
Proof.
  split; [exact flat_span_render|].
  exact (renderSpan_covers mask_buffer mask_rendered (fst flat_span)
           (snd flat_span) flat_span_render).
Defined.

(** ** The pixels of a triangle *)



Lemma ivec_init_ends (G : globals) (va vb : VERTEX) (iv : IVEC) :
  ivec_init G va vb = Some iv -> v1 iv = va /\ v2 iv = vb.
Proof.
  unfold ivec_init. intros H. walk H; inversion H; auto.
Qed.



















Lemma initBufDim_accepts_witness :
  initBufDim no_buffer 1 2 <> None /\
  initBufDim fresh_buffer 1 2 = None /\
  initBufDim no_buffer 0 2 = None /\
  (forall i, (0 <= i < 1 * 2)%Z -> pixel fresh_buffer i = Some 0%Z).
Proof.
  split; [|split; [reflexivity|split; [reflexivity|]]].
  - apply (proj1 (initBufDim_accepts no_buffer 1 2)).
    unfold MAX_IMAGE_DIM, MAX_IMAGE_PIXELS. cbn. repeat split; lia.
  - exact (proj1 (proj2 (proj2 (proj2
             (proj2 (initBufDim_accepts no_buffer 1 2) fresh_buffer
                eq_refl))))).
Defined.

(** ** The direction of an edge *)

Lemma vertex_eq (a b c d e f a' b' c' d' e' f' : R) :
  a = a' -> b = b' -> c = c' -> d = d' -> e = e' -> f = f' ->
  Some (mkVertex a b c d e f) = Some (mkVertex a' b' c' d' e' f').
Proof. intros. subst. reflexivity. Qed.

Lemma clamp_unit (t : R) :
  0 <= t <= 1 ->
  (if negb (Rleb 0 t) then 0 else if negb (Rleb t 1) then 1 else t) = t.
Proof.
  intros Ht. rewrite !Rleb_true by lra. reflexivity.
Qed.

Lemma ivec_compute_swap (iv : IVEC) (t : R) :
  0 <= t <= 1 ->
  ivec_compute (ivec_swap iv) (1 - t) = ivec_compute iv t.
Proof.
  intros Ht. unfold ivec_compute, checked, slerp_component, isfinite.
  cbn [negb andb bind ivec_swap v1 v2 mode angle denom].
  rewrite (clamp_unit t Ht), (clamp_unit (1 - t)) by lra.
  destruct (mode iv =? IMODE_SCALAR)%Z.
  { replace (v (v2 iv) * (1 - (1 - t)) + v (v1 iv) * (1 - t))
      with (v (v1 iv) * (1 - t) + v (v2 iv) * t) by ring.
    apply vertex_eq; try reflexivity; ring. }
  destruct (mode iv =? IMODE_VLINEAR)%Z.
  { apply vertex_eq; try reflexivity; ring. }
  destruct (mode iv =? IMODE_SLERP)%Z.
  { replace ((1 - (1 - t)) * angle iv) with (t * angle iv) by ring.
    apply vertex_eq; try reflexivity; unfold Rdiv; ring. }
  destruct (mode iv =? IMODE_DOUBLE)%Z; [|reflexivity].
  unfold Rltb.
  destruct (Rlt_dec t (1 / 2)) as [Hlt|Hge].
  - destruct (Rlt_dec (1 - t) (1 / 2)); [lra|].
    replace ((1 - (1 - t - 1 / 2) * 2) * M_PI_2) with (t * 2 * M_PI_2) by field.
    replace ((1 - t - 1 / 2) * 2 * M_PI_2) with ((1 - t * 2) * M_PI_2) by field.
    apply vertex_eq; try reflexivity; ring.
  - destruct (Rlt_dec (1 - t) (1 / 2)) as [Hlt'|Hge'].
    + replace ((1 - (1 - t) * 2) * M_PI_2) with ((t - 1 / 2) * 2 * M_PI_2)
        by field.
      replace ((1 - t) * 2 * M_PI_2) with ((1 - (t - 1 / 2) * 2) * M_PI_2)
        by field.
      apply vertex_eq; try reflexivity; ring.
    + assert (E : t = 1 / 2) by lra. subst t.
      replace ((1 - 1 / 2 - 1 / 2) * 2 * M_PI_2) with 0 by field.
      replace ((1 / 2 - 1 / 2) * 2 * M_PI_2) with 0 by field.
      replace ((1 - (1 - 1 / 2 - 1 / 2) * 2) * M_PI_2) with M_PI_2 by field.
      replace ((1 - (1 / 2 - 1 / 2) * 2) * M_PI_2) with M_PI_2 by field.
      rewrite sin_0.
      apply vertex_eq; try reflexivity; try ring; field.
Qed.

Lemma ivec_swap_swap (iv : IVEC) : ivec_swap (ivec_swap iv) = iv.
Proof. destruct iv. reflexivity. Qed.

Lemma ivec_init_swap (G : globals) (va vb : VERTEX) :
  ivec_init G vb va = option_map ivec_swap (ivec_init G va vb).
Proof.
  unfold ivec_init, checkVertex, isfinite. cbn [negb andb].
  destruct (m_inter G =? INTER_SCALAR)%Z; [reflexivity|].
  destruct (m_inter G =? INTER_VECTOR)%Z; [|reflexivity].
  cbn [bind angle denom].
  replace (vx vb * vx va + vy vb * vy va + vz vb * vz va)
    with (vx va * vx vb + vy va * vy vb + vz va * vz vb) by ring.
  set (a := acos _).
  destruct (Rleb MIN_SLERP_ANGLE a && Rleb a MAX_SLERP_ANGLE);
    [reflexivity|].
  destruct (Rltb a MIN_SLERP_ANGLE); [reflexivity|].
  destruct (Rltb MAX_SLERP_ANGLE a); reflexivity.
Qed.

Lemma ivec_atX_swap (iv : IVEC) (xt : R) :
  x (v1 iv) <> x (v2 iv) ->
  ivec_atX (ivec_swap iv) xt = ivec_atX iv xt.
Proof.
  intros Hne. unfold ivec_atX, isfinite.
  cbn [negb ivec_swap v1 v2]. unfold Rleb.
  destruct (Rle_dec (x (v1 iv)) (x (v2 iv))) as [Hle|Hgt].
  - destruct (Rle_dec (x (v2 iv)) (x (v1 iv))); [lra|].
    destruct (Rle_dec (x (v1 iv)) xt); [|reflexivity].
    destruct (Rle_dec xt (x (v2 iv))); [|reflexivity].
    cbn [andb negb].
    destruct (Rle_dec IVEC_THETA (x (v2 iv) - x (v1 iv))) as [Hd|Hd];
      cbn [bind].
    + destruct (ratio_range (x (v1 iv)) (x (v2 iv)) xt ltac:(lra) Hd)
        as [Ht _].
      now rewrite ivec_compute_swap.
    + now rewrite ivec_compute_swap by lra.
  - destruct (Rle_dec (x (v2 iv)) (x (v1 iv))); [|lra].
    destruct (Rle_dec (x (v2 iv)) xt); [|reflexivity].
    destruct (Rle_dec xt (x (v1 iv))); [|reflexivity].
    cbn [andb negb].
    destruct (Rle_dec IVEC_THETA (x (v1 iv) - x (v2 iv))) as [Hd|Hd];
      cbn [bind].
    + destruct (ratio_range (x (v2 iv)) (x (v1 iv)) xt ltac:(lra) Hd)
        as [Ht _].
      rewrite <- (ivec_compute_swap (ivec_swap iv)) by exact Ht.
      now rewrite ivec_swap_swap.
    + rewrite <- (ivec_compute_swap (ivec_swap iv)) by lra.
      now rewrite ivec_swap_swap.
Qed.

Lemma ivec_atY_swap (iv : IVEC) (yt : R) :
  y (v1 iv) <> y (v2 iv) ->
  ivec_atY (ivec_swap iv) yt = ivec_atY iv yt.
Proof.
  intros Hne. unfold ivec_atY, isfinite.
  cbn [negb ivec_swap v1 v2]. unfold Rleb.
  destruct (Rle_dec (y (v1 iv)) (y (v2 iv))) as [Hle|Hgt].
  - destruct (Rle_dec (y (v2 iv)) (y (v1 iv))); [lra|].
    destruct (Rle_dec (y (v1 iv)) yt); [|reflexivity].
    destruct (Rle_dec yt (y (v2 iv))); [|reflexivity].
    cbn [andb negb].
    destruct (Rle_dec IVEC_THETA (y (v2 iv) - y (v1 iv))) as [Hd|Hd];
      cbn [bind].
    + destruct (ratio_range (y (v1 iv)) (y (v2 iv)) yt ltac:(lra) Hd)
        as [Ht _].
      now rewrite ivec_compute_swap.
    + now rewrite ivec_compute_swap by lra.
  - destruct (Rle_dec (y (v2 iv)) (y (v1 iv))); [|lra].
    destruct (Rle_dec (y (v2 iv)) yt); [|reflexivity].
    destruct (Rle_dec yt (y (v1 iv))); [|reflexivity].
    cbn [andb negb].
    destruct (Rle_dec IVEC_THETA (y (v1 iv) - y (v2 iv))) as [Hd|Hd];
      cbn [bind].
    + destruct (ratio_range (y (v2 iv)) (y (v1 iv)) yt ltac:(lra) Hd)
        as [Ht _].
      rewrite <- (ivec_compute_swap (ivec_swap iv)) by exact Ht.
      now rewrite ivec_swap_swap.
    + rewrite <- (ivec_compute_swap (ivec_swap iv)) by lra.
      now rewrite ivec_swap_swap.
Qed.

(** X22.  Interpolation along an edge does not depend on the direction
    of the edge: for two vertices with different X coordinates,
    [ivec_init] followed by [ivec_atX] gives the same result, fault or
    vertex, whichever of the two vertices comes first, in every
    interpolation mode; and the same holds of [ivec_atY] for vertices
    with different Y coordinates (in exact real arithmetic).  So an edge
    shared by two triangles is interpolated alike in both. *)
Theorem edge_direction_irrelevant (G : globals) (va vb : VERTEX) (c : R) :
  (x va <> x vb ->
   (iv <- ivec_init G vb va ;; ivec_atX iv c) =
   (iv <- ivec_init G va vb ;; ivec_atX iv c)) /\
  (y va <> y vb ->
   (iv <- ivec_init G vb va ;; ivec_atY iv c) =
   (iv <- ivec_init G va vb ;; ivec_atY iv c)).
Proof.
  rewrite ivec_init_swap.
  destruct (ivec_init G va vb) as [iv|] eqn:E; cbn [option_map bind];
    [|split; reflexivity].
  apply ivec_init_ends in E as [E1 E2].
  split; intros Hne.
  - apply ivec_atX_swap. now rewrite E1, E2.
  - apply ivec_atY_swap. now rewrite E1, E2.
Qed.

Lemma edge_direction_irrelevant_witness :
  (iv <- ivec_init vector_mode (unit_vertex 1 0 0 1) (unit_vertex 0 1 0 0) ;;
   ivec_atX iv (1 / 2)) =
  (iv <- ivec_init vector_mode (unit_vertex 0 1 0 0) (unit_vertex 1 0 0 1) ;;
   ivec_atX iv (1 / 2)).
Proof.
  apply (proj1 (edge_direction_irrelevant vector_mode (unit_vertex 0 1 0 0)
                  (unit_vertex 1 0 0 1) (1 / 2))).
  unfold unit_vertex. cbn [x]. lra.
Defined.

(** ** The rendering loops of main *)

Local Open Scope Z_scope.







End LilacMe2PngRender.

(** * Properties of the JSON conversion *)

Module LilacMe2JsonProofs.

Import LilacMesh LilacMeshSpec LilacMeshProofs LilacMeshLoader LilacMe2Json
  LilacMe2JsonSpec.
Local Open Scope Z_scope.

Lemma In_zrange (n : nat) :
  forall i k, In k (zrange i n) <-> i <= k < i + Z.of_nat n.
Proof.
  induction n as [|n IH]; intros i k; cbn [zrange In].
  - lia.
  - rewrite IH. lia.
Qed.

Lemma printed_points_app (a b : list printed) :
  printed_points (a ++ b) = printed_points a ++ printed_points b.
Proof. apply flat_map_app. Qed.

Lemma printed_tris_app (a b : list printed) :
  printed_tris (a ++ b) = printed_tris a ++ printed_tris b.
Proof. apply flat_map_app. Qed.

Lemma point_eta (p : LILAC_MESH_POINT) :
  mkPoint (normd p) (norma p) (x p) (y p) = p.
Proof. destruct p. reflexivity. Qed.

Lemma print_points_spec (pM : LILAC_MESH) (n : nat) :
  forall i, 0 <= i -> i + Z.of_nat n <= len (pPoints pM) ->
  exists out,
    print_points (pPoints pM) i n = Some out /\
    printed_points out = map (fun k => (k + 1, point_at pM k)) (zrange i n) /\
    printed_tris out = [].
Proof.
  induction n as [|n IH]; intros i Hi Hn; cbn [print_points zrange map].
  - exists []. repeat split.
  - rewrite load_point by lia. cbn [bind].
    destruct (IH (i + 1)) as (rest & -> & Hp & Ht); try lia. cbn [bind].
    eexists. split; [reflexivity|].
    rewrite !printed_points_app, !printed_tris_app, Hp, Ht.
    destruct (i >? 0); cbn [printed_points printed_tris flat_map app];
      rewrite point_eta; split; reflexivity.
Qed.

Lemma print_tris_spec (pM : LILAC_MESH) (n : nat) :
  forall i, 0 <= i -> 3 * (i + Z.of_nat n) <= len (pTris pM) ->
  exists out,
    print_tris (pTris pM) i n = Some out /\
    printed_tris out =
      map (fun k => (tri_elem pM (3 * k) + 1, tri_elem pM (3 * k + 1) + 1,
                     tri_elem pM (3 * k + 2) + 1)) (zrange i n) /\
    printed_points out = [].
Proof.
  induction n as [|n IH]; intros i Hi Hn; cbn [print_tris zrange map].
  - exists []. repeat split.
  - replace (i * 3) with (3 * i) by lia.
    rewrite !load_tri by lia. cbn [bind].
    destruct (IH (i + 1)) as (rest & -> & Ht & Hp); try lia. cbn [bind].
    eexists. split; [reflexivity|].
    rewrite !printed_points_app, !printed_tris_app, Hp, Ht.
    destruct (i >? 0); cbn [printed_points printed_tris flat_map app];
      split; reflexivity.
Qed.

(** X24.  For a mesh returned by [lilac_mesh_new], [meshToJSON] prints
    one record for each point, in order, the uid of point k being k + 1,
    and one record for each triangle that names its three vertices by
    the uids of their points.  So the uids are exactly 1 to the number of
    points, every uid a triangle record names is the uid of a point
    record, and every point record is named by some triangle record. *)
Theorem meshToJSON_records (pIn : list (SNENTITY * Z)) (r : new_result)
    (pM : LILAC_MESH) :
  lilac_mesh_new pIn = Some r -> r_mesh r = Some pM ->
  exists out,
    meshToJSON pM = Some out /\
    printed_points out =
      map (fun k => (k + 1, point_at pM k))
          (zrange 0 (Z.to_nat (point_count pM))) /\
    printed_tris out =
      map (fun k => (tri_elem pM (3 * k) + 1, tri_elem pM (3 * k + 1) + 1,
                     tri_elem pM (3 * k + 2) + 1))
          (zrange 0 (Z.to_nat (tri_count pM))) /\
    (forall u, In u (printed_uids out) <-> 1 <= u <= point_count pM) /\
    (forall a b c, In (a, b, c) (printed_tris out) ->
       In a (printed_uids out) /\ In b (printed_uids out) /\
       In c (printed_uids out)) /\
    (forall u, In u (printed_uids out) ->
       exists a b c, In (a, b, c) (printed_tris out) /\
                     (u = a \/ u = b \/ u = c)).
Proof.
  intros Hr HM.
  destruct (lilac_mesh_new_spec pIn) as (r' & Hr' & _ & HL).
  rewrite Hr in Hr'. inversion Hr'. subst r'. clear Hr'.
  specialize (HL pM HM).
  destruct (lilac_mesh_new_facts pIn r Hr) as (_ & _ & _ & HS).
  specialize (HS pM HM).
  pose proof (sm_pcount _ HS) as Hpc. pose proof (sm_tcount _ HS) as Htc.
  destruct (print_points_spec pM (Z.to_nat (point_count pM)) 0)
    as (pts & Epts & Hpp & Hpt); try (rewrite ?(lm_points _ HL); lia).
  destruct (print_tris_spec pM (Z.to_nat (tri_count pM)) 0)
    as (trs & Etrs & Htt & Htp); try (rewrite ?(lm_tris _ HL); lia).
  unfold meshToJSON. rewrite Epts, Etrs. cbn [bind].
  eexists. split; [reflexivity|].
  assert (HP : printed_points ([P_open] ++ pts ++ [P_tris] ++ trs ++ [P_close])
               = map (fun k => (k + 1, point_at pM k))
                     (zrange 0 (Z.to_nat (point_count pM)))).
  { rewrite !printed_points_app, Hpp, Htp. cbn [printed_points flat_map app].
    now rewrite app_nil_r. }
  assert (HT : printed_tris ([P_open] ++ pts ++ [P_tris] ++ trs ++ [P_close])
               = map (fun k => (tri_elem pM (3 * k) + 1,
                                tri_elem pM (3 * k + 1) + 1,
                                tri_elem pM (3 * k + 2) + 1))
                     (zrange 0 (Z.to_nat (tri_count pM)))).
  { rewrite !printed_tris_app, Hpt, Htt. cbn [printed_tris flat_map app].
    now rewrite app_nil_r. }
  assert (HU : forall u,
            In u (printed_uids ([P_open] ++ pts ++ [P_tris] ++ trs ++ [P_close]))
            <-> 1 <= u <= point_count pM).
  { intros u. unfold printed_uids. rewrite HP, map_map. cbn [fst].
    rewrite in_map_iff. split.
    - intros (k & <- & Hk). apply In_zrange in Hk. lia.
    - intros Hu. exists (u - 1). split; [lia|]. apply In_zrange. lia. }
  split; [exact HP|]. split; [exact HT|]. split; [exact HU|]. split.
  - intros a b c Hin. rewrite HT in Hin.
    destruct (proj1 (in_map_iff _ _ _) Hin) as (k & Hk & Hk').
    apply In_zrange in Hk'.
    assert (Ha : a = tri_elem pM (3 * k) + 1) by congruence.
    assert (Hb : b = tri_elem pM (3 * k + 1) + 1) by congruence.
    assert (Hc : c = tri_elem pM (3 * k + 2) + 1) by congruence.
    clear Hk Hin. subst a b c.
    pose proof (lm_range _ HL (3 * k) ltac:(lia)).
    pose proof (lm_range _ HL (3 * k + 1) ltac:(lia)).
    pose proof (lm_range _ HL (3 * k + 2) ltac:(lia)).
    repeat split; apply HU; lia.
  - intros u Hu. apply HU in Hu.
    destruct (lm_cover _ HL (u - 1) ltac:(lia)) as (k & Hk & Hel).
    exists (tri_elem pM (3 * (k / 3)) + 1),
           (tri_elem pM (3 * (k / 3) + 1) + 1),
           (tri_elem pM (3 * (k / 3) + 2) + 1).
    split.
    + rewrite HT. apply in_map_iff. exists (k / 3). split; [reflexivity|].
      apply In_zrange. split; [apply Z.div_pos; lia|].
      assert (k / 3 < tri_count pM) by (apply Z.div_lt_upper_bound; lia).
      lia.
    + assert (Hcase : k = 3 * (k / 3) \/ k = 3 * (k / 3) + 1 \/
                      k = 3 * (k / 3) + 2).
      { pose proof (Z.div_mod k 3 ltac:(lia)).
        pose proof (Z.mod_pos_bound k 3 ltac:(lia)). lia. }
      destruct Hcase as [E|[E|E]]; rewrite <- E, Hel; lia.
Qed.

Lemma meshToJSON_records_witness :
  exists out,
    meshToJSON quad_loaded = Some out /\
    printed_points out =
      map (fun k => (k + 1, point_at quad_loaded k))
          (zrange 0 (Z.to_nat (point_count quad_loaded))) /\
    printed_tris out =
      map (fun k => (tri_elem quad_loaded (3 * k) + 1,
                     tri_elem quad_loaded (3 * k + 1) + 1,
                     tri_elem quad_loaded (3 * k + 2) + 1))
          (zrange 0 (Z.to_nat (tri_count quad_loaded))) /\
    (forall u, In u (printed_uids out) <-> 1 <= u <= point_count quad_loaded) /\
    (forall a b c, In (a, b, c) (printed_tris out) ->
       In a (printed_uids out) /\ In b (printed_uids out) /\
       In c (printed_uids out)) /\
    (forall u, In u (printed_uids out) ->
       exists a b c, In (a, b, c) (printed_tris out) /\
                     (u = a \/ u = b \/ u = c)).
Proof.
  exact (meshToJSON_records quad_input quad_result quad_loaded quad_loads
           eq_refl).
Defined.

End LilacMe2JsonProofs.

(** * Loading a written mesh

    The loader accepts every mesh that has the properties it
    guarantees. *)

Module LilacMeshComplete.

Import LilacMesh LilacMeshSpec LilacMeshProofs LilacMeshLoader.
Local Open Scope Z_scope.

(** ** One operation *)

Lemma numeral_parse (s : string) (n : Z) :
  numeral s n -> parseNumber s = n /\ 0 <= n <= LILAC_MESH_MAX_C.
Proof.
  intros [Hv Hn]. rewrite parseNumber_value, Hv. split; [exact Hn|].
  rewrite <- Hn. now apply valid_number_range.
Qed.

Lemma uint16_small (n : Z) : 0 <= n <= LILAC_MESH_MAX_C -> uint16 n = n.
Proof.
  unfold uint16, LILAC_MESH_MAX_C. intros H. apply Z.mod_small. lia.
Qed.

(** A numeric entity pushes its value. *)
Lemma push_numeral (s : string) (n : Z) (rest : list (SNENTITY * Z))
    (c : Z) (L : loader_vars) :
  numeral s n -> l_status L = true ->
  0 <= st_count L < MAX_SN_STACK -> len (st L) = MAX_SN_STACK ->
  interpret_loop (entity SNENTITY_NUMERIC s :: rest) c L
  = interpret_loop rest 1
      (set_stack (upd (st L) (Z.to_nat (st_count L)) n) (st_count L + 1) L).
Proof.
  intros Hs Hst Hc Hlen. destruct (numeral_parse s n Hs) as [Hp Hn].
  unfold entity. cbn [interpret_loop status status_pos interpret_entity].
  unfold interpret_numeric. cbn [pKey]. rewrite Hp.
  destruct (Z.ltb_spec n 0); [lia|].
  rewrite Hst. destruct (Z.geb_spec (st_count L) MAX_SN_STACK); [lia|].
  cbn [andb]. rewrite Hst.
  rewrite uint16_small by exact Hn.
  rewrite store_in_range by lia. cbn [bind set_stack l_status negb].
  rewrite Hst. reflexivity.
Qed.

Lemma stack_four (stk : list Z) :
  len stk = MAX_SN_STACK ->
  exists s0 s1 s2 s3 tl, stk = s0 :: s1 :: s2 :: s3 :: tl /\ len tl = 12.
Proof.
  unfold len, MAX_SN_STACK. intros H.
  destruct stk as [|s0 [|s1 [|s2 [|s3 tl]]]]; cbn [List.length] in H; try lia.
  exists s0, s1, s2, s3, tl. split; [reflexivity|]. unfold len. lia.
Qed.

Ltac lred :=
  unfold set_stack, between_ops;
  cbn [l_status l_err l_line l_pM points_written tris_written st st_count
       l_um];
  change (0 + 1) with 1; change (1 + 1) with 2; change (2 + 1) with 3;
  change (3 + 1) with 4;
  change (Z.to_nat 0) with 0%nat; change (Z.to_nat 1) with 1%nat;
  change (Z.to_nat 2) with 2%nat; change (Z.to_nat 3) with 3%nat;
  cbn [upd].

Ltac push s n Hl :=
  rewrite (push_numeral s n);
  [ lred
  | assumption
  | reflexivity
  | lred; unfold MAX_SN_STACK; lia
  | lred; apply Hl ].

(** The four numbers of a point followed by "p". *)
Lemma point_step (d a px py : string) (p : LILAC_MESH_POINT)
    (rest : list (SNENTITY * Z)) (c : Z) (pM : LILAC_MESH) (pw tw : Z)
    (stk : list Z) (um : USAGE_MAP) :
  denotes_point (d, a, px, py) p -> len stk = MAX_SN_STACK ->
  (normd p = 0 -> norma p = 0) -> norma p < LILAC_MESH_MAX_C ->
  0 <= pw < point_count pM -> len (pPoints pM) = point_count pM ->
  exists pM' stk',
    interpret_loop (point_entities d a px py ++ rest) c
                   (between_ops pM pw tw stk um)
    = interpret_loop rest 1 (between_ops pM' (pw + 1) tw stk' um) /\
    len stk' = MAX_SN_STACK /\
    point_at pM' pw = p /\
    (forall j, 0 <= j -> j <> pw -> point_at pM' j = point_at pM j) /\
    len (pPoints pM') = len (pPoints pM) /\
    pTris pM' = pTris pM /\ point_count pM' = point_count pM /\
    tri_count pM' = tri_count pM.
Proof.
  intros (Hd & Ha & Hx & Hy) Hlen Hda Hamax Hpw Hplen.
  destruct (stack_four stk Hlen) as (s0 & s1 & s2 & s3 & tl & -> & Htl).
  destruct (numeral_parse _ _ Hd) as [_ Rd].
  destruct (numeral_parse _ _ Ha) as [_ Ra].
  destruct (numeral_parse _ _ Hx) as [_ Rx].
  destruct (numeral_parse _ _ Hy) as [_ Ry].
  unfold point_entities. cbn [app].
  assert (Hl : forall v0 v1 v2 v3, len (v0 :: v1 :: v2 :: v3 :: tl) = MAX_SN_STACK)
    by (intros; unfold len in *; cbn [List.length]; unfold MAX_SN_STACK; lia).
  push d (normd p) Hl. push a (norma p) Hl.
  push px (x p) Hl. push py (y p) Hl.
  unfold entity.
  cbn [interpret_loop status status_pos interpret_entity pKey].
  change (String.eqb "p" "p") with true. cbv iota.
  unfold interpret_p.
  cbn [st_count l_status st l_pM points_written l_err l_line tris_written
       l_um].
  change (4 <? 4) with false. cbv iota.
  cbn [st_count l_status st l_pM points_written l_err l_line tris_written
       l_um].
  change (4 - 4) with 0. change (4 - 3) with 1. change (4 - 2) with 2.
  change (4 - 1) with 3.
  change (load (normd p :: norma p :: x p :: y p :: tl) 0)
    with (Some (normd p)).
  change (load (normd p :: norma p :: x p :: y p :: tl) 1)
    with (Some (norma p)).
  change (load (normd p :: norma p :: x p :: y p :: tl) 2)
    with (Some (x p)).
  change (load (normd p :: norma p :: x p :: y p :: tl) 3)
    with (Some (y p)).
  cbn [bind].
  pose proof (op_p_spec (normd p) (norma p) (x p) (y p) pM pw 0
                Rd Ra Rx Ry ltac:(lia) Hplen) as Hop.
  assert (Hnone : first_failure (point_checks (normd p) (norma p) pM pw)
                  = None).
  { unfold first_failure, point_checks. cbn [find snd].
    assert (E1 : (normd p =? 0) && negb (norma p =? 0) = false).
    { destruct (Z.eqb_spec (normd p) 0) as [E|E]; [|reflexivity].
      rewrite (Hda E). reflexivity. }
    rewrite E1.
    destruct (Z.geb_spec (norma p) LILAC_MESH_MAX_C); [lia|].
    destruct (Z.geb_spec pw (point_count pM)); [lia|]. reflexivity. }
  rewrite Hnone in Hop.
  destruct Hop as (pM' & -> & Hat & Hother & Hl' & Ht' & Hpc' & Htc').
  cbn [bind l_status negb set_stack l_err l_line l_pM points_written
       tris_written st st_count l_um].
  exists pM', (normd p :: norma p :: x p :: y p :: tl).
  split; [reflexivity|]. split; [apply Hl|].
  rewrite Hat. split; [now destruct p|]. auto.
Qed.

(** The three numbers of a triangle followed by "t". *)
Lemma tri_step (a b c : string) (v1 v2 v3 : Z)
    (rest : list (SNENTITY * Z)) (cnt : Z) (pM : LILAC_MESH) (pw tw : Z)
    (stk : list Z) (um : USAGE_MAP) :
  denotes_tri (a, b, c) v1 v2 v3 -> len stk = MAX_SN_STACK ->
  op_t_pre v1 v2 v3 pM pw tw um ->
  first_failure (triangle_checks v1 v2 v3 pM pw tw um) = None ->
  exists um' stk',
    interpret_loop (triangle_entities a b c ++ rest) cnt
                   (between_ops pM pw tw stk um)
    = interpret_loop rest 1
        (between_ops (set_pTris pM (tris_with (pTris pM) tw v1 v2 v3))
                     pw (tw + 1) stk' um') /\
    len stk' = MAX_SN_STACK /\
    um_wf um' /\ um_point_count um' = um_point_count um /\
    (forall j, point_used um' j
               = (j =? v1) || (j =? v2) || (j =? v3) || point_used um j) /\
    (forall j1 j2, 0 <= j2 < um_point_count um ->
       edge_used um' j1 j2 = is_edge v1 v2 v3 j1 j2 || edge_used um j1 j2).
Proof.
  intros (Ha & Hb & Hc) Hlen Hpre Hnone.
  destruct (stack_four stk Hlen) as (s0 & s1 & s2 & s3 & tl & -> & Htl).
  unfold triangle_entities. cbn [app].
  assert (Hl : forall w0 w1 w2 w3, len (w0 :: w1 :: w2 :: w3 :: tl) = MAX_SN_STACK)
    by (intros; unfold len in *; cbn [List.length]; unfold MAX_SN_STACK; lia).
  push a v1 Hl. push b v2 Hl. push c v3 Hl.
  unfold entity.
  cbn [interpret_loop status status_pos interpret_entity pKey].
  change (String.eqb "t" "p") with false.
  change (String.eqb "t" "t") with true. cbv iota.
  unfold interpret_t.
  cbn [st_count l_status st l_pM points_written l_err l_line tris_written
       l_um].
  change (3 <? 3) with false. cbv iota.
  cbn [st_count l_status st l_pM points_written l_err l_line tris_written
       l_um].
  change (3 - 3) with 0. change (3 - 2) with 1. change (3 - 1) with 2.
  change (load (v1 :: v2 :: v3 :: s3 :: tl) 0) with (Some v1).
  change (load (v1 :: v2 :: v3 :: s3 :: tl) 1) with (Some v2).
  change (load (v1 :: v2 :: v3 :: s3 :: tl) 2) with (Some v3).
  cbn [bind].
  destruct (op_t_accepts v1 v2 v3 pM pw tw um 0 Hpre Hnone)
    as (um' & -> & Hwf & Hn & Hpts & Hedges).
  cbn [bind l_status negb set_stack l_err l_line l_pM points_written
       tris_written st st_count l_um].
  exists um', (v1 :: v2 :: v3 :: s3 :: tl).
  split; [reflexivity|]. split; [apply Hl|]. auto.
Qed.


(** ** The two phases of a file *)

Section Loading.

Variable pM : LILAC_MESH.
Hypothesis HL : loaded_mesh pM.
Hypothesis HS : sound_mesh pM.

Lemma points_phase (rest : list (SNENTITY * Z)) (tw : Z) (um : USAGE_MAP) :
  forall ps k pMk stk,
  0 <= k -> k + len ps = point_count pM -> points_from pM k ps ->
  len stk = MAX_SN_STACK ->
  point_count pMk = point_count pM -> len (pPoints pMk) = point_count pM ->
  (forall j, 0 <= j < k -> point_at pMk j = point_at pM j) ->
  exists pM' stk',
    interpret_loop
      (flat_map (fun '(d, a, px, py) => point_entities d a px py) ps ++ rest)
      1 (between_ops pMk k tw stk um)
    = interpret_loop rest 1 (between_ops pM' (point_count pM) tw stk' um) /\
    len stk' = MAX_SN_STACK /\
    point_count pM' = point_count pM /\ tri_count pM' = tri_count pMk /\
    len (pPoints pM') = point_count pM /\ pTris pM' = pTris pMk /\
    (forall j, 0 <= j < point_count pM -> point_at pM' j = point_at pM j).
Proof.
  induction ps as [|[[[d a] px] py] ps IH];
    intros k pMk stk Hk Hlen Hfrom Hstk Hpc Hplen Hat.
  - cbn [flat_map app]. unfold len in Hlen. cbn [List.length] in Hlen.
    assert (k = point_count pM) by lia. subst k.
    exists pMk, stk. repeat split; auto.
  - cbn [flat_map]. rewrite <- app_assoc.
    destruct Hfrom as [Hden Hfrom].
    assert (Hlen' : k + 1 + len ps = point_count pM)
      by (unfold len in *; cbn [List.length] in Hlen; lia).
    assert (Hk' : 0 <= k < point_count pM) by (unfold len in *; lia).
    destruct (sm_points _ HS k Hk') as (Hd & Ha & Hda & Hx & Hy).
    destruct (point_step d a px py (point_at pM k)
                (flat_map (fun '(d, a, px, py) => point_entities d a px py) ps
                 ++ rest) 1 pMk k tw stk um Hden Hstk Hda ltac:(lia)
                ltac:(lia) ltac:(lia))
      as (pM1 & stk1 & -> & Hstk1 & Hat1 & Hother & Hl1 & Ht1 & Hpc1 & Htc1).
    destruct (IH (k + 1) pM1 stk1) as (pM' & stk' & E & R);
      try assumption; try lia.
    + intros j Hj. destruct (Z.eq_dec j k) as [->|Hne]; [exact Hat1|].
      rewrite Hother by lia. apply Hat. lia.
    + exists pM', stk'. split; [exact E|].
      destruct R as (A & B & C & D & F & G). repeat split; try assumption.
      * congruence.
      * congruence.
Qed.

Lemma triangle_passes (k : Z) (pMk : LILAC_MESH) (um : USAGE_MAP) :
  0 <= k < tri_count pM -> tris_loaded pM k pMk um ->
  op_t_pre (tri_elem pM (3 * k)) (tri_elem pM (3 * k + 1))
           (tri_elem pM (3 * k + 2)) pMk (point_count pM) k um /\
  first_failure
    (triangle_checks (tri_elem pM (3 * k)) (tri_elem pM (3 * k + 1))
       (tri_elem pM (3 * k + 2)) pMk (point_count pM) k um) = None.
Proof.
  intros Hk (Hpts & Hpc & Htc & Htlen & Hel & Hwf & Hn & Hused & Hedge).
  pose proof (sm_pcount _ HS) as Hpcr.
  pose proof (lm_range _ HL (3 * k) ltac:(lia)) as R1.
  pose proof (lm_range _ HL (3 * k + 1) ltac:(lia)) as R2.
  pose proof (lm_range _ HL (3 * k + 2) ltac:(lia)) as R3.
  pose proof (sm_tris _ HS k Hk) as (Hab & Hac & Hbc & Hcross).
  set (v1 := tri_elem pM (3 * k)) in *.
  set (v2 := tri_elem pM (3 * k + 1)) in *.
  set (v3 := tri_elem pM (3 * k + 2)) in *.
  split.
  - unfold op_t_pre. unfold LILAC_MESH_MAX_POINTS, LILAC_MESH_MAX_C in *.
    rewrite Hpts, (lm_points _ HL), Hn, Htc.
    repeat match goal with |- _ /\ _ => split end; try lia; assumption.
  - assert (E1 : fails_PTREF v1 v2 v3 (point_count pM) = false).
    { unfold fails_PTREF.
      destruct (Z.geb_spec v1 (point_count pM)); [lia|].
      destruct (Z.geb_spec v2 (point_count pM)); [lia|].
      destruct (Z.geb_spec v3 (point_count pM)); [lia|]. reflexivity. }
    assert (E2 : fails_VXDUP v1 v2 v3 = false).
    { unfold fails_VXDUP.
      destruct (Z.eqb_spec v1 v2); [lia|].
      destruct (Z.eqb_spec v2 v3); [lia|].
      destruct (Z.eqb_spec v1 v3); [lia|]. reflexivity. }
    assert (E3 : fails_VXORD v1 v2 v3 = false).
    { unfold fails_VXORD.
      destruct (Z.ltb_spec v2 v1); [lia|].
      destruct (Z.ltb_spec v3 v1); [lia|]. reflexivity. }
    assert (E4 : fails_ORIENT pMk v1 v2 v3 = false).
    { unfold fails_ORIENT, point_at. rewrite Hpts.
      fold (point_at pM v1). fold (point_at pM v2). fold (point_at pM v3).
      destruct (Z.leb_spec (cross_Z (point_at pM v1) (point_at pM v2)
                              (point_at pM v3)) 0); [lia | reflexivity]. }
    assert (E5 : fails_TRSORT pMk k v1 v2 = false).
    { unfold fails_TRSORT.
      destruct (Z.gtb_spec k 0) as [Hpos|]; [|reflexivity]. cbn [andb].
      rewrite !Hel by lia.
      pose proof (lm_sorted _ HL (k - 1) ltac:(lia) ltac:(lia)) as Hs.
      unfold tri_lt in Hs.
      replace (3 * (k - 1 + 1)) with (3 * k) in Hs by lia.
      replace ((k - 1) * 3) with (3 * (k - 1)) by lia.
      fold v1 v2 in Hs.
      destruct Hs as [Hs|[Hs1 Hs2]].
      - destruct (Z.ltb_spec (tri_elem pM (3 * (k - 1))) v1); [|lia].
        reflexivity.
      - destruct (Z.ltb_spec (tri_elem pM (3 * (k - 1))) v1);
          [reflexivity|].
        destruct (Z.eqb_spec (tri_elem pM (3 * (k - 1))) v1); [|lia].
        destruct (Z.ltb_spec (tri_elem pM (3 * (k - 1) + 1)) v2); [|lia].
        reflexivity. }
    assert (E6 : fails_TROVER pMk k = false).
    { unfold fails_TROVER. rewrite Htc.
      destruct (Z.geb_spec k (tri_count pM)); [lia | reflexivity]. }
    assert (Hfree : forall j1 j2, 0 <= j2 < point_count pM ->
              tri_edge pM k j1 j2 = true -> edge_used um j1 j2 = false).
    { intros j1 j2 Hj2 He.
      destruct (edge_used um j1 j2) eqn:Hu; [|reflexivity].
      destruct (Hedge j1 j2 Hj2 Hu) as (i & Hi & Hei).
      rewrite (sm_edges _ HS i k j1 j2 ltac:(lia) ltac:(lia) Hei) in He.
      discriminate. }
    assert (E7 : edge_used um v1 v2 = false).
    { apply Hfree; [lia|]. unfold tri_edge, is_edge. fold v1 v2 v3.
      rewrite !Z.eqb_refl. reflexivity. }
    assert (E8 : edge_used um v2 v3 = false).
    { apply Hfree; [lia|]. unfold tri_edge, is_edge. fold v1 v2 v3.
      rewrite !Z.eqb_refl. cbn [andb].
      destruct ((v2 =? v1) && (v3 =? v2)); reflexivity. }
    assert (E9 : edge_used um v3 v1 = false).
    { apply Hfree; [lia|]. unfold tri_edge, is_edge. fold v1 v2 v3.
      rewrite !Z.eqb_refl. cbn [andb]. apply orb_true_r. }
    unfold first_failure, triangle_checks. cbn [find snd].
    rewrite E1, E2, E3, E4, E5, E6, E7, E8, E9. reflexivity.
Qed.

Lemma tris_phase (rest : list (SNENTITY * Z)) :
  forall ts k pMk um stk,
  0 <= k -> k + len ts = tri_count pM -> tris_from pM k ts ->
  len stk = MAX_SN_STACK -> tris_loaded pM k pMk um ->
  exists pM' um' stk',
    interpret_loop
      (flat_map (fun '(a, b, c) => triangle_entities a b c) ts ++ rest)
      1 (between_ops pMk (point_count pM) k stk um)
    = interpret_loop rest 1
        (between_ops pM' (point_count pM) (tri_count pM) stk' um') /\
    len stk' = MAX_SN_STACK /\ tris_loaded pM (tri_count pM) pM' um'.
Proof.
  induction ts as [|[[a b] c] ts IH];
    intros k pMk um stk Hk Hlen Hfrom Hstk Hinv.
  - cbn [flat_map app]. unfold len in Hlen. cbn [List.length] in Hlen.
    assert (k = tri_count pM) by lia. subst k.
    exists pMk, um, stk. auto.
  - cbn [flat_map]. rewrite <- app_assoc.
    destruct Hfrom as [Hden Hfrom].
    assert (Hlen' : k + 1 + len ts = tri_count pM)
      by (unfold len in *; cbn [List.length] in Hlen; lia).
    assert (Hk' : 0 <= k < tri_count pM) by (unfold len in *; lia).
    destruct (triangle_passes k pMk um Hk' Hinv) as [Hpre Hnone].
    destruct (tri_step a b c _ _ _
                (flat_map (fun '(a, b, c) => triangle_entities a b c) ts
                 ++ rest) 1 pMk (point_count pM) k stk um Hden Hstk Hpre Hnone)
      as (um1 & stk1 & -> & Hstk1 & Hwf1 & Hn1 & Hpts1 & Hedges1).
    destruct Hinv as (Hpts & Hpc & Htc & Htlen & Hel & Hwf & Hn & Hused & Hedge).
    apply (IH (k + 1)); try assumption; try lia.
    set (v1 := tri_elem pM (3 * k)) in *.
    set (v2 := tri_elem pM (3 * k + 1)) in *.
    set (v3 := tri_elem pM (3 * k + 2)) in *.
    unfold tris_loaded. cbn [set_pTris pPoints point_count tri_count pTris].
    split; [exact Hpts|]. split; [exact Hpc|]. split; [exact Htc|].
    split.
    { unfold tris_with, len. rewrite !upd_length. exact Htlen. }
    split.
    { intros idx Hidx.
      rewrite tri_elem_tris_with by lia.
      destruct (Z.eqb_spec idx (k * 3)) as [->|H0];
        [unfold v1; f_equal; lia|].
      destruct (Z.eqb_spec idx (k * 3 + 1)) as [->|H1];
        [unfold v2; f_equal; lia|].
      destruct (Z.eqb_spec idx (k * 3 + 2)) as [->|H2];
        [unfold v3; f_equal; lia|].
      apply Hel. lia. }
    split; [exact Hwf1|]. split; [congruence|]. split.
    { intros j. rewrite Hpts1. split.
      - intros Hj. apply orb_prop in Hj as [Hj|Hj].
        + apply orb_prop in Hj as [Hj|Hj];
            [apply orb_prop in Hj as [Hj|Hj]|];
            apply Z.eqb_eq in Hj; subst j.
          * exists (3 * k). split; [lia | reflexivity].
          * exists (3 * k + 1). split; [lia | reflexivity].
          * exists (3 * k + 2). split; [lia | reflexivity].
        + apply Hused in Hj as (idx & Hidx & E). exists idx. split; [lia|auto].
      - intros (idx & Hidx & E).
        destruct (Z_lt_dec idx (3 * k)) as [Hlt|Hge].
        + apply orb_true_iff. right. apply Hused. exists idx. split; [lia|auto].
        + assert (Hc : idx = 3 * k \/ idx = 3 * k + 1 \/ idx = 3 * k + 2)
            by lia.
          rewrite <- E.
          destruct Hc as [->|[->| ->]]; fold v1 v2 v3;
            rewrite Z.eqb_refl, ?orb_true_r; reflexivity. }
    { intros j1 j2 Hj2 Hu. rewrite Hedges1 in Hu by (rewrite Hn; exact Hj2).
      apply orb_prop in Hu as [Hu|Hu].
      - exists k. split; [lia | exact Hu].
      - destruct (Hedge j1 j2 Hj2 Hu) as (i & Hi & He).
        exists i. split; [lia | exact He]. }
Qed.

End Loading.

(** ** The whole file *)

Lemma numeral_count (s : string) (n limit : Z) :
  numeral s n -> n <= limit -> valid_number (c_str s) = true /\
  (decimal_value (c_str s) >? limit) = false.
Proof.
  intros [Hv Hn] Hle. split; [exact Hv|]. rewrite Hn.
  destruct (Z.gtb_spec n limit); [lia | reflexivity].
Qed.

(** X25.  Every mesh that has the properties the loader guarantees can
    be loaded, and is loaded as itself: on the entity stream of a file
    whose header gives the two counts and that lists the points and then
    the triangles of the mesh, each number as a decimal literal,
    [lilac_mesh_new] returns that very mesh, with the error code
    LILAC_MESH_ERR_OK and the line number zero. *)
Theorem well_formed_mesh_loads (pM : LILAC_MESH) (cp ct : string)
    (ps : list (string * string * string * string))
    (ts : list (string * string * string)) :
  loaded_mesh pM -> sound_mesh pM -> mesh_written pM cp ct ps ts ->
  exists r,
    lilac_mesh_new (mesh_stream cp ct ps ts) = Some r /\
    r_mesh r = Some pM /\ r_err r = LILAC_MESH_ERR_OK /\ r_line r = 0.
Proof.
  intros HL HS (Hsp & Hst & Hps & Hpfrom & Hts & Htfrom).
  pose proof (sm_pcount _ HS) as Hpc. pose proof (sm_tcount _ HS) as Htc.
  destruct (numeral_count cp _ _ Hsp (proj2 Hpc)) as [Vp Gp].
  destruct (numeral_count ct _ _ Hst (proj2 Htc)) as [Vt Gt].
  set (body := flat_map (fun '(d, a, px, py) => point_entities d a px py) ps
               ++ flat_map (fun '(a, b, c) => triangle_entities a b c) ts
               ++ [entity SNENTITY_EOF ""]).
  assert (Hshape : header_shape (mesh_stream cp ct ps ts)
                   = Some (cp, ct, body, 1)) by reflexivity.
  assert (Herr : header_error cp ct = 0).
  { unfold header_error. rewrite Vp, Vt, Gp, Gt. reflexivity. }
  pose proof (readHeader_shape _ 1 0 0 LILAC_MESH_ERR_OK 0 _ _ _ _ Hshape)
    as Hhdr.
  rewrite Herr in Hhdr. cbn [Z.eqb] in Hhdr.
  unfold lilac_mesh_new, snparser_alloc. rewrite Hhdr.
  destruct Hsp as [_ Hsp]. destruct Hst as [_ Hst]. rewrite Hsp, Hst.
  destruct (usage_map_dim_ok usage_map_init (point_count pM) Hpc)
    as (um0 & -> & Hwf0 & Hn0 & Hclear & Hnoedge & _).
  cbn [bind sn_input sn_count].
  set (blank := {| pPoints := repeat (mkPoint 0 0 0 0)
                                (Z.to_nat (point_count pM));
                   pTris := repeat 0 (Z.to_nat (tri_count pM * 3));
                   point_count := point_count pM;
                   tri_count := tri_count pM |}).
  change {| l_status := true; l_err := LILAC_MESH_ERR_OK; l_line := 0;
            l_pM := blank; points_written := 0; tris_written := 0;
            st := repeat 0 (Z.to_nat MAX_SN_STACK); st_count := 0;
            l_um := um0 |}
    with (between_ops blank 0 0 (repeat 0 (Z.to_nat MAX_SN_STACK)) um0).
  unfold body.
  destruct (points_phase pM HS
              (flat_map (fun '(a, b, c) => triangle_entities a b c) ts
               ++ [entity SNENTITY_EOF ""]) 0 um0 ps 0 blank
              (repeat 0 (Z.to_nat MAX_SN_STACK)))
    as (pM1 & stk1 & -> & Hstk1 & Hpc1 & Htc1 & Hpl1 & Hpt1 & Hat1);
    try lia; try assumption; try reflexivity;
    try (apply len_repeat; unfold MAX_SN_STACK; lia).
  assert (Hpoints : pPoints pM1 = pPoints pM).
  { apply (nth_ext _ _ (mkPoint 0 0 0 0) (mkPoint 0 0 0 0)).
    - pose proof (lm_points _ HL). unfold len in *. lia.
    - intros n Hn. specialize (Hat1 (Z.of_nat n)).
      unfold point_at in Hat1. rewrite Nat2Z.id in Hat1. apply Hat1.
      unfold len in Hpl1. lia. }
  destruct (tris_phase pM HL HS [entity SNENTITY_EOF ""] ts 0 pM1 um0 stk1)
    as (pM2 & um2 & stk2 & -> & Hstk2 & Hfinal);
    try lia; try assumption.
  { unfold tris_loaded. rewrite Hpt1. unfold blank.
    cbn [pTris tri_count]. rewrite Htc1. cbn [tri_count].
    split; [exact Hpoints|]. split; [exact Hpc1|]. split; [reflexivity|].
    split; [rewrite len_repeat by lia; lia|].
    split; [intros idx Hidx; lia|].
    split; [exact Hwf0|]. split; [exact Hn0|]. split.
    - intros j. rewrite Hclear. split; [discriminate|].
      intros (idx & Hidx & _). lia.
    - intros j1 j2 _ Hu. rewrite Hnoedge in Hu. discriminate. }
  destruct Hfinal as (Fpts & Fpc & Ftc & Ftlen & Fel & Fwf & Fn & Fused & _).
  unfold entity, between_ops.
  cbn [interpret_loop status status_pos bind status_neg
       l_status l_err l_line l_pM points_written tris_written st st_count
       l_um andb].
  change (0 >? 0) with false. rewrite !Z.eqb_refl.
  cbn [negb andb l_status l_err l_line l_pM points_written tris_written
       st st_count l_um].
  destruct (usage_map_orphan_spec um2 (proj1 (proj2 Fwf)))
    as (ro & -> & _ & Horph).
  cbn [bind].
  assert (Hro : ro = 0).
  { destruct (Z.eq_dec ro 0) as [|Hne]; [assumption|].
    apply Horph in Hne as (j & Hj & Hu). rewrite Fn in Hj.
    destruct (lm_cover _ HL j Hj) as (idx & Hidx & E).
    assert (Ht : point_used um2 j = true)
      by (apply Fused; exists idx; split; [lia | exact E]).
    congruence. }
  subst ro. cbn [Z.eqb negb bind].
  eexists. split; [reflexivity|].
  unfold finish_new.
  cbn [negb r_mesh r_err r_line l_status l_pM l_err l_line].
  split; [|split; reflexivity].
  f_equal. destruct pM2 as [pp2 pt2 pc2 tc2]. destruct pM as [pp pt pc tc].
  cbn [pPoints pTris point_count tri_count] in *. subst pp2 pc2 tc2.
  f_equal.
  apply (nth_ext _ _ 0 0).
  - pose proof (lm_tris _ HL) as Hlt. cbn [pTris tri_count] in Hlt.
    unfold len in *. lia.
  - intros n Hn. specialize (Fel (Z.of_nat n)).
    unfold tri_elem in Fel. cbn [pTris] in Fel. rewrite Nat2Z.id in Fel.
    apply Fel. unfold len in Ftlen. lia.
Qed.

Lemma quad_is_loaded : loaded_mesh quad_loaded.
Proof.
  destruct (lilac_mesh_new_spec quad_input) as (r & Hr & _ & HL).
  rewrite quad_loads in Hr. inversion Hr. subst r. now apply HL.
Qed.

Lemma quad_is_sound : sound_mesh quad_loaded.
Proof.
  destruct (lilac_mesh_new_facts quad_input quad_result quad_loads)
    as (_ & _ & _ & HS).
  now apply HS.
Qed.

Lemma quad_is_written :
  mesh_written quad_loaded "4" "2" quad_point_tokens quad_tri_tokens.
Proof.
  unfold mesh_written, numeral.
  repeat match goal with |- _ /\ _ => split end; try reflexivity;
    cbn [points_from tris_from quad_point_tokens quad_tri_tokens
         denotes_point denotes_tri];
    unfold numeral; repeat split.
Qed.

Lemma well_formed_mesh_loads_witness :
  exists r,
    lilac_mesh_new quad_input = Some r /\
    r_mesh r = Some quad_loaded /\ r_err r = LILAC_MESH_ERR_OK /\
    r_line r = 0.
Proof.
  exact (well_formed_mesh_loads quad_loaded "4" "2" quad_point_tokens
           quad_tri_tokens quad_is_loaded quad_is_sound quad_is_written).
Defined.

End LilacMeshComplete.
